(** * bibx: the BibTeX scanner and parser as state machines

    A shallow embedding of [internal/scan] (the rune-to-token Scanner) and
    [internal/parse] (the token-to-declaration Parser), followed by the
    properties of the two machines and of their composition. *)

From Stdlib Require Import ZArith List String Ascii Bool Lia DecimalString.
Import ListNotations.
Open Scope Z_scope.

(** ** Runes and strings

    A Go [rune] is a code point; a Go [string] is handled by the scanner only
    rune by rune ([range], [strings.TrimSpace], [strings.ToLower], [==]), so
    it is kept as the list of its runes. *)

Definition rune := Z.
Definition gostring := list rune.

Definition rune_of_ascii (a : ascii) : rune := Z.of_N (N_of_ascii a).
Definition runes (s : string) : gostring := map rune_of_ascii (list_ascii_of_string s).

Fixpoint gostring_eqb (a b : gostring) : bool :=
  match a, b with
  | [], [] => true
  | x :: a', y :: b' => (x =? y) && gostring_eqb a' b'
  | _, _ => false
  end.

(* The rune literals of the two packages: at sign, braces, parentheses,
   comma, equals sign, percent sign, double quote, backslash, line feed. *)
Abbreviation r_at := (64%Z) (only parsing).
Abbreviation r_lbrace := (123%Z) (only parsing).
Abbreviation r_rbrace := (125%Z) (only parsing).
Abbreviation r_lparen := (40%Z) (only parsing).
Abbreviation r_rparen := (41%Z) (only parsing).
Abbreviation r_comma := (44%Z) (only parsing).
Abbreviation r_eq := (61%Z) (only parsing).
Abbreviation r_percent := (37%Z) (only parsing).
Abbreviation r_quote := (34%Z) (only parsing).
Abbreviation r_backslash := (92%Z) (only parsing).
Abbreviation r_newline := (10%Z) (only parsing).

(** The tables of Go's [unicode] package are not part of the repository: the
    development is parametric in them. *)
Record Unicode := {
  IsLetter : rune -> bool;      (* unicode.IsLetter *)
  IsDigit : rune -> bool;       (* unicode.IsDigit *)
  IsSpace : rune -> bool;       (* unicode.IsSpace *)
  ToLowerRune : rune -> rune    (* unicode.ToLower *)
}.

Section Strings.
Variable U : Unicode.

Fixpoint TrimLeft (s : gostring) : gostring :=
  match s with
  | c :: s' => if IsSpace U c then TrimLeft s' else s
  | [] => []
  end.

(* strings.TrimSpace: leading and trailing white space removed. *)
Definition TrimSpace (s : gostring) : gostring :=
  rev (TrimLeft (rev (TrimLeft s))).

(* strings.ToLower: unicode.ToLower mapped over the runes. *)
Definition ToLower (s : gostring) : gostring := map (ToLowerRune U) s.
End Strings.

(** ** Package scan *)

Module Scan.

Inductive ItemType :=
| ItemErr | ItemEOF | ItemEntryDelim | ItemLeftBrace | ItemRightBrace
| ItemLeftDelim | ItemRightDelim | ItemLeftParen | ItemRightParen
| ItemEqSgn | ItemComma | ItemCiteKey | ItemEntry | ItemComment
| ItemAbbrev | ItemPreamble | ItemFieldType | ItemFieldText | ItemTexCode.

Inductive state :=
| null | entryDelim | topLvlComment | entryComment | entryType
| entryLeftBodyDelim | entryCiteKey | entryComma | entryFieldType
| entryRightBodyDelim | entryEqSgn | entryFieldText | entryTypeOrBrace
| eof | err.

Inductive entryT := entry | preamble | abbrev.

Record Item := { T : ItemType; Val : gostring }.

(** [Scannable] is the interface [Next() Item]. Its one client, the
    parser, only pulls items, one after the other, and stops pulling at the
    first [ItemEOF] or [ItemErr]; a scannable is therefore the run of items
    it will yield, after which it yields its terminal item for ever. *)
Record Scannable := { upcoming : list Item; failing : bool }.

Definition terminal (failed : bool) : Item :=
  {| T := if failed then ItemErr else ItemEOF; Val := [] |}.

Definition Scannable_Next (s : Scannable) : Item * Scannable :=
  match upcoming s with
  | i :: q => (i, {| upcoming := q; failing := failing s |})
  | [] => (terminal (failing s), s)
  end.

Inductive charStatus := charErr | charEOF | charOk.

(** The reader: the runes not read yet, and whether the underlying
    [io.Reader] ends them with a read error rather than [io.EOF].
    [Next] takes the head of [rest]; [Revert], which the scanner only calls
    right after a successful [Next], gives that rune back. *)
Record Reader := { rest : list rune; broken : bool }.

(* The status of the char that Next returns once the runes are used up. *)
Definition exhausted (r : Reader) : charStatus :=
  if broken r then charErr else charEOF.

Record Scanner := {
  reader : Reader;
  items : list Item;       (* the buffered channel, oldest item first *)
  cur_state : state;       (* field state *)
  bracers : Z;
  cur_entryT : entryT;     (* field entryT *)
  delim : rune
}.

Definition NewScanner (r : Reader) : Scanner :=
  {| reader := r; items := []; cur_state := null; bracers := 0;
     cur_entryT := entry; delim := 0 |}.

Definition with_rest (s : Scanner) (rs : list rune) : Scanner :=
  {| reader := {| rest := rs; broken := broken (reader s) |};
     items := items s; cur_state := cur_state s; bracers := bracers s;
     cur_entryT := cur_entryT s; delim := delim s |}.

Definition with_items (s : Scanner) (q : list Item) : Scanner :=
  {| reader := reader s; items := q; cur_state := cur_state s;
     bracers := bracers s; cur_entryT := cur_entryT s; delim := delim s |}.

Definition with_state (s : Scanner) (st : state) : Scanner :=
  {| reader := reader s; items := items s; cur_state := st;
     bracers := bracers s; cur_entryT := cur_entryT s; delim := delim s |}.

Definition with_bracers (s : Scanner) (b : Z) : Scanner :=
  {| reader := reader s; items := items s; cur_state := cur_state s;
     bracers := b; cur_entryT := cur_entryT s; delim := delim s |}.

Definition with_entryT (s : Scanner) (e : entryT) : Scanner :=
  {| reader := reader s; items := items s; cur_state := cur_state s;
     bracers := bracers s; cur_entryT := e; delim := delim s |}.

Definition with_delim (s : Scanner) (d : rune) : Scanner :=
  {| reader := reader s; items := items s; cur_state := cur_state s;
     bracers := bracers s; cur_entryT := cur_entryT s; delim := d |}.

(* s.items <- i *)
Definition send (s : Scanner) (i : Item) : Scanner :=
  with_items s (items s ++ [i]).

Definition checkErr (t : charStatus) : state :=
  match t with
  | charErr => err
  | charEOF => eof
  | charOk => null
  end.

(* var delims = map[rune]rune{...} *)
Definition delims (r : rune) : option rune :=
  if r =? r_lbrace then Some r_rbrace
  else if r =? r_rbrace then Some r_lbrace
  else if r =? r_lparen then Some r_rparen
  else if r =? r_rparen then Some r_lparen
  else None.

Definition delimsMatch (i j : rune) : bool :=
  match delims i with
  | None => false
  | Some other => if negb (j =? other) then false else true
  end.

Definition IsSpecial (r : rune) : bool :=
  existsb (fun c => r =? c) (runes "_-/!?$&*+.:;<>[]^`|").

Definition isDelim (r : rune) : bool :=
  existsb (fun c => r =? c) (runes "{}()").

Section WithUnicode.
Variable U : Unicode.

Definition IsValidNameRune (r : rune) : bool :=
  if negb (IsLetter U r) && negb (IsDigit U r) && negb (IsSpecial r)
  then false else true.

Definition IsValidName (s : gostring) : bool :=
  match s with
  | [] => false
  | _ => forallb IsValidNameRune s
  end.

Definition isValidInt (s : gostring) : bool :=
  match s with
  | [] => false
  | _ => forallb (IsDigit U) s
  end.

Definition isLetter (s : gostring) : bool :=
  match s with
  | [] => false
  | _ => forallb (IsLetter U) s
  end.

Definition isContinuous (s : gostring) : bool :=
  match s with
  | [] => false
  | _ => forallb (fun r => if IsSpace U r then false else true) s
  end.

(* The loop of isProperQuoted over chars[i:]; a backslash steps over the
   rune that follows it. *)
Fixpoint isProperQuoted_loop (chars : list rune) (braces quotes : Z) : Z * Z :=
  match chars with
  | [] => (braces, quotes)
  | c :: cs =>
      if c =? r_backslash then
        match cs with
        | [] => (braces, quotes)
        | _ :: cs' => isProperQuoted_loop cs' braces quotes
        end
      else if c =? r_lbrace then isProperQuoted_loop cs (braces + 1) quotes
      else if (c =? r_rbrace) && (braces >? 0) then isProperQuoted_loop cs (braces - 1) quotes
      else if c =? r_quote then isProperQuoted_loop cs braces (quotes + 1)
      else isProperQuoted_loop cs braces quotes
  end.

Definition isProperQuoted (s : gostring) : bool :=
  match s with
  | [] => false
  | _ =>
      let '(braces, quotes) := isProperQuoted_loop s 0 0 in
      if negb (braces =? 0) || negb (Z.rem quotes 2 =? 0) then false else true
  end.

(** *** The state functions

    Each takes the scanner and returns the next state with the scanner as
    it left it. The [for] loops read one rune per turn: they recurse on
    the runes not read yet, and the empty list is the read that
    [checkErr] turns into [eof] or [err]. *)

Definition Scanner_null (s : Scanner) : state * Scanner := (topLvlComment, s).

Fixpoint topLvlComment_loop (s : Scanner) (rs : list rune) (buf : gostring)
  : state * Scanner :=
  match rs with
  | [] => (checkErr (exhausted (reader s)), with_rest s [])
  | c :: rs' =>
      if c =? r_at then
        let buf := TrimSpace U buf in
        let s := match buf with
                 | [] => s
                 | _ => send s {| T := ItemComment; Val := buf |}
                 end in
        (entryDelim, with_rest s (c :: rs'))
      else topLvlComment_loop s rs' (buf ++ [c])
  end.

Definition Scanner_topLvlComment (s : Scanner) : state * Scanner :=
  topLvlComment_loop s (rest (reader s)) [].

Fixpoint entryDelim_loop (s : Scanner) (rs : list rune) : state * Scanner :=
  match rs with
  | [] => (checkErr (exhausted (reader s)), with_rest s [])
  | c :: rs' =>
      if c =? r_at then
        (entryType, with_rest (send s {| T := ItemEntryDelim; Val := [c] |}) rs')
      else entryDelim_loop s rs'
  end.

Definition Scanner_entryDelim (s : Scanner) : state * Scanner :=
  entryDelim_loop s (rest (reader s)).

Fixpoint entryType_loop (s : Scanner) (rs : list rune) (buf : gostring)
  : state * Scanner :=
  match rs with
  | [] => (checkErr (exhausted (reader s)), with_rest s [])
  | c :: rs' =>
      if (c =? r_lbrace) || (c =? r_lparen) then
        let buf := TrimSpace U buf in
        let lower := ToLower U buf in
        let '(s, t) :=
          if gostring_eqb lower (runes "preamble") then (with_entryT s preamble, ItemPreamble)
          else if gostring_eqb lower (runes "string") then (with_entryT s abbrev, ItemAbbrev)
          else (with_entryT s entry, ItemEntry) in
        if negb (IsValidName buf) then (err, with_rest s rs')
        else (entryLeftBodyDelim, with_rest (send s {| T := t; Val := buf |}) (c :: rs'))
      else entryType_loop s rs' (buf ++ [c])
  end.

Definition Scanner_entryType (s : Scanner) : state * Scanner :=
  entryType_loop s (rest (reader s)) [].

Fixpoint leftBodyDelim_loop (s : Scanner) (rs : list rune) : state * Scanner :=
  match rs with
  | [] => (checkErr (exhausted (reader s)), with_rest s [])
  | c :: rs' =>
      if (c =? r_lbrace) || (c =? r_lparen) then
        let s := send s {| T := ItemLeftDelim; Val := [c] |} in
        let s := with_delim s c in
        let s := with_bracers s (bracers s + 1) in
        (match cur_entryT s with
         | entry => entryCiteKey
         | preamble => entryFieldText
         | abbrev => entryFieldType
         end, with_rest s rs')
      else leftBodyDelim_loop s rs'
  end.

Definition Scanner_leftBodyDelim (s : Scanner) : state * Scanner :=
  leftBodyDelim_loop s (rest (reader s)).

Fixpoint rightBodyDelim_loop (s : Scanner) (rs : list rune) : state * Scanner :=
  match rs with
  | [] => (checkErr (exhausted (reader s)), with_rest s [])
  | c :: rs' =>
      if (c =? r_rbrace) || (c =? r_rparen) then
        if negb (delimsMatch (delim s) c) then (err, with_rest s rs')
        else
          let s := send s {| T := ItemRightDelim; Val := [c] |} in
          let s := with_bracers s (bracers s - 1) in
          (null, with_rest s rs')
      else rightBodyDelim_loop s rs'
  end.

Definition Scanner_rightBodyDelim (s : Scanner) : state * Scanner :=
  rightBodyDelim_loop s (rest (reader s)).

Fixpoint citeKey_loop (s : Scanner) (rs : list rune) (buf : gostring)
  : state * Scanner :=
  match rs with
  | [] => (checkErr (exhausted (reader s)), with_rest s [])
  | c :: rs' =>
      if c =? r_comma then
        let buf := TrimSpace U buf in
        if negb (IsValidName buf) then (err, with_rest s rs')
        else (entryComma, with_rest (send s {| T := ItemCiteKey; Val := buf |}) (c :: rs'))
      else citeKey_loop s rs' (buf ++ [c])
  end.

Definition Scanner_citeKey (s : Scanner) : state * Scanner :=
  citeKey_loop s (rest (reader s)) [].

Fixpoint entryComma_loop (s : Scanner) (rs : list rune) : state * Scanner :=
  match rs with
  | [] => (checkErr (exhausted (reader s)), with_rest s [])
  | c :: rs' =>
      if c =? r_comma then
        (entryTypeOrBrace, with_rest (send s {| T := ItemComma; Val := [c] |}) rs')
      else entryComma_loop s rs'
  end.

Definition Scanner_entryComma (s : Scanner) : state * Scanner :=
  entryComma_loop s (rest (reader s)).

(* The second loop of entryComment, after the label cont. *)
Fixpoint entryComment_cont (s : Scanner) (rs : list rune) : state * Scanner :=
  match rs with
  | [] => (checkErr (exhausted (reader s)), with_rest s [])
  | c :: rs' =>
      if c =? r_percent then (entryComment, with_rest s rs')
      else if isDelim c then (entryRightBodyDelim, with_rest s (c :: rs'))
      else if IsValidNameRune c then (entryFieldType, with_rest s (c :: rs'))
      else entryComment_cont s rs'
  end.

Fixpoint entryComment_loop (s : Scanner) (rs : list rune) (buf : gostring)
  : state * Scanner :=
  match rs with
  | [] => (checkErr (exhausted (reader s)), with_rest s [])
  | c :: rs' =>
      if c =? r_newline then
        let buf := TrimSpace U buf in
        let s := match buf with
                 | [] => s
                 | _ => send s {| T := ItemComment; Val := buf |}
                 end in
        entryComment_cont s rs'
      else entryComment_loop s rs' (buf ++ [c])
  end.

Definition Scanner_entryComment (s : Scanner) : state * Scanner :=
  entryComment_loop s (rest (reader s)) [].

Fixpoint entryTypeOrBrace_loop (s : Scanner) (rs : list rune) : state * Scanner :=
  match rs with
  | [] => (checkErr (exhausted (reader s)), with_rest s [])
  | c :: rs' =>
      if (c =? r_rbrace) || (c =? r_rparen) then
        (entryRightBodyDelim, with_rest s (c :: rs'))
      else if c =? r_percent then (entryComment, with_rest s rs')
      else if IsValidNameRune c then (entryFieldType, with_rest s (c :: rs'))
      else entryTypeOrBrace_loop s rs'
  end.

Definition Scanner_entryTypeOrBrace (s : Scanner) : state * Scanner :=
  entryTypeOrBrace_loop s (rest (reader s)).

Fixpoint entryFieldType_loop (s : Scanner) (rs : list rune) (buf : gostring)
  : state * Scanner :=
  match rs with
  | [] => (checkErr (exhausted (reader s)), with_rest s [])
  | c :: rs' =>
      if c =? r_eq then
        let buf := TrimSpace U buf in
        if negb (IsValidName buf) then (err, with_rest s rs')
        else (entryEqSgn, with_rest (send s {| T := ItemFieldType; Val := buf |}) (c :: rs'))
      else entryFieldType_loop s rs' (buf ++ [c])
  end.

Definition Scanner_entryFieldType (s : Scanner) : state * Scanner :=
  entryFieldType_loop s (rest (reader s)) [].

Fixpoint entryEqSgn_loop (s : Scanner) (rs : list rune) : state * Scanner :=
  match rs with
  | [] => (checkErr (exhausted (reader s)), with_rest s [])
  | c :: rs' =>
      if c =? r_eq then
        (entryFieldText, with_rest (send s {| T := ItemEqSgn; Val := [c] |}) rs')
      else entryEqSgn_loop s rs'
  end.

Definition Scanner_entryEqSgn (s : Scanner) : state * Scanner :=
  entryEqSgn_loop s (rest (reader s)).

(* The three terminating cases of entryFieldText share their body: trim,
   validate, send; [after] is the reader once the deferred Revert, if the
   case has one, has run, and [consumed] the reader without it. *)
Definition fieldText_finish (s : Scanner) (buf : gostring) (next : state)
           (consumed after : list rune) : state * Scanner :=
  let buf := TrimSpace U buf in
  if negb (isValidInt buf) && negb (isProperQuoted buf) then (err, with_rest s consumed)
  else (next, with_rest (send s {| T := ItemFieldText; Val := buf |}) after).

Fixpoint entryFieldText_loop (s : Scanner) (rs : list rune) (buf : gostring)
         (quotes : Z) (prev : rune) : state * Scanner :=
  match rs with
  | [] => (checkErr (exhausted (reader s)), with_rest s [])
  | c :: rs' =>
      if c =? r_lbrace then
        entryFieldText_loop (with_bracers s (bracers s + 1)) rs' (buf ++ [c]) quotes c
      else if c =? r_quote then
        let quotes := if negb (prev =? r_backslash) then quotes + 1 else quotes in
        entryFieldText_loop s rs' (buf ++ [c]) quotes c
      else if ((c =? r_rbrace) || (c =? r_rparen)) && (bracers s =? 1) then
        fieldText_finish s buf entryRightBodyDelim rs' (c :: rs')
      else if (c =? r_percent) && (bracers s =? 1) then
        fieldText_finish s buf entryComment rs' rs'
      else if (c =? r_rbrace) && (bracers s >? 0) then
        entryFieldText_loop (with_bracers s (bracers s - 1)) rs' (buf ++ [c]) quotes c
      else if (c =? r_comma) && (Z.rem quotes 2 =? 0) && (bracers s =? 1) then
        fieldText_finish s buf entryComma rs' (c :: rs')
      else entryFieldText_loop s rs' (buf ++ [c]) quotes c
  end.

Definition Scanner_entryFieldText (s : Scanner) : state * Scanner :=
  entryFieldText_loop s (rest (reader s)) [] 0 0.

Definition Scanner_eof (s : Scanner) : state * Scanner :=
  (eof, send s {| T := ItemEOF; Val := [] |}).

Definition Scanner_err (s : Scanner) : state * Scanner :=
  (err, send s {| T := ItemErr; Val := [] |}).

(* The table s.states of NewScanner. *)
Definition states (st : state) : Scanner -> state * Scanner :=
  match st with
  | null => Scanner_null
  | topLvlComment => Scanner_topLvlComment
  | entryComment => Scanner_entryComment
  | entryDelim => Scanner_entryDelim
  | entryType => Scanner_entryType
  | entryLeftBodyDelim => Scanner_leftBodyDelim
  | entryRightBodyDelim => Scanner_rightBodyDelim
  | entryCiteKey => Scanner_citeKey
  | entryComma => Scanner_entryComma
  | entryFieldType => Scanner_entryFieldType
  | entryEqSgn => Scanner_entryEqSgn
  | entryFieldText => Scanner_entryFieldText
  | entryTypeOrBrace => Scanner_entryTypeOrBrace
  | eof => Scanner_eof
  | err => Scanner_err
  end.

(* s.state = s.states[s.state](s) *)
Definition step (s : Scanner) : Scanner :=
  let '(st, s') := states (cur_state s) s in with_state s' st.

(** [Next]: receive from the channel if an item is buffered, else run the
    current state function and try again. [n] bounds the turns of the
    [default] branch. *)
Fixpoint Next_fuel (n : nat) (s : Scanner) : option (Item * Scanner) :=
  match items s with
  | i :: q => Some (i, with_items s q)
  | [] =>
      match n with
      | O => None
      | S n' => Next_fuel n' (step s)
      end
  end.

(** The items a caller gets by calling Next until the first terminal
    item, as the tests of the package and the parser do; [failing] tells
    which terminal item ended them. *)
Fixpoint run_fuel (n : nat) (s : Scanner) : option Scannable :=
  match n with
  | O => None
  | S n' =>
      match Next_fuel n' s with
      | None => None
      | Some (i, s') =>
          match T i with
          | ItemEOF => Some {| upcoming := []; failing := false |}
          | ItemErr => Some {| upcoming := []; failing := true |}
          | _ =>
              match run_fuel n' s' with
              | Some sc => Some {| upcoming := i :: upcoming sc; failing := failing sc |}
              | None => None
              end
          end
      end
  end.

(* Calling Next k times in a row: the items received and the scanner left. *)
Fixpoint Next_iter (n : nat) (k : nat) (s : Scanner) : option (list Item * Scanner) :=
  match k with
  | O => Some ([], s)
  | S k' =>
      match Next_fuel n s with
      | None => None
      | Some (i, s') =>
          match Next_iter n k' s' with
          | Some (l, s'') => Some (i :: l, s'')
          | None => None
          end
      end
  end.

End WithUnicode.
End Scan.

(** ** Package parse *)

Module Parse.
Import Scan.

Inductive state := null | comms | decl | entry | preamble | abbrev | err | eof.

Record CommentExpr := { CommentValue : gostring }.            (* field Value *)
Record CommentGroupExpr := { Values : list CommentExpr }.
Record FieldStmt := { Key : gostring; Value : gostring }.

Record EntryDecl := {
  Name : gostring;
  CiteKey : gostring;
  Comments : option CommentGroupExpr;      (* nil until the entry is closed *)
  Fields : list FieldStmt
}.

Record AbbrevDecl := {
  AbbrevComments : option CommentGroupExpr;  (* field Comments *)
  Field : option FieldStmt
}.

Record PreambleDecl := {
  PreambleComments : option CommentGroupExpr; (* field Comments *)
  PreambleValue : gostring                     (* field Value *)
}.

(* The declarations among the implementations of Node. *)
Inductive Node :=
| NEntry (d : EntryDecl)
| NAbbrev (d : AbbrevDecl)
| NPreamble (d : PreambleDecl)
| NBadDecl.

Record Parser := {
  scanner : Scannable;
  nodes : list Node;         (* the buffered channel, oldest node first *)
  closed : bool;             (* close(p.nodes) has run *)
  comments : CommentGroupExpr;
  currDecl : option Node;
  cur_state : state          (* field state *)
}.

Definition NewParser (s : Scannable) : Parser :=
  {| scanner := s; nodes := []; closed := false;
     comments := {| Values := [] |}; currDecl := None; cur_state := null |}.

Definition with_upcoming (p : Parser) (q : list Item) : Parser :=
  {| scanner := {| upcoming := q; failing := failing (scanner p) |};
     nodes := nodes p; closed := closed p; comments := comments p;
     currDecl := currDecl p; cur_state := cur_state p |}.

Definition with_nodes (p : Parser) (ns : list Node) : Parser :=
  {| scanner := scanner p; nodes := ns; closed := closed p;
     comments := comments p; currDecl := currDecl p; cur_state := cur_state p |}.

Definition with_comments (p : Parser) (c : CommentGroupExpr) : Parser :=
  {| scanner := scanner p; nodes := nodes p; closed := closed p;
     comments := c; currDecl := currDecl p; cur_state := cur_state p |}.

Definition with_currDecl (p : Parser) (d : option Node) : Parser :=
  {| scanner := scanner p; nodes := nodes p; closed := closed p;
     comments := comments p; currDecl := d; cur_state := cur_state p |}.

Definition with_state (p : Parser) (st : state) : Parser :=
  {| scanner := scanner p; nodes := nodes p; closed := closed p;
     comments := comments p; currDecl := currDecl p; cur_state := st |}.

(* close(p.nodes) *)
Definition close (p : Parser) : Parser :=
  {| scanner := scanner p; nodes := nodes p; closed := true;
     comments := comments p; currDecl := currDecl p; cur_state := cur_state p |}.

(* p.nodes <- n *)
Definition send (p : Parser) (n : Node) : Parser := with_nodes p (nodes p ++ [n]).

Definition resetComms (p : Parser) : Parser := with_comments p {| Values := [] |}.

(* p.comments.Values = append(p.comments.Values, &v) *)
Definition addComment (p : Parser) (v : gostring) : Parser :=
  with_comments p {| Values := Values (comments p) ++ [ {| CommentValue := v |} ] |}.

Definition checkErr (t : ItemType) : state :=
  match t with
  | ItemErr => err
  | ItemEOF => eof
  | _ => null
  end.

Definition FieldStmt_ok (f : FieldStmt) : bool :=
  match Key f, Value f with
  | [], _ => false
  | _, [] => false
  | _, _ => true
  end.

Definition with_CiteKey (d : EntryDecl) (k : gostring) : EntryDecl :=
  {| Name := Name d; CiteKey := k; Comments := Comments d; Fields := Fields d |}.

Definition with_Fields (d : EntryDecl) (fs : list FieldStmt) : EntryDecl :=
  {| Name := Name d; CiteKey := CiteKey d; Comments := Comments d; Fields := fs |}.

Definition with_Comments (d : EntryDecl) (c : CommentGroupExpr) : EntryDecl :=
  {| Name := Name d; CiteKey := CiteKey d; Comments := Some c; Fields := Fields d |}.

Section WithUnicode.
Variable U : Unicode.

Definition Parser_null (p : Parser) : state * Parser := (comms, p).

Definition Parser_err (p : Parser) : state * Parser := (err, close p).

Definition Parser_eof (p : Parser) : state * Parser := (eof, close p).

(** The loops pull one item per turn: they recurse on the items not
    pulled yet, and the empty list is the pull that returns the terminal
    item, which [checkErr] always turns into [eof] or [err]. *)

Fixpoint comms_loop (p : Parser) (toks : list Item) : state * Parser :=
  match toks with
  | [] => (checkErr (T (terminal (failing (scanner p)))), with_upcoming p [])
  | i :: toks' =>
      match checkErr (T i) with
      | null =>
          match T i with
          | ItemComment => comms_loop (addComment p (Val i)) toks'
          | ItemEntryDelim => (decl, with_upcoming p toks')
          | _ => (err, with_upcoming (resetComms p) toks')
          end
      | st => (st, with_upcoming p toks')
      end
  end.

Definition Parser_comms (p : Parser) : state * Parser :=
  comms_loop p (upcoming (scanner p)).

Definition Parser_decl (p : Parser) : state * Parser :=
  let '(i, sc) := Scannable_Next (scanner p) in
  let p := with_upcoming p (upcoming sc) in
  match checkErr (T i) with
  | null =>
      match T i with
      | ItemEntry =>
          let lower := ToLower U (Val i) in
          let d := {| Name := lower; CiteKey := []; Comments := None; Fields := [] |} in
          (entry, with_currDecl p (Some (NEntry d)))
      | ItemAbbrev =>
          (abbrev, with_currDecl p (Some (NAbbrev {| AbbrevComments := None; Field := None |})))
      | ItemPreamble =>
          (preamble,
           with_currDecl p (Some (NPreamble {| PreambleComments := None; PreambleValue := [] |})))
      | _ => (err, p)
      end
  | st => (st, p)
  end.

(* The for loop of entry. [d] is the declaration p.currDecl points to and
   [stmt] the statement being filled. *)
Fixpoint entry_loop (p : Parser) (d : EntryDecl) (stmt : FieldStmt)
         (toks : list Item) : state * Parser :=
  match toks with
  | [] => (checkErr (T (terminal (failing (scanner p)))),
           with_currDecl (with_upcoming p []) (Some (NEntry d)))
  | i :: toks' =>
      match checkErr (T i) with
      | null =>
          match T i with
          | ItemComment => entry_loop (addComment p (Val i)) d stmt toks'
          | ItemFieldType =>
              entry_loop p d {| Key := Val i; Value := Value stmt |} toks'
          | ItemFieldText =>
              let stmt := {| Key := Key stmt; Value := Val i |} in
              if negb (FieldStmt_ok stmt)
              then (err, with_currDecl (with_upcoming p toks') (Some (NEntry d)))
              else entry_loop p (with_Fields d (Fields d ++ [stmt]))
                              {| Key := []; Value := [] |} toks'
          | ItemRightDelim =>
              let d := with_Comments d (comments p) in
              let p := resetComms p in
              let p := send p (NEntry d) in
              (null, with_currDecl (with_upcoming p toks') (Some (NEntry d)))
          | ItemComma | ItemEqSgn => entry_loop p d stmt toks'
          | _ => (err, with_currDecl (with_upcoming p toks') (Some (NEntry d)))
          end
      | st => (st, with_currDecl (with_upcoming p toks') (Some (NEntry d)))
      end
  end.

Definition Parser_entry (p : Parser) : state * Parser :=
  match currDecl p with
  | Some (NEntry d) =>
      (* Consume body delimiter *)
      let '(i, sc) := Scannable_Next (scanner p) in
      let p := with_upcoming p (upcoming sc) in
      match checkErr (T i) with
      | null =>
          (* Attempt to assign cite key to the declaration *)
          let '(i, sc) := Scannable_Next (scanner p) in
          let p := with_upcoming p (upcoming sc) in
          match checkErr (T i) with
          | null =>
              match T i with
              | ItemCiteKey =>
                  entry_loop p (with_CiteKey d (Val i)) {| Key := []; Value := [] |}
                             (upcoming (scanner p))
              | _ => (err, p)
              end
          | st => (st, p)
          end
      | st => (st, p)
      end
  | _ => (err, p)
  end.

Fixpoint preamble_loop (p : Parser) (d : PreambleDecl) (toks : list Item)
  : state * Parser :=
  match toks with
  | [] => (checkErr (T (terminal (failing (scanner p)))),
           with_currDecl (with_upcoming p []) (Some (NPreamble d)))
  | i :: toks' =>
      match checkErr (T i) with
      | null =>
          match T i with
          | ItemComment => preamble_loop (addComment p (Val i)) d toks'
          | ItemFieldText =>
              preamble_loop p {| PreambleComments := PreambleComments d;
                                 PreambleValue := Val i |} toks'
          | ItemRightDelim =>
              let d := {| PreambleComments := Some (comments p);
                          PreambleValue := PreambleValue d |} in
              let p := resetComms p in
              let p := send p (NPreamble d) in
              (null, with_currDecl (with_upcoming p toks') (Some (NPreamble d)))
          | _ => (err, with_currDecl (with_upcoming p toks') (Some (NPreamble d)))
          end
      | st => (st, with_currDecl (with_upcoming p toks') (Some (NPreamble d)))
      end
  end.

Definition Parser_preamble (p : Parser) : state * Parser :=
  match currDecl p with
  | Some (NPreamble d) =>
      (* Consume body delimiter *)
      let '(i, sc) := Scannable_Next (scanner p) in
      let p := with_upcoming p (upcoming sc) in
      match checkErr (T i) with
      | null => preamble_loop p d (upcoming (scanner p))
      | st => (st, p)
      end
  | _ => (err, p)
  end.

(* The for loop of abbrev. decl.Field, once assigned, points to the local
   [stmt], which later items keep writing to: [assigned] records that the
   assignment has run and the declaration's Field is read off [stmt]. *)
Definition abbrev_decl (d : AbbrevDecl) (stmt : FieldStmt) (assigned : bool) : AbbrevDecl :=
  {| AbbrevComments := AbbrevComments d;
     Field := if assigned then Some stmt else Field d |}.

Fixpoint abbrev_loop (p : Parser) (d : AbbrevDecl) (stmt : FieldStmt)
         (assigned : bool) (toks : list Item) : state * Parser :=
  match toks with
  | [] => (checkErr (T (terminal (failing (scanner p)))),
           with_currDecl (with_upcoming p []) (Some (NAbbrev (abbrev_decl d stmt assigned))))
  | i :: toks' =>
      match checkErr (T i) with
      | null =>
          match T i with
          | ItemComment => abbrev_loop (addComment p (Val i)) d stmt assigned toks'
          | ItemFieldType =>
              abbrev_loop p d {| Key := Val i; Value := Value stmt |} assigned toks'
          | ItemFieldText =>
              let stmt := {| Key := Key stmt; Value := Val i |} in
              if negb (FieldStmt_ok stmt)
              then (err, with_currDecl (with_upcoming p toks')
                                       (Some (NAbbrev (abbrev_decl d stmt assigned))))
              else abbrev_loop p d stmt true toks'
          | ItemRightDelim =>
              let d := {| AbbrevComments := Some (comments p);
                          Field := Field (abbrev_decl d stmt assigned) |} in
              let p := resetComms p in
              let p := send p (NAbbrev d) in
              (null, with_currDecl (with_upcoming p toks') (Some (NAbbrev d)))
          | ItemEqSgn => abbrev_loop p d stmt assigned toks'
          | _ => (err, with_currDecl (with_upcoming p toks')
                                     (Some (NAbbrev (abbrev_decl d stmt assigned))))
          end
      | st => (st, with_currDecl (with_upcoming p toks')
                                 (Some (NAbbrev (abbrev_decl d stmt assigned))))
      end
  end.

Definition Parser_abbrev (p : Parser) : state * Parser :=
  match currDecl p with
  | Some (NAbbrev d) =>
      (* Consume body delimiter *)
      let '(i, sc) := Scannable_Next (scanner p) in
      let p := with_upcoming p (upcoming sc) in
      match checkErr (T i) with
      | null => abbrev_loop p d {| Key := []; Value := [] |} false (upcoming (scanner p))
      | st => (st, p)
      end
  | _ => (err, p)
  end.

(* The table p.states of NewParser. *)
Definition states (st : state) : Parser -> state * Parser :=
  match st with
  | null => Parser_null
  | comms => Parser_comms
  | decl => Parser_decl
  | entry => Parser_entry
  | preamble => Parser_preamble
  | abbrev => Parser_abbrev
  | err => Parser_err
  | eof => Parser_eof
  end.

(* p.state = p.states[p.state](p) *)
Definition step (p : Parser) : Parser :=
  let '(st, p') := states (cur_state p) p in with_state p' st.

(** [Next]: a buffered node is received with [ok = true]; on the closed,
    drained channel the receive yields [(nil, false)]; otherwise the
    current state function runs. [n] bounds the turns of the [default]
    branch. *)
Fixpoint Next_fuel (n : nat) (p : Parser) : option (option Node * bool * Parser) :=
  match nodes p with
  | nd :: q => Some (Some nd, true, with_nodes p q)
  | [] =>
      if closed p then Some (None, false, p)
      else
        match n with
        | O => None
        | S n' => Next_fuel n' (step p)
        end
  end.

(** The loop of the command: [n, ok := p.Next()] for as long as [ok], the
    nodes received in order. *)
Fixpoint drain_fuel (n : nat) (p : Parser) : option (list Node * Parser) :=
  match n with
  | O => None
  | S n' =>
      match Next_fuel n' p with
      | None => None
      | Some (nd, ok, p') =>
          if ok then
            match drain_fuel n' p' with
            | Some (l, p'') => Some (match nd with Some x => x :: l | None => l end, p'')
            | None => None
            end
          else Some ([], p')
      end
  end.

End WithUnicode.
End Parse.

(** ** The pipeline: reader, scanner, parser *)

Section Pipeline.
Variable U : Unicode.

(* The nodes the command receives and the state the parser ends in, with
   [n] turns allowed to each loop. *)
Definition pipeline_fuel (n : nat) (r : Scan.Reader) : option (list Parse.Node * Parse.state) :=
  match Scan.run_fuel U n (Scan.NewScanner r) with
  | None => None
  | Some sc =>
      match Parse.drain_fuel U n (Parse.NewParser sc) with
      | None => None
      | Some (l, p) => Some (l, Parse.cur_state p)
      end
  end.

(* Turns that are enough for an input of this length. *)
Definition enough (r : Scan.Reader) : nat := (8 * List.length (Scan.rest r) + 8)%nat.

Definition pipeline (r : Scan.Reader) : option (list Parse.Node * Parse.state) :=
  pipeline_fuel (enough r) r.
End Pipeline.

(** The tables of [unicode] restricted to ASCII, where they are: letters
    A-Z and a-z, digits 0-9, the six ASCII white space characters, and the
    lower-case mapping of A-Z. They agree with Go's on every ASCII rune and are
    used to run the machines on ASCII inputs. *)
Definition ascii_tables : Unicode :=
  {| IsLetter := fun r => ((65 <=? r) && (r <=? 90)) || ((97 <=? r) && (r <=? 122));
     IsDigit := fun r => (48 <=? r) && (r <=? 57);
     IsSpace := fun r => ((9 <=? r) && (r <=? 13)) || (r =? 32);
     ToLowerRune := fun r => if (65 <=? r) && (r <=? 90) then r + 32 else r |}.

(* An input that ends with io.EOF. *)
Definition source (s : gostring) : Scan.Reader := {| Scan.rest := s; Scan.broken := false |}.

(* An item with an ASCII text. *)
Definition item (t : Scan.ItemType) (v : string) : Scan.Item :=
  {| Scan.T := t; Scan.Val := runes v |}.

(* The items of an input and how they end, with the ASCII tables. *)
Definition scan_ascii (input : gostring) : option Scan.Scannable :=
  Scan.run_fuel ascii_tables (enough (source input)) (Scan.NewScanner (source input)).

(** ** Notions used to state the properties *)

Section Notions.
Variable U : Unicode.
Import Scan.

(* How far a state is from sending an item when no rune is consumed. *)
Definition rank (st : state) : nat :=
  match st with
  | eof | err => 0
  | null => 3
  | topLvlComment | entryTypeOrBrace => 2
  | _ => 1
  end.

Definition weight (s : Scanner) : nat :=
  (8 * List.length (rest (reader s)) + rank (cur_state s))%nat.

(* What every item other than the two terminal ones carries. *)
Definition token_ok (i : Item) : Prop :=
  match T i with
  | ItemErr | ItemEOF => False
  | ItemEntry | ItemAbbrev | ItemPreamble | ItemCiteKey | ItemFieldType =>
      IsValidName U (Val i) = true
  | ItemFieldText => isValidInt U (Val i) = true \/ isProperQuoted (Val i) = true
  | ItemComment => Val i <> []
  | _ => True
  end.

(* One run of a state function of rank [k] over [n] unread runes: either no
   item is sent and the weight went down, or one proper item is sent and at
   least one rune was consumed. *)
Definition outcome (k : nat) (s : Scanner) (n : nat) (r : state * Scanner) : Prop :=
  broken (reader (snd r)) = broken (reader s) /\
  ((items (snd r) = items s /\
    (8 * List.length (rest (reader (snd r))) + rank (fst r) < 8 * n + k)%nat) \/
   (exists i, items (snd r) = items s ++ [i] /\ token_ok i /\
              (List.length (rest (reader (snd r))) < n)%nat)).

(* What one call of Next gives: the scanner is left with an empty channel,
   and the item is the terminal one of the sink the scanner is now in, or a
   proper item for which input was consumed. *)
Definition Next_spec (s : Scanner) (i : Item) (s' : Scanner) : Prop :=
  items s' = [] /\ broken (reader s') = broken (reader s) /\
  ((i = {| T := ItemEOF; Val := [] |} /\ cur_state s' = eof) \/
   (i = {| T := ItemErr; Val := [] |} /\ cur_state s' = err) \/
   (token_ok i /\ (List.length (rest (reader s')) < List.length (rest (reader s)))%nat)).

Definition is_terminal (i : Item) : bool :=
  match T i with
  | ItemEOF | ItemErr => true
  | _ => false
  end.

(* The runes that open a body. *)
Definition is_opener (c : rune) : bool := (c =? r_lbrace) || (c =? r_lparen).

(* The runes that close a body. *)
Definition is_closer (c : rune) : bool := (c =? r_rbrace) || (c =? r_rparen).

(* The body was opened with one flavor of delimiter and [c] is the closing
   delimiter of the other flavor. *)
Definition other_flavor (opened c : rune) : Prop :=
  (opened = r_lbrace /\ c = r_rparen) \/ (opened = r_lparen /\ c = r_rbrace).

(** The quote-parity counter in the words of the specification: the number
    of quotes among [rs] that are not immediately preceded by a backslash,
    [prev] being the rune before [rs]. *)
Fixpoint toggling_quotes (prev : rune) (rs : list rune) : Z :=
  match rs with
  | [] => 0
  | c :: rs' =>
      (if (c =? r_quote) && negb (prev =? r_backslash) then 1 else 0)
      + toggling_quotes c rs'
  end.

(** The turns of the loop of entryFieldText over runes [pre] none of which
    ends the value: the scanner with its brace depth, the counter and the
    previous rune after them; [None] if one of them ends the value. *)
Fixpoint fieldText_reads (s : Scanner) (pre : list rune) (quotes : Z) (prev : rune)
  : option (Scanner * Z * rune) :=
  match pre with
  | [] => Some (s, quotes, prev)
  | c :: pre' =>
      if c =? r_lbrace then fieldText_reads (with_bracers s (bracers s + 1)) pre' quotes c
      else if c =? r_quote then
        fieldText_reads s pre' (if negb (prev =? r_backslash) then quotes + 1 else quotes) c
      else if is_closer c && (bracers s =? 1) then None
      else if (c =? r_percent) && (bracers s =? 1) then None
      else if (c =? r_rbrace) && (bracers s >? 0) then
        fieldText_reads (with_bracers s (bracers s - 1)) pre' quotes c
      else if (c =? r_comma) && (Z.rem quotes 2 =? 0) && (bracers s =? 1) then None
      else fieldText_reads s pre' quotes c
  end.

(** What a state function does to the recorded opening delimiter: it keeps
    it, unless it sends an opening-delimiter item, whose rune it records; a
    closing-delimiter item it sends matches the recorded one. *)
Definition delim_kept (s : Scanner) (r : state * Scanner) : Prop :=
  (items (snd r) = items s /\ delim (snd r) = delim s) \/
  exists i, items (snd r) = items s ++ [i] /\
    match T i with
    | ItemLeftDelim => Val i = [delim (snd r)]
    | ItemRightDelim =>
        exists c, Val i = [c] /\ delimsMatch (delim s) c = true /\ delim (snd r) = delim s
    | _ => delim (snd r) = delim s
    end.

(** Every closing-delimiter item among [toks] matches the latest
    opening-delimiter item before it; [d] is the opening rune recorded before
    [toks]. *)
Fixpoint matched (d : rune) (toks : list Item) : Prop :=
  match toks with
  | [] => True
  | i :: l =>
      match T i with
      | ItemLeftDelim => exists o, Val i = [o] /\ matched o l
      | ItemRightDelim => exists c, Val i = [c] /\ delimsMatch d c = true /\ matched d l
      | _ => matched d l
      end
  end.

(* The items that k calls of Next on a scannable return. *)
Fixpoint Scannable_iter (k : nat) (sc : Scannable) : list Item :=
  match k with
  | O => []
  | S k' => let '(i, sc') := Scannable_Next sc in i :: Scannable_iter k' sc'
  end.
End Notions.

Section ParseNotions.
Import Scan Parse.

Definition is_comment (i : Item) : bool :=
  match T i with
  | ItemComment => true
  | _ => false
  end.

(* The comment texts among items, in order, as the parser stores them. *)
Definition comment_exprs (l : list Item) : list CommentExpr :=
  map (fun i => {| CommentValue := Val i |}) (filter is_comment l).

Definition no_closer (l : list Item) : Prop :=
  Forall (fun i => T i <> ItemRightDelim) l.

Definition node_comments (n : Node) : option CommentGroupExpr :=
  match n with
  | NEntry d => Comments d
  | NAbbrev d => AbbrevComments d
  | NPreamble d => PreambleComments d
  | NBadDecl => None
  end.

(* The field values a declaration holds. *)
Definition node_values (n : Node) : list gostring :=
  match n with
  | NEntry d => map Value (Fields d)
  | NAbbrev d => match Field d with
                 | Some f => [Value f]
                 | None => []
                 end
  | NPreamble d => [PreambleValue d]
  | NBadDecl => []
  end.

(* [v] is unset or is the text of a field-text item of [body]. *)
Definition from_field_text (body : list Item) (v : gostring) : Prop :=
  v = [] \/ exists i, In i body /\ T i = ItemFieldText /\ Val i = v.

(** What a body loop that sends its declaration has done: it pulled the
    items [body] and then the closing delimiter, sent the node [nd] with the
    pending comments followed by the comments of [body], in order, and left
    the pending comments empty. *)
Definition emitted (p : Parser) (toks body : list Item) (p' : Parser) (nd : Node) : Prop :=
  exists closer,
    toks = body ++ closer :: upcoming (scanner p') /\
    T closer = ItemRightDelim /\ no_closer body /\
    nodes p' = nodes p ++ [nd] /\
    comments p' = {| Values := [] |} /\
    closed p' = closed p /\
    failing (scanner p') = failing (scanner p) /\
    node_comments nd = Some {| Values := Values (comments p) ++ comment_exprs body |}.

(* What a body loop that sends nothing has done: it moved to err or eof,
   and to eof only on an end-of-input item. *)
Definition stopped (p : Parser) (toks : list Item) (st : Parse.state) (p' : Parser) : Prop :=
  (st = Parse.err \/ st = Parse.eof) /\
  nodes p' = nodes p /\ closed p' = closed p /\
  failing (scanner p') = failing (scanner p) /\
  (List.length (upcoming (scanner p')) <= List.length toks)%nat /\
  (st = Parse.eof ->
   (failing (scanner p) = false /\ upcoming (scanner p') = []) \/
   Exists (fun i => T i = ItemEOF) toks).

(** What the state function of a body that sends its declaration has done:
    it pulled the item [dl] where the opening delimiter is expected, then
    [body] and the closing delimiter. *)
Definition body_parsed (p p' : Parser) (body : list Item) (nd : Node) : Prop :=
  exists dl closer,
    upcoming (scanner p) = dl :: body ++ closer :: upcoming (scanner p') /\
    is_terminal dl = false /\ T closer = ItemRightDelim /\ no_closer body /\
    node_comments nd = Some {| Values := Values (comments p) ++ comment_exprs body |} /\
    nodes p' = nodes p ++ [nd] /\ closed p' = closed p /\
    comments p' = {| Values := [] |} /\
    failing (scanner p') = failing (scanner p).

(* The parser has closed its channel with nothing left in it, in err or eof;
   it is in eof only for an end-of-input item. *)
Definition halted (p p' : Parser) : Prop :=
  closed p' = true /\ nodes p' = [] /\
  (Parse.cur_state p' = Parse.err \/ Parse.cur_state p' = Parse.eof) /\
  (Parse.cur_state p' = Parse.eof ->
   failing (scanner p) = false \/ Exists (fun i => T i = ItemEOF) (upcoming (scanner p))).
End ParseNotions.

Section ParseNotionsU.
Variable U : Unicode.
Import Scan Parse.

(** One call of Next that returns the declaration [nd]: the parser pulled
    the comments [top], the entry delimiter, the keyword [kw], whatever item
    [dl] stood where the opening delimiter is expected, the items [body] and
    the closing delimiter. The comments of [top] and [body], in order, after
    the comments that were pending, are the comment group of [nd]; its field
    values are texts of field-text items of [body]; the parser is back in
    null with no comment pending. *)
Definition declared (p p' : Parser) (nd : Node) : Prop :=
  exists top ed kw dl body closer,
    upcoming (scanner p) = top ++ ed :: kw :: dl :: body ++ closer :: upcoming (scanner p') /\
    Forall (fun i => T i = ItemComment) top /\ T ed = ItemEntryDelim /\
    is_terminal dl = false /\ T closer = ItemRightDelim /\ no_closer body /\
    node_comments nd
    = Some {| Values := Values (comments p) ++ comment_exprs (top ++ body) |} /\
    Forall (from_field_text body) (node_values nd) /\
    match nd with
    | NEntry d =>
        T kw = ItemEntry /\ Name d = ToLower U (Val kw) /\
        exists ck body', body = ck :: body' /\ T ck = ItemCiteKey /\ CiteKey d = Val ck
    | NAbbrev _ => T kw = ItemAbbrev
    | NPreamble _ => T kw = ItemPreamble
    | NBadDecl => False
    end /\
    nodes p' = [] /\ closed p' = false /\ comments p' = {| Values := [] |} /\
    Parse.cur_state p' = Parse.null /\ failing (scanner p') = failing (scanner p).

(* The declarations that successive calls of Next return until it reports
   the end. *)
Inductive drained : Parser -> list Node -> Parser -> Prop :=
| drained_end p p' : halted p p' -> drained p [] p'
| drained_decl p p1 nd l p' :
    declared p p1 nd -> drained p1 l p' -> drained p (nd :: l) p'.

(** The declaration [nd] was parsed from the items [chunk], taking all the
    comments of the chunk, in order, as its comment group and its field
    values from field-text items of the chunk. *)
Definition attached (chunk : list Item) (nd : Node) : Prop :=
  exists top ed kw dl body closer,
    chunk = top ++ ed :: kw :: dl :: body ++ [closer] /\
    Forall (fun i => T i = ItemComment) top /\ T ed = ItemEntryDelim /\
    is_terminal dl = false /\ T closer = ItemRightDelim /\ no_closer body /\
    node_comments nd = Some {| Values := comment_exprs (top ++ body) |} /\
    Forall (from_field_text body) (node_values nd) /\
    match nd with
    | NEntry d =>
        T kw = ItemEntry /\ Name d = ToLower U (Val kw) /\
        exists ck body', body = ck :: body' /\ T ck = ItemCiteKey /\ CiteKey d = Val ck
    | NAbbrev _ => T kw = ItemAbbrev
    | NPreamble _ => T kw = ItemPreamble
    | NBadDecl => False
    end.
End ParseNotionsU.

(** ** The helpers of the older lexer (package parse, lexer.go) *)

Module Lexer.
Section WithUnicode.
Variable U : Unicode.

Definition isValidCiteKey (s : gostring) : bool :=
  match s with
  | [] => false
  | _ =>
      forallb (fun r =>
                 if negb (IsLetter U r) && negb (IsDigit U r) &&
                    negb (r =? 58) && negb (r =? 45) && negb (r =? 95)
                 then false else true) s
  end.

(* strings.HasPrefix and strings.HasSuffix with a one-character string. *)
Definition HasPrefix (s : gostring) (c : rune) : bool :=
  match s with
  | x :: _ => x =? c
  | [] => false
  end.

Definition HasSuffix (s : gostring) (c : rune) : bool := HasPrefix (rev s) c.

Fixpoint isProperQuoted_loop (chars : list rune) (braces quotes : Z) : Z * Z :=
  match chars with
  | [] => (braces, quotes)
  | c :: cs =>
      if c =? 123 then isProperQuoted_loop cs (braces + 1) quotes
      else if (c =? 125) && (braces >? 0) then isProperQuoted_loop cs (braces - 1) quotes
      else if c =? 34 then isProperQuoted_loop cs braces (quotes + 1)
      else isProperQuoted_loop cs braces quotes
  end.

Definition isProperQuoted (s : gostring) : bool :=
  match s with
  | [] => false
  | _ =>
      if negb (HasPrefix s 34) && negb (HasPrefix s 123) then false
      else if negb (HasSuffix s 34) && negb (HasSuffix s 125) then false
      else
        let '(braces, quotes) := isProperQuoted_loop s 0 0 in
        if negb (braces =? 0) || negb (Z.rem quotes 2 =? 0) then false else true
  end.
End WithUnicode.
End Lexer.

(** ** The names of the node types *)

Section NodeNames.
Import Scan Parse.

Inductive NodeT :=
| NodeBadDecl | NodeEntry | NodeAbbrev | NodePreamble | NodeBadStmt
| NodeFieldStmt | NodeBadExpr | NodeCommentExpr | NodeCommentGroupExpr.

Definition nodeNames (t : NodeT) : gostring :=
  runes match t with
        | NodeBadDecl => "NodeBadDecl"
        | NodeEntry => "NodeEntry"
        | NodeAbbrev => "NodeAbbrev"
        | NodePreamble => "NodePreamble"
        | NodeBadStmt => "NodeBadStmt"
        | NodeFieldStmt => "NodeFieldStmt"
        | NodeBadExpr => "NodeBadExpr"
        | NodeCommentExpr => "NodeCommentExpr"
        | NodeCommentGroupExpr => "NodeCommentGroupExpr"
        end.

(* The methods Type and String of the declarations. *)
Definition Node_Type (n : Node) : NodeT :=
  match n with
  | NEntry _ => NodeEntry
  | NAbbrev _ => NodeAbbrev
  | NPreamble _ => NodePreamble
  | NBadDecl => NodeBadDecl
  end.

Definition Node_String (n : Node) : gostring := nodeNames (Node_Type n).
End NodeNames.

(** ** The command *)

Section Command.
Variable U : Unicode.
Import Scan Parse.

(* The verb %d on an index. *)
Definition decimal (n : nat) : gostring := runes (NilEmpty.string_of_uint (Nat.to_uint n)).

(* for i, c := range decl.Comments.Values { fmt.Printf(...) } *)
Fixpoint print_comment_values (i : nat) (l : list CommentExpr) : gostring :=
  match l with
  | [] => []
  | c :: l' =>
      decimal i ++ runes ": " ++ CommentValue c ++ [r_newline] ++ print_comment_values (S i) l'
  end.

(* What is written for the comments of a declaration; [None] is the nil
   pointer dereference of decl.Comments.Values on a declaration without
   comment group. *)
Definition print_comments (g : option CommentGroupExpr) : option gostring :=
  match g with
  | None => None
  | Some g => Some (runes "Comments:" ++ [r_newline] ++ print_comment_values 0 (Values g))
  end.

Definition print_field (f : FieldStmt) : gostring :=
  Key f ++ runes " = " ++ Value f ++ [r_newline].

(* The body of the loop of main: what it writes for one node, [None] if it
   dereferences a nil pointer. *)
Definition print_decl (n : Node) : option gostring :=
  match n with
  | NEntry d =>
      match print_comments (Comments d) with
      | None => None
      | Some c =>
          Some (runes "Type: " ++ Node_String n ++ [r_newline]
                ++ runes "Cite key: " ++ CiteKey d ++ [r_newline]
                ++ c
                ++ runes "Fields:" ++ [r_newline]
                ++ List.concat (map print_field (Fields d))
                ++ [r_newline])
      end
  | NPreamble d =>
      match print_comments (PreambleComments d) with
      | None => None
      | Some c =>
          Some (runes "Type: " ++ Node_String n ++ [r_newline]
                ++ c
                ++ runes "Value:" ++ [r_newline]
                ++ PreambleValue d ++ [r_newline])
      end
  | NAbbrev d =>
      match print_comments (AbbrevComments d) with
      | None => None
      | Some c =>
          match Field d with
          | None => None
          | Some f =>
              Some (runes "Type: " ++ Node_String n ++ [r_newline]
                    ++ c
                    ++ runes "Field:" ++ [r_newline]
                    ++ print_field f)
          end
      end
  | NBadDecl => Some (Node_String n ++ [r_newline])
  end.

(** The loop of main on the parser [p], [out] being what has been written
    so far: the result is what the command has written when Next reports
    the end, or [None] if it panicked. [n] bounds the turns. *)
Fixpoint main_loop (n : nat) (p : Parser) (out : gostring) : option (option gostring) :=
  match n with
  | O => None
  | S n' =>
      match Parse.Next_fuel U n' p with
      | None => None
      | Some (nd, ok, p') =>
          if ok then
            match nd with
            | Some x =>
                match print_decl x with
                | None => Some None
                | Some o => main_loop n' p' (out ++ o)
                end
            | None => main_loop n' p' (out ++ runes "<nil>" ++ [r_newline])
            end
          else Some (Some out)
      end
  end.

(* main on the standard input [r]. *)
Definition main_fuel (n : nat) (r : Reader) : option (option gostring) :=
  match run_fuel U n (NewScanner r) with
  | None => None
  | Some sc => main_loop n (NewParser sc) []
  end.

Definition main (r : Reader) : option (option gostring) := main_fuel (enough r) r.

(* What main writes for the declarations [l]. *)
Fixpoint printed (l : list Node) : gostring :=
  match l with
  | [] => []
  | nd :: l' =>
      match print_decl nd with
      | Some o => o ++ printed l'
      | None => []
      end
  end.

(** The parsers that calls of Next lead to from NewParser: Next receives a
    node if one is buffered, reports the end if the channel is closed, and
    otherwise runs the state function of the current state. *)
Inductive parser_reachable : Parser -> Prop :=
| preach_new sc : parser_reachable (NewParser sc)
| preach_run p :
    parser_reachable p -> nodes p = [] -> closed p = false ->
    parser_reachable (Parse.step U p)
| preach_receive p nd q :
    parser_reachable p -> nodes p = nd :: q -> parser_reachable (with_nodes p q).
End Command.

(** ** Notions for the state diagram of the scanner and the grammar of its items *)

Section GraphDefs.
Import Scan.

Definition entryT_eqb (a b : entryT) : bool :=
  match a, b with
  | entry, entry | preamble, preamble | abbrev, abbrev => true
  | _, _ => false
  end.

(** The state diagram of the scanner: [edge st e k st' e'] tells whether the
    state function of [st], run with entry type [e], may send an item of kind
    [k] (or none) and return [st'] with entry type [e']. *)
Definition edge (st : state) (e : entryT) (k : option ItemType) (st' : state) (e' : entryT)
  : bool :=
  match st, k, st' with
  | eof, Some ItemEOF, eof => true
  | err, Some ItemErr, err => true
  | eof, _, _ => false
  | err, _, _ => false
  | null, None, topLvlComment => entryT_eqb e e'
  | null, _, _ => false
  | _, None, eof => true
  | _, None, err => true
  | topLvlComment, None, entryDelim => entryT_eqb e e'
  | topLvlComment, Some ItemComment, entryDelim => entryT_eqb e e'
  | entryDelim, Some ItemEntryDelim, entryType => entryT_eqb e e'
  | entryType, Some ItemEntry, entryLeftBodyDelim => entryT_eqb e' entry
  | entryType, Some ItemAbbrev, entryLeftBodyDelim => entryT_eqb e' abbrev
  | entryType, Some ItemPreamble, entryLeftBodyDelim => entryT_eqb e' preamble
  | entryLeftBodyDelim, Some ItemLeftDelim, entryCiteKey =>
      entryT_eqb e entry && entryT_eqb e e'
  | entryLeftBodyDelim, Some ItemLeftDelim, entryFieldText =>
      entryT_eqb e preamble && entryT_eqb e e'
  | entryLeftBodyDelim, Some ItemLeftDelim, entryFieldType =>
      entryT_eqb e abbrev && entryT_eqb e e'
  | entryCiteKey, Some ItemCiteKey, entryComma => entryT_eqb e e'
  | entryComma, Some ItemComma, entryTypeOrBrace => entryT_eqb e e'
  | entryTypeOrBrace, None, entryRightBodyDelim => entryT_eqb e e'
  | entryTypeOrBrace, None, entryComment => entryT_eqb e e'
  | entryTypeOrBrace, None, entryFieldType => entryT_eqb e e'
  | entryComment, None, entryComment => entryT_eqb e e'
  | entryComment, None, entryRightBodyDelim => entryT_eqb e e'
  | entryComment, None, entryFieldType => entryT_eqb e e'
  | entryComment, Some ItemComment, entryComment => entryT_eqb e e'
  | entryComment, Some ItemComment, entryRightBodyDelim => entryT_eqb e e'
  | entryComment, Some ItemComment, entryFieldType => entryT_eqb e e'
  | entryComment, Some ItemComment, eof => true
  | entryComment, Some ItemComment, err => true
  | entryFieldType, Some ItemFieldType, entryEqSgn => entryT_eqb e e'
  | entryEqSgn, Some ItemEqSgn, entryFieldText => entryT_eqb e e'
  | entryFieldText, Some ItemFieldText, entryRightBodyDelim => entryT_eqb e e'
  | entryFieldText, Some ItemFieldText, entryComment => entryT_eqb e e'
  | entryFieldText, Some ItemFieldText, entryComma => entryT_eqb e e'
  | entryRightBodyDelim, Some ItemRightDelim, null => entryT_eqb e e'
  | _, _, _ => false
  end.

(* What a state function added to the channel: nothing, or one item of
   kind [t]. *)
Definition sent (before after : list Item) (k : option ItemType) : Prop :=
  match k with
  | None => after = before
  | Some t => exists v, after = before ++ [{| T := t; Val := v |}]
  end.

(** What the caller of Next may expect next. *)
Inductive phase :=
| PTop | PDelim | PType | POpen (e : entryT) | PKey | PKeyComma | PInner
| PFieldType | PEqSgn | PText | PAfterText.

Definition delta (ph : phase) (t : ItemType) : option phase :=
  match ph, t with
  | PTop, ItemComment => Some PDelim
  | PTop, ItemEntryDelim => Some PType
  | PDelim, ItemEntryDelim => Some PType
  | PType, ItemEntry => Some (POpen entry)
  | PType, ItemAbbrev => Some (POpen abbrev)
  | PType, ItemPreamble => Some (POpen preamble)
  | POpen entry, ItemLeftDelim => Some PKey
  | POpen preamble, ItemLeftDelim => Some PText
  | POpen abbrev, ItemLeftDelim => Some PFieldType
  | PKey, ItemCiteKey => Some PKeyComma
  | PKeyComma, ItemComma => Some PInner
  | PInner, ItemComment => Some PInner
  | PInner, ItemFieldType => Some PEqSgn
  | PInner, ItemRightDelim => Some PTop
  | PFieldType, ItemFieldType => Some PEqSgn
  | PEqSgn, ItemEqSgn => Some PText
  | PText, ItemFieldText => Some PAfterText
  | PAfterText, ItemRightDelim => Some PTop
  | PAfterText, ItemComment => Some PInner
  | PAfterText, ItemComma => Some PInner
  | PAfterText, ItemFieldType => Some PEqSgn
  | _, _ => None
  end.

Fixpoint accepted (ph : phase) (toks : list Item) : bool :=
  match toks with
  | [] => true
  | i :: l =>
      match delta ph (T i) with
      | Some ph' => accepted ph' l
      | None => false
      end
  end.

(* The states a scanner with an empty channel can be in when its caller is
   in phase [ph]. *)
Definition sim (ph : phase) (st : state) (e : entryT) : bool :=
  match st with
  | eof | err => true
  | _ =>
      match ph, st with
      | PTop, null | PTop, topLvlComment | PTop, entryDelim => true
      | PDelim, entryDelim => true
      | PType, entryType => true
      | POpen e0, entryLeftBodyDelim => entryT_eqb e0 e
      | PKey, entryCiteKey => true
      | PKeyComma, entryComma => true
      | PInner, entryTypeOrBrace | PInner, entryComment
      | PInner, entryRightBodyDelim | PInner, entryFieldType => true
      | PFieldType, entryFieldType => true
      | PEqSgn, entryEqSgn => true
      | PText, entryFieldText => true
      | PAfterText, entryRightBodyDelim | PAfterText, entryComment
      | PAfterText, entryComma | PAfterText, entryFieldType => true
      | _, _ => false
      end
  end.

(* The nesting depth the scanner holds in each state. *)
Definition depth_ok (st : state) (b : Z) : Prop :=
  match st with
  | null | topLvlComment | entryDelim | entryType | entryLeftBodyDelim => b = 0
  | eof | err => 0 <= b
  | _ => b = 1
  end.

(* What a state function does, as an edge of the state diagram. *)
Definition edge_from (st : state) (s : Scanner) (r : state * Scanner) : Prop :=
  exists k, sent (items s) (items (snd r)) k /\
            edge st (cur_entryT s) k (fst r) (cur_entryT (snd r)) = true.
End GraphDefs.

Section ReachDefs.
Variable U : Unicode.
Import Scan.

(** The scanners that calls of Next lead to from NewScanner: Next receives
    an item if one is buffered, and otherwise runs the state function of the
    current state. *)
Inductive reachable : Scanner -> Prop :=
| reach_new r : reachable (NewScanner r)
| reach_run s : reachable s -> items s = [] -> reachable (step U s)
| reach_receive s i q : reachable s -> items s = i :: q -> reachable (with_items s q).
End ReachDefs.

(** ** Notions for what the parser builds *)

Section ContentDefs.
Import Scan Parse.

Definition is_field_type (i : Item) : bool :=
  match T i with
  | ItemFieldType => true
  | _ => false
  end.

Definition is_field_text (i : Item) : bool :=
  match T i with
  | ItemFieldText => true
  | _ => false
  end.

(* The items before the first closing delimiter. *)
Fixpoint body_of (toks : list Item) : list Item :=
  match toks with
  | [] => []
  | i :: l =>
      match T i with
      | ItemRightDelim => []
      | _ => i :: body_of l
      end
  end.

(** The fields of an entry in the words of the specification: each
    field-text item is paired with the last field-type item since the
    previous field text, [key] being the one pending before [body]. *)
Fixpoint pair_fields (key : gostring) (body : list Item) : list FieldStmt :=
  match body with
  | [] => []
  | i :: l =>
      match T i with
      | ItemFieldType => pair_fields (Val i) l
      | ItemFieldText => {| Key := key; Value := Val i |} :: pair_fields [] l
      | _ => pair_fields key l
      end
  end.

(* The text of the last item of a kind, [v] if there is none. *)
Definition last_val (f : Item -> bool) (body : list Item) (v : gostring) : gostring :=
  last (map Val (filter f body)) v.

(* The leading comment items dropped. *)
Fixpoint skip_comments (toks : list Item) : list Item :=
  match toks with
  | [] => []
  | i :: l => if is_comment i then skip_comments l else toks
  end.

(* The body of the first declaration among [toks]: after the comments, the
   entry delimiter, the keyword and the item in delimiter position, up to
   the first closing delimiter. *)
Definition decl_items (toks : list Item) : list Item :=
  body_of (skipn 3 (skip_comments toks)).

(** What a declaration holds, as a function of the items it was parsed
    from. *)
Definition built_from (toks : list Item) (nd : Node) : Prop :=
  match nd with
  | NEntry d => Fields d = pair_fields [] (decl_items toks)
  | NAbbrev d =>
      Field d = if existsb is_field_text (decl_items toks)
                then Some {| Key := last_val is_field_type (decl_items toks) [];
                             Value := last_val is_field_text (decl_items toks) [] |}
                else None
  | NPreamble d => PreambleValue d = last_val is_field_text (decl_items toks) []
  | NBadDecl => False
  end.

(* The items that the loop of entry goes over. *)
Definition is_entry_item (i : Item) : bool :=
  match T i with
  | ItemComment | ItemFieldType | ItemFieldText | ItemComma | ItemEqSgn => true
  | _ => false
  end.
End ContentDefs.

Section WellFormedDefs.
Variable U : Unicode.
Import Scan Parse.

(* What the scanner lets through as a field text. *)
Definition valid_text (v : gostring) : Prop :=
  isValidInt U v = true \/ isProperQuoted v = true.

(** A declaration as the command expects it: a comment group is attached,
    every field has a NAME as key and a checked text as value, an
    abbreviation has its field and a preamble its value. *)
Definition well_formed (nd : Node) : Prop :=
  node_comments nd <> None /\
  match nd with
  | NEntry d =>
      Forall (fun f => IsValidName U (Key f) = true /\ valid_text (Value f)) (Fields d)
  | NAbbrev d =>
      exists f, Field d = Some f /\ IsValidName U (Key f) = true /\ valid_text (Value f)
  | NPreamble d => valid_text (PreambleValue d)
  | NBadDecl => False
  end.

(* The phase after the items [l]. *)
Fixpoint after (ph : phase) (l : list Item) : option phase :=
  match l with
  | [] => Some ph
  | i :: l' =>
      match delta ph (T i) with
      | Some ph' => after ph' l'
      | None => None
      end
  end.

(* What the parser built a declaration from: a chunk of the items shaped as
   [attached] says, and the declaration holds what [built_from] says. *)
Definition parsed_from (chunk : list Item) (nd : Node) : Prop :=
  attached U chunk nd /\ built_from chunk nd /\
  match nd with
  | NEntry d => Forall (fun f => FieldStmt_ok f = true) (Fields d)
  | _ => True
  end.
End WellFormedDefs.

(** ** Notions for what the scanner reads and sends *)

Section ShapeDefs.
Variable U : Unicode.
Import Scan.

(* No white space at either end. *)
Definition trimmed (v : gostring) : Prop :=
  match v with
  | [] => True
  | x :: l => IsSpace U x = false /\ IsSpace U (last l x) = false
  end.

(** The text that an item of each kind carries. *)
Definition text_shape (i : Item) : Prop :=
  match T i with
  | ItemEOF | ItemErr => Val i = []
  | ItemEntryDelim => Val i = [r_at]
  | ItemLeftDelim => Val i = [r_lbrace] \/ Val i = [r_lparen]
  | ItemRightDelim => Val i = [r_rbrace] \/ Val i = [r_rparen]
  | ItemComma => Val i = [r_comma]
  | ItemEqSgn => Val i = [r_eq]
  | ItemPreamble => trimmed (Val i) /\ ToLower U (Val i) = runes "preamble"
  | ItemAbbrev => trimmed (Val i) /\ ToLower U (Val i) = runes "string"
  | ItemEntry =>
      trimmed (Val i) /\ ToLower U (Val i) <> runes "preamble" /\
      ToLower U (Val i) <> runes "string"
  | ItemComment | ItemCiteKey | ItemFieldType | ItemFieldText => trimmed (Val i)
  | _ => False
  end.

(* A state function sent nothing, or one item with the text of its kind. *)
Definition sends_shaped (s : Scanner) (r : state * Scanner) : Prop :=
  items (snd r) = items s \/
  exists i, items (snd r) = items s ++ [i] /\ text_shape i.
End ShapeDefs.

Section ReadDefs.
Import Scan.

(* The depth of braces after the runes [l], [d] braces being open before
   them; [None] if a closing brace comes with no brace open. *)
Fixpoint brace_depth (d : Z) (l : list rune) : option Z :=
  match l with
  | [] => Some d
  | c :: l' =>
      if c =? r_lbrace then brace_depth (d + 1) l'
      else if c =? r_rbrace then
        if d >? 0 then brace_depth (d - 1) l' else None
      else brace_depth d l'
  end.
End ReadDefs.

(** ** Notions for the end of the items and of the input *)

Section EndDefs.
Import Scan Parse.

(* The parser [p] on a scannable that ends its items the other way. *)
Definition with_failing (p : Parser) (f : bool) : Parser :=
  {| scanner := {| upcoming := upcoming (scanner p); failing := f |};
     nodes := nodes p; closed := closed p; comments := comments p;
     currDecl := currDecl p; cur_state := Parse.cur_state p |}.

Definition sink (st : Parse.state) : bool :=
  match st with
  | Parse.err | Parse.eof => true
  | _ => false
  end.

(* The same state, or two states among err and eof. *)
Definition same_or_sinks (a b : Parse.state) : Prop :=
  a = b \/ (sink a = true /\ sink b = true).

(* Two parsers that differ at most in how their scannables end and, once
   both are in err or eof, in which of the two states they are. *)
Definition alike (p q : Parser) : Prop :=
  upcoming (scanner p) = upcoming (scanner q) /\ nodes p = nodes q /\
  closed p = closed q /\ comments p = comments q /\ currDecl p = currDecl q /\
  same_or_sinks (Parse.cur_state p) (Parse.cur_state q).

(* The result of a state function on the two parsers. *)
Definition results_alike (r1 r2 : Parse.state * Parser) (f : bool) : Prop :=
  snd r2 = with_failing (snd r1) f /\ same_or_sinks (fst r1) (fst r2).
End EndDefs.

Section ReadEndDefs.
Import Scan.

(* The scanner [s] on a reader that ends its runes the other way. *)
Definition with_broken (s : Scanner) (b : bool) : Scanner :=
  {| reader := {| rest := rest (reader s); broken := b |};
     items := items s; cur_state := cur_state s; bracers := bracers s;
     cur_entryT := cur_entryT s; delim := delim s |}.

Definition scan_sink (st : state) : bool :=
  match st with
  | err | eof => true
  | _ => false
  end.

(* The same state, or two states among err and eof. *)
Definition same_or_scan_sinks (a b : state) : Prop :=
  a = b \/ (scan_sink a = true /\ scan_sink b = true).

(* The same item, or two terminal items. *)
Definition item_alike (a b : Item) : Prop :=
  a = b \/ (is_terminal a = true /\ is_terminal b = true).

(* Two scanners that differ at most in how their readers end, in which of
   err and eof they are in, and in which terminal items they have sent. *)
Definition scan_alike (s1 s2 : Scanner) : Prop :=
  rest (reader s1) = rest (reader s2) /\ bracers s1 = bracers s2 /\
  cur_entryT s1 = cur_entryT s2 /\ delim s1 = delim s2 /\
  Forall2 item_alike (items s1) (items s2) /\
  same_or_scan_sinks (cur_state s1) (cur_state s2).

(* The result of a state function on the two scanners. *)
Definition scan_results_alike (r1 r2 : state * Scanner) (b : bool) : Prop :=
  snd r2 = with_broken (snd r1) b /\ same_or_scan_sinks (fst r1) (fst r2).
End ReadEndDefs.

(** ** Notions for the end of the input and for whole inputs *)

Section EndOfInputDefs.
Variable U : Unicode.
Import Scan.

(* The loop after the label cont of entryComment meets no rune at which it
   returns. *)
Fixpoint cont_reads_on (rs : list rune) : bool :=
  match rs with
  | [] => true
  | c :: rs' =>
      if c =? r_percent then false
      else if isDelim c then false
      else if IsValidNameRune U c then false
      else cont_reads_on rs'
  end.

(* The two loops of entryComment: up to the end of the line, then the loop
   after cont. *)
Fixpoint comment_reads_on (rs : list rune) : bool :=
  match rs with
  | [] => true
  | c :: rs' => if c =? r_newline then cont_reads_on rs' else comment_reads_on rs'
  end.

(* The runes at which the one loop of a state function returns, with a next
   state or with err. *)
Definition stops_at (st : state) (c : rune) : bool :=
  match st with
  | topLvlComment | entryDelim => c =? r_at
  | entryType | entryLeftBodyDelim => is_opener c
  | entryRightBodyDelim => is_closer c
  | entryCiteKey | entryComma => c =? r_comma
  | entryFieldType | entryEqSgn => c =? r_eq
  | entryTypeOrBrace => is_closer c || (c =? r_percent) || IsValidNameRune U c
  | _ => true
  end.

(** The state function of the current state reads the runes left up to
    the end of the input: no rune makes it return. For entryFieldText this
    follows the brace depth and the quote counter as the loop does. *)
Definition reads_on (s : Scanner) : bool :=
  match cur_state s with
  | null | eof | err => false
  | entryComment => comment_reads_on (rest (reader s))
  | entryFieldText =>
      match fieldText_reads s (rest (reader s)) 0 0 with
      | Some _ => true
      | None => false
      end
  | st => forallb (fun c => negb (stops_at st c)) (rest (reader s))
  end.

(* What a state function that read on to the end has done. *)
Definition read_to_end (s : Scanner) (r : state * Scanner) : Prop :=
  fst r = checkErr (exhausted (reader s)) /\ rest (reader (snd r)) = [] /\
  broken (reader (snd r)) = broken (reader s) /\
  (items (snd r) = items s \/
   (cur_state s = entryComment /\
    exists v, items (snd r) = items s ++ [{| T := ItemComment; Val := v |}])).

(* The phases of the caller inside a body. *)
Definition in_body (ph : phase) : bool :=
  match ph with
  | PTop | PDelim | PType | POpen _ => false
  | _ => true
  end.

(* The rune of the latest opening-delimiter item of [l], [d] if none. *)
Fixpoint opener_after (d : rune) (l : list Item) : rune :=
  match l with
  | [] => d
  | i :: l' =>
      match T i with
      | ItemLeftDelim => opener_after (hd d (Val i)) l'
      | _ => opener_after d l'
      end
  end.

(* An item that is no body delimiter. *)
Definition no_delim (i : Item) : Prop := T i <> ItemLeftDelim /\ T i <> ItemRightDelim.

(** The scanner on the input [r] once its caller has received the items
    [l]: Next runs the state function of the current state; when that sent
    nothing, Next runs the next one, and when it sent an item, Next returns
    it. *)
Inductive reached (r : Reader) : list Item -> Scanner -> Prop :=
| reached_new : reached r [] (NewScanner r)
| reached_quiet l s :
    reached r l s -> items (step U s) = [] -> reached r l (step U s)
| reached_item l s i :
    reached r l s -> items (step U s) = [i] ->
    reached r (l ++ [i]) (with_items (step U s) []).
End EndOfInputDefs.

Section LiveDefs.
Import Scan Parse.

(* No keyword item among [l] is that of an abbreviation or of a preamble. *)
Definition only_entries (l : list Item) : Prop :=
  Forall (fun i => T i <> ItemAbbrev /\ T i <> ItemPreamble) l.

(* The state the parser moves to on the terminal item of its scannable. *)
Definition end_state (failed : bool) : Parse.state :=
  if failed then Parse.err else Parse.eof.
End LiveDefs.

(** ** The scanner sends at most one item per state function and always
       makes progress *)

Section ScanProgress.
Variable U : Unicode.
Import Scan.

Lemma TrimSpace_nil : TrimSpace U [] = [].
Proof. reflexivity. Qed.

Lemma TrimSpace_nonempty (buf : gostring) : TrimSpace U buf <> [] -> buf <> [].
Proof. intros H E. subst buf. apply H. reflexivity. Qed.

Lemma IsValidName_nonempty (s : gostring) : IsValidName U s = true -> s <> [].
Proof. destruct s; simpl; congruence. Qed.

Lemma isValidInt_nonempty (s : gostring) : isValidInt U s = true -> s <> [].
Proof. destruct s; simpl; congruence. Qed.

Lemma isProperQuoted_nonempty (s : gostring) : isProperQuoted s = true -> s <> [].
Proof. destruct s; simpl; congruence. Qed.

Lemma buffered_consumed (rs buf : gostring) (c : rune) :
  buf <> [] -> (List.length (c :: rs) < List.length (c :: rs) + List.length buf)%nat.
Proof. destruct buf; simpl; [congruence | lia]. Qed.

Lemma outcome_mono k s n m r : (n <= m)%nat -> outcome U k s n r -> outcome U k s m r.
Proof.
  intros Hle [Hb [[Hi Hw] | [i [Hi [Hok Hl]]]]]; split; auto.
  - left. split; auto. lia.
  - right. exists i. repeat split; auto. lia.
Qed.

Lemma outcome_end k s n :
  (0 < k)%nat -> outcome U k s n (checkErr (exhausted (reader s)), with_rest s []).
Proof.
  intros Hk. split; [reflexivity|]. left. split; [reflexivity|].
  unfold exhausted. destruct (broken (reader s)); simpl; lia.
Qed.

(* Loops that buffer what they read have consumed as many runes as the
   buffer holds. *)
Ltac buffer_step IH :=
  eapply outcome_mono; [| apply IH]; rewrite length_app; simpl; lia.

Lemma topLvlComment_outcome rs : forall s buf,
  outcome U 2 s (List.length rs + List.length buf) (topLvlComment_loop U s rs buf).
Proof.
  induction rs as [|c rs IH]; intros s buf; simpl topLvlComment_loop.
  - apply outcome_end; lia.
  - destruct (c =? 64).
    + destruct (TrimSpace U buf) as [|x b] eqn:E.
      * split; [reflexivity|]. left. split; [reflexivity|]. simpl. lia.
      * split; [reflexivity|]. right. eexists. split; [reflexivity|].
        split; [unfold token_ok; simpl; congruence|].
        apply buffered_consumed. apply TrimSpace_nonempty. congruence.
    + buffer_step IH.
Qed.

Lemma entryDelim_outcome rs : forall s, outcome U 1 s (List.length rs) (entryDelim_loop s rs).
Proof.
  induction rs as [|c rs IH]; intros s; simpl entryDelim_loop.
  - apply outcome_end; lia.
  - destruct (c =? 64).
    + split; [reflexivity|]. right. eexists. split; [reflexivity|].
      split; [exact I | simpl; lia].
    + eapply outcome_mono; [| apply IH]. simpl; lia.
Qed.

Lemma entryType_outcome rs : forall s buf,
  outcome U 1 s (List.length rs + List.length buf) (entryType_loop U s rs buf).
Proof.
  induction rs as [|c rs IH]; intros s buf; simpl entryType_loop.
  - apply outcome_end; lia.
  - destruct ((c =? 123) || (c =? 40)).
    + destruct (IsValidName U (TrimSpace U buf)) eqn:V;
        destruct (gostring_eqb (ToLower U (TrimSpace U buf)) (runes "preamble"));
        try destruct (gostring_eqb (ToLower U (TrimSpace U buf)) (runes "string"));
        cbn [negb];
        try (split; [reflexivity|]; left; split; [reflexivity|]; simpl; lia);
        (split; [reflexivity|]; right; eexists; split; [reflexivity|];
         split; [unfold token_ok; simpl; exact V|];
         apply buffered_consumed, TrimSpace_nonempty, IsValidName_nonempty; exact V).
    + buffer_step IH.
Qed.

Lemma leftBodyDelim_outcome rs : forall s,
  outcome U 1 s (List.length rs) (leftBodyDelim_loop s rs).
Proof.
  induction rs as [|c rs IH]; intros s; simpl leftBodyDelim_loop.
  - apply outcome_end; lia.
  - destruct ((c =? 123) || (c =? 40)).
    + split; [reflexivity|]. right. eexists. split; [reflexivity|].
      split; [exact I | simpl; lia].
    + eapply outcome_mono; [| apply IH]. simpl; lia.
Qed.

Lemma rightBodyDelim_outcome rs : forall s,
  outcome U 1 s (List.length rs) (rightBodyDelim_loop s rs).
Proof.
  induction rs as [|c rs IH]; intros s; simpl rightBodyDelim_loop.
  - apply outcome_end; lia.
  - destruct ((c =? 125) || (c =? 41)).
    + destruct (delimsMatch (delim s) c); cbn [negb].
      * split; [reflexivity|]. right. eexists. split; [reflexivity|].
        split; [exact I | simpl; lia].
      * split; [reflexivity|]. left. split; [reflexivity|]. simpl; lia.
    + eapply outcome_mono; [| apply IH]. simpl; lia.
Qed.

Lemma citeKey_outcome rs : forall s buf,
  outcome U 1 s (List.length rs + List.length buf) (citeKey_loop U s rs buf).
Proof.
  induction rs as [|c rs IH]; intros s buf; simpl citeKey_loop.
  - apply outcome_end; lia.
  - destruct (c =? 44).
    + destruct (IsValidName U (TrimSpace U buf)) eqn:V; cbn [negb].
      * split; [reflexivity|]. right. eexists. split; [reflexivity|].
        split; [unfold token_ok; simpl; exact V|].
        apply buffered_consumed, TrimSpace_nonempty, IsValidName_nonempty; exact V.
      * split; [reflexivity|]. left. split; [reflexivity|]. simpl; lia.
    + buffer_step IH.
Qed.

Lemma entryComma_outcome rs : forall s,
  outcome U 1 s (List.length rs) (entryComma_loop s rs).
Proof.
  induction rs as [|c rs IH]; intros s; simpl entryComma_loop.
  - apply outcome_end; lia.
  - destruct (c =? 44).
    + split; [reflexivity|]. right. eexists. split; [reflexivity|].
      split; [exact I | simpl; lia].
    + eapply outcome_mono; [| apply IH]. simpl; lia.
Qed.

Lemma entryComment_cont_quiet rs : forall s r,
  r = entryComment_cont U s rs ->
  broken (reader (snd r)) = broken (reader s) /\ items (snd r) = items s /\
  (List.length (rest (reader (snd r))) <= List.length rs)%nat /\ (rank (fst r) <= 1)%nat.
Proof.
  induction rs as [|c rs IH]; intros s r ->; simpl entryComment_cont.
  - repeat split; try reflexivity; unfold exhausted; destruct (broken (reader s)); simpl; lia.
  - destruct (c =? 37); [simpl; repeat split; try reflexivity; lia|].
    destruct (isDelim c); [simpl; repeat split; try reflexivity; lia|].
    destruct (IsValidNameRune U c); [simpl; repeat split; try reflexivity; lia|].
    destruct (IH s _ eq_refl) as (Hb & Hi & Hl & Hr). simpl. repeat split; auto; lia.
Qed.

Lemma entryComment_outcome rs : forall s buf,
  outcome U 1 s (List.length rs + List.length buf) (entryComment_loop U s rs buf).
Proof.
  induction rs as [|c rs IH]; intros s buf; simpl entryComment_loop.
  - apply outcome_end; lia.
  - destruct (c =? 10).
    + destruct (TrimSpace U buf) as [|x b] eqn:E.
      * destruct (entryComment_cont_quiet rs s _ eq_refl) as (Hb & Hi & Hl & Hr).
        split; [exact Hb|]. left. split; [exact Hi|]. simpl; lia.
      * set (i := {| T := ItemComment; Val := x :: b |}).
        destruct (entryComment_cont_quiet rs (send s i) _ eq_refl) as (Hb & Hi & Hl & Hr).
        split; [exact Hb|]. right. exists i. split; [exact Hi|].
        split; [unfold token_ok; simpl; congruence | simpl; lia].
    + buffer_step IH.
Qed.

Lemma entryTypeOrBrace_outcome rs : forall s,
  outcome U 2 s (List.length rs) (entryTypeOrBrace_loop U s rs).
Proof.
  induction rs as [|c rs IH]; intros s; simpl entryTypeOrBrace_loop.
  - apply outcome_end; lia.
  - destruct ((c =? 125) || (c =? 41)).
    { split; [reflexivity|]. left. split; [reflexivity|]. simpl; lia. }
    destruct (c =? 37).
    { split; [reflexivity|]. left. split; [reflexivity|]. simpl; lia. }
    destruct (IsValidNameRune U c).
    { split; [reflexivity|]. left. split; [reflexivity|]. simpl; lia. }
    eapply outcome_mono; [| apply IH]. simpl; lia.
Qed.

Lemma entryFieldType_outcome rs : forall s buf,
  outcome U 1 s (List.length rs + List.length buf) (entryFieldType_loop U s rs buf).
Proof.
  induction rs as [|c rs IH]; intros s buf; simpl entryFieldType_loop.
  - apply outcome_end; lia.
  - destruct (c =? 61).
    + destruct (IsValidName U (TrimSpace U buf)) eqn:V; cbn [negb].
      * split; [reflexivity|]. right. eexists. split; [reflexivity|].
        split; [unfold token_ok; simpl; exact V|].
        apply buffered_consumed, TrimSpace_nonempty, IsValidName_nonempty; exact V.
      * split; [reflexivity|]. left. split; [reflexivity|]. simpl; lia.
    + buffer_step IH.
Qed.

Lemma entryEqSgn_outcome rs : forall s,
  outcome U 1 s (List.length rs) (entryEqSgn_loop s rs).
Proof.
  induction rs as [|c rs IH]; intros s; simpl entryEqSgn_loop.
  - apply outcome_end; lia.
  - destruct (c =? 61).
    + split; [reflexivity|]. right. eexists. split; [reflexivity|].
      split; [exact I | simpl; lia].
    + eapply outcome_mono; [| apply IH]. simpl; lia.
Qed.

Lemma fieldText_valid_nonempty (buf : gostring) :
  negb (isValidInt U (TrimSpace U buf)) && negb (isProperQuoted (TrimSpace U buf)) = false ->
  (isValidInt U (TrimSpace U buf) = true \/ isProperQuoted (TrimSpace U buf) = true) /\
  buf <> [].
Proof.
  intros H.
  assert (V : isValidInt U (TrimSpace U buf) = true \/ isProperQuoted (TrimSpace U buf) = true).
  { destruct (isValidInt U (TrimSpace U buf)); [now left|].
    destruct (isProperQuoted (TrimSpace U buf)); [now right | discriminate]. }
  split; [exact V|]. apply TrimSpace_nonempty.
  destruct V; [eapply isValidInt_nonempty | eapply isProperQuoted_nonempty]; eassumption.
Qed.

Lemma fieldText_finish_outcome s buf next consumed after n :
  (rank next <= 1)%nat ->
  (List.length consumed < n)%nat ->
  (buf <> [] -> (List.length after < n)%nat) ->
  outcome U 1 s n (fieldText_finish U s buf next consumed after).
Proof.
  intros Hr Hc Ha. unfold fieldText_finish.
  destruct (negb (isValidInt U (TrimSpace U buf)) && negb (isProperQuoted (TrimSpace U buf))) eqn:E.
  - split; [reflexivity|]. left. split; [reflexivity|]. simpl; lia.
  - destruct (fieldText_valid_nonempty buf E) as [V Hne].
    split; [reflexivity|]. right. eexists. split; [reflexivity|].
    split; [exact V | simpl; auto].
Qed.

Lemma entryFieldText_outcome rs : forall s buf quotes prev,
  outcome U 1 s (List.length rs + List.length buf)
          (entryFieldText_loop U s rs buf quotes prev).
Proof.
  induction rs as [|c rs IH]; intros s buf quotes prev; simpl entryFieldText_loop.
  - apply outcome_end; lia.
  - destruct (c =? 123).
    { eapply outcome_mono; [| exact (IH (with_bracers s (bracers s + 1)) (buf ++ [c]) quotes c)].
      rewrite length_app; simpl; lia. }
    destruct (c =? 34). { buffer_step IH. }
    destruct (((c =? 125) || (c =? 41)) && (bracers s =? 1)).
    { apply fieldText_finish_outcome; simpl; try lia.
      intros Hne. destruct buf; [congruence | simpl; lia]. }
    destruct ((c =? 37) && (bracers s =? 1)).
    { apply fieldText_finish_outcome; simpl; lia. }
    destruct ((c =? 125) && (bracers s >? 0)).
    { eapply outcome_mono; [| exact (IH (with_bracers s (bracers s - 1)) (buf ++ [c]) quotes c)].
      rewrite length_app; simpl; lia. }
    destruct ((c =? 44) && (Z.rem quotes 2 =? 0) && (bracers s =? 1)).
    { apply fieldText_finish_outcome; simpl; try lia.
      intros Hne. destruct buf; [congruence | simpl; lia]. }
    buffer_step IH.
Qed.

(** Every state function but the two sinks sends at most one item, a proper
    one, and either sends it or lowers the weight of the scanner. *)
Lemma states_outcome (s : Scanner) :
  cur_state s <> eof -> cur_state s <> err ->
  outcome U (rank (cur_state s)) s (List.length (rest (reader s)))
          (states U (cur_state s) s).
Proof.
  intros He Hr. destruct (cur_state s) eqn:St; try congruence; simpl states.
  - split; [reflexivity|]. left. split; [reflexivity|]. simpl; lia.
  - apply entryDelim_outcome.
  - eapply outcome_mono; [| apply (topLvlComment_outcome (rest (reader s)) s [])]. simpl; lia.
  - eapply outcome_mono; [| apply (entryComment_outcome (rest (reader s)) s [])]. simpl; lia.
  - eapply outcome_mono; [| apply (entryType_outcome (rest (reader s)) s [])]. simpl; lia.
  - apply leftBodyDelim_outcome.
  - eapply outcome_mono; [| apply (citeKey_outcome (rest (reader s)) s [])]. simpl; lia.
  - apply entryComma_outcome.
  - eapply outcome_mono; [| apply (entryFieldType_outcome (rest (reader s)) s [])]. simpl; lia.
  - apply rightBodyDelim_outcome.
  - apply entryEqSgn_outcome.
  - eapply outcome_mono; [| apply (entryFieldText_outcome (rest (reader s)) s [] 0 0)]. simpl; lia.
  - apply entryTypeOrBrace_outcome.
Qed.

Lemma Next_fuel_ready n s i q :
  items s = i :: q -> Next_fuel U n s = Some (i, with_items s q).
Proof. intros H. destruct n; simpl; rewrite H; reflexivity. Qed.

Lemma Next_fuel_step n s :
  items s = [] -> Next_fuel U (S n) s = Next_fuel U n (step U s).
Proof. intros H. simpl. rewrite H. reflexivity. Qed.

(* More turns never change what Next returns. *)
Lemma Next_fuel_mono n : forall s r m,
  Next_fuel U n s = Some r -> (n <= m)%nat -> Next_fuel U m s = Some r.
Proof.
  induction n as [|n IH]; intros s r m H Hle.
  - simpl in H. destruct (items s) eqn:E; [discriminate|].
    rewrite (Next_fuel_ready m s i l E). exact H.
  - destruct (items s) eqn:E.
    + destruct m as [|m]; [lia|]. rewrite Next_fuel_step in * by exact E.
      apply IH; [exact H | lia].
    + rewrite (Next_fuel_ready (S n) s i l E) in H.
      rewrite (Next_fuel_ready m s i l E). exact H.
Qed.

Lemma step_progress (s : Scanner) :
  items s = [] -> cur_state s <> eof -> cur_state s <> err ->
  broken (reader (step U s)) = broken (reader s) /\
  ((items (step U s) = [] /\ (weight (step U s) < weight s)%nat) \/
   (exists i, items (step U s) = [i] /\ token_ok U i /\
              (List.length (rest (reader (step U s))) < List.length (rest (reader s)))%nat)).
Proof.
  intros Hi He Hr. pose proof (states_outcome s He Hr) as O.
  unfold step, weight. destruct (states U (cur_state s) s) as [st' s'].
  destruct O as [Hb [[Hq Hlt] | [i [Hq [Hok Hlt]]]]]; simpl in *.
  - split; [exact Hb|]. left. split; [congruence | exact Hlt].
  - split; [exact Hb|]. right. exists i. rewrite Hq, Hi. auto.
Qed.

(** Next is total: from a scanner with an empty channel, more turns than
    the weight of the scanner always yield an item. *)
Lemma Next_fuel_total : forall m s,
  (weight s < m)%nat -> items s = [] ->
  exists i s', Next_fuel U m s = Some (i, s') /\ Next_spec U s i s'.
Proof.
  induction m as [|m IH]; intros s Hw Hi; [lia|].
  rewrite Next_fuel_step by exact Hi.
  destruct (cur_state s) eqn:St.
  15: { exists {| T := ItemErr; Val := [] |}.
        exists (with_items (step U s) []).
        split; [apply Next_fuel_ready; unfold step; rewrite St; simpl; rewrite Hi; reflexivity|].
        unfold step; rewrite St. split; [reflexivity|]. split; [reflexivity|].
        right. left. split; reflexivity. }
  14: { exists {| T := ItemEOF; Val := [] |}.
        exists (with_items (step U s) []).
        split; [apply Next_fuel_ready; unfold step; rewrite St; simpl; rewrite Hi; reflexivity|].
        unfold step; rewrite St. split; [reflexivity|]. split; [reflexivity|].
        left. split; reflexivity. }
  all: destruct (step_progress s Hi) as [Hb [[Hq Hlt] | [i [Hq [Hok Hlt]]]]];
    try congruence;
    [ destruct (IH (step U s)) as (i & s'' & HN & Hs & Hb' & Hsp); [lia | exact Hq |];
      exists i, s''; split; [exact HN|]; split; [exact Hs|]; split; [congruence|];
      destruct Hsp as [Hsp | [Hsp | [Hsp Hl]]]; auto;
      right; right; split; [exact Hsp|];
      unfold weight in Hlt; rewrite St in Hlt;
      assert (rank (cur_state (step U s)) <= 3)%nat
        by (destruct (cur_state (step U s)); simpl; lia);
      simpl rank in Hlt; lia
    | exists i, (with_items (step U s) []); split;
      [ apply Next_fuel_ready; exact Hq
      | split; [reflexivity|]; split; [exact Hb|];
        right; right; split; [exact Hok | exact Hlt] ] ].
Qed.

Lemma sink_fixed (s : Scanner) (i : Item) :
  items s = [] ->
  (i = {| T := ItemEOF; Val := [] |} /\ cur_state s = eof) \/
  (i = {| T := ItemErr; Val := [] |} /\ cur_state s = err) ->
  forall n, (0 < n)%nat -> Next_fuel U n s = Some (i, s).
Proof.
  intros Hi H n Hn. destruct n as [|n]; [lia|].
  rewrite Next_fuel_step by exact Hi.
  destruct s as [rd q st b e d]; simpl in Hi; subst q.
  destruct H as [[-> Hs] | [-> Hs]]; simpl in Hs; subst st;
    apply Next_fuel_ready; reflexivity.
Qed.

Lemma sink_forever (s : Scanner) (i : Item) :
  items s = [] ->
  (i = {| T := ItemEOF; Val := [] |} /\ cur_state s = eof) \/
  (i = {| T := ItemErr; Val := [] |} /\ cur_state s = err) ->
  forall k n, (0 < n)%nat -> Next_iter U n k s = Some (repeat i k, s).
Proof.
  intros Hi H k n Hn. induction k as [|k IH]; simpl; [reflexivity|].
  rewrite (sink_fixed s i Hi H n Hn), IH. reflexivity.
Qed.

Lemma terminal_not_ok (i : Item) : is_terminal i = true -> ~ token_ok U i.
Proof. unfold is_terminal, token_ok. destruct (T i); intros H; try discriminate; tauto. Qed.

(** C8. Called on a scanner whose channel is empty, as it is after
    NewScanner and after every call, Next returns one item: it returns with
    any number of turns above the weight of the scanner, and never anything
    else with other numbers of turns. It leaves the channel empty. If the
    item is ItemEOF or ItemErr, every later call returns that same terminal
    item and leaves the scanner as it is: the sinks are never left and no
    other item follows. *)
Theorem Next_one_item_sinks_stable (s : Scanner) :
  items s = [] ->
  exists i s',
    (forall n, (weight s < n)%nat -> Next_fuel U n s = Some (i, s')) /\
    (forall n r, Next_fuel U n s = Some r -> r = (i, s')) /\
    items s' = [] /\
    (is_terminal i = true ->
     (cur_state s' = eof \/ cur_state s' = err) /\
     forall k n, (0 < n)%nat -> Next_iter U n k s' = Some (repeat i k, s')).
Proof.
  intros Hi.
  destruct (Next_fuel_total (S (weight s)) s (Nat.lt_succ_diag_r _) Hi)
    as (i & s' & HN & Hq & Hb & Hsp).
  exists i, s'. split; [|split; [|split]].
  - intros n Hn. apply (Next_fuel_mono _ _ _ _ HN). lia.
  - intros n r Hr.
    pose proof (Next_fuel_mono _ _ _ (Nat.max n (S (weight s))) Hr (Nat.le_max_l _ _)) as H1.
    pose proof (Next_fuel_mono _ _ _ (Nat.max n (S (weight s))) HN (Nat.le_max_r _ _)) as H2.
    congruence.
  - exact Hq.
  - intros Ht. destruct Hsp as [Hsp | [Hsp | [Hok _]]].
    + split; [left; apply Hsp|]. apply sink_forever; auto.
    + split; [right; apply Hsp|]. apply sink_forever; auto.
    + exfalso. exact (terminal_not_ok i Ht Hok).
Qed.

Lemma run_fuel_mono n : forall s sc m,
  run_fuel U n s = Some sc -> (n <= m)%nat -> run_fuel U m s = Some sc.
Proof.
  induction n as [|n IH]; intros s sc m H Hle; [discriminate|].
  destruct m as [|m]; [lia|]. simpl in *.
  destruct (Next_fuel U n s) as [[i s']|] eqn:N; [|discriminate].
  rewrite (Next_fuel_mono _ _ _ m N) by lia.
  destruct (T i); try exact H;
    (destruct (run_fuel U n s') as [sc'|] eqn:R; [|discriminate];
     rewrite (IH _ _ m R) by lia; exact H).
Qed.

(** The run of items of a scanner is finite: at most one proper item per
    rune, then a terminal item. *)
Lemma run_fuel_total : forall m s,
  (S (weight s) < m)%nat -> items s = [] ->
  exists sc, run_fuel U m s = Some sc /\ Forall (token_ok U) (upcoming sc) /\
             (List.length (upcoming sc) <= List.length (rest (reader s)))%nat.
Proof.
  induction m as [|m IH]; intros s Hw Hi; [lia|].
  destruct (Next_fuel_total m s) as (i & s' & HN & Hq & Hb & Hsp); [lia | exact Hi |].
  simpl. rewrite HN.
  destruct Hsp as [[-> Hs] | [[-> Hs] | [Hok Hl]]].
  - eexists; split; [reflexivity|]. simpl. repeat split; auto; lia.
  - eexists; split; [reflexivity|]. simpl. repeat split; auto; lia.
  - destruct (IH s') as (sc & R & Hall & Hlen); [|exact Hq|].
    { unfold weight in *.
      assert (rank (cur_state s') <= 3)%nat by (destruct (cur_state s'); simpl; lia). lia. }
    rewrite R.
    assert (E : forall X (a b c : X),
               match T i with
               | ItemEOF => a | ItemErr => b | _ => c
               end = c).
    { intros. unfold token_ok in Hok. destruct (T i); tauto. }
    rewrite E. eexists; split; [reflexivity|]. simpl.
    repeat split; auto. lia.
Qed.

Lemma Next_fuel_spec n s i s' :
  items s = [] -> Next_fuel U n s = Some (i, s') -> Next_spec U s i s'.
Proof.
  intros Hi H.
  destruct (Next_fuel_total (S (weight s)) s (Nat.lt_succ_diag_r _) Hi)
    as (i0 & s0 & HN & Hsp).
  pose proof (Next_fuel_mono _ _ _ (Nat.max n (S (weight s))) H (Nat.le_max_l _ _)) as H1.
  pose proof (Next_fuel_mono _ _ _ (Nat.max n (S (weight s))) HN (Nat.le_max_r _ _)) as H2.
  congruence.
Qed.

Lemma Next_iter_mono n k : forall s r m,
  Next_iter U n k s = Some r -> (n <= m)%nat -> Next_iter U m k s = Some r.
Proof.
  induction k as [|k IH]; intros s r m H Hle; simpl in *; [exact H|].
  destruct (Next_fuel U n s) as [[i s']|] eqn:N; [|discriminate].
  rewrite (Next_fuel_mono _ _ _ m N Hle).
  destruct (Next_iter U n k s') as [[l s'']|] eqn:R; [|discriminate].
  rewrite (IH _ _ m R Hle). exact H.
Qed.

Lemma Scannable_iter_exhausted k f :
  Scannable_iter k {| upcoming := []; failing := f |} = repeat (terminal f) k.
Proof. induction k as [|k IH]; simpl; [reflexivity | now rewrite IH]. Qed.

(** The list-backed scannable that [run_fuel] computes yields, call after
    call and for ever, the very items that Next yields on the scanner. *)
Lemma run_agrees_with_Next n : forall s sc,
  items s = [] -> run_fuel U n s = Some sc ->
  forall k, exists s', Next_iter U n k s = Some (Scannable_iter k sc, s').
Proof.
  induction n as [|n IH]; intros s sc Hi H k; [discriminate|].
  simpl in H. destruct (Next_fuel U n s) as [[i s']|] eqn:N; [|discriminate].
  destruct k as [|k]; [exists s; reflexivity|].
  pose proof (Next_fuel_spec _ _ _ _ Hi N) as (Hq & Hb & Hsp).
  cbn [Next_iter]. rewrite (Next_fuel_mono _ _ _ (S n) N) by lia.
  destruct Hsp as [[-> Hs] | [[-> Hs] | [Hok Hl]]].
  - simpl in H. injection H as <-. exists s'.
    rewrite (sink_forever s' _ Hq (or_introl (conj eq_refl Hs)) k (S n)) by lia.
    rewrite Scannable_iter_exhausted. reflexivity.
  - simpl in H. injection H as <-. exists s'.
    rewrite (sink_forever s' _ Hq (or_intror (conj eq_refl Hs)) k (S n)) by lia.
    rewrite Scannable_iter_exhausted. reflexivity.
  - destruct (run_fuel U n s') as [sc'|] eqn:R.
    + assert (E : sc = {| upcoming := i :: upcoming sc'; failing := failing sc' |}).
      { unfold token_ok in Hok. destruct (T i); try tauto; congruence. }
      subst sc. destruct (IH s' sc' Hq R k) as (s'' & HI).
      rewrite (Next_iter_mono _ _ _ _ (S n) HI) by lia.
      exists s''. simpl. destruct sc'; reflexivity.
    + exfalso. unfold token_ok in Hok. destruct (T i); try tauto; discriminate.
Qed.
End ScanProgress.

(** ** The field-text state: quote parity and the separating comma *)

Section FieldText.
Variable U : Unicode.
Import Scan.

Lemma toggling_quotes_nonneg rs : forall prev, 0 <= toggling_quotes prev rs.
Proof.
  induction rs as [|c rs IH]; intros prev; simpl; [lia|].
  specialize (IH c). destruct ((c =? 34) && negb (prev =? 92)); lia.
Qed.

Lemma rem2_even (q : Z) : (Z.rem q 2 =? 0) = Z.even q.
Proof.
  destruct (Z.even q) eqn:E.
  - apply Z.eqb_eq. apply Z.even_spec in E. destruct E as [k ->].
    rewrite Z.mul_comm. apply Z.rem_mul. lia.
  - apply Z.eqb_neq. intros H.
    assert (Z.even q = true); [|congruence].
    apply Z.even_spec. exists (Z.quot q 2).
    pose proof (Z.quot_rem' q 2). lia.
Qed.

(* The loop over [pre ++ rs] is the loop over [rs] from where the turns over
   [pre] lead, and the counter is the number of toggling quotes. *)
Lemma fieldText_reads_loop pre : forall s buf quotes prev s' q' prev' rs,
  fieldText_reads s pre quotes prev = Some (s', q', prev') ->
  entryFieldText_loop U s (pre ++ rs) buf quotes prev
  = entryFieldText_loop U s' rs (buf ++ pre) q' prev'
  /\ q' = quotes + toggling_quotes prev pre.
Proof.
  induction pre as [|c pre IH]; intros s buf quotes prev s' q' prev' rs H.
  - simpl in H. injection H as <- <- <-. rewrite app_nil_r. simpl. split; [reflexivity | lia].
  - simpl in H. simpl app. simpl entryFieldText_loop. simpl toggling_quotes.
    unfold is_closer in H.
    replace (buf ++ c :: pre) with ((buf ++ [c]) ++ pre) by (rewrite <- app_assoc; reflexivity).
    destruct (c =? 123) eqn:E1.
    { destruct (IH _ (buf ++ [c]) _ _ _ _ _ rs H) as [-> ->]. split; [reflexivity|].
      apply Z.eqb_eq in E1. subst c. simpl. lia. }
    destruct (c =? 34) eqn:E2.
    { destruct (IH _ (buf ++ [c]) _ _ _ _ _ rs H) as [-> ->]. split; [reflexivity|].
      simpl. destruct (negb (prev =? 92)); lia. }
    destruct (((c =? 125) || (c =? 41)) && (bracers s =? 1)); [discriminate|].
    destruct ((c =? 37) && (bracers s =? 1)); [discriminate|].
    destruct ((c =? 125) && (bracers s >? 0)).
    { destruct (IH _ (buf ++ [c]) _ _ _ _ _ rs H) as [-> ->]. split; [reflexivity|].
      simpl. lia. }
    destruct ((c =? 44) && (Z.rem quotes 2 =? 0) && (bracers s =? 1)); [discriminate|].
    destruct (IH _ (buf ++ [c]) _ _ _ _ _ rs H) as [-> ->]. split; [reflexivity|].
    simpl. lia.
Qed.

(** C7. In the loop of entryFieldText: a quote whose previous rune is a
    backslash leaves the counter as it is, any other quote adds one to it;
    two backslashes before the quote change nothing, the quote is still
    taken as escaped; and, after runes [pre] read from the start of the
    value, a comma at brace depth 1 ends the value exactly when the number
    of toggling quotes in [pre] is even: then the loop finishes at the comma
    (the trimmed buffer is validated and sent, the comma is given back),
    otherwise the comma goes into the buffer and the loop reads on. *)
Theorem fieldText_quote_parity :
  (forall s rs buf q,
      entryFieldText_loop U s (34 :: rs) buf q 92
      = entryFieldText_loop U s rs (buf ++ [34]) q 34) /\
  (forall s rs buf q prev, prev <> 92 ->
      entryFieldText_loop U s (34 :: rs) buf q prev
      = entryFieldText_loop U s rs (buf ++ [34]) (q + 1) 34) /\
  (forall s rs buf q prev,
      entryFieldText_loop U s (92 :: 92 :: 34 :: rs) buf q prev
      = entryFieldText_loop U s rs (buf ++ [92; 92; 34]) q 34) /\
  (forall s pre rs s' q' prev',
      rest (reader s) = pre ++ 44 :: rs ->
      fieldText_reads s pre 0 0 = Some (s', q', prev') ->
      bracers s' = 1 ->
      q' = toggling_quotes 0 pre /\
      (Z.even (toggling_quotes 0 pre) = true ->
       Scanner_entryFieldText U s = fieldText_finish U s' pre entryComma rs (44 :: rs)) /\
      (Z.even (toggling_quotes 0 pre) = false ->
       Scanner_entryFieldText U s
       = entryFieldText_loop U s' rs (pre ++ [44]) (toggling_quotes 0 pre) 44)).
Proof.
  split; [|split; [|split]].
  - intros. reflexivity.
  - intros s rs buf q prev Hp. simpl.
    destruct (prev =? 92) eqn:E; [apply Z.eqb_eq in E; congruence | reflexivity].
  - intros. simpl. rewrite <- !app_assoc. reflexivity.
  - intros s pre rs s' q' prev' Hr H Hb.
    unfold Scanner_entryFieldText. rewrite Hr.
    destruct (fieldText_reads_loop pre s [] 0 0 s' q' prev' (44 :: rs) H) as [E Hq].
    unfold gostring, rune in *. rewrite E. simpl in Hq. subst q'. split; [reflexivity|].
    simpl entryFieldText_loop. rewrite Hb, rem2_even. simpl.
    split; intros ->; reflexivity.
Qed.
End FieldText.

(** ** Closing delimiters and the end of the input *)

Section Closing.
Variable U : Unicode.
Import Scan.

Lemma other_flavor_mismatch opened c :
  other_flavor opened c -> is_closer c = true /\ delimsMatch opened c = false.
Proof. intros [[-> ->] | [-> ->]]; split; reflexivity. Qed.

(* The state function skips what is not a closing delimiter and checks the
   first one against the recorded opening delimiter. *)
Lemma rightBodyDelim_first_closer pre : forall s c rs,
  Forall (fun x => is_closer x = false) pre -> is_closer c = true ->
  rightBodyDelim_loop s (pre ++ c :: rs)
  = if delimsMatch (delim s) c
    then (null, with_rest (with_bracers (send s {| T := ItemRightDelim; Val := [c] |})
                                        (bracers s - 1)) rs)
    else (err, with_rest s rs).
Proof.
  induction pre as [|x pre IH]; intros s c rs Hp Hc; simpl.
  - unfold is_closer in Hc. rewrite Hc. destruct (delimsMatch (delim s) c); reflexivity.
  - inversion Hp as [|? ? Hx Hp']; subst. unfold is_closer in Hx. rewrite Hx.
    apply IH; assumption.
Qed.

(* leftBodyDelim records the flavor of the first opening delimiter. *)
Lemma leftBodyDelim_records pre : forall s c rs,
  Forall (fun x => (x =? 123) || (x =? 40) = false) pre ->
  (c =? 123) || (c =? 40) = true ->
  delim (snd (leftBodyDelim_loop s (pre ++ c :: rs))) = c /\
  items (snd (leftBodyDelim_loop s (pre ++ c :: rs)))
  = items s ++ [{| T := ItemLeftDelim; Val := [c] |}].
Proof.
  induction pre as [|x pre IH]; intros s c rs Hp Hc; simpl.
  - rewrite Hc. split; reflexivity.
  - inversion Hp as [|? ? Hx Hp']; subst. rewrite Hx. apply IH; assumption.
Qed.

Lemma run_fuel_sink n s f :
  items s = [] -> (1 < n)%nat ->
  (f = false /\ cur_state s = eof) \/ (f = true /\ cur_state s = err) ->
  run_fuel U n s = Some {| upcoming := []; failing := f |}.
Proof.
  intros Hi Hn H. destruct n as [|n]; [lia|]. simpl.
  destruct H as [[-> Hs] | [-> Hs]].
  - rewrite (sink_fixed U s {| T := ItemEOF; Val := [] |} Hi) by (auto; lia). reflexivity.
  - rewrite (sink_fixed U s {| T := ItemErr; Val := [] |} Hi) by (auto; lia). reflexivity.
Qed.

(* A state function that sends nothing and moves to a sink ends the run. *)
Lemma run_fuel_to_sink n s f :
  items s = [] -> (2 < n)%nat -> items (step U s) = [] ->
  (f = false /\ cur_state (step U s) = eof) \/ (f = true /\ cur_state (step U s) = err) ->
  run_fuel U n s = Some {| upcoming := []; failing := f |} /\
  Next_fuel U n s = Some (terminal f, step U s).
Proof.
  intros Hi Hn Hq H.
  assert (N : forall m, (1 < m)%nat -> Next_fuel U m s = Some (terminal f, step U s)).
  { intros m Hm. destruct m as [|m]; [lia|]. rewrite Next_fuel_step by exact Hi.
    apply sink_fixed; [exact Hq | | lia].
    destruct H as [[-> Hs] | [-> Hs]]; [left | right]; split; auto. }
  split; [|apply N; lia].
  destruct n as [|n]; [lia|]. simpl. rewrite N by lia.
  destruct H as [[-> Hs] | [-> Hs]]; reflexivity.
Qed.

(** Scanner side of C3: in the right-body-delimiter state, when the first
    closing delimiter in the input is of the other flavor than the recorded
    opening one, the state function sends nothing and returns err; Next then
    yields ItemErr and the run of items of the scanner is over. *)
Lemma mismatched_closer_is_error (s : Scanner) pre c rs n :
  cur_state s = entryRightBodyDelim -> items s = [] ->
  rest (reader s) = pre ++ c :: rs ->
  Forall (fun x => is_closer x = false) pre ->
  other_flavor (delim s) c -> (2 < n)%nat ->
  step U s = with_state (with_rest s rs) err /\
  Next_fuel U n s = Some ({| T := ItemErr; Val := [] |}, step U s) /\
  run_fuel U n s = Some {| upcoming := []; failing := true |}.
Proof.
  intros Hs Hi Hr Hp Ho Hn.
  destruct (other_flavor_mismatch _ _ Ho) as [Hc Hm].
  assert (E : step U s = with_state (with_rest s rs) err).
  { unfold step. rewrite Hs. simpl. unfold Scanner_rightBodyDelim.
    rewrite Hr, (rightBodyDelim_first_closer pre s c rs Hp Hc), Hm. reflexivity. }
  split; [exact E|].
  destruct (run_fuel_to_sink n s true Hi Hn) as [R N].
  - rewrite E. exact Hi.
  - right. rewrite E. split; reflexivity.
  - split; [exact N | exact R].
Qed.

(* Only delimiters that match the opening one are sent as ItemRightDelim. *)
Lemma rightBodyDelim_sends_matching rs : forall s,
  let r := rightBodyDelim_loop s rs in
  items (snd r) = items s \/
  exists c, items (snd r) = items s ++ [{| T := ItemRightDelim; Val := [c] |}] /\
            delimsMatch (delim s) c = true.
Proof.
  induction rs as [|c rs IH]; intros s; simpl.
  - left; reflexivity.
  - destruct ((c =? 125) || (c =? 41)); [|apply IH].
    destruct (delimsMatch (delim s) c) eqn:M; simpl; [|left; reflexivity].
    right. exists c. split; [reflexivity | exact M].
Qed.

(* The leaves of the state functions: nothing sent, or one item sent. *)
Ltac delim_leaf :=
  first
    [ left; split; reflexivity
    | right; eexists; split; [reflexivity|]; simpl;
      first [ reflexivity
            | eexists; split; [reflexivity|];
              split; [first [assumption | apply negb_false_iff; assumption] | reflexivity] ] ].

Ltac delim_loop IH :=
  repeat match goal with
         | |- context [if ?b then _ else _] => destruct b eqn:?
         | |- context [match ?l with [] => _ | _ :: _ => _ end] => destruct l eqn:?
         end;
  cbn [negb] in *; try discriminate; first [ delim_leaf | apply IH ].

Lemma entryComment_cont_keeps rs : forall s,
  items (snd (entryComment_cont U s rs)) = items s /\
  delim (snd (entryComment_cont U s rs)) = delim s.
Proof.
  induction rs as [|c rs IH]; intros s; simpl; [auto|].
  destruct (c =? 37); [auto|]. destruct (isDelim c); [auto|].
  destruct (IsValidNameRune U c); [auto|]. apply IH.
Qed.

Lemma fieldText_finish_keeps s buf next consumed after :
  delim_kept s (fieldText_finish U s buf next consumed after).
Proof. unfold fieldText_finish. delim_loop I. Qed.

Lemma entryFieldText_keeps rs : forall s buf q prev,
  delim_kept s (entryFieldText_loop U s rs buf q prev).
Proof.
  induction rs as [|c rs IH]; intros s buf q prev; simpl; [delim_leaf|].
  destruct (c =? 123); [exact (IH (with_bracers s (bracers s + 1)) _ _ _)|].
  destruct (c =? 34); [apply IH|].
  destruct (((c =? 125) || (c =? 41)) && (bracers s =? 1));
    [apply fieldText_finish_keeps|].
  destruct ((c =? 37) && (bracers s =? 1)); [apply fieldText_finish_keeps|].
  destruct ((c =? 125) && (bracers s >? 0));
    [exact (IH (with_bracers s (bracers s - 1)) _ _ _)|].
  destruct ((c =? 44) && (Z.rem q 2 =? 0) && (bracers s =? 1));
    [apply fieldText_finish_keeps | apply IH].
Qed.

(** Every state function keeps or records the opening delimiter as
    [delim_kept] says. *)
Lemma states_keep_delim (s : Scanner) : delim_kept s (states U (cur_state s) s).
Proof.
  destruct (cur_state s); simpl states;
    unfold Scanner_null, Scanner_entryDelim, Scanner_topLvlComment, Scanner_entryComment,
      Scanner_entryType, Scanner_leftBodyDelim, Scanner_citeKey, Scanner_entryComma,
      Scanner_entryFieldType, Scanner_rightBodyDelim, Scanner_entryEqSgn,
      Scanner_entryFieldText, Scanner_entryTypeOrBrace, Scanner_eof, Scanner_err.
  - delim_leaf.
  - induction (rest (reader s)) as [|c rs IH]; simpl; delim_loop IH.
  - generalize (@nil rune).
    induction (rest (reader s)) as [|c rs IH]; intros buf; simpl; delim_loop IH.
  - generalize (@nil rune).
    induction (rest (reader s)) as [|c rs IH]; intros buf; simpl.
    + delim_leaf.
    + destruct (c =? 10); [|apply IH].
      destruct (TrimSpace U buf) as [|x b].
      * left. apply entryComment_cont_keeps.
      * right. eexists.
        destruct (entryComment_cont_keeps rs (send s {| T := ItemComment; Val := x :: b |}))
          as [E1 E2].
        split; [exact E1 | exact E2].
  - generalize (@nil rune).
    induction (rest (reader s)) as [|c rs IH]; intros buf; simpl; delim_loop IH.
  - induction (rest (reader s)) as [|c rs IH]; simpl; delim_loop IH.
  - generalize (@nil rune).
    induction (rest (reader s)) as [|c rs IH]; intros buf; simpl; delim_loop IH.
  - induction (rest (reader s)) as [|c rs IH]; simpl; delim_loop IH.
  - generalize (@nil rune).
    induction (rest (reader s)) as [|c rs IH]; intros buf; simpl; delim_loop IH.
  - induction (rest (reader s)) as [|c rs IH]; simpl; delim_loop IH.
  - induction (rest (reader s)) as [|c rs IH]; simpl; delim_loop IH.
  - apply entryFieldText_keeps.
  - induction (rest (reader s)) as [|c rs IH]; simpl; delim_loop IH.
  - delim_leaf.
  - delim_leaf.
Qed.

Lemma Next_keeps_delim n : forall s i s',
  items s = [] -> Next_fuel U n s = Some (i, s') ->
  match T i with
  | ItemLeftDelim => Val i = [delim s']
  | ItemRightDelim =>
      exists c, Val i = [c] /\ delimsMatch (delim s) c = true /\ delim s' = delim s
  | _ => delim s' = delim s
  end.
Proof.
  induction n as [|n IH]; intros s i s' Hi H.
  - simpl in H. rewrite Hi in H. discriminate.
  - rewrite Next_fuel_step in H by exact Hi.
    pose proof (states_keep_delim s) as K. unfold step in H.
    destruct (states U (cur_state s) s) as [st t]. unfold delim_kept in K. simpl in K.
    destruct K as [[Kq Kd] | (j & Kq & Kd)].
    + specialize (IH (with_state t st) i s').
      simpl in IH. rewrite Kq in IH. specialize (IH Hi H). rewrite Kd in IH. exact IH.
    + rewrite Hi in Kq. simpl in Kq.
      rewrite (Next_fuel_ready U n (with_state t st) j []) in H by exact Kq.
      injection H as <- <-. simpl. exact Kd.
Qed.

(** In the run of items of a scanner, every closing-delimiter item matches
    the latest opening-delimiter item. *)
Lemma run_matched n : forall s sc,
  items s = [] -> run_fuel U n s = Some sc -> matched (delim s) (upcoming sc).
Proof.
  induction n as [|n IH]; intros s sc Hi H; [discriminate|].
  simpl in H. destruct (Next_fuel U n s) as [[i s']|] eqn:N; [|discriminate].
  pose proof (Next_keeps_delim _ _ _ _ Hi N) as K.
  pose proof (Next_fuel_spec U _ _ _ _ Hi N) as (Hq & _).
  destruct (T i) eqn:Ti;
    try (injection H as <-; exact I);
    (destruct (run_fuel U n s') as [sc'|] eqn:R; [|discriminate];
     injection H as <-; simpl; rewrite Ti;
     pose proof (IH s' sc' Hq R) as M).
  all: try (rewrite K in M; exact M).
  - exists (delim s'). auto.
  - destruct K as (c & Hv & Hm & Hd). exists c. rewrite Hd in M. auto.
Qed.

End Closing.

(** ** The body loops of the parser *)

Section ParseLoops.
Variable U : Unicode.
Import Scan Parse.

Lemma comment_exprs_cons_comment i l :
  T i = ItemComment -> comment_exprs (i :: l) = {| CommentValue := Val i |} :: comment_exprs l.
Proof. intros H. unfold comment_exprs, is_comment. simpl. rewrite H. reflexivity. Qed.

Lemma comment_exprs_cons_other i l :
  T i <> ItemComment -> comment_exprs (i :: l) = comment_exprs l.
Proof.
  intros H. unfold comment_exprs. simpl. unfold is_comment at 1.
  destruct (T i); try reflexivity. congruence.
Qed.

Lemma emitted_cons p i toks body p' nd :
  T i <> ItemRightDelim -> T i <> ItemComment ->
  emitted p toks body p' nd -> emitted p (i :: toks) (i :: body) p' nd.
Proof.
  intros H1 H2 (closer & E & Hc & Hn & Hnd & Hcm & Hcl & Hf & Hnc).
  exists closer. rewrite comment_exprs_cons_other by exact H2.
  repeat split; auto. simpl. now rewrite E. now constructor.
Qed.

Lemma emitted_cons_comment p i toks body p' nd :
  T i = ItemComment ->
  emitted (addComment p (Val i)) toks body p' nd -> emitted p (i :: toks) (i :: body) p' nd.
Proof.
  intros H1 (closer & E & Hc & Hn & Hnd & Hcm & Hcl & Hf & Hnc).
  exists closer. rewrite comment_exprs_cons_comment by exact H1.
  repeat split; auto.
  - simpl. now rewrite E.
  - constructor; [congruence | exact Hn].
  - rewrite Hnc. simpl. rewrite <- app_assoc. reflexivity.
Qed.

Lemma stopped_cons p q i toks st p' :
  nodes q = nodes p -> closed q = closed p ->
  failing (scanner q) = failing (scanner p) ->
  stopped q toks st p' -> stopped p (i :: toks) st p'.
Proof.
  intros E1 E2 E3 (Hs & Hn & Hc & Hf & Hl & He).
  repeat split; try congruence. simpl; lia.
  intros H. destruct (He H) as [[H1 H2] | H1].
  - left. split; congruence.
  - right. now apply Exists_cons_tl.
Qed.

Lemma stopped_here p i toks st p' :
  st = Parse.err \/ (st = Parse.eof /\ T i = ItemEOF) ->
  nodes p' = nodes p -> closed p' = closed p ->
  failing (scanner p') = failing (scanner p) ->
  (List.length (upcoming (scanner p')) <= List.length toks)%nat ->
  stopped p (i :: toks) st p'.
Proof.
  intros Hs E1 E2 E3 E4. repeat split; auto.
  - destruct Hs as [-> | [-> _]]; auto.
  - simpl; lia.
  - intros ->. destruct Hs as [Hs | [_ Hs]]; [discriminate|].
    right. now apply Exists_cons_hd.
Qed.

Lemma stopped_end p st p' :
  st = Parse.checkErr (T (terminal (failing (scanner p)))) ->
  nodes p' = nodes p -> closed p' = closed p ->
  failing (scanner p') = failing (scanner p) -> upcoming (scanner p') = [] ->
  stopped p [] st p'.
Proof.
  intros Hs E1 E2 E3 E4. repeat split; auto.
  - subst st. destruct (failing (scanner p)); simpl; auto.
  - rewrite E4. simpl. lia.
  - intros ->. left. split; [|exact E4].
    destruct (failing (scanner p)); [discriminate | reflexivity].
Qed.

(* An item on which the loop returns at once without sending. *)
Ltac stop_now H :=
  injection H as <- <-; right; apply stopped_here; simpl; auto; lia.

(* An item that the loop consumes and goes on, with the parser [q]. *)
Ltac go_on IH H q :=
  destruct (IH _ _ _ _ _ H) as [L | R];
  [ left | right; apply (stopped_cons _ q); auto ].

Lemma entry_loop_spec toks : forall p d stmt st p',
  entry_loop p d stmt toks = (st, p') ->
  (st = Parse.null /\
   exists body d' fs,
     emitted p toks body p' (NEntry d') /\
     Name d' = Name d /\ CiteKey d' = CiteKey d /\ Fields d' = Fields d ++ fs /\
     Forall (fun f => Key f <> [] /\ Value f <> [] /\
                      exists i, In i body /\ T i = ItemFieldText /\ Val i = Value f) fs) \/
  stopped p toks st p'.
Proof.
  induction toks as [|i toks IH]; intros p d stmt st p' H; simpl in H.
  - injection H as <- <-. right. apply stopped_end; reflexivity.
  - destruct (T i) eqn:Ti; simpl in H; try (stop_now H).
    + (* the closing delimiter *)
      injection H as <- <-. left. split; [reflexivity|].
      exists [], (with_Comments d (comments p)), [].
      split; [|rewrite app_nil_r; auto].
      exists i. simpl. rewrite app_nil_r. repeat split; auto; try (now constructor).
      destruct (comments p); reflexivity.
    + (* = *)
      go_on IH H p. destruct L as (-> & body & d' & fs & He & Hr).
      split; [reflexivity|]. exists (i :: body), d', fs.
      split; [apply emitted_cons; auto; congruence|].
      destruct Hr as (? & ? & ? & Hall). repeat split; auto.
      eapply Forall_impl; [|exact Hall]. intros f (? & ? & x & ? & ?).
      repeat split; auto. exists x; split; [now right | auto].
    + (* , *)
      go_on IH H p. destruct L as (-> & body & d' & fs & He & Hr).
      split; [reflexivity|]. exists (i :: body), d', fs.
      split; [apply emitted_cons; auto; congruence|].
      destruct Hr as (? & ? & ? & Hall). repeat split; auto.
      eapply Forall_impl; [|exact Hall]. intros f (? & ? & x & ? & ?).
      repeat split; auto. exists x; split; [now right | auto].
    + (* a comment *)
      go_on IH H (addComment p (Val i)). destruct L as (-> & body & d' & fs & He & Hr).
      split; [reflexivity|]. exists (i :: body), d', fs.
      split; [apply emitted_cons_comment; auto|].
      destruct Hr as (? & ? & ? & Hall). repeat split; auto.
      eapply Forall_impl; [|exact Hall]. intros f (? & ? & x & ? & ?).
      repeat split; auto. exists x; split; [now right | auto].
    + (* a field type *)
      go_on IH H p. destruct L as (-> & body & d' & fs & He & Hr).
      split; [reflexivity|]. exists (i :: body), d', fs.
      split; [apply emitted_cons; auto; congruence|].
      destruct Hr as (? & ? & ? & Hall). repeat split; auto.
      eapply Forall_impl; [|exact Hall]. intros f (? & ? & x & ? & ?).
      repeat split; auto. exists x; split; [now right | auto].
    + (* a field text *)
      destruct (FieldStmt_ok {| Key := Key stmt; Value := Val i |}) eqn:Ok;
        simpl in H; [|stop_now H].
      go_on IH H p. destruct L as (-> & body & d' & fs & He & Hr).
      split; [reflexivity|].
      exists (i :: body), d', ({| Key := Key stmt; Value := Val i |} :: fs).
      split; [apply emitted_cons; auto; congruence|].
      destruct Hr as (Hn & Hk & Hf & Hall). simpl in Hn, Hk, Hf.
      repeat split; auto.
      * rewrite Hf, <- app_assoc. reflexivity.
      * constructor.
        -- unfold FieldStmt_ok in Ok. simpl in *.
           destruct (Key stmt); [discriminate|]. destruct (Val i) eqn:Ev; [discriminate|].
           repeat split; try congruence. exists i. repeat split; auto.
        -- eapply Forall_impl; [|exact Hall]. intros f (? & ? & x & ? & ?).
           repeat split; auto. exists x; split; [now right | auto].
Qed.

Lemma preamble_loop_spec toks : forall p d st p',
  preamble_loop p d toks = (st, p') ->
  (st = Parse.null /\
   exists body d',
     emitted p toks body p' (NPreamble d') /\
     (PreambleValue d' = PreambleValue d \/
      exists i, In i body /\ T i = ItemFieldText /\ Val i = PreambleValue d')) \/
  stopped p toks st p'.
Proof.
  induction toks as [|i toks IH]; intros p d st p' H; simpl in H.
  - injection H as <- <-. right. apply stopped_end; reflexivity.
  - destruct (T i) eqn:Ti; simpl in H; try (stop_now H).
    + injection H as <- <-. left. split; [reflexivity|].
      exists [], {| PreambleComments := Some (comments p); PreambleValue := PreambleValue d |}.
      split; [|left; reflexivity].
      exists i. simpl. rewrite app_nil_r. repeat split; auto; try (now constructor).
      destruct (comments p); reflexivity.
    + destruct (IH _ _ _ _ H) as [L | R];
        [left | right; apply (stopped_cons _ (addComment p (Val i))); auto].
      destruct L as (-> & body & d' & He & Hv).
      split; [reflexivity|]. exists (i :: body), d'.
      split; [apply emitted_cons_comment; auto|].
      destruct Hv as [Hv | (x & ? & ? & ?)]; [now left|].
      right. exists x. split; [now right | auto].
    + destruct (IH _ _ _ _ H) as [L | R];
        [left | right; apply (stopped_cons _ p); auto].
      destruct L as (-> & body & d' & He & Hv).
      split; [reflexivity|]. exists (i :: body), d'.
      split; [apply emitted_cons; auto; congruence|].
      right. destruct Hv as [Hv | (x & ? & ? & ?)].
      * exists i. simpl in Hv. split; [now left | auto].
      * exists x. split; [now right | auto].
Qed.

Lemma abbrev_loop_spec toks : forall p d stmt assigned st p',
  abbrev_loop p d stmt assigned toks = (st, p') ->
  (st = Parse.null /\
   exists body d',
     emitted p toks body p' (NAbbrev d') /\
     ((assigned = false /\ Field d' = Field d) \/
      exists f, Field d' = Some f /\
                ((assigned = true /\ Value f = Value stmt) \/
                 exists i, In i body /\ T i = ItemFieldText /\ Val i = Value f))) \/
  stopped p toks st p'.
Proof.
  induction toks as [|i toks IH]; intros p d stmt assigned st p' H; simpl in H.
  - injection H as <- <-. right. apply stopped_end; reflexivity.
  - destruct (T i) eqn:Ti; simpl in H; try (stop_now H).
    + (* the closing delimiter *)
      injection H as <- <-. left. split; [reflexivity|].
      eexists [], _. split.
      * exists i. simpl. rewrite app_nil_r. repeat split; auto; try (now constructor).
        destruct (comments p); reflexivity.
      * simpl. destruct assigned; [right | left; auto].
        exists stmt. split; [reflexivity | left; auto].
    + (* = *)
      destruct (IH _ _ _ _ _ _ H) as [L | R];
        [left | right; apply (stopped_cons _ p); auto].
      destruct L as (-> & body & d' & He & Hv).
      split; [reflexivity|]. exists (i :: body), d'.
      split; [apply emitted_cons; auto; congruence|].
      destruct Hv as [Hv | (f & Hf & [Hv | (x & ? & ? & ?)])]; [now left | |].
      * right. exists f. split; [exact Hf | now left].
      * right. exists f. split; [exact Hf|]. right. exists x. split; [now right | auto].
    + (* a comment *)
      destruct (IH _ _ _ _ _ _ H) as [L | R];
        [left | right; apply (stopped_cons _ (addComment p (Val i))); auto].
      destruct L as (-> & body & d' & He & Hv).
      split; [reflexivity|]. exists (i :: body), d'.
      split; [apply emitted_cons_comment; auto|].
      destruct Hv as [Hv | (f & Hf & [Hv | (x & ? & ? & ?)])]; [now left | |].
      * right. exists f. split; [exact Hf | now left].
      * right. exists f. split; [exact Hf|]. right. exists x. split; [now right | auto].
    + (* a field type *)
      destruct (IH _ _ _ _ _ _ H) as [L | R];
        [left | right; apply (stopped_cons _ p); auto].
      destruct L as (-> & body & d' & He & Hv).
      split; [reflexivity|]. exists (i :: body), d'.
      split; [apply emitted_cons; auto; congruence|].
      destruct Hv as [Hv | (f & Hf & [Hv | (x & ? & ? & ?)])]; [now left | |].
      * right. exists f. split; [exact Hf | now left].
      * right. exists f. split; [exact Hf|]. right. exists x. split; [now right | auto].
    + (* a field text *)
      destruct (FieldStmt_ok {| Key := Key stmt; Value := Val i |}) eqn:Ok;
        simpl in H; [|stop_now H].
      destruct (IH _ _ _ _ _ _ H) as [L | R];
        [left | right; apply (stopped_cons _ p); auto].
      destruct L as (-> & body & d' & He & Hv).
      split; [reflexivity|]. exists (i :: body), d'.
      split; [apply emitted_cons; auto; congruence|].
      destruct Hv as [[Hv _] | (f & Hf & [[_ Hv] | (x & ? & ? & ?)])]; [discriminate | |].
      * right. exists f. split; [exact Hf|]. right. exists i. simpl in Hv.
        split; [now left | auto].
      * right. exists f. split; [exact Hf|]. right. exists x. split; [now right | auto].
Qed.

Lemma emitted_same p q toks body p' nd :
  nodes q = nodes p -> comments q = comments p -> closed q = closed p ->
  failing (scanner q) = failing (scanner p) ->
  emitted q toks body p' nd -> emitted p toks body p' nd.
Proof.
  intros E1 E2 E3 E4 (closer & H). exists closer.
  rewrite E1, E2, E3, E4 in H. exact H.
Qed.

Lemma not_terminal_checkErr i :
  is_terminal i = false -> Parse.checkErr (T i) = Parse.null.
Proof. unfold is_terminal. destruct (T i); simpl; congruence. Qed.

Lemma terminal_checkErr i :
  is_terminal i = true ->
  (T i = ItemErr /\ Parse.checkErr (T i) = Parse.err) \/
  (T i = ItemEOF /\ Parse.checkErr (T i) = Parse.eof).
Proof. unfold is_terminal. destruct (T i); simpl; try discriminate; auto. Qed.

(* The comments before the entry delimiter. *)
Lemma comms_loop_spec toks : forall p st p',
  comms_loop p toks = (st, p') ->
  (st = Parse.decl /\
   exists top ed,
     toks = top ++ ed :: upcoming (scanner p') /\
     Forall (fun i => T i = ItemComment) top /\ T ed = ItemEntryDelim /\
     comments p' = {| Values := Values (comments p) ++ comment_exprs top |} /\
     nodes p' = nodes p /\ closed p' = closed p /\ currDecl p' = currDecl p /\
     failing (scanner p') = failing (scanner p)) \/
  stopped p toks st p'.
Proof.
  induction toks as [|i toks IH]; intros p st p' H; simpl in H.
  - injection H as <- <-. right. apply stopped_end; reflexivity.
  - destruct (T i) eqn:Ti; simpl in H; try (stop_now H).
    + injection H as <- <-. left. split; [reflexivity|].
      exists [], i. simpl. rewrite app_nil_r. repeat split; auto.
      destruct (comments p); reflexivity.
    + destruct (IH _ _ _ H) as [L | R];
        [left | right; apply (stopped_cons _ (addComment p (Val i))); auto].
      destruct L as (-> & top & ed & E & Ht & He & Hc & Hr).
      split; [reflexivity|]. exists (i :: top), ed.
      rewrite comment_exprs_cons_comment by exact Ti.
      repeat split; try tauto.
      * simpl. now rewrite E.
      * now constructor.
      * rewrite Hc. simpl. rewrite <- app_assoc. reflexivity.
Qed.

Lemma emitted_body_parsed p q dl toks body p' nd :
  upcoming (scanner p) = dl :: toks -> is_terminal dl = false ->
  nodes q = nodes p -> comments q = comments p -> closed q = closed p ->
  failing (scanner q) = failing (scanner p) ->
  emitted q toks body p' nd -> body_parsed p p' body nd.
Proof.
  intros E Hd E1 E2 E3 E4 (closer & Ht & Hc & Hn & Hnd & Hcm & Hcl & Hf & Hnc).
  exists dl, closer. rewrite E, Ht. repeat split; auto; congruence.
Qed.

(* The first pull of a body state function: the item where the opening
   delimiter is expected. Terminal items stop the parser. *)
Lemma delimiter_position p :
  (exists dl toks, upcoming (scanner p) = dl :: toks /\ is_terminal dl = false /\
                   Scannable_Next (scanner p)
                   = (dl, {| upcoming := toks; failing := failing (scanner p) |})) \/
  (exists i sc, Scannable_Next (scanner p) = (i, sc) /\
                Parse.checkErr (T i) <> Parse.null /\
                stopped p (upcoming (scanner p)) (Parse.checkErr (T i))
                        (with_upcoming p (upcoming sc))).
Proof.
  unfold Scannable_Next. destruct (upcoming (scanner p)) as [|dl toks] eqn:E.
  - right. eexists _, _. split; [reflexivity|]. rewrite E. split.
    + destruct (failing (scanner p)); simpl; discriminate.
    + apply stopped_end; auto.
  - destruct (is_terminal dl) eqn:Td.
    + right. eexists _, _. split; [reflexivity|]. simpl.
      destruct (terminal_checkErr dl Td) as [[Ht ->] | [Ht ->]];
        (split; [discriminate|]; apply stopped_here; simpl; auto).
    + left. exists dl, toks. auto.
Qed.

Lemma Parser_preamble_spec p d st p' :
  currDecl p = Some (NPreamble d) -> Parser_preamble p = (st, p') ->
  (st = Parse.null /\
   exists body d',
     body_parsed p p' body (NPreamble d') /\
     (PreambleValue d' = PreambleValue d \/
      exists i, In i body /\ T i = ItemFieldText /\ Val i = PreambleValue d')) \/
  stopped p (upcoming (scanner p)) st p'.
Proof.
  intros Hd H. unfold Parser_preamble in H. rewrite Hd in H.
  destruct (delimiter_position p) as [(dl & toks & E & Td & N) | (i & sc & N & Hc & Hs)];
    rewrite N in H.
  - rewrite (not_terminal_checkErr dl Td) in H. simpl in H.
    destruct (preamble_loop_spec _ _ _ _ _ H) as [(-> & body & d' & He & Hv) | R].
    + left. split; [reflexivity|]. exists body, d'. split; [|exact Hv].
      eapply emitted_body_parsed; eauto.
    + right. rewrite E. eapply stopped_cons; eauto.
  - right. destruct (Parse.checkErr (T i)); try congruence;
      injection H as <- <-; exact Hs.
Qed.

Lemma Parser_abbrev_spec p d st p' :
  currDecl p = Some (NAbbrev d) -> Parser_abbrev p = (st, p') ->
  (st = Parse.null /\
   exists body d',
     body_parsed p p' body (NAbbrev d') /\
     (Field d' = Field d \/
      exists f i, Field d' = Some f /\ In i body /\ T i = ItemFieldText /\ Val i = Value f)) \/
  stopped p (upcoming (scanner p)) st p'.
Proof.
  intros Hd H. unfold Parser_abbrev in H. rewrite Hd in H.
  destruct (delimiter_position p) as [(dl & toks & E & Td & N) | (i & sc & N & Hc & Hs)];
    rewrite N in H.
  - rewrite (not_terminal_checkErr dl Td) in H. simpl in H.
    destruct (abbrev_loop_spec _ _ _ _ _ _ _ H) as [(-> & body & d' & He & Hv) | R].
    + left. split; [reflexivity|]. exists body, d'. split.
      * eapply emitted_body_parsed; eauto.
      * destruct Hv as [[_ Hv] | (f & Hf & [[Hv _] | (x & ? & ? & ?)])];
          [now left | discriminate | right; exists f, x; auto].
    + right. rewrite E. eapply stopped_cons; eauto.
  - right. destruct (Parse.checkErr (T i)); try congruence;
      injection H as <- <-; exact Hs.
Qed.

Lemma Parser_entry_spec p d st p' :
  currDecl p = Some (NEntry d) -> Parser_entry p = (st, p') ->
  (st = Parse.null /\
   exists body d' fs,
     body_parsed p p' body (NEntry d') /\ Name d' = Name d /\
     (exists ck body', body = ck :: body' /\ T ck = ItemCiteKey /\ CiteKey d' = Val ck) /\
     Fields d' = Fields d ++ fs /\
     Forall (fun f => Key f <> [] /\ Value f <> [] /\
                      exists i, In i body /\ T i = ItemFieldText /\ Val i = Value f) fs) \/
  stopped p (upcoming (scanner p)) st p'.
Proof.
  intros Hd H. unfold Parser_entry in H. rewrite Hd in H.
  destruct (delimiter_position p) as [(dl & toks & E & Td & N) | (i & sc & N & Hc & Hs)];
    rewrite N in H.
  2: { right. destruct (Parse.checkErr (T i)); try congruence;
         injection H as <- <-; exact Hs. }
  rewrite (not_terminal_checkErr dl Td) in H. cbv beta iota zeta in H.
  cbn [upcoming] in H.
  destruct (delimiter_position (with_upcoming p toks))
    as [(ck & toks' & E' & Tk & N') | (i & sc & N' & Hc & Hs)];
    rewrite N' in H.
  2: { right. rewrite E. apply (stopped_cons _ (with_upcoming p toks)); auto.
       destruct (Parse.checkErr (T i)); try congruence;
         injection H as <- <-; exact Hs. }
  rewrite (not_terminal_checkErr ck Tk) in H. cbv beta iota zeta in H.
  cbn [upcoming] in H. simpl in E'. subst toks.
  destruct (T ck) eqn:Tck;
    try (right; injection H as <- <-; rewrite E;
         apply (stopped_cons _ (with_upcoming p (ck :: toks'))); auto;
         apply stopped_here; simpl; auto; lia).
  simpl in H.
  destruct (entry_loop_spec _ _ _ _ _ _ H)
    as [(-> & body & d' & fs & He & Hn & Hk & Hf & Hall) | R].
  - left. split; [reflexivity|]. exists (ck :: body), d', fs. simpl in *.
    split; [|split; [exact Hn | split; [exists ck, body; auto | split; [exact Hf|]]]].
    + eapply (emitted_body_parsed p p dl (ck :: toks')); eauto.
      apply emitted_cons; try congruence.
      eapply emitted_same; [| | | | exact He]; reflexivity.
    + eapply Forall_impl; [|exact Hall]. intros f (? & ? & x & ? & ?).
      repeat split; auto. exists x. split; [now right | auto].
  - right. rewrite E. apply (stopped_cons _ p); auto.
    eapply stopped_cons; [| | | exact R]; reflexivity.
Qed.

Lemma Parser_decl_spec p st p' :
  Parser_decl U p = (st, p') ->
  (exists kw toks,
     upcoming (scanner p) = kw :: toks /\ p' = with_currDecl (with_upcoming p toks) (currDecl p') /\
     ((st = Parse.entry /\ T kw = ItemEntry /\
       currDecl p' = Some (NEntry {| Name := ToLower U (Val kw); CiteKey := [];
                                     Comments := None; Fields := [] |})) \/
      (st = Parse.abbrev /\ T kw = ItemAbbrev /\
       currDecl p' = Some (NAbbrev {| AbbrevComments := None; Field := None |})) \/
      (st = Parse.preamble /\ T kw = ItemPreamble /\
       currDecl p' = Some (NPreamble {| PreambleComments := None; PreambleValue := [] |})))) \/
  stopped p (upcoming (scanner p)) st p'.
Proof.
  intros H. unfold Parser_decl in H.
  destruct (delimiter_position p) as [(kw & toks & E & Td & N) | (i & sc & N & Hc & Hs)];
    rewrite N in H.
  2: { right. destruct (Parse.checkErr (T i)); try congruence;
         injection H as <- <-; exact Hs. }
  rewrite (not_terminal_checkErr kw Td) in H. simpl in H.
  destruct (T kw) eqn:Tk;
    try (right; injection H as <- <-; rewrite E; apply stopped_here; simpl; auto; lia);
    injection H as <- <-; left; exists kw, toks; (split; [exact E|]); split;
      try reflexivity; auto.
Qed.

Lemma comment_exprs_app a b : comment_exprs (a ++ b) = comment_exprs a ++ comment_exprs b.
Proof. unfold comment_exprs. rewrite filter_app, map_app. reflexivity. Qed.

Lemma PNext_node n p nd q :
  nodes p = nd :: q -> Parse.Next_fuel U n p = Some (Some nd, true, with_nodes p q).
Proof. intros H. destruct n; simpl; rewrite H; reflexivity. Qed.

Lemma PNext_closed n p :
  nodes p = [] -> closed p = true -> Parse.Next_fuel U n p = Some (None, false, p).
Proof. intros H1 H2. destruct n; simpl; rewrite H1, H2; reflexivity. Qed.

Lemma PNext_step n p :
  nodes p = [] -> closed p = false ->
  Parse.Next_fuel U (S n) p = Parse.Next_fuel U n (Parse.step U p).
Proof. intros H1 H2. simpl. rewrite H1, H2. reflexivity. Qed.

(* More turns never change what the parser's Next returns. *)
Lemma PNext_mono n : forall p r m,
  Parse.Next_fuel U n p = Some r -> (n <= m)%nat -> Parse.Next_fuel U m p = Some r.
Proof.
  induction n as [|n IH]; intros p r m H Hle.
  - simpl in H. destruct (nodes p) eqn:E.
    + destruct (closed p) eqn:C; [|discriminate].
      rewrite (PNext_closed m p E C). exact H.
    + rewrite (PNext_node m p _ _ E). exact H.
  - destruct (nodes p) eqn:E.
    + destruct (closed p) eqn:C.
      * rewrite (PNext_closed _ p E C) in H. rewrite (PNext_closed m p E C). exact H.
      * destruct m as [|m]; [lia|]. rewrite PNext_step in * by assumption.
        apply IH; [exact H | lia].
    + rewrite (PNext_node _ p _ _ E) in H. rewrite (PNext_node m p _ _ E). exact H.
Qed.

(* A state function that stopped is followed by err or eof, which closes
   the channel: Next reports that there is nothing more. *)
Lemma halts q toks st q' pre p n :
  stopped q toks st q' -> nodes q = [] -> closed q = false ->
  upcoming (scanner p) = pre ++ toks -> failing (scanner q) = failing (scanner p) ->
  (1 <= n)%nat ->
  exists p', Parse.Next_fuel U n (Parse.with_state q' st) = Some (None, false, p') /\
             halted p p'.
Proof.
  intros (Hs & Hn & Hc & Hf & Hl & He) Nq Cq E Ef Hle.
  destruct n as [|n]; [lia|].
  rewrite PNext_step by (simpl; congruence).
  exists (Parse.step U (Parse.with_state q' st)). split.
  - apply PNext_closed; destruct Hs as [-> | ->]; simpl; congruence.
  - destruct Hs as [-> | ->]; unfold halted; simpl; repeat split; auto; try congruence.
    intros _. destruct (He eq_refl) as [[H1 _] | H1]; [left; congruence|].
      right. rewrite E. apply Exists_app. now right.
Qed.

(** One call of Next on a parser in null with an open, empty channel, as it
    is after NewParser and after every declaration: five turns are enough,
    and the call either returns a declaration parsed as [declared] says or
    reports the end. *)
Lemma Parser_Next_spec p n :
  Parse.cur_state p = Parse.null -> nodes p = [] -> closed p = false -> (5 <= n)%nat ->
  (exists nd p', Parse.Next_fuel U n p = Some (Some nd, true, p') /\ declared U p p' nd) \/
  (exists p', Parse.Next_fuel U n p = Some (None, false, p') /\ halted p p').
Proof.
  intros Hs Hn Hc Hle.
  destruct n as [|[|[|[|n]]]]; try lia.
  (* null *)
  rewrite PNext_step by assumption.
  assert (E1 : Parse.step U p = Parse.with_state p Parse.comms)
    by (unfold Parse.step; rewrite Hs; reflexivity).
  rewrite E1.
  (* comms *)
  rewrite PNext_step by (simpl; assumption).
  unfold Parse.step. cbn [Parse.cur_state Parse.with_state Parse.states].
  unfold Parser_comms.
  destruct (comms_loop (Parse.with_state p comms)
                       (upcoming (scanner (Parse.with_state p comms)))) as [st2 p2] eqn:C2.
  destruct (comms_loop_spec _ _ _ _ C2)
    as [(-> & top & ed & Et & Ht & Hed & Hcm & Hn2 & Hc2 & Hd2 & Hf2) | R].
  2: { right. apply (halts _ _ st2 p2 [] p _ R); simpl; auto; lia. }
  simpl in Et, Hcm, Hn2, Hc2, Hf2.
  (* decl *)
  rewrite PNext_step by (simpl; congruence).
  unfold Parse.step. cbn [Parse.cur_state Parse.with_state Parse.states].
  destruct (Parser_decl U (Parse.with_state p2 decl)) as [st3 p3] eqn:C3.
  destruct (Parser_decl_spec _ _ _ C3) as [(kw & toks & Ek & Ep3 & Hk) | R].
  2: { right. apply (halts _ _ st3 p3 (top ++ [ed]) p _ R); simpl; try congruence; try lia.
       rewrite Et, <- app_assoc. reflexivity. }
  simpl in Ek.
  assert (N3 : nodes p3 = []) by (rewrite Ep3; simpl; congruence).
  assert (K3 : closed p3 = false) by (rewrite Ep3; simpl; congruence).
  assert (U3 : upcoming (scanner p3) = toks) by (rewrite Ep3; reflexivity).
  assert (F3 : failing (scanner p3) = failing (scanner p)) by (rewrite Ep3; simpl; congruence).
  assert (M3 : comments p3 = {| Values := Values (comments p) ++ comment_exprs top |})
    by (rewrite Ep3; simpl; congruence).
  assert (Eall : upcoming (scanner p) = (top ++ [ed; kw]) ++ toks)
    by (rewrite Et, Ek, <- app_assoc; reflexivity).
  (* the body *)
  rewrite PNext_step by (simpl; assumption).
  unfold Parse.step. cbn [Parse.cur_state Parse.with_state Parse.states].
  destruct Hk as [(-> & Tk & D3) | [(-> & Tk & D3) | (-> & Tk & D3)]];
    cbn [Parse.states].
  - (* an entry *)
    destruct (Parser_entry (Parse.with_state p3 entry)) as [st4 p4] eqn:C4.
    destruct (Parser_entry_spec (Parse.with_state p3 entry) _ _ _ D3 C4)
      as [(-> & body & d' & fs & (dl & closer & Eb & Td & Tc & Hnc & Hcomm & Hnd & Hcl & Hcm4 & Hf4)
               & Hname & Hck & Hfs & Hall) | R].
    2: { right. apply (halts _ _ st4 p4 (top ++ [ed; kw]) p _ R); simpl; try congruence; lia. }
    simpl in Eb, Hcomm, Hnd, Hcl, Hf4. rewrite N3 in Hnd. simpl in Hnd.
    left. exists (NEntry d'), (with_nodes (Parse.with_state p4 Parse.null) []).
    split; [apply PNext_node; exact Hnd|].
    exists top, ed, kw, dl, body, closer. simpl.
    repeat split; auto; try congruence.
    + rewrite Hcomm, M3, comment_exprs_app. simpl. rewrite <- app_assoc. reflexivity.
    + rewrite Hfs. simpl. apply Forall_map.
      eapply Forall_impl; [|exact Hall]. intros f (_ & _ & x & ? & ? & ?).
      right. exists x. auto.
  - (* an abbreviation *)
    destruct (Parser_abbrev (Parse.with_state p3 abbrev)) as [st4 p4] eqn:C4.
    destruct (Parser_abbrev_spec (Parse.with_state p3 abbrev) _ _ _ D3 C4)
      as [(-> & body & d' & (dl & closer & Eb & Td & Tc & Hnc & Hcomm & Hnd & Hcl & Hcm4 & Hf4)
               & Hv) | R].
    2: { right. apply (halts _ _ st4 p4 (top ++ [ed; kw]) p _ R); simpl; try congruence; lia. }
    simpl in Eb, Hcomm, Hnd, Hcl, Hf4. rewrite N3 in Hnd. simpl in Hnd.
    left. exists (NAbbrev d'), (with_nodes (Parse.with_state p4 Parse.null) []).
    split; [apply PNext_node; exact Hnd|].
    exists top, ed, kw, dl, body, closer. simpl.
    repeat split; auto; try congruence.
    + rewrite Hcomm, M3, comment_exprs_app. simpl. rewrite <- app_assoc. reflexivity.
    + destruct Hv as [Hv | (f & x & Hf & ? & ? & ?)].
      * simpl in Hv. rewrite Hv. constructor.
      * rewrite Hf. constructor; [|constructor]. right. exists x. auto.
  - (* a preamble *)
    destruct (Parser_preamble (Parse.with_state p3 preamble)) as [st4 p4] eqn:C4.
    destruct (Parser_preamble_spec (Parse.with_state p3 preamble) _ _ _ D3 C4)
      as [(-> & body & d' & (dl & closer & Eb & Td & Tc & Hnc & Hcomm & Hnd & Hcl & Hcm4 & Hf4)
               & Hv) | R].
    2: { right. apply (halts _ _ st4 p4 (top ++ [ed; kw]) p _ R); simpl; try congruence; lia. }
    simpl in Eb, Hcomm, Hnd, Hcl, Hf4. rewrite N3 in Hnd. simpl in Hnd.
    left. exists (NPreamble d'), (with_nodes (Parse.with_state p4 Parse.null) []).
    split; [apply PNext_node; exact Hnd|].
    exists top, ed, kw, dl, body, closer. simpl.
    repeat split; auto; try congruence.
    rewrite Hcomm, M3, comment_exprs_app. simpl. rewrite <- app_assoc. reflexivity.
Qed.
End ParseLoops.

(** ** The whole run of the parser and the pipeline *)

Section Runs.
Variable U : Unicode.
Import Scan Parse.

Lemma drain_fuel_mono n : forall p r m,
  drain_fuel U n p = Some r -> (n <= m)%nat -> drain_fuel U m p = Some r.
Proof.
  induction n as [|n IH]; intros p r m H Hle; [discriminate|].
  destruct m as [|m]; [lia|]. simpl in *.
  destruct (Parse.Next_fuel U n p) as [[[nd ok] p']|] eqn:N; [|discriminate].
  rewrite (PNext_mono U _ _ _ m N) by lia.
  destruct ok; [|exact H].
  destruct (drain_fuel U n p') as [[l p'']|] eqn:D; [|discriminate].
  rewrite (IH _ _ m D) by lia. exact H.
Qed.

Lemma declared_shorter p p' nd :
  declared U p p' nd ->
  (List.length (upcoming (scanner p')) < List.length (upcoming (scanner p)))%nat.
Proof.
  intros (top & ed & kw & dl & body & closer & E & _). rewrite E.
  rewrite !length_app. simpl. rewrite !length_app. simpl. lia.
Qed.

(** The loop of the command ends: with more turns than items left, plus
    five, it returns the declarations and the parser that reported the
    end. *)
Lemma drain_fuel_total : forall m p,
  Parse.cur_state p = Parse.null -> nodes p = [] -> closed p = false ->
  (List.length (upcoming (scanner p)) + 5 < m)%nat ->
  exists l p', drain_fuel U m p = Some (l, p') /\ drained U p l p'.
Proof.
  induction m as [|m IH]; intros p Hs Hn Hc Hm; [lia|].
  simpl. destruct (Parser_Next_spec U p m Hs Hn Hc) as [(nd & p1 & N & D) | (p' & N & H)];
    [lia | |]; rewrite N.
  - pose proof (declared_shorter _ _ _ D) as Hl.
    pose proof D as (top & ed & kw & dl & body & closer & _ & _ & _ & _ & _ & _ & _ & _ & _
                     & Hn1 & Hc1 & _ & Hs1 & _).
    destruct (IH p1 Hs1 Hn1 Hc1) as (l & p' & R & Dr); [lia|].
    rewrite R. exists (nd :: l), p'. split; [reflexivity|].
    eapply drained_decl; eassumption.
  - exists [], p'. split; [reflexivity|]. now apply drained_end.
Qed.

Lemma drain_fuel_drained n p l p' :
  Parse.cur_state p = Parse.null -> nodes p = [] -> closed p = false ->
  drain_fuel U n p = Some (l, p') -> drained U p l p'.
Proof.
  intros Hs Hn Hc H.
  destruct (drain_fuel_total (S (List.length (upcoming (scanner p)) + 5)) p Hs Hn Hc)
    as (l0 & p0 & R & D); [lia|].
  pose proof (drain_fuel_mono _ _ _ (Nat.max n (S (List.length (upcoming (scanner p)) + 5)))
                              H (Nat.le_max_l _ _)) as H1.
  pose proof (drain_fuel_mono _ _ _ (Nat.max n (S (List.length (upcoming (scanner p)) + 5)))
                              R (Nat.le_max_r _ _)) as H2.
  congruence.
Qed.

Lemma run_fuel_ok n s sc :
  items s = [] -> run_fuel U n s = Some sc ->
  Forall (token_ok U) (upcoming sc) /\
  (List.length (upcoming sc) <= List.length (rest (reader s)))%nat.
Proof.
  intros Hi H.
  destruct (run_fuel_total U (S (S (weight s))) s) as (sc0 & R & Hok & Hl); [lia | exact Hi |].
  pose proof (run_fuel_mono U _ _ _ (Nat.max n (S (S (weight s)))) H (Nat.le_max_l _ _)) as H1.
  pose proof (run_fuel_mono U _ _ _ (Nat.max n (S (S (weight s)))) R (Nat.le_max_r _ _)) as H2.
  assert (sc = sc0) by congruence. subst. auto.
Qed.

(** The pipeline is a total function of the input. *)
Lemma pipeline_total (r : Reader) :
  exists sc l p,
    run_fuel U (enough r) (NewScanner r) = Some sc /\
    drain_fuel U (enough r) (NewParser sc) = Some (l, p) /\
    drained U (NewParser sc) l p /\
    pipeline U r = Some (l, Parse.cur_state p).
Proof.
  destruct (run_fuel_total U (enough r) (NewScanner r)) as (sc & R & Hok & Hl);
    [unfold enough, weight; simpl; lia | reflexivity |].
  destruct (drain_fuel_total (enough r) (NewParser sc)) as (l & p & D & Dr);
    try reflexivity.
  { unfold enough. simpl in *. lia. }
  exists sc, l, p. repeat split; auto.
  unfold pipeline, pipeline_fuel. rewrite R, D. reflexivity.
Qed.

(** C9. Two runs of the pipeline over the same input, each with a scanner
    and a parser made by NewScanner and NewParser, return the same
    declarations and end in the same parser state, however many turns each
    run is given; and a run that is given enough turns does return. *)
Theorem pipeline_deterministic (r : Reader) :
  exists out,
    pipeline U r = Some out /\
    (forall n, (enough r <= n)%nat -> pipeline_fuel U n r = Some out) /\
    (forall n m o1 o2,
        pipeline_fuel U n r = Some o1 -> pipeline_fuel U m r = Some o2 -> o1 = o2).
Proof.
  destruct (pipeline_total r) as (sc & l & p & R & D & _ & P).
  assert (M : forall n o, pipeline_fuel U n r = Some o ->
                          forall m, (n <= m)%nat -> pipeline_fuel U m r = Some o).
  { intros n o H m Hle. unfold pipeline_fuel in *.
    destruct (run_fuel U n (NewScanner r)) as [sc'|] eqn:R'; [|discriminate].
    rewrite (run_fuel_mono U _ _ _ m R' Hle).
    destruct (drain_fuel U n (NewParser sc')) as [[l' p']|] eqn:D'; [|discriminate].
    rewrite (drain_fuel_mono _ _ _ m D' Hle). exact H. }
  exists (l, Parse.cur_state p). split; [exact P|]. split.
  - intros n Hn. apply (M _ _ P n Hn).
  - intros n m o1 o2 H1 H2.
    pose proof (M _ _ H1 (Nat.max n m) (Nat.le_max_l _ _)).
    pose proof (M _ _ H2 (Nat.max n m) (Nat.le_max_r _ _)).
    congruence.
Qed.

Lemma drained_chunks p l p' :
  drained U p l p' -> comments p = {| Values := [] |} ->
  exists chunks leftover,
    upcoming (scanner p) = List.concat chunks ++ leftover /\ Forall2 (attached U) chunks l.
Proof.
  induction 1 as [p p' H | p p1 nd l p' D _ IH]; intros Hc.
  - exists [], (upcoming (scanner p)). split; [reflexivity | constructor].
  - destruct D as (top & ed & kw & dl & body & closer & E & Ht & He & Hd & Hcl & Hn & Hcm
                   & Hv & Hk & _ & _ & Hc1 & _ & _).
    destruct (IH Hc1) as (chunks & leftover & E1 & F).
    exists ((top ++ ed :: kw :: dl :: body ++ [closer]) :: chunks), leftover. split.
    + rewrite E, E1. simpl. rewrite <- !app_assoc. simpl. rewrite <- !app_assoc. reflexivity.
    + constructor; [|exact F].
      exists top, ed, kw, dl, body, closer. rewrite Hc in Hcm. simpl in Hcm.
      repeat split; auto.
Qed.

Lemma Forall2_In_r {A B} (R : A -> B -> Prop) la lb b :
  Forall2 R la lb -> In b lb -> exists a, In a la /\ R a b.
Proof.
  induction 1 as [|a b' la lb H _ IH]; intros Hin; [contradiction|].
  destruct Hin as [-> | Hin].
  - exists a. split; [now left | exact H].
  - destruct (IH Hin) as (a' & ? & ?). exists a'. split; [now right | auto].
Qed.

(* What the pipeline returns comes from chunks of the scanner's items. *)
Lemma pipeline_chunks r n l st :
  pipeline_fuel U n r = Some (l, st) ->
  exists sc chunks leftover,
    run_fuel U n (NewScanner r) = Some sc /\
    Forall (token_ok U) (upcoming sc) /\
    upcoming sc = List.concat chunks ++ leftover /\ Forall2 (attached U) chunks l.
Proof.
  unfold pipeline_fuel. intros H.
  destruct (run_fuel U n (NewScanner r)) as [sc|] eqn:R; [|discriminate].
  destruct (drain_fuel U n (NewParser sc)) as [[l' p']|] eqn:D; [|discriminate].
  injection H as <- <-.
  pose proof (drain_fuel_drained n (NewParser sc) _ _ eq_refl eq_refl eq_refl D) as Dr.
  destruct (drained_chunks _ _ _ Dr eq_refl) as (chunks & leftover & E & F).
  destruct (run_fuel_ok n (NewScanner r) sc eq_refl R) as [Hok _].
  exists sc, chunks, leftover. auto.
Qed.

Lemma gostring_eqb_eq a : forall b, gostring_eqb a b = true <-> a = b.
Proof.
  induction a as [|x a IH]; intros [|y b]; simpl; split; try congruence.
  - intros H. apply andb_true_iff in H as [H1 H2].
    apply Z.eqb_eq in H1. apply IH in H2. congruence.
  - intros H. injection H as -> ->. rewrite Z.eqb_refl. simpl. now apply IH.
Qed.

(* entryType buffers everything up to the first opening delimiter. *)
Lemma entryType_reads name : forall s buf c rs,
  Forall (fun x => is_opener x = false) name ->
  entryType_loop U s (name ++ c :: rs) buf = entryType_loop U s (c :: rs) (buf ++ name).
Proof.
  induction name as [|x name IH]; intros s buf c rs Hn; simpl app.
  - rewrite app_nil_r. reflexivity.
  - inversion Hn as [|? ? Hx Hn']; subst. unfold is_opener in Hx.
    simpl entryType_loop at 1. rewrite Hx. rewrite IH by exact Hn'.
    rewrite <- app_assoc. reflexivity.
Qed.

(** C1, as the code has it. The type name of every EntryDecl the pipeline
    returns is the lower-cased copy, by strings.ToLower, of the text of an
    ItemEntry item that the scanner sent. That text is the trimmed run of
    runes before the opening delimiter, case kept; the scanner picks the
    preamble and abbreviation grammars by comparing its lower-cased copy
    with the two keywords, and the entry grammar otherwise. *)
Theorem typeName_is_lower_cased :
  (forall r n l st d,
      pipeline_fuel U n r = Some (l, st) -> In (NEntry d) l ->
      exists sc kw,
        run_fuel U n (NewScanner r) = Some sc /\ In kw (upcoming sc) /\
        T kw = ItemEntry /\ Name d = ToLower U (Val kw)) /\
  (forall s name c rs,
      rest (reader s) = name ++ c :: rs ->
      Forall (fun x => is_opener x = false) name -> is_opener c = true ->
      IsValidName U (TrimSpace U name) = true ->
      exists k t,
        Scanner_entryType U s
        = (entryLeftBodyDelim,
           with_rest (Scan.send (with_entryT s k) {| T := t; Val := TrimSpace U name |})
                     (c :: rs)) /\
        ((ToLower U (TrimSpace U name) = runes "preamble" /\
          k = Scan.preamble /\ t = ItemPreamble) \/
         (ToLower U (TrimSpace U name) = runes "string" /\
          k = Scan.abbrev /\ t = ItemAbbrev) \/
         (ToLower U (TrimSpace U name) <> runes "preamble" /\
          ToLower U (TrimSpace U name) <> runes "string" /\
          k = Scan.entry /\ t = ItemEntry))).
Proof.
  split.
  - intros r n l st d H Hin.
    destruct (pipeline_chunks _ _ _ _ H) as (sc & chunks & leftover & R & Hok & E & F).
    destruct (Forall2_In_r _ _ _ _ F Hin) as (chunk & Hc & A).
    destruct A as (top & ed & kw & dl & body & closer & Ec & _ & _ & _ & _ & _ & _ & _
                   & Tk & Hname & _).
    exists sc, kw. repeat split; auto.
    rewrite E. apply in_or_app. left. apply in_concat. exists chunk. split; [exact Hc|].
    rewrite Ec. apply in_or_app. right. right. now left.
  - intros s name c rs Hr Hn Hc Hv.
    unfold Scanner_entryType. rewrite Hr, (entryType_reads name s [] c rs Hn).
    simpl app. simpl entryType_loop. unfold is_opener in Hc. rewrite Hc, Hv.
    destruct (gostring_eqb (ToLower U (TrimSpace U name)) (runes "preamble")) eqn:P.
    { apply gostring_eqb_eq in P. eexists _, _. split; [reflexivity|]. left. auto. }
    destruct (gostring_eqb (ToLower U (TrimSpace U name)) (runes "string")) eqn:S.
    { apply gostring_eqb_eq in S. eexists _, _. split; [reflexivity|]. right. left. auto. }
    eexists _, _. split; [reflexivity|]. right. right.
    repeat split; auto; intros Q; apply gostring_eqb_eq in Q; congruence.
Qed.

(** C10. Once decl has set the declaration of their kind, the three body
    state functions pull the item that stands where the opening delimiter is
    expected and only look whether it is ItemEOF or ItemErr. Any other item
    [dl] is dropped and the function goes on: preamble and abbrev enter their
    loop on the items after it, entry enters its loop after the cite key that
    follows. With any two such items in that place, and the same items after
    it, they do the same, as they do in particular with ItemLeftDelim. *)
Theorem delimiter_position_unchecked (p : Parser) (dl dl' : Item) (toks : list Item) :
  is_terminal dl = false -> is_terminal dl' = false ->
  (forall d, currDecl p = Some (NEntry d) ->
             Parser_entry (with_upcoming p (dl :: toks))
             = Parser_entry (with_upcoming p (dl' :: toks)) /\
             forall ck toks', toks = ck :: toks' -> T ck = ItemCiteKey ->
               Parser_entry (with_upcoming p (dl :: toks))
               = entry_loop (with_upcoming p toks') (with_CiteKey d (Val ck))
                            {| Key := []; Value := [] |} toks') /\
  (forall d, currDecl p = Some (NPreamble d) ->
             Parser_preamble (with_upcoming p (dl :: toks))
             = Parser_preamble (with_upcoming p (dl' :: toks)) /\
             Parser_preamble (with_upcoming p (dl :: toks))
             = preamble_loop (with_upcoming p toks) d toks) /\
  (forall d, currDecl p = Some (NAbbrev d) ->
             Parser_abbrev (with_upcoming p (dl :: toks))
             = Parser_abbrev (with_upcoming p (dl' :: toks)) /\
             Parser_abbrev (with_upcoming p (dl :: toks))
             = abbrev_loop (with_upcoming p toks) d {| Key := []; Value := [] |} false toks).
Proof.
  intros H H'. unfold Parser_entry, Parser_preamble, Parser_abbrev. simpl.
  rewrite (not_terminal_checkErr dl H), (not_terminal_checkErr dl' H').
  unfold with_upcoming. simpl. repeat split; try (rewrite H0; reflexivity).
  intros ck toks' -> Tk. rewrite H0. simpl. rewrite Tk. reflexivity.
Qed.

Lemma emitted_needs_closer p toks body p' nd :
  emitted p toks body p' nd -> no_closer toks -> False.
Proof.
  intros (closer & E & Hc & _) Hn. rewrite E in Hn.
  apply Forall_app in Hn as [_ Hn]. inversion Hn; congruence.
Qed.

(* Without a closing delimiter among the items left, a body loop sends
   nothing and stops in err or eof; in err if the scannable ends with
   ItemErr and holds no ItemEOF, in eof if no item is left and the scannable
   ends with ItemEOF. *)
Lemma body_loops_without_closer p toks :
  no_closer toks ->
  forall st p',
    (exists d stmt, entry_loop p d stmt toks = (st, p')) \/
    (exists d, preamble_loop p d toks = (st, p')) \/
    (exists d stmt a, abbrev_loop p d stmt a toks = (st, p')) ->
    nodes p' = nodes p /\ closed p' = closed p /\
    (st = Parse.err \/ st = Parse.eof) /\
    (failing (scanner p) = true -> Forall (fun i => T i <> ItemEOF) toks -> st = Parse.err) /\
    (failing (scanner p) = false -> toks = [] -> st = Parse.eof).
Proof.
  intros Hn st p' H.
  assert (S : stopped p toks st p').
  { destruct H as [(d & stmt & H) | [(d & H) | (d & stmt & a & H)]].
    - destruct (entry_loop_spec _ _ _ _ _ _ H) as [(_ & body & d' & fs & He & _) | R];
        [exfalso; eapply emitted_needs_closer; eauto | exact R].
    - destruct (preamble_loop_spec _ _ _ _ _ H) as [(_ & body & d' & He & _) | R];
        [exfalso; eapply emitted_needs_closer; eauto | exact R].
    - destruct (abbrev_loop_spec _ _ _ _ _ _ _ H) as [(_ & body & d' & He & _) | R];
        [exfalso; eapply emitted_needs_closer; eauto | exact R]. }
  destruct S as (Hs & Hnd & Hc & Hf & Hl & He).
  repeat split; auto.
  - intros Hfail Hno. destruct Hs as [-> | ->]; [reflexivity|].
    destruct (He eq_refl) as [[H1 _] | H1]; [congruence|].
    apply Exists_exists in H1 as (i & Hi & Ti).
    rewrite Forall_forall in Hno. elim (Hno i Hi Ti).
  - intros Hfail ->.
    destruct H as [(d & stmt & H) | [(d & H) | (d & stmt & a & H)]];
      simpl in H; rewrite Hfail in H; simpl in H; congruence.
Qed.

End Runs.

(** ** isProperQuoted and bare words *)

Section ProperQuoted.
Import Scan.

Lemma isProperQuoted_loop_plain s : forall braces quotes,
  Forall (fun c => c <> 92 /\ c <> 123 /\ c <> 125 /\ c <> 34) s ->
  isProperQuoted_loop s braces quotes = (braces, quotes).
Proof.
  induction s as [|c s IH]; intros braces quotes H; simpl; [reflexivity|].
  inversion H as [|? ? (H1 & H2 & H3 & H4) H']; subst.
  apply Z.eqb_neq in H1, H2, H3, H4. rewrite H1, H2, H3, H4. simpl.
  apply IH. exact H'.
Qed.

(** isProperQuoted, documented as checking that the string is enclosed in
    quotation marks or curly brackets, accepts every non-empty string that
    holds none of them and no backslash. *)
Lemma isProperQuoted_accepts_plain s :
  s <> [] -> Forall (fun c => c <> 92 /\ c <> 123 /\ c <> 125 /\ c <> 34) s ->
  isProperQuoted s = true.
Proof.
  intros Hne H. unfold isProperQuoted. destruct s as [|c s]; [congruence|].
  rewrite (isProperQuoted_loop_plain _ 0 0 H). reflexivity.
Qed.
End ProperQuoted.

(** ** The machines on concrete inputs *)

Section Examples.
Import Scan Parse.

(** C1 as stated fails: the scanner sends the type name of [@Book{k, a = 1}]
    as [Book], and the EntryDecl holds [book]. *)
Lemma typeName_case_not_preserved :
  exists sc d,
    scan_ascii (runes "@Book{k, a = 1}") = Some sc /\
    In (item ItemEntry "Book") (upcoming sc) /\
    pipeline ascii_tables (source (runes "@Book{k, a = 1}")) = Some ([NEntry d], Parse.eof) /\
    Name d = runes "book" /\ Name d <> runes "Book".
Proof.
  eexists. eexists. split; [vm_compute; reflexivity|].
  split; [vm_compute; tauto|].
  split; [vm_compute; reflexivity|].
  split; [reflexivity | discriminate].
Qed.

(** C2: the scanner sends the bare word of [@book{k, title = abc}] as an
    ItemFieldText and goes on to the closing delimiter, where the claim, as
    the comment on isProperQuoted, wants the string enclosed in quotes or
    braces and the Error state otherwise. *)
Theorem bare_word_sent_as_field_text :
  isProperQuoted (runes "abc") = true /\
  scan_ascii (runes "@book{k, title = abc}")
  = Some {| upcoming := [item ItemEntryDelim "@"; item ItemEntry "book";
                         item ItemLeftDelim "{"; item ItemCiteKey "k";
                         item ItemComma ","; item ItemFieldType "title";
                         item ItemEqSgn "="; item ItemFieldText "abc";
                         item ItemRightDelim "}"];
            failing := false |}.
Proof. split; vm_compute; reflexivity. Qed.

(** C4 as stated fails: on [@book(b1, title = {T}], which ends before the
    closing parenthesis, the scanner ends with ItemEOF in the eof state and
    the parser ends in eof, not in err; no declaration is returned. *)
Lemma truncated_body_ends_in_eof :
  scan_ascii (runes "@book(b1, title = {T}")
  = Some {| upcoming := [item ItemEntryDelim "@"; item ItemEntry "book";
                         item ItemLeftDelim "("; item ItemCiteKey "b1";
                         item ItemComma ","; item ItemFieldType "title";
                         item ItemEqSgn "="];
            failing := false |} /\
  (exists l s',
      Next_iter ascii_tables 200 8 (NewScanner (source (runes "@book(b1, title = {T}")))
      = Some (l ++ [{| T := ItemEOF; Val := [] |}], s') /\
      Scan.cur_state s' = Scan.eof /\ Scan.cur_state s' <> Scan.err) /\
  pipeline ascii_tables (source (runes "@book(b1, title = {T}")) = Some ([], Parse.eof) /\
  Parse.eof <> Parse.err.
Proof.
  split; [vm_compute; reflexivity|].
  split.
  - exists [item ItemEntryDelim "@"; item ItemEntry "book"; item ItemLeftDelim "(";
            item ItemCiteKey "b1"; item ItemComma ","; item ItemFieldType "title";
            item ItemEqSgn "="].
    eexists. split; [vm_compute; reflexivity|]. split; [reflexivity | discriminate].
  - split; [vm_compute; reflexivity | discriminate].
Qed.

(** C5 as stated fails: [@book2{k, a = 1}] is accepted and its EntryDecl has
    the type name [book2], which is not made of letters only. *)
Lemma type_name_with_digit_accepted :
  exists d,
    pipeline ascii_tables (source (runes "@book2{k, a = 1}")) = Some ([NEntry d], Parse.eof) /\
    Name d = runes "book2" /\ isLetter ascii_tables (Name d) = false.
Proof.
  eexists. split; [vm_compute; reflexivity|]. split; reflexivity.
Qed.

(* A mismatched closer, end to end: no declaration, the parser in err. *)
Lemma mismatched_closer_example :
  pipeline ascii_tables (source (runes "@book{k, a = 1)")) = Some ([], Parse.err).
Proof. vm_compute. reflexivity. Qed.

(* Comments before and inside an entry, end to end. *)
Lemma comments_example :
  exists d,
    pipeline ascii_tables
             (source (runes "% one" ++ [10] ++ runes "@book{k," ++ [10] ++ runes "% two"
                      ++ [10] ++ runes "a = 1 % three" ++ [10] ++ runes "}"))
    = Some ([NEntry d], Parse.eof) /\
    Comments d = Some {| Values := [ {| CommentValue := runes "% one" |};
                                    {| CommentValue := runes "two" |};
                                    {| CommentValue := runes "three" |} ] |} /\
    Fields d = [ {| Key := runes "a"; Value := runes "1" |} ].
Proof. eexists. split; [vm_compute; reflexivity|]. split; reflexivity. Qed.
End Examples.

(** ** The theorems at concrete inputs *)

Section Witnesses.
Import Scan Parse.

Lemma typeName_is_lower_cased_witness :
  exists sc kw,
    run_fuel ascii_tables 128%nat (NewScanner (source (runes "@Book{k, a = 1}"))) = Some sc /\
    In kw (upcoming sc) /\ T kw = ItemEntry /\
    runes "book" = ToLower ascii_tables (Val kw).
Proof.
  apply (proj1 (typeName_is_lower_cased ascii_tables)
               (source (runes "@Book{k, a = 1}")) 128%nat
               [NEntry {| Name := runes "book"; CiteKey := runes "k";
                          Comments := Some {| Values := [] |};
                          Fields := [ {| Key := runes "a"; Value := runes "1" |} ] |}]
               Parse.eof
               {| Name := runes "book"; CiteKey := runes "k";
                  Comments := Some {| Values := [] |};
                  Fields := [ {| Key := runes "a"; Value := runes "1" |} ] |}).
  - vm_compute. reflexivity.
  - left. reflexivity.
Defined.

Lemma fieldText_quote_parity_witness :
  2 = toggling_quotes 0 [34; 97; 34] /\
  (Z.even (toggling_quotes 0 [34; 97; 34]) = true ->
   Scanner_entryFieldText ascii_tables
     {| reader := source [34; 97; 34; 44; 98]; items := []; Scan.cur_state := entryFieldText;
        bracers := 1; cur_entryT := Scan.entry; delim := 123 |}
   = fieldText_finish ascii_tables
       {| reader := source [34; 97; 34; 44; 98]; items := [];
          Scan.cur_state := entryFieldText;
          bracers := 1; cur_entryT := Scan.entry; delim := 123 |}
       [34; 97; 34] entryComma [98] [44; 98]) /\
  (Z.even (toggling_quotes 0 [34; 97; 34]) = false ->
   Scanner_entryFieldText ascii_tables
     {| reader := source [34; 97; 34; 44; 98]; items := []; Scan.cur_state := entryFieldText;
        bracers := 1; cur_entryT := Scan.entry; delim := 123 |}
   = entryFieldText_loop ascii_tables
       {| reader := source [34; 97; 34; 44; 98]; items := [];
          Scan.cur_state := entryFieldText;
          bracers := 1; cur_entryT := Scan.entry; delim := 123 |}
       [98] ([34; 97; 34] ++ [44]) (toggling_quotes 0 [34; 97; 34]) 44).
Proof.
  apply (proj2 (proj2 (proj2 (fieldText_quote_parity ascii_tables)))
               {| reader := source [34; 97; 34; 44; 98]; items := [];
                  Scan.cur_state := entryFieldText;
                  bracers := 1; cur_entryT := Scan.entry; delim := 123 |}
               [34; 97; 34] [98] _ 2 34).
  - reflexivity.
  - reflexivity.
  - reflexivity.
Defined.

Lemma Next_one_item_sinks_stable_witness :
  exists i s',
    (forall n, (weight (NewScanner (source (runes "x"))) < n)%nat ->
               Scan.Next_fuel ascii_tables n (NewScanner (source (runes "x"))) = Some (i, s')) /\
    (forall n r, Scan.Next_fuel ascii_tables n (NewScanner (source (runes "x"))) = Some r ->
                 r = (i, s')) /\
    items s' = [] /\
    (is_terminal i = true ->
     (Scan.cur_state s' = Scan.eof \/ Scan.cur_state s' = Scan.err) /\
     forall k n, (0 < n)%nat -> Next_iter ascii_tables n k s' = Some (repeat i k, s')).
Proof.
  apply (Next_one_item_sinks_stable ascii_tables (NewScanner (source (runes "x")))).
  reflexivity.
Defined.

Lemma pipeline_deterministic_witness :
  exists out,
    pipeline ascii_tables (source (runes "@a{k, b = 1}")) = Some out /\
    (forall n, (enough (source (runes "@a{k, b = 1}")) <= n)%nat ->
               pipeline_fuel ascii_tables n (source (runes "@a{k, b = 1}")) = Some out) /\
    (forall n m o1 o2,
        pipeline_fuel ascii_tables n (source (runes "@a{k, b = 1}")) = Some o1 ->
        pipeline_fuel ascii_tables m (source (runes "@a{k, b = 1}")) = Some o2 -> o1 = o2).
Proof.
  apply (pipeline_deterministic ascii_tables (source (runes "@a{k, b = 1}"))).
Defined.

Lemma delimiter_position_unchecked_witness :
  Parser_entry
    (with_upcoming
       (with_currDecl (NewParser {| upcoming := []; failing := false |})
                      (Some (NEntry {| Name := runes "book"; CiteKey := [];
                                       Comments := None; Fields := [] |})))
       [item ItemComma ","; item ItemCiteKey "k"; item ItemRightDelim "}"])
  = Parser_entry
      (with_upcoming
         (with_currDecl (NewParser {| upcoming := []; failing := false |})
                        (Some (NEntry {| Name := runes "book"; CiteKey := [];
                                         Comments := None; Fields := [] |})))
         [item ItemLeftDelim "{"; item ItemCiteKey "k"; item ItemRightDelim "}"]).
Proof.
  apply (proj1 (proj1 (delimiter_position_unchecked
                  (with_currDecl (NewParser {| upcoming := []; failing := false |})
                                 (Some (NEntry {| Name := runes "book"; CiteKey := [];
                                                  Comments := None; Fields := [] |})))
                  (item ItemComma ",") (item ItemLeftDelim "{")
                  [item ItemCiteKey "k"; item ItemRightDelim "}"]
                  eq_refl eq_refl)
               {| Name := runes "book"; CiteKey := []; Comments := None; Fields := [] |}
               eq_refl)).
Defined.
End Witnesses.

(** ** The state diagram of the scanner *)

Section Graph.
Variable U : Unicode.
Import Scan.

Lemma entryT_eqb_refl e : entryT_eqb e e = true.
Proof. destruct e; reflexivity. Qed.

Ltac edge_leaf s :=
  first
    [ exists None; split; [reflexivity|];
      simpl; rewrite ?entryT_eqb_refl;
      try (unfold exhausted; destruct (broken (reader s)));
      try destruct (cur_entryT s); reflexivity
    | eexists (Some _); split; [eexists; reflexivity|];
      simpl; rewrite ?entryT_eqb_refl;
      try destruct (cur_entryT s); reflexivity ].

Ltac edge_loop s IH :=
  repeat match goal with
         | |- context [if ?b then _ else _] => destruct b eqn:?
         | |- context [match ?l with [] => _ | _ :: _ => _ end] => destruct l eqn:?
         end;
  cbn [negb] in *; try discriminate; first [ edge_leaf s | apply IH ].

Lemma entryComment_cont_edge rs : forall s,
  items (snd (entryComment_cont U s rs)) = items s /\
  cur_entryT (snd (entryComment_cont U s rs)) = cur_entryT s /\
  bracers (snd (entryComment_cont U s rs)) = bracers s /\
  (fst (entryComment_cont U s rs) = eof \/ fst (entryComment_cont U s rs) = err \/
   fst (entryComment_cont U s rs) = entryComment \/
   fst (entryComment_cont U s rs) = entryRightBodyDelim \/
   fst (entryComment_cont U s rs) = entryFieldType).
Proof.
  induction rs as [|c rs IH]; intros s; simpl.
  - repeat split. unfold exhausted. destruct (broken (reader s)); simpl; auto.
  - destruct (c =? 37); [simpl; auto 10|]. destruct (isDelim c); [simpl; auto 10|].
    destruct (IsValidNameRune U c); [simpl; auto 10|]. apply IH.
Qed.

Lemma fieldText_finish_edge s0 s buf next consumed after :
  items s = items s0 -> cur_entryT s = cur_entryT s0 ->
  next = entryRightBodyDelim \/ next = entryComment \/ next = entryComma ->
  edge_from entryFieldText s0 (fieldText_finish U s buf next consumed after).
Proof.
  intros Hi He Hn. unfold fieldText_finish, edge_from.
  destruct (negb (isValidInt U (TrimSpace U buf)) && negb (isProperQuoted (TrimSpace U buf))).
  - exists None. simpl. split; [exact Hi|]. reflexivity.
  - exists (Some ItemFieldText). simpl. split; [eexists; rewrite Hi; reflexivity|].
    rewrite He. destruct Hn as [-> | [-> | ->]]; simpl; apply entryT_eqb_refl.
Qed.

Lemma entryFieldText_edge s0 rs : forall s buf q prev,
  items s = items s0 -> cur_entryT s = cur_entryT s0 -> broken (reader s) = broken (reader s0) ->
  edge_from entryFieldText s0 (entryFieldText_loop U s rs buf q prev).
Proof.
  induction rs as [|c rs IH]; intros s buf q prev Hi He Hb; simpl.
  - exists None. simpl. split; [exact Hi|].
    unfold exhausted. destruct (broken (reader s)); reflexivity.
  - destruct (c =? 123); [apply IH; assumption|].
    destruct (c =? 34); [apply IH; assumption|].
    destruct (((c =? 125) || (c =? 41)) && (bracers s =? 1));
      [apply fieldText_finish_edge; auto|].
    destruct ((c =? 37) && (bracers s =? 1)); [apply fieldText_finish_edge; auto|].
    destruct ((c =? 125) && (bracers s >? 0)); [apply IH; assumption|].
    destruct ((c =? 44) && (Z.rem q 2 =? 0) && (bracers s =? 1));
      [apply fieldText_finish_edge; auto | apply IH; assumption].
Qed.

(** Every state function follows the state diagram. *)
Lemma states_edge (s : Scanner) : edge_from (cur_state s) s (states U (cur_state s) s).
Proof.
  unfold edge_from.
  destruct (cur_state s); simpl states;
    unfold Scanner_null, Scanner_entryDelim, Scanner_topLvlComment, Scanner_entryComment,
      Scanner_entryType, Scanner_leftBodyDelim, Scanner_citeKey, Scanner_entryComma,
      Scanner_entryFieldType, Scanner_rightBodyDelim, Scanner_entryEqSgn,
      Scanner_entryFieldText, Scanner_entryTypeOrBrace, Scanner_eof, Scanner_err.
  - edge_leaf s.
  - induction (rest (reader s)) as [|c rs IH]; simpl; edge_loop s IH.
  - generalize (@nil rune).
    induction (rest (reader s)) as [|c rs IH]; intros buf; simpl; edge_loop s IH.
  - generalize (@nil rune).
    induction (rest (reader s)) as [|c rs IH]; intros buf; simpl.
    + edge_leaf s.
    + destruct (c =? 10); [|apply IH].
      destruct (TrimSpace U buf) as [|x b].
      * destruct (entryComment_cont_edge rs s) as (E1 & E2 & _ & E3).
        exists None. split; [exact E1|]. rewrite E2.
        destruct E3 as [-> | [-> | [-> | [-> | ->]]]]; simpl;
          rewrite ?entryT_eqb_refl; reflexivity.
      * destruct (entryComment_cont_edge rs (send s {| T := ItemComment; Val := x :: b |}))
          as (E1 & E2 & _ & E3).
        exists (Some ItemComment). split; [eexists; exact E1|]. rewrite E2.
        destruct E3 as [-> | [-> | [-> | [-> | ->]]]]; simpl;
          rewrite ?entryT_eqb_refl; reflexivity.
  - generalize (@nil rune).
    induction (rest (reader s)) as [|c rs IH]; intros buf; simpl; edge_loop s IH.
  - induction (rest (reader s)) as [|c rs IH]; simpl; edge_loop s IH.
  - generalize (@nil rune).
    induction (rest (reader s)) as [|c rs IH]; intros buf; simpl; edge_loop s IH.
  - induction (rest (reader s)) as [|c rs IH]; simpl; edge_loop s IH.
  - generalize (@nil rune).
    induction (rest (reader s)) as [|c rs IH]; intros buf; simpl; edge_loop s IH.
  - induction (rest (reader s)) as [|c rs IH]; simpl; edge_loop s IH.
  - induction (rest (reader s)) as [|c rs IH]; simpl; edge_loop s IH.
  - apply (entryFieldText_edge s); reflexivity.
  - induction (rest (reader s)) as [|c rs IH]; simpl; edge_loop s IH.
  - edge_leaf s.
  - edge_leaf s.
Qed.

(* One state function moves the caller's phase as the table delta says. *)
Lemma sim_edge ph st e k st' e' :
  sim ph st e = true -> edge st e k st' e' = true ->
  match k with
  | None => sim ph st' e' = true
  | Some t =>
      (t = ItemEOF \/ t = ItemErr) \/
      exists ph', delta ph t = Some ph' /\ sim ph' st' e' = true
  end.
Proof.
  intros S E.
  destruct st; destruct k as [t|]; try destruct t; destruct st'; simpl in E;
    try discriminate E; auto;
    destruct ph as [| | |e0| | | | | | |]; simpl in S; try discriminate S;
    try (right; eexists; split; [reflexivity|]); simpl; auto;
    destruct e; destruct e'; simpl in E; try discriminate E;
    try destruct e0; simpl in S; try discriminate S;
    try (right; eexists; split; [reflexivity|]); simpl; auto.
Qed.

Lemma step_edge (s : Scanner) :
  items s = [] ->
  exists k, edge (cur_state s) (cur_entryT s) k (cur_state (step U s)) (cur_entryT (step U s))
            = true /\
            match k with
            | None => items (step U s) = []
            | Some t => exists v, items (step U s) = [{| T := t; Val := v |}]
            end.
Proof.
  intros Hi. destruct (states_edge s) as (k & Hs & He).
  unfold step. destruct (states U (cur_state s) s) as [st' s']. simpl in *.
  exists k. split; [exact He|]. rewrite Hi in Hs. destruct k; exact Hs.
Qed.

Lemma Next_phase n : forall s ph i s',
  items s = [] -> sim ph (cur_state s) (cur_entryT s) = true ->
  Next_fuel U n s = Some (i, s') ->
  is_terminal i = true \/
  exists ph', delta ph (T i) = Some ph' /\ sim ph' (cur_state s') (cur_entryT s') = true.
Proof.
  induction n as [|n IH]; intros s ph i s' Hi S H.
  - simpl in H. rewrite Hi in H. discriminate.
  - rewrite Next_fuel_step in H by exact Hi.
    destruct (step_edge s Hi) as (k & E & Hk).
    pose proof (sim_edge _ _ _ _ _ _ S E) as M.
    destruct k as [t|].
    + destruct Hk as (v & Hk).
      rewrite (Next_fuel_ready U n (step U s) _ [] Hk) in H.
      injection H as <- <-. simpl.
      destruct M as [[-> | ->] | M]; [left; reflexivity | left; reflexivity | right; exact M].
    + eapply IH; [exact Hk | exact M | exact H].
Qed.

Lemma run_accepted n : forall s ph sc,
  items s = [] -> sim ph (cur_state s) (cur_entryT s) = true ->
  run_fuel U n s = Some sc -> accepted ph (upcoming sc) = true.
Proof.
  induction n as [|n IH]; intros s ph sc Hi S H; [discriminate|].
  simpl in H. destruct (Next_fuel U n s) as [[i s']|] eqn:N; [|discriminate].
  pose proof (Next_fuel_spec U _ _ _ _ Hi N) as (Hq & _).
  destruct (Next_phase _ _ _ _ _ Hi S N) as [Ht | (ph' & D & S')].
  - unfold is_terminal in Ht. destruct (T i); try discriminate Ht;
      injection H as <-; reflexivity.
  - destruct (T i) eqn:Ti;
      try (injection H as <-; reflexivity);
      (destruct (run_fuel U n s') as [sc'|] eqn:R; [|discriminate];
       injection H as <-; simpl; rewrite Ti, D; exact (IH _ _ _ Hq S' R)).
Qed.

(** *** The nesting depth *)

Lemma fieldText_finish_depth s buf next consumed after :
  bracers s = 1 -> next <> eof -> next <> err ->
  (next = entryRightBodyDelim \/ next = entryComment \/ next = entryComma) ->
  depth_ok (fst (fieldText_finish U s buf next consumed after))
           (bracers (snd (fieldText_finish U s buf next consumed after))).
Proof.
  intros Hb _ _ Hn. unfold fieldText_finish.
  destruct (negb (isValidInt U (TrimSpace U buf)) && negb (isProperQuoted (TrimSpace U buf)));
    simpl; [lia|].
  destruct Hn as [-> | [-> | ->]]; simpl; exact Hb.
Qed.

Lemma entryFieldText_depth rs : forall s buf q prev,
  1 <= bracers s ->
  depth_ok (fst (entryFieldText_loop U s rs buf q prev))
           (bracers (snd (entryFieldText_loop U s rs buf q prev))).
Proof.
  induction rs as [|c rs IH]; intros s buf q prev Hb; simpl.
  - unfold exhausted. destruct (broken (reader s)); simpl; lia.
  - destruct (c =? 123); [apply IH; simpl; lia|].
    destruct (c =? 34); [apply IH; exact Hb|].
    destruct (((c =? 125) || (c =? 41)) && (bracers s =? 1)) eqn:E3.
    { apply andb_true_iff in E3 as [_ B1]. apply Z.eqb_eq in B1.
      apply fieldText_finish_depth; auto; discriminate. }
    destruct ((c =? 37) && (bracers s =? 1)) eqn:E4.
    { apply andb_true_iff in E4 as [_ B1]. apply Z.eqb_eq in B1.
      apply fieldText_finish_depth; auto; discriminate. }
    destruct ((c =? 125) && (bracers s >? 0)) eqn:E5.
    { apply andb_true_iff in E5 as [C5 _]. rewrite C5 in E3. simpl in E3.
      apply Z.eqb_neq in E3. apply IH. simpl. lia. }
    destruct ((c =? 44) && (Z.rem q 2 =? 0) && (bracers s =? 1)) eqn:E6.
    { apply andb_true_iff in E6 as [_ B1]. apply Z.eqb_eq in B1.
      apply fieldText_finish_depth; auto; discriminate. }
    apply IH; exact Hb.
Qed.

Ltac depth_leaf s :=
  simpl; try (unfold exhausted; destruct (broken (reader s)));
  try destruct (cur_entryT s); simpl; lia.

Ltac depth_loop s IH :=
  repeat match goal with
         | |- context [if ?b then _ else _] => destruct b eqn:?
         | |- context [match ?l with [] => _ | _ :: _ => _ end] => destruct l eqn:?
         end;
  cbn [negb] in *; try discriminate; first [ depth_leaf s | apply IH ].

(** Every state function keeps the nesting depth that goes with the state. *)
Lemma states_depth (s : Scanner) :
  depth_ok (cur_state s) (bracers s) ->
  depth_ok (fst (states U (cur_state s) s)) (bracers (snd (states U (cur_state s) s))).
Proof.
  destruct (cur_state s); simpl states; intros D; simpl in D;
    unfold Scanner_null, Scanner_entryDelim, Scanner_topLvlComment, Scanner_entryComment,
      Scanner_entryType, Scanner_leftBodyDelim, Scanner_citeKey, Scanner_entryComma,
      Scanner_entryFieldType, Scanner_rightBodyDelim, Scanner_entryEqSgn,
      Scanner_entryFieldText, Scanner_entryTypeOrBrace, Scanner_eof, Scanner_err.
  - exact D.
  - induction (rest (reader s)) as [|c rs IH]; simpl; depth_loop s IH.
  - generalize (@nil rune).
    induction (rest (reader s)) as [|c rs IH]; intros buf; simpl; depth_loop s IH.
  - generalize (@nil rune).
    induction (rest (reader s)) as [|c rs IH]; intros buf; simpl.
    + depth_leaf s.
    + destruct (c =? 10); [|apply IH].
      destruct (TrimSpace U buf) as [|x b].
      * destruct (entryComment_cont_edge rs s) as (_ & _ & E2 & E3). rewrite E2.
        destruct E3 as [-> | [-> | [-> | [-> | ->]]]]; simpl; lia.
      * destruct (entryComment_cont_edge rs (send s {| T := ItemComment; Val := x :: b |}))
          as (_ & _ & E2 & E3). rewrite E2.
        destruct E3 as [-> | [-> | [-> | [-> | ->]]]]; simpl; lia.
  - generalize (@nil rune).
    induction (rest (reader s)) as [|c rs IH]; intros buf; simpl; depth_loop s IH.
  - induction (rest (reader s)) as [|c rs IH]; simpl; depth_loop s IH.
  - generalize (@nil rune).
    induction (rest (reader s)) as [|c rs IH]; intros buf; simpl; depth_loop s IH.
  - induction (rest (reader s)) as [|c rs IH]; simpl; depth_loop s IH.
  - generalize (@nil rune).
    induction (rest (reader s)) as [|c rs IH]; intros buf; simpl; depth_loop s IH.
  - induction (rest (reader s)) as [|c rs IH]; simpl; depth_loop s IH.
  - induction (rest (reader s)) as [|c rs IH]; simpl; depth_loop s IH.
  - apply entryFieldText_depth. lia.
  - induction (rest (reader s)) as [|c rs IH]; simpl; depth_loop s IH.
  - simpl. exact D.
  - simpl. exact D.
Qed.

Lemma Next_depth n : forall s i s',
  depth_ok (cur_state s) (bracers s) -> Next_fuel U n s = Some (i, s') ->
  depth_ok (cur_state s') (bracers s').
Proof.
  induction n as [|n IH]; intros s i s' D H; simpl in H.
  - destruct (items s); [discriminate|]. injection H as <- <-. exact D.
  - destruct (items s).
    + apply (IH (step U s) i s'); [|exact H].
      pose proof (states_depth s D) as D'. unfold step.
      destruct (states U (cur_state s) s) as [st' t]. exact D'.
    + injection H as <- <-. exact D.
Qed.

Lemma Next_fuel_reachable n : forall s i s',
  reachable U s -> Next_fuel U n s = Some (i, s') -> reachable U s'.
Proof.
  induction n as [|n IH]; intros s i s' R H; simpl in H.
  - destruct (items s) eqn:E; [discriminate|]. injection H as <- <-.
    eapply reach_receive; eassumption.
  - destruct (items s) eqn:E.
    + eapply IH; [|exact H]. apply reach_run; assumption.
    + injection H as <- <-. eapply reach_receive; eassumption.
Qed.

Lemma Next_iter_reachable n k : forall s l s',
  reachable U s -> Next_iter U n k s = Some (l, s') -> reachable U s'.
Proof.
  induction k as [|k IH]; intros s l s' R H; simpl in H.
  - injection H as <- <-. exact R.
  - destruct (Next_fuel U n s) as [[i s1]|] eqn:N; [|discriminate].
    destruct (Next_iter U n k s1) as [[l1 s2]|] eqn:I; [|discriminate].
    injection H as <- <-.
    eapply IH; [|exact I]. eapply Next_fuel_reachable; eassumption.
Qed.

Lemma reachable_bound s : reachable U s -> (List.length (items s) <= 1)%nat.
Proof.
  induction 1 as [r | s R IH Hi | s i q R IH Hi]; simpl.
  - lia.
  - destruct (step_edge s Hi) as ([t|] & _ & Hk).
    + destruct Hk as (v & ->). simpl. lia.
    + rewrite Hk. simpl. lia.
  - rewrite Hi in IH. simpl in IH. lia.
Qed.

Lemma reachable_depth s : reachable U s -> depth_ok (cur_state s) (bracers s).
Proof.
  induction 1 as [r | s R IH Hi | s i q R IH Hi]; simpl.
  - reflexivity.
  - pose proof (states_depth s IH) as D. unfold step.
    destruct (states U (cur_state s) s) as [st' t]. exact D.
  - exact IH.
Qed.

(** Each run of a state function by Next follows the state diagram [edge]
    and leaves at most one item in the channel, of the kind on the edge. *)
Theorem step_follows_state_diagram (s : Scanner) :
  items s = [] ->
  exists k,
    edge (cur_state s) (cur_entryT s) k (cur_state (step U s)) (cur_entryT (step U s)) = true /\
    match k with
    | None => items (step U s) = []
    | Some t => exists v, items (step U s) = [{| T := t; Val := v |}]
    end.
Proof. exact (step_edge s). Qed.

(** The channel of items never holds more than one item, whatever calls of
    Next have been made; between two calls it is empty. *)
Theorem channel_holds_at_most_one_item :
  (forall s, reachable U s -> (List.length (items s) <= 1)%nat) /\
  (forall r n k l s',
      Next_iter U n k (NewScanner r) = Some (l, s') -> reachable U s' /\ items s' = []).
Proof.
  split; [exact reachable_bound|].
  intros r n k l s' H. split.
  - eapply Next_iter_reachable; [apply reach_new | exact H].
  - revert l s' H. generalize (NewScanner r) (eq_refl : items (NewScanner r) = []).
    induction k as [|k IH]; intros s Hi l s' H; simpl in H.
    + injection H as <- <-. exact Hi.
    + destruct (Next_fuel U n s) as [[i s1]|] eqn:N; [|discriminate].
      destruct (Next_iter U n k s1) as [[l1 s2]|] eqn:I; [|discriminate].
      injection H as <- <-.
      destruct (Next_fuel_spec U _ _ _ _ Hi N) as (Hq & _).
      exact (IH s1 Hq _ _ I).
Qed.

(** The nesting depth [bracers] is 0 in the states between declarations
    and 1 in the states of a body, so it is never negative; and while
    entryFieldText reads a value that it entered at depth 1 or more, the depth
    stays at 1 or more. *)
Theorem nesting_depth_invariant :
  (forall s, reachable U s -> depth_ok (cur_state s) (bracers s) /\ 0 <= bracers s) /\
  (forall pre s q prev s' q' prev',
      1 <= bracers s -> fieldText_reads s pre q prev = Some (s', q', prev') ->
      1 <= bracers s').
Proof.
  split.
  - intros s R. pose proof (reachable_depth s R) as D. split; [exact D|].
    destruct (cur_state s); simpl in D; lia.
  - induction pre as [|c pre IH]; intros s q prev s' q' prev' Hb H; simpl in H.
    + injection H as <- _ _. exact Hb.
    + destruct (c =? 123); [eapply IH; [|exact H]; simpl; lia|].
      destruct (c =? 34); [eapply IH; [|exact H]; exact Hb|].
      destruct (is_closer c && (bracers s =? 1)) eqn:E3; [discriminate|].
      destruct ((c =? 37) && (bracers s =? 1)); [discriminate|].
      destruct ((c =? 125) && (bracers s >? 0)) eqn:E5.
      { apply andb_true_iff in E5 as [C5 _]. unfold is_closer in E3. rewrite C5 in E3.
        simpl in E3. apply Z.eqb_neq in E3. eapply IH; [|exact H]. simpl. lia. }
      destruct ((c =? 44) && (Z.rem q 2 =? 0) && (bracers s =? 1)); [discriminate|].
      eapply IH; [|exact H]. exact Hb.
Qed.

Lemma accepted_kinds l : forall ph,
  accepted ph l = true ->
  Forall (fun i => match T i with
                   | ItemErr | ItemEOF | ItemLeftBrace | ItemRightBrace
                   | ItemLeftParen | ItemRightParen | ItemTexCode => False
                   | _ => True
                   end) l.
Proof.
  induction l as [|i l IH]; intros ph H; [constructor|].
  simpl in H. destruct (delta ph (T i)) as [ph'|] eqn:D; [|discriminate].
  constructor; [|exact (IH _ H)].
  destruct ph as [| | |[]| | | | | | |]; destruct (T i); simpl in D; try discriminate D; exact I.
Qed.

(** The items of a run obey the grammar [delta]: from the top-level phase,
    every item is one the phase allows. In particular the item kinds that
    [delta] never allows (the brace, parenthesis and TeX-code kinds) are never
    sent, and the terminal items only end the run. *)
Theorem scanner_items_follow_grammar (r : Reader) n sc :
  run_fuel U n (NewScanner r) = Some sc ->
  accepted PTop (upcoming sc) = true /\
  Forall (fun i => match T i with
                   | ItemErr | ItemEOF | ItemLeftBrace | ItemRightBrace
                   | ItemLeftParen | ItemRightParen | ItemTexCode => False
                   | _ => True
                   end) (upcoming sc).
Proof.
  intros H.
  pose proof (run_accepted n (NewScanner r) PTop sc eq_refl eq_refl H) as A.
  split; [exact A | exact (accepted_kinds _ _ A)].
Qed.

End Graph.

(** ** The helper predicates *)

Section Helpers.
Variable U : Unicode.
Import Scan.

Lemma forallb_impl {A} (f g : A -> bool) l :
  (forall x, f x = true -> g x = true) -> forallb f l = true -> forallb g l = true.
Proof.
  intros H. induction l as [|x l IH]; simpl; [auto|].
  intros E. apply andb_true_iff in E as [E1 E2]. rewrite (H _ E1), (IH E2). reflexivity.
Qed.

Lemma delims_some i o : delims i = Some o ->
  (i = 123 /\ o = 125) \/ (i = 125 /\ o = 123) \/ (i = 40 /\ o = 41) \/ (i = 41 /\ o = 40).
Proof.
  unfold delims.
  destruct (i =? 123) eqn:E1; [apply Z.eqb_eq in E1; intros [= <-]; auto|].
  destruct (i =? 125) eqn:E2; [apply Z.eqb_eq in E2; intros [= <-]; auto|].
  destruct (i =? 40) eqn:E3; [apply Z.eqb_eq in E3; intros [= <-]; auto|].
  destruct (i =? 41) eqn:E4; [apply Z.eqb_eq in E4; intros [= <-]; auto 6|].
  discriminate.
Qed.

(** delimsMatch holds exactly for a delimiter and its counterpart of the
    same flavor, in either order: it is symmetric, and no rune matches
    itself. *)
Theorem delimsMatch_pairs (i j : rune) :
  (delimsMatch i j = true <->
   (i = 123 /\ j = 125) \/ (i = 125 /\ j = 123) \/ (i = 40 /\ j = 41) \/ (i = 41 /\ j = 40)) /\
  delimsMatch i j = delimsMatch j i /\
  delimsMatch i i = false.
Proof.
  assert (C : forall a b, delimsMatch a b = true <->
            (a = 123 /\ b = 125) \/ (a = 125 /\ b = 123) \/ (a = 40 /\ b = 41) \/
            (a = 41 /\ b = 40)).
  { intros a b. unfold delimsMatch. split.
    - destruct (delims a) as [o|] eqn:D; [|discriminate].
      destruct (b =? o) eqn:E; simpl; [|discriminate]. intros _.
      apply Z.eqb_eq in E. subst o. exact (delims_some _ _ D).
    - intros [[-> ->] | [[-> ->] | [[-> ->] | [-> ->]]]]; reflexivity. }
  split; [apply C|]. split.
  - destruct (delimsMatch i j) eqn:E1; destruct (delimsMatch j i) eqn:E2; try reflexivity.
    + apply C in E1. assert (E3 : delimsMatch j i = true) by (apply C; tauto). congruence.
    + apply C in E2. assert (E3 : delimsMatch i j = true) by (apply C; tauto). congruence.
  - destruct (delimsMatch i i) eqn:E; [|reflexivity]. apply C in E. lia.
Qed.

(** Strings of letters only and strings of digits only are valid NAMEs. *)
Theorem letters_and_digits_are_names (s : gostring) :
  (isLetter U s = true -> IsValidName U s = true) /\
  (isValidInt U s = true -> IsValidName U s = true).
Proof.
  unfold isLetter, isValidInt, IsValidName. split; destruct s as [|x s]; try discriminate;
    apply forallb_impl; intros c H; unfold IsValidNameRune; rewrite H; simpl;
    try reflexivity.
  destruct (IsLetter U c); reflexivity.
Qed.

(** Every cite key that the older lexer accepted is a valid NAME for the
    scanner: the scanner's character set contains the older one. *)
Theorem old_cite_keys_are_names (s : gostring) :
  Lexer.isValidCiteKey U s = true -> IsValidName U s = true.
Proof.
  unfold Lexer.isValidCiteKey, IsValidName. destruct s as [|x s]; [discriminate|].
  apply forallb_impl. intros c. unfold IsValidNameRune.
  destruct (IsLetter U c); [reflexivity|]. destruct (IsDigit U c); [reflexivity|]. simpl.
  destruct (c =? 58) eqn:E1; [apply Z.eqb_eq in E1; subst; reflexivity|].
  destruct (c =? 45) eqn:E2; [apply Z.eqb_eq in E2; subst; reflexivity|].
  destruct (c =? 95) eqn:E3; [apply Z.eqb_eq in E3; subst; reflexivity|].
  simpl. discriminate.
Qed.

(** A valid NAME has no white space in it, given that no white space rune is
    a letter, a digit or one of the special characters, as is the case in
    Unicode: IsValidName implies isContinuous. *)
Theorem names_are_continuous (s : gostring) :
  (forall c, IsSpace U c = true ->
             IsLetter U c = false /\ IsDigit U c = false /\ IsSpecial c = false) ->
  IsValidName U s = true -> isContinuous U s = true.
Proof.
  intros H. unfold IsValidName, isContinuous. destruct s as [|x s]; [discriminate|].
  apply forallb_impl. intros c. unfold IsValidNameRune.
  destruct (IsSpace U c) eqn:S; [|reflexivity].
  destruct (H c S) as (-> & -> & ->). simpl. discriminate.
Qed.

Lemma old_loop_no_backslash s : forall b q,
  Forall (fun c => c <> 92) s ->
  Lexer.isProperQuoted_loop s b q = isProperQuoted_loop s b q.
Proof.
  induction s as [|c s IH]; intros b q H; simpl; [reflexivity|].
  inversion H as [|? ? Hc Hs]; subst.
  apply Z.eqb_neq in Hc. rewrite Hc.
  destruct (c =? 123); [apply IH; exact Hs|].
  destruct ((c =? 125) && (b >? 0)); [apply IH; exact Hs|].
  destruct (c =? 34); apply IH; exact Hs.
Qed.

(** On a string without backslashes, the older isProperQuoted is the
    scanner's isProperQuoted together with the test that the scanner has
    dropped: the string begins with a quote or an opening brace and ends with
    a quote or a closing brace. So the scanner accepts all such strings that
    the older lexer accepted. *)
Theorem old_isProperQuoted_is_stricter (s : gostring) :
  Forall (fun c => c <> 92) s ->
  Lexer.isProperQuoted s
  = (Lexer.HasPrefix s 34 || Lexer.HasPrefix s 123) &&
    (Lexer.HasSuffix s 34 || Lexer.HasSuffix s 125) && isProperQuoted s.
Proof.
  intros H. unfold Lexer.isProperQuoted, isProperQuoted.
  destruct s as [|x s]; [reflexivity|].
  rewrite (old_loop_no_backslash _ _ _ H).
  destruct (Lexer.HasPrefix (x :: s) 34); destruct (Lexer.HasPrefix (x :: s) 123);
    destruct (Lexer.HasSuffix (x :: s) 34); destruct (Lexer.HasSuffix (x :: s) 125);
    reflexivity.
Qed.

End Helpers.

(** ** What the parser builds from the items *)

Section Content.
Variable U : Unicode.
Import Scan Parse.

Lemma comments_eta (c : CommentGroupExpr) : {| Values := Values c |} = c.
Proof. destruct c; reflexivity. Qed.

Lemma entry_loop_built toks : forall p d stmt p',
  entry_loop p d stmt toks = (Parse.null, p') ->
  nodes p' = nodes p ++
    [NEntry {| Name := Name d; CiteKey := CiteKey d;
               Comments := Some {| Values := Values (comments p) ++ comment_exprs (body_of toks) |};
               Fields := Fields d ++ pair_fields (Key stmt) (body_of toks) |}] /\
  Forall (fun f => FieldStmt_ok f = true) (pair_fields (Key stmt) (body_of toks)) /\
  comments p' = {| Values := [] |}.
Proof.
  induction toks as [|i toks IH]; intros p d stmt p' H; simpl in H.
  - destruct (failing (scanner p)); discriminate H.
  - destruct (T i) eqn:Ti; simpl in H; try discriminate H; simpl; rewrite Ti;
      simpl; rewrite ?Ti.
    + (* the closing delimiter *)
      injection H as <-. simpl. rewrite !app_nil_r, comments_eta.
      repeat split. constructor.
    + (* = *)
      apply IH in H. rewrite comment_exprs_cons_other by congruence. exact H.
    + (* , *)
      apply IH in H. rewrite comment_exprs_cons_other by congruence. exact H.
    + (* a comment *)
      apply IH in H. destruct H as (H1 & H2 & H3).
      rewrite comment_exprs_cons_comment by exact Ti.
      simpl in H1. rewrite <- app_assoc in H1. simpl in H1. auto.
    + (* a field type *)
      apply IH in H. simpl in H.
      rewrite comment_exprs_cons_other by congruence. exact H.
    + (* a field text *)
      destruct (FieldStmt_ok {| Key := Key stmt; Value := Val i |}) eqn:Ok;
        simpl in H; [|discriminate H].
      apply IH in H. simpl in H. destruct H as (H1 & H2 & H3).
      rewrite comment_exprs_cons_other by congruence.
      rewrite <- app_assoc in H1. simpl in H1.
      split; [exact H1|]. split; [|exact H3]. constructor; assumption.
Qed.

Lemma last_cons_default {A} (l : list A) : forall a d, last (a :: l) d = last l a.
Proof.
  induction l as [|b l IH]; intros a d; [reflexivity|].
  change (last (a :: b :: l) d) with (last (b :: l) d). rewrite !IH. reflexivity.
Qed.

Lemma last_val_cons f i l v :
  last_val f (i :: l) v = if f i then last_val f l (Val i) else last_val f l v.
Proof.
  unfold last_val. simpl. destruct (f i); [|reflexivity].
  simpl map. apply last_cons_default.
Qed.

Lemma preamble_loop_built toks : forall p d p',
  preamble_loop p d toks = (Parse.null, p') ->
  nodes p' = nodes p ++
    [NPreamble {| PreambleComments :=
                    Some {| Values := Values (comments p) ++ comment_exprs (body_of toks) |};
                  PreambleValue := last_val is_field_text (body_of toks) (PreambleValue d) |}] /\
  comments p' = {| Values := [] |}.
Proof.
  induction toks as [|i toks IH]; intros p d p' H; simpl in H.
  - destruct (failing (scanner p)); discriminate H.
  - assert (Ft : is_field_text i = match T i with ItemFieldText => true | _ => false end)
      by reflexivity.
    destruct (T i) eqn:Ti; simpl in H; try discriminate H; simpl; rewrite Ti;
      rewrite ?last_val_cons, ?Ft.
    + injection H as <-. simpl. rewrite !app_nil_r, comments_eta. split; reflexivity.
    + apply IH in H. destruct H as (H1 & H3).
      rewrite comment_exprs_cons_comment by exact Ti.
      simpl in H1. rewrite <- app_assoc in H1. simpl in H1. auto.
    + apply IH in H. simpl in H.
      rewrite comment_exprs_cons_other by congruence. exact H.
Qed.

Lemma abbrev_loop_built toks : forall p d stmt assigned p',
  abbrev_loop p d stmt assigned toks = (Parse.null, p') ->
  nodes p' = nodes p ++
    [NAbbrev {| AbbrevComments :=
                  Some {| Values := Values (comments p) ++ comment_exprs (body_of toks) |};
                Field := if assigned || existsb is_field_text (body_of toks)
                         then Some {| Key := last_val is_field_type (body_of toks) (Key stmt);
                                      Value := last_val is_field_text (body_of toks) (Value stmt) |}
                         else Field d |}] /\
  comments p' = {| Values := [] |}.
Proof.
  induction toks as [|i toks IH]; intros p d stmt assigned p' H; simpl in H.
  - destruct (failing (scanner p)); discriminate H.
  - assert (Ft : is_field_text i = match T i with ItemFieldText => true | _ => false end)
      by reflexivity.
    assert (Fy : is_field_type i = match T i with ItemFieldType => true | _ => false end)
      by reflexivity.
    destruct (T i) eqn:Ti; simpl in H; try discriminate H; simpl; rewrite Ti;
      rewrite ?last_val_cons; cbn [existsb]; rewrite ?Ft, ?Fy.
    + injection H as <-. simpl. rewrite !app_nil_r, comments_eta, orb_false_r.
      split; [|reflexivity]. unfold abbrev_decl, last_val. simpl.
      destruct assigned; [destruct stmt|]; reflexivity.
    + apply IH in H. rewrite comment_exprs_cons_other by congruence. exact H.
    + apply IH in H. destruct H as (H1 & H3).
      rewrite comment_exprs_cons_comment by exact Ti.
      simpl in H1. rewrite <- app_assoc in H1. simpl in H1. auto.
    + apply IH in H. simpl in H.
      rewrite comment_exprs_cons_other by congruence. exact H.
    + destruct (FieldStmt_ok {| Key := Key stmt; Value := Val i |}) eqn:Ok;
        simpl in H; [|discriminate H].
      apply IH in H. simpl in H.
      rewrite comment_exprs_cons_other by congruence.
      rewrite orb_true_r. exact H.
Qed.

Lemma first_pull p :
  (exists dl toks, upcoming (scanner p) = dl :: toks /\ Parse.checkErr (T dl) = Parse.null /\
                   Scannable_Next (scanner p)
                   = (dl, {| upcoming := toks; failing := failing (scanner p) |})) \/
  (exists i sc, Scannable_Next (scanner p) = (i, sc) /\ Parse.checkErr (T i) <> Parse.null).
Proof.
  unfold Scannable_Next. destruct (upcoming (scanner p)) as [|dl toks] eqn:E.
  - right. eexists _, _. split; [reflexivity|]. destruct (failing (scanner p)); discriminate.
  - destruct (Parse.checkErr (T dl)) eqn:C.
    1: left; exists dl, toks; auto.
    all: right; eexists _, _; (split; [reflexivity|]); rewrite C; discriminate.
Qed.

Lemma checkErr_null_kind i :
  Parse.checkErr (T i) = Parse.null -> is_terminal i = false.
Proof. unfold is_terminal. destruct (T i); simpl; congruence. Qed.

Lemma Parser_entry_built p d p' :
  currDecl p = Some (NEntry d) -> Parser_entry p = (Parse.null, p') ->
  exists dl ck toks,
    upcoming (scanner p) = dl :: ck :: toks /\ is_terminal dl = false /\ T ck = ItemCiteKey /\
    nodes p' = nodes p ++
      [NEntry {| Name := Name d; CiteKey := Val ck;
                 Comments := Some {| Values := Values (comments p)
                                               ++ comment_exprs (body_of toks) |};
                 Fields := Fields d ++ pair_fields [] (body_of toks) |}] /\
    Forall (fun f => FieldStmt_ok f = true) (pair_fields [] (body_of toks)) /\
    comments p' = {| Values := [] |}.
Proof.
  intros Hd H. unfold Parser_entry in H. rewrite Hd in H.
  destruct (first_pull p) as [(dl & toks & E & C & N) | (i & sc & N & C)]; rewrite N in H.
  2: { destruct (Parse.checkErr (T i)); try congruence; discriminate H. }
  rewrite C in H. cbn [upcoming] in H.
  destruct (first_pull (with_upcoming p toks)) as [(ck & toks' & E' & C' & N') | (i & sc & N' & C')];
    rewrite N' in H.
  2: { destruct (Parse.checkErr (T i)); try congruence; discriminate H. }
  rewrite C' in H. cbn [upcoming] in H. simpl in E'.
  destruct (T ck) eqn:Tk; try discriminate H.
  apply entry_loop_built in H. simpl in H.
  exists dl, ck, toks'. subst toks. repeat split; try tauto.
  apply checkErr_null_kind; exact C.
Qed.

Lemma Parser_preamble_built p d p' :
  currDecl p = Some (NPreamble d) -> Parser_preamble p = (Parse.null, p') ->
  exists dl toks,
    upcoming (scanner p) = dl :: toks /\ is_terminal dl = false /\
    nodes p' = nodes p ++
      [NPreamble {| PreambleComments :=
                      Some {| Values := Values (comments p) ++ comment_exprs (body_of toks) |};
                    PreambleValue :=
                      last_val is_field_text (body_of toks) (PreambleValue d) |}] /\
    comments p' = {| Values := [] |}.
Proof.
  intros Hd H. unfold Parser_preamble in H. rewrite Hd in H.
  destruct (first_pull p) as [(dl & toks & E & C & N) | (i & sc & N & C)]; rewrite N in H.
  2: { destruct (Parse.checkErr (T i)); try congruence; discriminate H. }
  rewrite C in H. cbn [upcoming] in H.
  apply preamble_loop_built in H. simpl in H.
  exists dl, toks. repeat split; try tauto. apply checkErr_null_kind; exact C.
Qed.

Lemma Parser_abbrev_built p d p' :
  currDecl p = Some (NAbbrev d) -> Parser_abbrev p = (Parse.null, p') ->
  exists dl toks,
    upcoming (scanner p) = dl :: toks /\ is_terminal dl = false /\
    nodes p' = nodes p ++
      [NAbbrev {| AbbrevComments :=
                    Some {| Values := Values (comments p) ++ comment_exprs (body_of toks) |};
                  Field := if existsb is_field_text (body_of toks)
                           then Some {| Key := last_val is_field_type (body_of toks) [];
                                        Value := last_val is_field_text (body_of toks) [] |}
                           else Field d |}] /\
    comments p' = {| Values := [] |}.
Proof.
  intros Hd H. unfold Parser_abbrev in H. rewrite Hd in H.
  destruct (first_pull p) as [(dl & toks & E & C & N) | (i & sc & N & C)]; rewrite N in H.
  2: { destruct (Parse.checkErr (T i)); try congruence; discriminate H. }
  rewrite C in H. cbn [upcoming] in H.
  apply abbrev_loop_built in H. simpl in H.
  exists dl, toks. repeat split; try tauto. apply checkErr_null_kind; exact C.
Qed.

Lemma skip_comments_app top i l :
  Forall (fun x => T x = ItemComment) top -> T i <> ItemComment ->
  skip_comments (top ++ i :: l) = i :: l.
Proof.
  intros Ht Hi. induction Ht as [|x top Hx _ IH]; simpl.
  - unfold is_comment. destruct (T i); try reflexivity. congruence.
  - unfold is_comment at 1. rewrite Hx. exact IH.
Qed.

Lemma body_of_app body closer l :
  no_closer body -> T closer = ItemRightDelim -> body_of (body ++ closer :: l) = body.
Proof.
  intros Hb Hc. induction Hb as [|x body Hx _ IH]; simpl.
  - rewrite Hc. reflexivity.
  - rewrite IH. destruct (T x); try reflexivity. congruence.
Qed.

(** One call of Next that returns a declaration has built it from the body
    of the first declaration among the items, as [built_from] says. *)
Lemma Next_built p n nd p' :
  Parse.cur_state p = Parse.null -> nodes p = [] -> closed p = false ->
  Parse.Next_fuel U n p = Some (Some nd, true, p') ->
  built_from (upcoming (scanner p)) nd /\
  match nd with
  | NEntry d => Forall (fun f => FieldStmt_ok f = true) (Fields d)
  | _ => True
  end.
Proof.
  intros Hs Hn Hc H.
  apply (PNext_mono U _ _ _ (S (S (S (S (S n)))))) in H; [|lia].
  (* null *)
  rewrite PNext_step in H by assumption.
  assert (E1 : Parse.step U p = Parse.with_state p Parse.comms)
    by (unfold Parse.step; rewrite Hs; reflexivity).
  rewrite E1 in H.
  (* comms *)
  rewrite PNext_step in H by (simpl; assumption).
  unfold Parse.step in H. cbn [Parse.cur_state Parse.with_state Parse.states] in H.
  unfold Parser_comms in H.
  destruct (comms_loop (Parse.with_state p comms)
                       (upcoming (scanner (Parse.with_state p comms)))) as [st2 p2] eqn:C2.
  destruct (comms_loop_spec _ _ _ _ C2)
    as [(-> & top & ed & Et & Ht & Hed & Hcm & Hn2 & Hc2 & Hd2 & Hf2) | R].
  2: { destruct (halts U _ _ st2 p2 [] p (S (S (S n))) R) as (p0 & N0 & _);
         simpl; auto; try lia. rewrite N0 in H. discriminate H. }
  simpl in Et, Hcm, Hn2, Hc2, Hf2.
  (* decl *)
  rewrite PNext_step in H by (simpl; congruence).
  unfold Parse.step in H. cbn [Parse.cur_state Parse.with_state Parse.states] in H.
  destruct (Parser_decl U (Parse.with_state p2 decl)) as [st3 p3] eqn:C3.
  destruct (Parser_decl_spec U _ _ _ C3) as [(kw & toks & Ek & Ep3 & Hk) | R].
  2: { destruct (halts U _ _ st3 p3 (top ++ [ed]) p (S (S n)) R) as (p0 & N0 & _);
         simpl; try congruence; try lia.
       rewrite Et, <- app_assoc. reflexivity. }
  simpl in Ek.
  assert (N3 : nodes p3 = []) by (rewrite Ep3; simpl; congruence).
  assert (K3 : closed p3 = false) by (rewrite Ep3; simpl; congruence).
  assert (U3 : upcoming (scanner p3) = toks) by (rewrite Ep3; reflexivity).
  assert (F3 : failing (scanner p3) = failing (scanner p)) by (rewrite Ep3; simpl; congruence).
  assert (Eall : upcoming (scanner p) = (top ++ [ed; kw]) ++ toks)
    by (rewrite Et, Ek, <- app_assoc; reflexivity).
  assert (Skip : skipn 3 (skip_comments (upcoming (scanner p))) = tl toks).
  { rewrite Et, Ek. rewrite skip_comments_app by (auto; congruence).
    destruct toks; reflexivity. }
  (* the body *)
  rewrite PNext_step in H by (simpl; assumption).
  unfold Parse.step in H. cbn [Parse.cur_state Parse.with_state Parse.states] in H.
  destruct Hk as [(-> & Tk & D3) | [(-> & Tk & D3) | (-> & Tk & D3)]];
    cbn [Parse.states] in H.
  - (* an entry *)
    destruct (Parser_entry (Parse.with_state p3 entry)) as [st4 p4] eqn:C4.
    destruct (Parser_entry_spec (Parse.with_state p3 entry) _ _ _ D3 C4) as [(-> & _) | R].
    2: { destruct (halts U _ _ st4 p4 (top ++ [ed; kw]) p (S n) R) as (p0 & N0 & _);
           simpl; try congruence; lia. }
    destruct (Parser_entry_built (Parse.with_state p3 entry) _ _ D3 C4) as (dl & ck & toks' & E & Td & Tck & Hnd & Hok & _).
    simpl in E, Hnd. rewrite N3 in Hnd. simpl in Hnd.
    rewrite (PNext_node U (S n) (Parse.with_state p4 Parse.null) _ [] Hnd) in H. injection H as <- _.
    unfold built_from, decl_items. rewrite Skip. rewrite U3 in E. rewrite E. simpl.
    rewrite Tck. simpl. rewrite Tck. auto.
  - (* an abbreviation *)
    destruct (Parser_abbrev (Parse.with_state p3 abbrev)) as [st4 p4] eqn:C4.
    destruct (Parser_abbrev_spec (Parse.with_state p3 abbrev) _ _ _ D3 C4) as [(-> & _) | R].
    2: { destruct (halts U _ _ st4 p4 (top ++ [ed; kw]) p (S n) R) as (p0 & N0 & _);
           simpl; try congruence; lia. }
    destruct (Parser_abbrev_built (Parse.with_state p3 abbrev) _ _ D3 C4) as (dl & toks' & E & Td & Hnd & _).
    simpl in E, Hnd. rewrite N3 in Hnd. simpl in Hnd.
    rewrite (PNext_node U (S n) (Parse.with_state p4 Parse.null) _ [] Hnd) in H. injection H as <- _.
    unfold built_from, decl_items. rewrite Skip. rewrite U3 in E. rewrite E. simpl. auto.
  - (* a preamble *)
    destruct (Parser_preamble (Parse.with_state p3 preamble)) as [st4 p4] eqn:C4.
    destruct (Parser_preamble_spec (Parse.with_state p3 preamble) _ _ _ D3 C4) as [(-> & _) | R].
    2: { destruct (halts U _ _ st4 p4 (top ++ [ed; kw]) p (S n) R) as (p0 & N0 & _);
           simpl; try congruence; lia. }
    destruct (Parser_preamble_built (Parse.with_state p3 preamble) _ _ D3 C4) as (dl & toks' & E & Td & Hnd & _).
    simpl in E, Hnd. rewrite N3 in Hnd. simpl in Hnd.
    rewrite (PNext_node U (S n) (Parse.with_state p4 Parse.null) _ [] Hnd) in H. injection H as <- _.
    unfold built_from, decl_items. rewrite Skip. rewrite U3 in E. rewrite E. simpl. auto.
Qed.

End Content.

(** ** The declarations of the pipeline *)

Section WellFormed.
Variable U : Unicode.
Import Scan Parse.

Lemma Next_declared p n nd ok p1 :
  Parse.cur_state p = Parse.null -> nodes p = [] -> closed p = false ->
  Parse.Next_fuel U n p = Some (nd, ok, p1) ->
  (ok = true /\ exists x, nd = Some x /\ declared U p p1 x) \/ (ok = false /\ nd = None).
Proof.
  intros Hs Hn Hc H.
  pose proof (PNext_mono U _ _ _ (Nat.max n 5) H (Nat.le_max_l _ _)) as H1.
  destruct (Parser_Next_spec U p (Nat.max n 5) Hs Hn Hc (Nat.le_max_r _ _))
    as [(nd0 & p0 & N & D) | (p0 & N & _)]; rewrite N in H1; injection H1 as <- <- <-.
  - left. split; [reflexivity|]. exists nd0. auto.
  - right. auto.
Qed.

Lemma decl_items_chunk top ed kw dl body closer rest :
  Forall (fun i => T i = ItemComment) top -> T ed = ItemEntryDelim ->
  no_closer body -> T closer = ItemRightDelim ->
  decl_items (top ++ ed :: kw :: dl :: body ++ closer :: rest) = body.
Proof.
  intros Ht He Hb Hc. unfold decl_items.
  rewrite skip_comments_app by (auto; congruence). simpl.
  apply body_of_app; assumption.
Qed.

Lemma built_from_chunk top ed kw dl body closer rest nd :
  Forall (fun i => T i = ItemComment) top -> T ed = ItemEntryDelim ->
  no_closer body -> T closer = ItemRightDelim ->
  built_from (top ++ ed :: kw :: dl :: body ++ closer :: rest) nd ->
  built_from (top ++ ed :: kw :: dl :: body ++ [closer]) nd.
Proof.
  intros Ht He Hb Hc. unfold built_from.
  rewrite !decl_items_chunk by assumption. auto.
Qed.

Lemma drain_parsed n : forall p l p',
  Parse.cur_state p = Parse.null -> nodes p = [] -> closed p = false ->
  comments p = {| Values := [] |} ->
  drain_fuel U n p = Some (l, p') ->
  exists chunks leftover,
    upcoming (scanner p) = List.concat chunks ++ leftover /\ Forall2 (parsed_from U) chunks l.
Proof.
  induction n as [|n IH]; intros p l p' Hs Hn Hc Hm H; [discriminate|].
  simpl in H. destruct (Parse.Next_fuel U n p) as [[[nd ok] p1]|] eqn:N; [|discriminate].
  destruct (Next_declared _ _ _ _ _ Hs Hn Hc N) as [(-> & x & -> & D) | (-> & ->)].
  - destruct (drain_fuel U n p1) as [[l1 p2]|] eqn:R; [|discriminate].
    injection H as <- <-.
    destruct (Next_built U p n x p1 Hs Hn Hc N) as [B Ok].
    destruct D as (top & ed & kw & dl & body & closer & E & Ht & He & Hd & Hcl & Hnc & Hcm
                   & Hv & Hk & Hn1 & Hc1 & Hm1 & Hs1 & _).
    destruct (IH p1 l1 p2 Hs1 Hn1 Hc1 Hm1 R) as (chunks & leftover & E1 & F).
    exists ((top ++ ed :: kw :: dl :: body ++ [closer]) :: chunks), leftover. split.
    + rewrite E, E1. simpl. rewrite <- !app_assoc. simpl. rewrite <- !app_assoc. reflexivity.
    + constructor; [|exact F]. split; [|split; [|exact Ok]].
      * exists top, ed, kw, dl, body, closer. rewrite Hm in Hcm. simpl in Hcm.
        repeat split; auto.
      * rewrite E in B. eapply built_from_chunk; eassumption.
  - injection H as <- <-. exists [], (upcoming (scanner p)). split; [reflexivity | constructor].
Qed.

Lemma accepted_app a : forall ph b,
  accepted ph (a ++ b) = true ->
  exists ph', after ph a = Some ph' /\ accepted ph' b = true.
Proof.
  induction a as [|i a IH]; intros ph b H; simpl in *.
  - exists ph. auto.
  - destruct (delta ph (T i)) as [ph1|]; [|discriminate]. apply IH. exact H.
Qed.

Lemma accepted_after a : forall ph ph', after ph a = Some ph' -> accepted ph a = true.
Proof.
  induction a as [|i a IH]; intros ph ph' H; simpl in *; [reflexivity|].
  destruct (delta ph (T i)) as [ph1|]; [|discriminate]. eapply IH; eassumption.
Qed.

Lemma after_app a : forall ph b, after ph (a ++ b) =
  match after ph a with
  | Some ph' => after ph' b
  | None => None
  end.
Proof.
  induction a as [|i a IH]; intros ph b; simpl; [reflexivity|].
  destruct (delta ph (T i)); [apply IH | reflexivity].
Qed.

Lemma after_closer a closer ph ph' :
  T closer = ItemRightDelim -> after ph (a ++ [closer]) = Some ph' -> ph' = PTop.
Proof.
  intros Hc H. rewrite after_app in H. destruct (after ph a) as [ph1|]; [|discriminate].
  simpl in H. rewrite Hc in H.
  destruct ph1 as [| | |[]| | | | | | |]; simpl in H; congruence.
Qed.

Lemma attached_ends chunk nd :
  attached U chunk nd -> exists a closer, chunk = a ++ [closer] /\ T closer = ItemRightDelim.
Proof.
  intros (top & ed & kw & dl & body & closer & E & _ & _ & _ & Hc & _).
  exists (top ++ ed :: kw :: dl :: body), closer. split; [|exact Hc].
  rewrite E, <- app_assoc. reflexivity.
Qed.

Lemma chunks_accepted chunks l : forall leftover,
  Forall2 (parsed_from U) chunks l ->
  accepted PTop (List.concat chunks ++ leftover) = true ->
  Forall (fun c => accepted PTop c = true) chunks.
Proof.
  induction 1 as [|c nd chunks l (A & _) _ IH]; intros Acc; [constructor|].
  simpl in Acc. rewrite <- app_assoc in Acc.
  destruct (accepted_app _ _ _ Acc) as (ph' & Af & Acc').
  destruct (attached_ends _ _ A) as (a & closer & -> & Hc).
  pose proof (after_closer _ _ _ _ Hc Af) as ->.
  constructor; [eapply accepted_after; exact Af | exact (IH Acc')].
Qed.

Lemma after_comments top : forall ph,
  Forall (fun i => T i = ItemComment) top -> (ph = PTop \/ ph = PDelim) ->
  forall ph', after ph top = Some ph' -> ph' = PTop \/ ph' = PDelim.
Proof.
  induction top as [|i top IH]; intros ph Ht Hp ph' H; simpl in H.
  - injection H as <-. exact Hp.
  - inversion Ht as [|? ? Hi Ht']; subst. rewrite Hi in H.
    destruct Hp as [-> | ->]; simpl in H; [|discriminate].
    eapply IH; [exact Ht' | right; reflexivity | exact H].
Qed.

(* The items of a chunk that the grammar accepts: the keyword is followed by
   an opening delimiter and the body by what the kind of declaration asks. *)
Lemma chunk_phase top ed kw dl rest :
  Forall (fun i => T i = ItemComment) top -> T ed = ItemEntryDelim ->
  accepted PTop (top ++ ed :: kw :: dl :: rest) = true ->
  exists e, delta PType (T kw) = Some (POpen e) /\ T dl = ItemLeftDelim /\
            accepted (match e with
                      | Scan.entry => PKey
                      | Scan.preamble => PText
                      | Scan.abbrev => PFieldType
                      end) rest = true.
Proof.
  intros Ht He Acc.
  destruct (accepted_app _ _ _ Acc) as (ph & Af & Acc').
  destruct (after_comments _ _ Ht (or_introl eq_refl) _ Af) as [-> | ->];
    simpl in Acc'; rewrite He in Acc'; simpl in Acc';
    (destruct (T kw); simpl in Acc'; try discriminate Acc';
     destruct (T dl); simpl in Acc'; try discriminate Acc';
     eexists; (split; [reflexivity|]); (split; [reflexivity | exact Acc'])).
Qed.

Lemma last_in {A} (l : list A) : forall d, l <> [] -> In (last l d) l.
Proof.
  induction l as [|a l IH]; intros d H; [congruence|].
  destruct l as [|b l]; [now left|]. right. apply (IH d). discriminate.
Qed.

Lemma last_val_in f body v :
  existsb f body = true ->
  exists i, In i body /\ f i = true /\ last_val f body v = Val i.
Proof.
  intros H. unfold last_val.
  assert (Hne : map Val (filter f body) <> []).
  { apply existsb_exists in H as (x & Hx & Fx).
    assert (In x (filter f body)) by (apply filter_In; auto).
    destruct (filter f body); [contradiction | discriminate]. }
  pose proof (last_in _ v Hne) as L. apply in_map_iff in L as (i & Ei & Hi).
  apply filter_In in Hi as [Hi Fi]. exists i. auto.
Qed.

Lemma pair_fields_from body : forall key f,
  In f (pair_fields key body) ->
  (Key f = key \/ Key f = [] \/ exists i, In i body /\ T i = ItemFieldType /\ Val i = Key f) /\
  exists i, In i body /\ T i = ItemFieldText /\ Val i = Value f.
Proof.
  induction body as [|i body IH]; intros key f H; simpl in H; [contradiction|].
  assert (L : forall k, In f (pair_fields k body) ->
                (Key f = k \/ Key f = [] \/
                 exists x, In x (i :: body) /\ T x = ItemFieldType /\ Val x = Key f) /\
                exists y, In y (i :: body) /\ T y = ItemFieldText /\ Val y = Value f).
  { intros k Hk. destruct (IH _ _ Hk) as [K (y & ? & ? & ?)]. split.
    - destruct K as [K | [K | (x & ? & ? & ?)]]; auto.
      right. right. exists x. simpl. auto.
    - exists y. simpl. auto. }
  destruct (T i) eqn:Ti; try (exact (L _ H)).
  - (* a field type *)
    destruct (L _ H) as [[K | K] Y]; (split; [|exact Y]); auto.
    right. right. exists i. simpl. auto.
  - (* a field text *)
    destruct H as [<- | H].
    + split; [left; reflexivity | exists i; simpl; auto].
    + destruct (L _ H) as [[K | K] Y]; (split; [|exact Y]); auto.
Qed.

Lemma FieldStmt_ok_key f : FieldStmt_ok f = true -> Key f <> [].
Proof. unfold FieldStmt_ok. destruct (Key f); [discriminate | discriminate]. Qed.

Lemma token_ok_field_type i :
  token_ok U i -> T i = ItemFieldType -> IsValidName U (Val i) = true.
Proof. unfold token_ok. intros H E. rewrite E in H. exact H. Qed.

Lemma token_ok_field_text i :
  token_ok U i -> T i = ItemFieldText -> valid_text U (Val i).
Proof. unfold token_ok. intros H E. rewrite E in H. exact H. Qed.

Lemma is_field_text_kind i : is_field_text i = true -> T i = ItemFieldText.
Proof. unfold is_field_text. destruct (T i); congruence. Qed.

Lemma is_field_type_kind i : is_field_type i = true -> T i = ItemFieldType.
Proof. unfold is_field_type. destruct (T i); congruence. Qed.

(* A body that the grammar accepts after the opening delimiter of an
   abbreviation begins with a field type, an equals sign and a field text. *)
Lemma abbrev_body_accepted body closer :
  T closer = ItemRightDelim -> accepted PFieldType (body ++ [closer]) = true ->
  existsb is_field_type body = true /\ existsb is_field_text body = true.
Proof.
  intros Hc H.
  destruct body as [|ft body]; simpl in H; [rewrite Hc in H; discriminate H|].
  destruct (T ft) eqn:Tf; simpl in H; try discriminate H.
  destruct body as [|eq body]; simpl in H; [rewrite Hc in H; discriminate H|].
  destruct (T eq) eqn:Te; simpl in H; try discriminate H.
  destruct body as [|tx body]; simpl in H; [rewrite Hc in H; discriminate H|].
  destruct (T tx) eqn:Tx; simpl in H; try discriminate H.
  split; simpl; unfold is_field_type, is_field_text; rewrite Tf, ?Te, ?Tx; simpl;
    rewrite ?orb_true_r; reflexivity.
Qed.

Lemma preamble_body_accepted body closer :
  T closer = ItemRightDelim -> accepted PText (body ++ [closer]) = true ->
  existsb is_field_text body = true.
Proof.
  intros Hc H.
  destruct body as [|tx body]; simpl in H; [rewrite Hc in H; discriminate H|].
  destruct (T tx) eqn:Tx; simpl in H; try discriminate H.
  simpl. unfold is_field_text. rewrite Tx. reflexivity.
Qed.

Lemma well_formed_chunk chunk nd :
  (parsed_from U) chunk nd -> accepted PTop chunk = true -> Forall (token_ok U) chunk ->
  well_formed U nd.
Proof.
  intros (A & B & Ok) Acc Tok.
  destruct A as (top & ed & kw & dl & body & closer & E & Ht & He & Hd & Hc & Hnc & Hcm
                 & _ & Hk).
  subst chunk. unfold built_from in B.
  rewrite (decl_items_chunk top ed kw dl body closer [] Ht He Hnc Hc) in B.
  destruct (chunk_phase _ _ _ _ _ Ht He Acc) as (e & De & Tdl & Accb).
  assert (Tb : forall i, In i body -> token_ok U i).
  { intros i Hi. rewrite Forall_forall in Tok. apply Tok.
    apply in_or_app. right. do 3 right. apply in_or_app. now left. }
  split; [rewrite Hcm; discriminate|].
  destruct nd as [d | d | d |]; [| | |contradiction].
  - (* an entry *)
    apply Forall_forall. intros f Hf.
    rewrite Forall_forall in Ok. pose proof (FieldStmt_ok_key _ (Ok _ Hf)) as Kne.
    rewrite B in Hf. destruct (pair_fields_from _ _ _ Hf) as [K (y & Hy & Ty & Vy)].
    split.
    + destruct K as [K | [K | (x & Hx & Tx & Vx)]]; try congruence.
      rewrite <- Vx. apply token_ok_field_type; auto.
    + rewrite <- Vy. apply token_ok_field_text; auto.
  - (* an abbreviation *)
    rewrite Hk in De. simpl in De. injection De as <-.
    destruct (abbrev_body_accepted _ _ Hc Accb) as [Ey Et].
    rewrite Et in B. eexists. split; [exact B|]. simpl.
    destruct (last_val_in is_field_type body [] Ey) as (x & Hx & Fx & ->).
    destruct (last_val_in is_field_text body [] Et) as (y & Hy & Fy & ->).
    split.
    + apply token_ok_field_type; auto using is_field_type_kind.
    + apply token_ok_field_text; auto using is_field_text_kind.
  - (* a preamble *)
    rewrite Hk in De. simpl in De. injection De as <-.
    pose proof (preamble_body_accepted _ _ Hc Accb) as Et.
    destruct (last_val_in is_field_text body [] Et) as (y & Hy & Fy & Ey).
    rewrite B, Ey. apply token_ok_field_text; auto using is_field_text_kind.
Qed.

Lemma Forall2_Forall_l {A B} (R : A -> B -> Prop) (P : A -> Prop) (Q : B -> Prop) la lb :
  Forall2 R la lb -> Forall P la -> (forall a b, R a b -> P a -> Q b) -> Forall Q lb.
Proof.
  intros F. induction F as [|a b la lb H _ IH]; intros Hp Hi; [constructor|].
  inversion Hp; subst. constructor; [eapply Hi; eassumption | apply IH; assumption].
Qed.

Lemma pipeline_fuel_well_formed (r : Reader) n l st :
  pipeline_fuel U n r = Some (l, st) -> Forall (well_formed U) l.
Proof.
  unfold pipeline_fuel. intros H.
  destruct (run_fuel U n (NewScanner r)) as [sc|] eqn:R; [|discriminate].
  destruct (drain_fuel U n (NewParser sc)) as [[l' p']|] eqn:D; [|discriminate].
  injection H as <- <-.
  destruct (drain_parsed n (NewParser sc) _ _ eq_refl eq_refl eq_refl eq_refl D)
    as (chunks & leftover & E & F).
  simpl in E.
  destruct (run_fuel_ok U n (NewScanner r) sc eq_refl R) as [Tok _].
  pose proof (run_accepted U n (NewScanner r) PTop sc eq_refl eq_refl R) as Acc.
  rewrite E in Acc, Tok.
  pose proof (chunks_accepted _ _ _ F Acc) as Accs.
  apply Forall_app in Tok as [Tok _].
  assert (Both : Forall (fun c => accepted PTop c = true /\ Forall (token_ok U) c) chunks).
  { apply Forall_forall. intros c Hc. split.
    - rewrite Forall_forall in Accs. auto.
    - apply Forall_forall. intros i Hi. rewrite Forall_forall in Tok. apply Tok.
      apply in_concat. exists c. auto. }
  eapply Forall2_Forall_l; [exact F | exact Both |].
  intros c nd P [Ac Tc]. eapply well_formed_chunk; eassumption.
Qed.

(** Every declaration that the pipeline returns is well formed: it has its
    comment group; the fields of an entry have a NAME as key and a text that
    the scanner checked as value; an abbreviation has its field, a preamble
    its value, checked likewise. *)
Theorem pipeline_declarations_well_formed (r : Reader) n l st :
  pipeline_fuel U n r = Some (l, st) -> Forall (well_formed U) l.
Proof. exact (pipeline_fuel_well_formed r n l st). Qed.

End WellFormed.

Section Chunks.
Variable U : Unicode.
Import Scan Parse.

(** What the pipeline returns, in terms of what the scanner sent. The
    items of the scanner split into one chunk for each declaration returned,
    in order, and a rest that gave none. Each chunk is top-level comments, an
    entry delimiter, the type keyword, an item in delimiter position, a body
    and the first closing delimiter; its declaration has the kind of the
    keyword, the comments of the chunk, and the fields or value built from the
    field types and field texts of the body. *)
Theorem pipeline_builds_declarations_from_chunks (r : Reader) n l st :
  pipeline_fuel U n r = Some (l, st) ->
  exists sc chunks leftover,
    run_fuel U n (NewScanner r) = Some sc /\
    upcoming sc = List.concat chunks ++ leftover /\
    Forall2 (parsed_from U) chunks l.
Proof.
  unfold pipeline_fuel. intros H.
  destruct (run_fuel U n (NewScanner r)) as [sc|] eqn:R; [|discriminate].
  destruct (drain_fuel U n (NewParser sc)) as [[l' p']|] eqn:D; [|discriminate].
  injection H as <- <-.
  destruct (drain_parsed U n (NewParser sc) _ _ eq_refl eq_refl eq_refl eq_refl D)
    as (chunks & leftover & E & F).
  exists sc, chunks, leftover. auto.
Qed.
End Chunks.

(** ** The command and the channel of nodes *)

Section CommandProofs.
Variable U : Unicode.
Import Scan Parse.

Lemma PNext_shape n : forall p nd ok p',
  Parse.Next_fuel U n p = Some (nd, ok, p') ->
  (ok = true /\ exists x, nd = Some x) \/
  (ok = false /\ nd = None /\ closed p' = true /\ nodes p' = []).
Proof.
  induction n as [|n IH]; intros p nd ok p' H; simpl in H.
  - destruct (nodes p) eqn:E.
    + destruct (closed p) eqn:C; [|discriminate]. injection H as <- <- <-. right. auto.
    + injection H as <- <- <-. left. eauto.
  - destruct (nodes p) eqn:E.
    + destruct (closed p) eqn:C.
      * injection H as <- <- <-. right. auto.
      * exact (IH _ _ _ _ H).
    + injection H as <- <- <-. left. eauto.
Qed.

Lemma well_formed_prints nd : well_formed U nd -> exists o, print_decl nd = Some o.
Proof.
  intros [Hc Hw]. destruct nd as [d | d | d |]; simpl in *; [| | |contradiction].
  - destruct (Comments d); [|congruence]. simpl. eauto.
  - destruct (AbbrevComments d); [|congruence]. simpl.
    destruct Hw as (f & -> & _). eauto.
  - destruct (PreambleComments d); [|congruence]. simpl. eauto.
Qed.

Lemma main_loop_mono n : forall p out res m,
  main_loop U n p out = Some res -> (n <= m)%nat -> main_loop U m p out = Some res.
Proof.
  induction n as [|n IH]; intros p out res m H Hle; [discriminate|].
  destruct m as [|m]; [lia|]. simpl in *.
  destruct (Parse.Next_fuel U n p) as [[[nd ok] p1]|] eqn:N; [|discriminate].
  rewrite (PNext_mono U _ _ _ m N) by lia.
  destruct ok; [|exact H].
  destruct nd as [x|]; [destruct (print_decl x); [|exact H]|]; apply IH; auto; lia.
Qed.

Lemma main_loop_drain n : forall p out l p',
  drain_fuel U n p = Some (l, p') ->
  Forall (fun nd => exists o, print_decl nd = Some o) l ->
  main_loop U n p out = Some (Some (out ++ printed l)).
Proof.
  induction n as [|n IH]; intros p out l p' H F; [discriminate|].
  simpl in *. destruct (Parse.Next_fuel U n p) as [[[nd ok] p1]|] eqn:N; [|discriminate].
  destruct (PNext_shape _ _ _ _ _ N) as [(-> & x & ->) | (-> & -> & _)].
  - destruct (drain_fuel U n p1) as [[l1 p2]|] eqn:R; [|discriminate].
    injection H as <- <-. inversion F as [|? ? (o & Ho) F1]; subst.
    simpl. rewrite Ho. rewrite (IH _ (out ++ o) _ _ R F1), <- app_assoc. reflexivity.
  - injection H as <- <-. simpl. rewrite app_nil_r. reflexivity.
Qed.

Lemma main_fuel_mono n r res m :
  main_fuel U n r = Some res -> (n <= m)%nat -> main_fuel U m r = Some res.
Proof.
  unfold main_fuel. intros H Hle.
  destruct (run_fuel U n (NewScanner r)) as [sc|] eqn:R; [|discriminate].
  rewrite (run_fuel_mono U _ _ _ m R Hle). eapply main_loop_mono; eassumption.
Qed.

(** The command runs to its end on every input: it never dereferences a nil
    comment group or a nil field, and what it has written is what the body
    of its loop writes for each declaration of the pipeline, in order. *)
Theorem main_never_panics (r : Reader) :
  exists l st,
    pipeline U r = Some (l, st) /\
    main U r = Some (Some (printed l)) /\
    forall n res, main_fuel U n r = Some res -> res = Some (printed l).
Proof.
  destruct (pipeline_total U r) as (sc & l & p & R & D & _ & P).
  exists l, (Parse.cur_state p). split; [exact P|].
  assert (W : Forall (fun nd => exists o, print_decl nd = Some o) l).
  { eapply Forall_impl; [intros nd; apply well_formed_prints|].
    eapply pipeline_fuel_well_formed. exact P. }
  assert (M : main U r = Some (Some (printed l))).
  { unfold main, main_fuel. rewrite R. exact (main_loop_drain _ _ [] _ _ D W). }
  split; [exact M|].
  intros n res H.
  pose proof (main_fuel_mono _ _ _ (Nat.max n (enough r)) H (Nat.le_max_l _ _)) as H1.
  pose proof (main_fuel_mono _ _ _ (Nat.max n (enough r)) M (Nat.le_max_r _ _)) as H2.
  congruence.
Qed.

(* One run of a state function by Next: nothing is sent and the channel
   stays open; or the state is err or eof and the channel is closed; or one
   node is sent and the parser is back in null. *)
Lemma Pstep_cases p :
  nodes p = [] -> closed p = false ->
  (nodes (Parse.step U p) = [] /\ closed (Parse.step U p) = false /\
   Parse.cur_state p <> Parse.err /\ Parse.cur_state p <> Parse.eof) \/
  (nodes (Parse.step U p) = [] /\ closed (Parse.step U p) = true /\
   (Parse.cur_state p = Parse.err \/ Parse.cur_state p = Parse.eof) /\
   Parse.cur_state (Parse.step U p) = Parse.cur_state p) \/
  (exists nd, nodes (Parse.step U p) = [nd] /\ closed (Parse.step U p) = false /\
              Parse.cur_state (Parse.step U p) = Parse.null).
Proof.
  intros Hn Hc. unfold Parse.step.
  destruct (Parse.cur_state p) eqn:St; cbn [Parse.states].
  - (* null *)
    left. simpl. repeat split; auto; discriminate.
  - (* comms *)
    unfold Parser_comms.
    destruct (comms_loop p (upcoming (scanner p))) as [st' p'] eqn:C.
    left. simpl.
    destruct (comms_loop_spec _ _ _ _ C) as [(_ & top & ed & _ & _ & _ & _ & E1 & E2 & _) | R].
    + repeat split; try congruence; discriminate.
    + destruct R as (_ & E1 & E2 & _). repeat split; try congruence; discriminate.
  - (* decl *)
    destruct (Parser_decl U p) as [st' p'] eqn:C.
    left. simpl.
    destruct (Parser_decl_spec U _ _ _ C) as [(kw & toks & _ & E & _) | R].
    + rewrite E. simpl. repeat split; try congruence; discriminate.
    + destruct R as (_ & E1 & E2 & _). repeat split; try congruence; discriminate.
  - (* entry *)
    destruct (Parser_entry p) as [st' p'] eqn:C.
    destruct (currDecl p) as [[d|d|d|]|] eqn:Hd;
      try (unfold Parser_entry in C; rewrite Hd in C; injection C as <- <-;
           left; simpl; repeat split; auto; discriminate).
    destruct (Parser_entry_spec _ _ _ _ Hd C)
      as [(-> & body & d' & fs & (dl & closer & _ & _ & _ & _ & _ & E1 & E2 & _) & _) | R].
    + right. right. exists (NEntry d'). simpl. rewrite E1, Hn. repeat split; congruence.
    + destruct R as (_ & E1 & E2 & _). left. simpl. repeat split; try congruence; discriminate.
  - (* preamble *)
    destruct (Parser_preamble p) as [st' p'] eqn:C.
    destruct (currDecl p) as [[d|d|d|]|] eqn:Hd;
      try (unfold Parser_preamble in C; rewrite Hd in C; injection C as <- <-;
           left; simpl; repeat split; auto; discriminate).
    destruct (Parser_preamble_spec _ _ _ _ Hd C)
      as [(-> & body & d' & (dl & closer & _ & _ & _ & _ & _ & E1 & E2 & _) & _) | R].
    + right. right. exists (NPreamble d'). simpl. rewrite E1, Hn. repeat split; congruence.
    + destruct R as (_ & E1 & E2 & _). left. simpl. repeat split; try congruence; discriminate.
  - (* abbrev *)
    destruct (Parser_abbrev p) as [st' p'] eqn:C.
    destruct (currDecl p) as [[d|d|d|]|] eqn:Hd;
      try (unfold Parser_abbrev in C; rewrite Hd in C; injection C as <- <-;
           left; simpl; repeat split; auto; discriminate).
    destruct (Parser_abbrev_spec _ _ _ _ Hd C)
      as [(-> & body & d' & (dl & closer & _ & _ & _ & _ & _ & E1 & E2 & _) & _) | R].
    + right. right. exists (NAbbrev d'). simpl. rewrite E1, Hn. repeat split; congruence.
    + destruct R as (_ & E1 & E2 & _). left. simpl. repeat split; try congruence; discriminate.
  - (* err *)
    right. left. simpl. auto.
  - (* eof *)
    right. left. simpl. auto.
Qed.

Lemma parser_reachable_inv p :
  parser_reachable U p ->
  (List.length (nodes p) <= 1)%nat /\
  (closed p = true ->
   nodes p = [] /\ (Parse.cur_state p = Parse.err \/ Parse.cur_state p = Parse.eof)) /\
  (nodes p <> [] -> closed p = false).
Proof.
  induction 1 as [sc | p R IH Hn Hc | p nd q R IH Hn].
  - simpl. repeat split; try lia; try discriminate; congruence.
  - destruct (Pstep_cases p Hn Hc)
      as [(E1 & E2 & _) | [(E1 & E2 & E3 & E4) | (nd & E1 & E2 & _)]];
      rewrite E1, E2; simpl; repeat split; try lia; try congruence; try discriminate.
  - destruct IH as (L & C & O). rewrite Hn in L, O. simpl in L.
    assert (q = []) by (destruct q; [reflexivity | simpl in L; lia]). subst q.
    assert (Hc : closed p = false) by (apply O; discriminate).
    simpl. repeat split; try lia; congruence.
Qed.

Lemma PNext_reachable n : forall p nd ok p',
  parser_reachable U p -> Parse.Next_fuel U n p = Some (nd, ok, p') ->
  parser_reachable U p'.
Proof.
  induction n as [|n IH]; intros p nd ok p' R H; simpl in H.
  - destruct (nodes p) eqn:E.
    + destruct (closed p); [|discriminate]. injection H as <- <- <-. exact R.
    + injection H as <- <- <-. eapply preach_receive; eassumption.
  - destruct (nodes p) eqn:E.
    + destruct (closed p) eqn:C.
      * injection H as <- <- <-. exact R.
      * eapply IH; [|exact H]. apply preach_run; assumption.
    + injection H as <- <- <-. eapply preach_receive; eassumption.
Qed.

(** The channel of nodes never holds more than one node; it is closed only
    when it is empty, by the state functions err and eof, and the parser then
    stays in that state: no declaration is sent on a closed channel and none
    is left unreceived. Calls of Next keep the parser among the reachable
    ones. *)
Theorem parser_channel_invariant :
  (forall p, parser_reachable U p ->
             (List.length (nodes p) <= 1)%nat /\
             (closed p = true ->
              nodes p = [] /\
              (Parse.cur_state p = Parse.err \/ Parse.cur_state p = Parse.eof))) /\
  (forall p n nd ok p',
      parser_reachable U p -> Parse.Next_fuel U n p = Some (nd, ok, p') ->
      parser_reachable U p' /\ nodes p' = []).
Proof.
  split.
  - intros p R. destruct (parser_reachable_inv p R) as (L & C & _). auto.
  - intros p n nd ok p' R H. pose proof (PNext_reachable _ _ _ _ _ R H) as R'.
    split; [exact R'|].
    destruct (PNext_shape _ _ _ _ _ H) as [(-> & x & ->) | (_ & _ & _ & Hn)]; [|exact Hn].
    (* a node was received: the channel held that node only *)
    clear R'. revert p R H. induction n as [|n IH]; intros p R H; simpl in H.
    + destruct (nodes p) eqn:E.
      * destruct (closed p); discriminate.
      * injection H as <- <-. destruct (parser_reachable_inv p R) as (L & _).
        rewrite E in L. simpl in L. simpl. destruct l; [reflexivity | simpl in L; lia].
    + destruct (nodes p) eqn:E.
      * destruct (closed p) eqn:C; [discriminate|].
        apply (IH (Parse.step U p)); [apply preach_run; assumption | exact H].
      * injection H as <- <-. destruct (parser_reachable_inv p R) as (L & _).
        rewrite E in L. simpl in L. simpl. destruct l; [reflexivity | simpl in L; lia].
Qed.

End CommandProofs.

(** ** The bodies of the declarations *)

Section Bodies.
Variable U : Unicode.
Import Scan Parse.

Lemma entry_loop_accepts body : forall p d stmt closer rest,
  forallb is_entry_item body = true -> T closer = ItemRightDelim ->
  Forall (fun f => FieldStmt_ok f = true) (pair_fields (Key stmt) body) ->
  exists p', entry_loop p d stmt (body ++ closer :: rest) = (Parse.null, p') /\
             upcoming (scanner p') = rest.
Proof.
  induction body as [|i body IH]; intros p d stmt closer rest Hb Hc Hf; simpl.
  - rewrite Hc. simpl. eexists. split; reflexivity.
  - simpl in Hb. apply andb_true_iff in Hb as [Hi Hb]. unfold is_entry_item in Hi.
    simpl in Hf.
    destruct (T i) eqn:Ti; try discriminate Hi; simpl.
    + apply IH; assumption.
    + apply IH; assumption.
    + apply IH; assumption.
    + apply IH; assumption.
    + inversion Hf as [|? ? Hok Hf']; subst. rewrite Hok. simpl.
      apply IH; assumption.
Qed.

Lemma entry_items_no_closer body :
  forallb is_entry_item body = true -> no_closer body.
Proof.
  intros H. apply Forall_forall. intros i Hi.
  rewrite forallb_forall in H. specialize (H i Hi). unfold is_entry_item in H.
  destruct (T i); congruence.
Qed.

(** The state function entry, in both directions. When it returns null it
    has pulled the item in delimiter position and a cite key, and has sent
    the entry with that cite key, the pending comments followed by those of
    the body, and as fields the field texts of the body, each paired with the
    last field type before it, all of them with a key and a value. And it does
    return null, leaving the items after the closing delimiter unread, on
    every body made of comments, field types, equals signs, field texts and
    commas in which every such pair has a key and a value. *)
Theorem entry_pairs_field_types_with_texts (p : Parser) (d : EntryDecl) :
  currDecl p = Some (NEntry d) ->
  (forall p', Parser_entry p = (Parse.null, p') ->
     exists dl ck toks,
       upcoming (scanner p) = dl :: ck :: toks /\ is_terminal dl = false /\
       T ck = ItemCiteKey /\
       nodes p' = nodes p ++
         [NEntry {| Name := Name d; CiteKey := Val ck;
                    Comments := Some {| Values := Values (comments p)
                                                  ++ comment_exprs (body_of toks) |};
                    Fields := Fields d ++ pair_fields [] (body_of toks) |}] /\
       Forall (fun f => FieldStmt_ok f = true) (pair_fields [] (body_of toks)) /\
       comments p' = {| Values := [] |}) /\
  (forall dl ck body closer rest,
     upcoming (scanner p) = dl :: ck :: body ++ closer :: rest ->
     is_terminal dl = false -> T ck = ItemCiteKey ->
     forallb is_entry_item body = true -> T closer = ItemRightDelim ->
     Forall (fun f => FieldStmt_ok f = true) (pair_fields [] body) ->
     exists p', Parser_entry p = (Parse.null, p') /\ upcoming (scanner p') = rest /\
       nodes p' = nodes p ++
         [NEntry {| Name := Name d; CiteKey := Val ck;
                    Comments := Some {| Values := Values (comments p) ++ comment_exprs body |};
                    Fields := Fields d ++ pair_fields [] body |}]).
Proof.
  intros Hd. split.
  - intros p' H. exact (Parser_entry_built p d p' Hd H).
  - intros dl ck body closer rest E Td Tk Hb Hc Hf.
    destruct (entry_loop_accepts body (with_upcoming (with_upcoming p (ck :: body ++ closer :: rest))
                                                     (body ++ closer :: rest))
                                 (with_CiteKey d (Val ck)) {| Key := []; Value := [] |}
                                 closer rest Hb Hc Hf) as (p' & L & Up).
    assert (P : Parser_entry p = (Parse.null, p')).
    { unfold Parser_entry, Scannable_Next. rewrite Hd, E.
      rewrite (not_terminal_checkErr dl Td). cbn [upcoming scanner with_upcoming].
      assert (Tck : Parse.checkErr (T ck) = Parse.null) by (rewrite Tk; reflexivity).
      rewrite Tck, Tk. exact L. }
    exists p'. split; [exact P|]. split; [exact Up|].
    destruct (Parser_entry_built p d p' Hd P) as (dl' & ck' & toks & E' & _ & _ & Hn & _).
    rewrite E in E'. injection E' as <- <- <-.
    rewrite (body_of_app body closer rest (entry_items_no_closer _ Hb) Hc) in Hn. exact Hn.
Qed.

(** The state function abbrev. When it returns null it has sent the
    abbreviation with the pending comments followed by those of the body; its
    field is set if the body has a field text, and then holds the text of the
    last field type of the body as key and the text of the last field text as
    value: the declaration points to the statement that later items still
    write to, so a field type that comes after the field text replaces the
    key of the field. *)
Theorem abbrev_field_is_last_type_and_text (p : Parser) (d : AbbrevDecl) :
  currDecl p = Some (NAbbrev d) ->
  (forall p', Parser_abbrev p = (Parse.null, p') ->
     exists dl toks,
       upcoming (scanner p) = dl :: toks /\ is_terminal dl = false /\
       nodes p' = nodes p ++
         [NAbbrev {| AbbrevComments :=
                       Some {| Values := Values (comments p)
                                         ++ comment_exprs (body_of toks) |};
                     Field := if existsb is_field_text (body_of toks)
                              then Some {| Key := last_val is_field_type (body_of toks) [];
                                           Value := last_val is_field_text (body_of toks) [] |}
                              else Field d |}] /\
       comments p' = {| Values := [] |}) /\
  (forall dl k1 v k2 closer rest,
     upcoming (scanner p)
     = dl :: {| T := ItemFieldType; Val := k1 |} :: {| T := ItemEqSgn; Val := [61] |}
          :: {| T := ItemFieldText; Val := v |} :: {| T := ItemFieldType; Val := k2 |}
          :: closer :: rest ->
     is_terminal dl = false -> T closer = ItemRightDelim -> k1 <> [] -> v <> [] ->
     exists p', Parser_abbrev p = (Parse.null, p') /\
       nodes p' = nodes p ++
         [NAbbrev {| AbbrevComments := Some (comments p);
                     Field := Some {| Key := k2; Value := v |} |}]).
Proof.
  intros Hd. split.
  - intros p' H. exact (Parser_abbrev_built p d p' Hd H).
  - intros dl k1 v k2 closer rest E Td Hc Hk Hv.
    unfold Parser_abbrev, Scannable_Next. rewrite Hd, E.
    rewrite (not_terminal_checkErr dl Td). cbn [upcoming scanner with_upcoming].
    simpl. destruct k1 as [|x k1]; [congruence|]. destruct v as [|y v]; [congruence|].
    simpl. rewrite Hc. simpl. eexists. split; [reflexivity|].
    reflexivity.
Qed.

(** The state function preamble. When it returns null it has sent the
    preamble with the pending comments followed by those of the body, and
    with the text of the last field text of the body as value (the value it
    had before, if there is none). *)
Theorem preamble_value_is_last_text (p : Parser) (d : PreambleDecl) (p' : Parser) :
  currDecl p = Some (NPreamble d) -> Parser_preamble p = (Parse.null, p') ->
  exists dl toks,
    upcoming (scanner p) = dl :: toks /\ is_terminal dl = false /\
    nodes p' = nodes p ++
      [NPreamble {| PreambleComments :=
                      Some {| Values := Values (comments p) ++ comment_exprs (body_of toks) |};
                    PreambleValue :=
                      last_val is_field_text (body_of toks) (PreambleValue d) |}] /\
    comments p' = {| Values := [] |}.
Proof. intros Hd H. exact (Parser_preamble_built p d p' Hd H). Qed.

End Bodies.

(** ** The shape of the items *)

Section Shapes.
Variable U : Unicode.
Import Scan.

Lemma TrimLeft_head s x l : TrimLeft U s = x :: l -> IsSpace U x = false.
Proof.
  induction s as [|c s IH]; simpl; [discriminate|].
  destruct (IsSpace U c) eqn:E; [exact IH|]. intros [= <- <-]. exact E.
Qed.

Lemma TrimLeft_suffix s : exists pre, s = pre ++ TrimLeft U s.
Proof.
  induction s as [|c s (pre & IH)]; simpl; [exists []; reflexivity|].
  destruct (IsSpace U c).
  - exists (c :: pre). simpl. congruence.
  - exists []. reflexivity.
Qed.

Lemma TrimSpace_trimmed buf : trimmed U (TrimSpace U buf).
Proof.
  unfold TrimSpace.
  destruct (TrimLeft U (rev (TrimLeft U buf))) as [|y b] eqn:B; [exact I|].
  pose proof (TrimLeft_head _ _ _ B) as Hy.
  destruct (TrimLeft_suffix (rev (TrimLeft U buf))) as (pre & E). rewrite B in E.
  apply (f_equal (@rev rune)) in E. rewrite rev_involutive, rev_app_distr in E.
  unfold trimmed.
  destruct (rev (y :: b)) as [|x l] eqn:R.
  { apply (f_equal (@List.length rune)) in R. rewrite length_rev in R. discriminate. }
  split.
  - simpl in E. exact (TrimLeft_head _ _ _ E).
  - assert (L : last (x :: l) x = y).
    { rewrite <- R. simpl. rewrite last_last. reflexivity. }
    rewrite last_cons_default in L. rewrite L. exact Hy.
Qed.

Ltac shape_leaf :=
  first
    [ left; reflexivity
    | right; eexists; split; [reflexivity|]; unfold text_shape; simpl;
      first [ reflexivity
            | apply TrimSpace_trimmed
            | match goal with
              | H : (?c =? _) = true |- _ => apply Z.eqb_eq in H; subst c; reflexivity
              end
            | match goal with
              | H : (?c =? _) || (?c =? _) = true |- _ =>
                  apply orb_true_iff in H as [H | H]; apply Z.eqb_eq in H; subst c; auto
              end ] ].

Ltac shape_loop IH :=
  repeat match goal with
         | |- context [if ?b then _ else _] => destruct b eqn:?
         | |- context [match ?l with [] => _ | _ :: _ => _ end] => destruct l eqn:?
         end;
  cbn [negb] in *; try discriminate; first [ shape_leaf | apply IH ].

Lemma entryComment_cont_items rs : forall s,
  items (snd (entryComment_cont U s rs)) = items s.
Proof. intros s. apply (entryComment_cont_edge U rs s). Qed.

Lemma fieldText_finish_shape s0 s buf next consumed after :
  items s = items s0 ->
  sends_shaped U s0 (fieldText_finish U s buf next consumed after).
Proof.
  intros Hi. unfold fieldText_finish, sends_shaped.
  destruct (negb (isValidInt U (TrimSpace U buf)) && negb (isProperQuoted (TrimSpace U buf)));
    simpl; [left; exact Hi|].
  right. eexists. split; [rewrite Hi; reflexivity|]. apply TrimSpace_trimmed.
Qed.

Lemma entryFieldText_shape s0 rs : forall s buf q prev,
  items s = items s0 -> sends_shaped U s0 (entryFieldText_loop U s rs buf q prev).
Proof.
  induction rs as [|c rs IH]; intros s buf q prev Hi; simpl.
  - left. exact Hi.
  - destruct (c =? 123); [apply IH; exact Hi|].
    destruct (c =? 34); [apply IH; exact Hi|].
    destruct (((c =? 125) || (c =? 41)) && (bracers s =? 1));
      [apply fieldText_finish_shape; exact Hi|].
    destruct ((c =? 37) && (bracers s =? 1)); [apply fieldText_finish_shape; exact Hi|].
    destruct ((c =? 125) && (bracers s >? 0)); [apply IH; exact Hi|].
    destruct ((c =? 44) && (Z.rem q 2 =? 0) && (bracers s =? 1));
      [apply fieldText_finish_shape; exact Hi | apply IH; exact Hi].
Qed.

Lemma entryType_shape rs : forall s buf, sends_shaped U s (entryType_loop U s rs buf).
Proof.
  induction rs as [|c rs IH]; intros s buf; simpl; [left; reflexivity|].
  destruct ((c =? 123) || (c =? 40)); [|apply IH].
  destruct (gostring_eqb (ToLower U (TrimSpace U buf)) (runes "preamble")) eqn:P.
  { destruct (IsValidName U (TrimSpace U buf)); simpl; [|left; reflexivity].
    right. eexists. split; [reflexivity|]. unfold text_shape. simpl.
    split; [apply TrimSpace_trimmed | apply gostring_eqb_eq; exact P]. }
  destruct (gostring_eqb (ToLower U (TrimSpace U buf)) (runes "string")) eqn:S.
  { destruct (IsValidName U (TrimSpace U buf)); simpl; [|left; reflexivity].
    right. eexists. split; [reflexivity|]. unfold text_shape. simpl.
    split; [apply TrimSpace_trimmed | apply gostring_eqb_eq; exact S]. }
  destruct (IsValidName U (TrimSpace U buf)); simpl; [|left; reflexivity].
  right. eexists. split; [reflexivity|]. unfold text_shape. simpl.
  split; [apply TrimSpace_trimmed|].
  split; intros Q; apply gostring_eqb_eq in Q; congruence.
Qed.

(** Every state function sends nothing or one item with the text that
    [text_shape] gives its kind. *)
Lemma states_shape (s : Scanner) : sends_shaped U s (states U (cur_state s) s).
Proof.
  unfold sends_shaped.
  destruct (cur_state s); simpl states;
    unfold Scanner_null, Scanner_entryDelim, Scanner_topLvlComment, Scanner_entryComment,
      Scanner_entryType, Scanner_leftBodyDelim, Scanner_citeKey, Scanner_entryComma,
      Scanner_entryFieldType, Scanner_rightBodyDelim, Scanner_entryEqSgn,
      Scanner_entryFieldText, Scanner_entryTypeOrBrace, Scanner_eof, Scanner_err.
  - shape_leaf.
  - induction (rest (reader s)) as [|c rs IH]; simpl; shape_loop IH.
  - generalize (@nil rune).
    induction (rest (reader s)) as [|c rs IH]; intros buf; simpl.
    + shape_leaf.
    + destruct (c =? 64); [|apply IH].
      destruct (TrimSpace U buf) as [|x b] eqn:E; simpl; [left; reflexivity|].
      right. eexists. split; [reflexivity|]. unfold text_shape. cbn [T Val].
      rewrite <- E. apply TrimSpace_trimmed.
  - generalize (@nil rune).
    induction (rest (reader s)) as [|c rs IH]; intros buf; simpl.
    + shape_leaf.
    + destruct (c =? 10); [|apply IH].
      destruct (TrimSpace U buf) as [|x b] eqn:E.
      * left. apply entryComment_cont_items.
      * right. exists {| T := ItemComment; Val := x :: b |}.
        split; [exact (entryComment_cont_items rs (send s _))|].
        unfold text_shape. cbn [T Val]. rewrite <- E. apply TrimSpace_trimmed.
  - apply entryType_shape.
  - induction (rest (reader s)) as [|c rs IH]; simpl; shape_loop IH.
  - generalize (@nil rune).
    induction (rest (reader s)) as [|c rs IH]; intros buf; simpl; shape_loop IH.
  - induction (rest (reader s)) as [|c rs IH]; simpl; shape_loop IH.
  - generalize (@nil rune).
    induction (rest (reader s)) as [|c rs IH]; intros buf; simpl; shape_loop IH.
  - induction (rest (reader s)) as [|c rs IH]; simpl; shape_loop IH.
  - induction (rest (reader s)) as [|c rs IH]; simpl; shape_loop IH.
  - apply (entryFieldText_shape s). reflexivity.
  - induction (rest (reader s)) as [|c rs IH]; simpl; shape_loop IH.
  - shape_leaf.
  - shape_leaf.
Qed.

Lemma Next_shape n : forall s i s',
  items s = [] -> Next_fuel U n s = Some (i, s') -> text_shape U i.
Proof.
  induction n as [|n IH]; intros s i s' Hi H.
  - simpl in H. rewrite Hi in H. discriminate.
  - rewrite Next_fuel_step in H by exact Hi.
    pose proof (states_shape s) as K. unfold step in H.
    destruct (states U (cur_state s) s) as [st t]. unfold sends_shaped in K. simpl in K.
    destruct K as [Kq | (j & Kq & Kd)].
    + apply (IH (with_state t st) i s'); [simpl; congruence | exact H].
    + rewrite Hi in Kq. simpl in Kq.
      rewrite (Next_fuel_ready U n (with_state t st) j []) in H by exact Kq.
      injection H as <- <-. exact Kd.
Qed.

(** Every item of a run carries the text of its kind: the one-rune items
    hold their rune, the keyword items hold [string] or [preamble] in some
    letter case and the entry items neither, and the items cut out of the
    input (comments, names, field texts) are not empty, have no white space at
    either end and, for names and field texts, passed their check. The items
    are at most as many as the runes of the input. *)
Theorem scanned_items_are_shaped (r : Reader) n sc :
  run_fuel U n (NewScanner r) = Some sc ->
  Forall (fun i => text_shape U i /\ token_ok U i /\ Val i <> []) (upcoming sc) /\
  (List.length (upcoming sc) <= List.length (rest r))%nat.
Proof.
  intros H. destruct (run_fuel_ok U n (NewScanner r) sc eq_refl H) as [Tok Len].
  split; [|exact Len].
  assert (Sh : forall m s sc', items s = [] -> run_fuel U m s = Some sc' ->
                               Forall (text_shape U) (upcoming sc')).
  { induction m as [|m IH]; intros s sc' Hi R; [discriminate|].
    simpl in R. destruct (Next_fuel U m s) as [[i s']|] eqn:N; [|discriminate].
    pose proof (Next_shape _ _ _ _ Hi N) as K.
    pose proof (Next_fuel_spec U _ _ _ _ Hi N) as (Hq & _).
    destruct (T i) eqn:Ti;
      try (injection R as <-; constructor);
      (destruct (run_fuel U m s') as [sc1|] eqn:R1; [|discriminate];
       injection R as <-; simpl; constructor; [exact K | exact (IH _ _ Hq R1)]). }
  pose proof (Sh n (NewScanner r) sc eq_refl H) as S.
  rewrite Forall_forall in *. intros i Hi. pose proof (S i Hi) as Si. pose proof (Tok i Hi) as Ti.
  split; [exact Si|]. split; [exact Ti|].
  unfold token_ok in Ti. unfold text_shape in Si.
  destruct (T i); try contradiction; try (rewrite Si; discriminate);
    try (destruct Si as [-> | ->]; discriminate);
    try (apply (IsValidName_nonempty U); exact Ti); try exact Ti.
  destruct Ti as [Ti | Ti]; [eapply isValidInt_nonempty | eapply isProperQuoted_nonempty];
    eassumption.
Qed.

End Shapes.

(** ** What the state functions of the scanner read *)

Section Reads.
Variable U : Unicode.
Import Scan.

Lemma citeKey_reads key : forall s buf rs,
  Forall (fun x => x <> 44) key ->
  citeKey_loop U s (key ++ 44 :: rs) buf = citeKey_loop U s (44 :: rs) (buf ++ key).
Proof.
  induction key as [|x key IH]; intros s buf rs Hk; simpl app.
  - rewrite app_nil_r. reflexivity.
  - inversion Hk as [|? ? Hx Hk']; subst. apply Z.eqb_neq in Hx.
    simpl citeKey_loop at 1. rewrite Hx. rewrite IH by exact Hk'.
    rewrite <- app_assoc. reflexivity.
Qed.

Lemma entryFieldType_reads key : forall s buf rs,
  Forall (fun x => x <> 61) key ->
  entryFieldType_loop U s (key ++ 61 :: rs) buf
  = entryFieldType_loop U s (61 :: rs) (buf ++ key).
Proof.
  induction key as [|x key IH]; intros s buf rs Hk; simpl app.
  - rewrite app_nil_r. reflexivity.
  - inversion Hk as [|? ? Hx Hk']; subst. apply Z.eqb_neq in Hx.
    simpl entryFieldType_loop at 1. rewrite Hx. rewrite IH by exact Hk'.
    rewrite <- app_assoc. reflexivity.
Qed.

(** The cite key is the input up to the first comma, and a field type the
    input up to the first equals sign, with the white space at both ends
    removed. If that text is a NAME, it is sent and the separator is given
    back to the reader for the next state; if it is not, nothing is sent, the
    state is err and the separator stays consumed. *)
Theorem names_are_read_up_to_their_separator (s : Scanner) (key rs : list rune) :
  (rest (reader s) = key ++ 44 :: rs -> Forall (fun x => x <> 44) key ->
   Scanner_citeKey U s
   = if IsValidName U (TrimSpace U key)
     then (entryComma,
           with_rest (send s {| T := ItemCiteKey; Val := TrimSpace U key |}) (44 :: rs))
     else (err, with_rest s rs)) /\
  (rest (reader s) = key ++ 61 :: rs -> Forall (fun x => x <> 61) key ->
   Scanner_entryFieldType U s
   = if IsValidName U (TrimSpace U key)
     then (entryEqSgn,
           with_rest (send s {| T := ItemFieldType; Val := TrimSpace U key |}) (61 :: rs))
     else (err, with_rest s rs)).
Proof.
  split; intros Hr Hk.
  - unfold Scanner_citeKey. rewrite Hr. pose proof (citeKey_reads key s [] rs Hk) as X. unfold gostring, rune in *.
    rewrite X. simpl.
    destruct (IsValidName U (TrimSpace U key)); reflexivity.
  - unfold Scanner_entryFieldType. rewrite Hr. pose proof (entryFieldType_reads key s [] rs Hk) as X. unfold gostring, rune in *.
    rewrite X. simpl.
    destruct (IsValidName U (TrimSpace U key)); reflexivity.
Qed.

Lemma topLvlComment_reads text : forall s buf rs,
  Forall (fun x => x <> 64) text ->
  topLvlComment_loop U s (text ++ 64 :: rs) buf
  = topLvlComment_loop U s (64 :: rs) (buf ++ text).
Proof.
  induction text as [|x text IH]; intros s buf rs Hk; simpl app.
  - rewrite app_nil_r. reflexivity.
  - inversion Hk as [|? ? Hx Hk']; subst. apply Z.eqb_neq in Hx.
    simpl topLvlComment_loop at 1. rewrite Hx. rewrite IH by exact Hk'.
    rewrite <- app_assoc. reflexivity.
Qed.

Lemma entryComment_reads text : forall s buf rs,
  Forall (fun x => x <> 10) text ->
  entryComment_loop U s (text ++ 10 :: rs) buf
  = entryComment_loop U s (10 :: rs) (buf ++ text).
Proof.
  induction text as [|x text IH]; intros s buf rs Hk; simpl app.
  - rewrite app_nil_r. reflexivity.
  - inversion Hk as [|? ? Hx Hk']; subst. apply Z.eqb_neq in Hx.
    simpl entryComment_loop at 1. rewrite Hx. rewrite IH by exact Hk'.
    rewrite <- app_assoc. reflexivity.
Qed.

Lemma entryComment_cont_skips skipped : forall s c rs,
  Forall (fun x => x <> 37 /\ isDelim x = false /\ IsValidNameRune U x = false) skipped ->
  entryComment_cont U s (skipped ++ c :: rs) = entryComment_cont U s (c :: rs).
Proof.
  induction skipped as [|x skipped IH]; intros s c rs Hk; simpl app; [reflexivity|].
  inversion Hk as [|? ? (H1 & H2 & H3) Hk']; subst. apply Z.eqb_neq in H1.
  simpl entryComment_cont at 1. rewrite H1, H2, H3. apply IH. exact Hk'.
Qed.

(** Comments. Between declarations, all the input up to the next at sign
    is one comment, percent signs included, sent trimmed unless it is empty;
    the at sign is given back; no text there is an error. In a body, a
    comment is the input after the percent sign up to the end of the line,
    sent trimmed unless it is empty; the runes after it are skipped up to the
    first that is a percent sign (another comment), one of the four
    delimiters (the closing-delimiter state comes next, also on an opening
    one) or a NAME rune (a field type comes next), the last two given
    back. *)
Theorem comments_are_read_to_their_end (s : Scanner) (text rs : list rune) :
  (rest (reader s) = text ++ 64 :: rs -> Forall (fun x => x <> 64) text ->
   Scanner_topLvlComment U s
   = (entryDelim,
      with_rest (match TrimSpace U text with
                 | [] => s
                 | _ => send s {| T := ItemComment; Val := TrimSpace U text |}
                 end) (64 :: rs))) /\
  (rest (reader s) = text ++ 10 :: rs -> Forall (fun x => x <> 10) text ->
   Scanner_entryComment U s
   = entryComment_cont U (match TrimSpace U text with
                          | [] => s
                          | _ => send s {| T := ItemComment; Val := TrimSpace U text |}
                          end) rs) /\
  (forall skipped c rs',
      Forall (fun x => x <> 37 /\ isDelim x = false /\ IsValidNameRune U x = false) skipped ->
      entryComment_cont U s (skipped ++ c :: rs')
      = if c =? 37 then (entryComment, with_rest s rs')
        else if isDelim c then (entryRightBodyDelim, with_rest s (c :: rs'))
        else if IsValidNameRune U c then (entryFieldType, with_rest s (c :: rs'))
        else entryComment_cont U s rs').
Proof.
  split; [|split].
  - intros Hr Hk. unfold Scanner_topLvlComment.
    rewrite Hr. pose proof (topLvlComment_reads text s [] rs Hk) as X. unfold gostring, rune in *.
    rewrite X. simpl.
    destruct (TrimSpace U text); reflexivity.
  - intros Hr Hk. unfold Scanner_entryComment.
    rewrite Hr. pose proof (entryComment_reads text s [] rs Hk) as X. unfold gostring, rune in *.
    rewrite X. simpl.
    destruct (TrimSpace U text); reflexivity.
  - intros skipped c rs' Hk. rewrite (entryComment_cont_skips skipped s c rs' Hk).
    reflexivity.
Qed.

Lemma fieldText_finish_cases s buf next consumed after :
  fieldText_finish U s buf next consumed after
  = if isValidInt U (TrimSpace U buf) || isProperQuoted (TrimSpace U buf)
    then (next, with_rest (send s {| T := ItemFieldText; Val := TrimSpace U buf |}) after)
    else (err, with_rest s consumed).
Proof.
  unfold fieldText_finish.
  destruct (isValidInt U (TrimSpace U buf)); destruct (isProperQuoted (TrimSpace U buf));
    reflexivity.
Qed.

(* Below depth 2 nothing ends a field value: text with balanced braces is
   read through. *)
Lemma fieldText_reads_inner inner : forall s q prev d d',
  0 <= d -> 2 <= bracers s - d -> brace_depth d inner = Some d' ->
  exists s' q' prev',
    fieldText_reads s inner q prev = Some (s', q', prev') /\
    bracers s' = bracers s - d + d'.
Proof.
  induction inner as [|c inner IH]; intros s q prev d d' Hd Hb H; simpl in H.
  - injection H as <-. exists s, q, prev. split; [reflexivity | lia].
  - simpl. unfold is_closer.
    destruct (c =? 123) eqn:E1.
    { destruct (IH (with_bracers s (bracers s + 1)) q c (d + 1) d') as (s' & q' & p' & R & B);
        simpl; try lia; try exact H.
      exists s', q', p'. split; [exact R|]. simpl in B. lia. }
    destruct (c =? 34) eqn:E2.
    { destruct (c =? 125) eqn:E3; [apply Z.eqb_eq in E2, E3; lia|].
      destruct (IH s (if negb (prev =? 92) then q + 1 else q) c d d') as (s' & q' & p' & R & B);
        auto; try (exists s', q', p'; auto). }
    assert (B1 : (bracers s =? 1) = false) by (apply Z.eqb_neq; lia).
    rewrite B1, !andb_false_r.
    destruct (c =? 125) eqn:E3.
    + destruct (d >? 0) eqn:Dp; [|discriminate H].
      assert (Bp : (bracers s >? 0) = true) by (apply Z.gtb_lt; lia).
      rewrite Bp. simpl.
      apply Z.gtb_lt in Dp.
      destruct (IH (with_bracers s (bracers s - 1)) q c (d - 1) d') as (s' & q' & p' & R & B);
        simpl; try lia; try exact H.
      exists s', q', p'. split; [exact R|]. simpl in B. lia.
    + simpl.
      destruct (IH s q c d d') as (s' & q' & p' & R & B); auto;
        try (exists s', q', p'; auto).
Qed.

Lemma fieldText_reads_app a : forall s q prev s1 q1 prev1 b,
  fieldText_reads s a q prev = Some (s1, q1, prev1) ->
  fieldText_reads s (a ++ b) q prev = fieldText_reads s1 b q1 prev1.
Proof.
  induction a as [|c a IH]; intros s q prev s1 q1 prev1 b H; simpl in H.
  - injection H as <- <- <-. reflexivity.
  - simpl.
    destruct (c =? 123); [eapply IH; exact H|].
    destruct (c =? 34); [eapply IH; exact H|].
    destruct (is_closer c && (bracers s =? 1)); [discriminate|].
    destruct ((c =? 37) && (bracers s =? 1)); [discriminate|].
    destruct ((c =? 125) && (bracers s >? 0)); [eapply IH; exact H|].
    destruct ((c =? 44) && (Z.rem q 2 =? 0) && (bracers s =? 1)); [discriminate|].
    eapply IH; exact H.
Qed.

(** A field value is cut out of the input as it stands. When the loop of
    entryFieldText has read the runes [pre] and, back at depth 1, meets a
    closing delimiter or a percent sign, it checks the trimmed [pre] and sends
    it unchanged, nothing added or removed inside: the closing delimiter is
    given back for the next state, the percent sign is not. And a value in
    braces whose inner braces are balanced is read through to its closing
    brace, whatever commas, parentheses, percent signs or quotes it holds. *)
Theorem field_value_is_the_trimmed_input :
  (forall s pre c rs s' q' prev',
      rest (reader s) = pre ++ c :: rs ->
      fieldText_reads s pre 0 0 = Some (s', q', prev') -> bracers s' = 1 ->
      (is_closer c = true ->
       Scanner_entryFieldText U s
       = if isValidInt U (TrimSpace U pre) || isProperQuoted (TrimSpace U pre)
         then (entryRightBodyDelim,
               with_rest (send s' {| T := ItemFieldText; Val := TrimSpace U pre |}) (c :: rs))
         else (err, with_rest s' rs)) /\
      (c = 37 ->
       Scanner_entryFieldText U s
       = if isValidInt U (TrimSpace U pre) || isProperQuoted (TrimSpace U pre)
         then (entryComment,
               with_rest (send s' {| T := ItemFieldText; Val := TrimSpace U pre |}) rs)
         else (err, with_rest s' rs))) /\
  (forall s inner q prev,
      bracers s = 1 -> brace_depth 0 inner = Some 0 ->
      exists s' q' prev',
        fieldText_reads s (123 :: inner ++ [125]) q prev = Some (s', q', prev') /\
        bracers s' = 1).
Proof.
  split.
  - intros s pre c rs s' q' prev' Hr H Hb.
    destruct (fieldText_reads_loop U pre s [] 0 0 s' q' prev' (c :: rs) H) as [E _].
    unfold Scanner_entryFieldText. rewrite Hr.
    unfold gostring, rune in *. rewrite E. simpl app. split.
    + intros Hc. unfold is_closer in Hc. simpl entryFieldText_loop.
      destruct (c =? 123) eqn:E1; [apply Z.eqb_eq in E1; subst c; discriminate Hc|].
      destruct (c =? 34) eqn:E2; [apply Z.eqb_eq in E2; subst c; discriminate Hc|].
      rewrite Hc, Hb. simpl. apply fieldText_finish_cases.
    + intros ->. simpl entryFieldText_loop. rewrite Hb. simpl. apply fieldText_finish_cases.
  - intros s inner q prev Hb Hd.
    destruct (fieldText_reads_inner inner (with_bracers s (bracers s + 1)) q 123 0 0)
      as (s1 & q1 & p1 & R & B); simpl; try lia; try exact Hd.
    simpl in B.
    assert (R2 : fieldText_reads s (123 :: inner ++ [125]) q prev
                 = fieldText_reads s1 [125] q1 p1).
    { simpl. exact (fieldText_reads_app inner _ _ _ _ _ _ [125] R). }
    assert (B1 : (bracers s1 =? 1) = false) by (apply Z.eqb_neq; lia).
    assert (Bp : (bracers s1 >? 0) = true) by (apply Z.gtb_lt; lia).
    exists (with_bracers s1 (bracers s1 - 1)), q1, 125. split; [|simpl; lia].
    etransitivity; [exact R2|]. simpl. unfold is_closer. simpl.
    rewrite B1, Bp. reflexivity.
Qed.

End Reads.

(** ** Scan errors and the end of the input *)

Section Ends.
Variable U : Unicode.
Import Scan Parse.

Lemma same_refl a : same_or_sinks a a.
Proof. left. reflexivity. Qed.

Lemma sinks_alike a b : sink a = true -> sink b = true -> same_or_sinks a b.
Proof. right. auto. Qed.

Lemma terminal_sink f : sink (Parse.checkErr (T (terminal f))) = true.
Proof. destruct f; reflexivity. Qed.

Ltac alike_leaf :=
  split; [reflexivity | first [apply same_refl | apply sinks_alike; apply terminal_sink]].

Lemma comms_loop_alike toks : forall p f,
  results_alike (comms_loop p toks) (comms_loop (with_failing p f) toks) f.
Proof.
  induction toks as [|i toks IH]; intros p f; simpl; [alike_leaf|].
  destruct (T i) eqn:Ti; simpl; try alike_leaf.
  exact (IH (addComment p (Val i)) f).
Qed.

Lemma entry_loop_alike toks : forall p d stmt f,
  results_alike (entry_loop p d stmt toks) (entry_loop (with_failing p f) d stmt toks) f.
Proof.
  induction toks as [|i toks IH]; intros p d stmt f; simpl; [alike_leaf|].
  destruct (T i) eqn:Ti; simpl; try alike_leaf; try apply IH.
  - exact (IH (addComment p (Val i)) d stmt f).
  - destruct (negb (FieldStmt_ok {| Key := Key stmt; Value := Val i |}));
      [alike_leaf | apply IH].
Qed.

Lemma preamble_loop_alike toks : forall p d f,
  results_alike (preamble_loop p d toks) (preamble_loop (with_failing p f) d toks) f.
Proof.
  induction toks as [|i toks IH]; intros p d f; simpl; [alike_leaf|].
  destruct (T i) eqn:Ti; simpl; try alike_leaf; try apply IH.
  exact (IH (addComment p (Val i)) d f).
Qed.

Lemma abbrev_loop_alike toks : forall p d stmt a f,
  results_alike (abbrev_loop p d stmt a toks) (abbrev_loop (with_failing p f) d stmt a toks) f.
Proof.
  induction toks as [|i toks IH]; intros p d stmt a f; simpl; [alike_leaf|].
  destruct (T i) eqn:Ti; simpl; try alike_leaf; try apply IH.
  - exact (IH (addComment p (Val i)) d stmt a f).
  - destruct (negb (FieldStmt_ok {| Key := Key stmt; Value := Val i |}));
      [alike_leaf | apply IH].
Qed.

(* The first pull of a state function on the two parsers. *)
Lemma pull_alike p f :
  (exists i toks, upcoming (scanner p) = i :: toks /\
     Scannable_Next (scanner p) = (i, {| upcoming := toks; failing := failing (scanner p) |}) /\
     Scannable_Next (scanner (with_failing p f)) = (i, {| upcoming := toks; failing := f |})) \/
  (upcoming (scanner p) = [] /\
   Scannable_Next (scanner p) = (terminal (failing (scanner p)), scanner p) /\
   Scannable_Next (scanner (with_failing p f))
   = (terminal f, scanner (with_failing p f))).
Proof.
  unfold Scannable_Next. simpl. destruct (upcoming (scanner p)) as [|i toks] eqn:E.
  - right. auto.
  - left. exists i, toks. auto.
Qed.

Lemma states_alike st p f :
  sink st = false ->
  results_alike (Parse.states U st p) (Parse.states U st (with_failing p f)) f.
Proof.
  intros Hs. destruct st; try discriminate Hs; cbn [Parse.states].
  - (* null *) alike_leaf.
  - (* comms *) unfold Parser_comms. simpl. apply comms_loop_alike.
  - (* decl *)
    unfold Parser_decl.
    destruct (pull_alike p f) as [(i & toks & E & N1 & N2) | (E & N1 & N2)];
      rewrite N1, N2; cbn [upcoming].
    + destruct (T i) eqn:Ti; simpl; alike_leaf.
    + destruct (failing (scanner p)); destruct f; simpl;
        (split; [unfold with_failing, with_upcoming; simpl; rewrite ?E; reflexivity|]);
        first [apply same_refl | apply sinks_alike; reflexivity].
  - (* entry *)
    unfold Parser_entry. cbn [currDecl with_failing].
    destruct (currDecl p) as [[d|d|d|]|]; try alike_leaf.
    destruct (pull_alike p f) as [(i & toks & E & N1 & N2) | (E & N1 & N2)];
      rewrite N1, N2; cbn [upcoming].
    2: { destruct (failing (scanner p)); destruct f; simpl;
           (split; [unfold with_failing, with_upcoming; simpl; rewrite ?E; reflexivity|]);
           first [apply same_refl | apply sinks_alike; reflexivity]. }
    destruct (Parse.checkErr (T i)) eqn:C; try alike_leaf.
    destruct (pull_alike (with_upcoming p toks) f)
      as [(j & toks' & E' & M1 & M2) | (E' & M1 & M2)].
    + change (scanner (with_upcoming (with_failing p f) toks))
        with (scanner (with_failing (with_upcoming p toks) f)).
      rewrite M1, M2. cbn [upcoming].
      destruct (Parse.checkErr (T j)) eqn:C'; try alike_leaf.
      destruct (T j) eqn:Tj; try alike_leaf.
      exact (entry_loop_alike toks' (with_upcoming (with_upcoming p toks) toks') _ _ f).
    + change (scanner (with_upcoming (with_failing p f) toks))
        with (scanner (with_failing (with_upcoming p toks) f)).
      rewrite M1, M2. simpl in E'. subst toks. simpl.
      destruct (failing (scanner p)); destruct f; simpl;
        (split; [reflexivity|]);
        first [apply same_refl | apply sinks_alike; reflexivity].
  - (* preamble *)
    unfold Parser_preamble. cbn [currDecl with_failing].
    destruct (currDecl p) as [[d|d|d|]|]; try alike_leaf.
    destruct (pull_alike p f) as [(i & toks & E & N1 & N2) | (E & N1 & N2)];
      rewrite N1, N2; cbn [upcoming].
    2: { destruct (failing (scanner p)); destruct f; simpl;
           (split; [unfold with_failing, with_upcoming; simpl; rewrite ?E; reflexivity|]);
           first [apply same_refl | apply sinks_alike; reflexivity]. }
    destruct (Parse.checkErr (T i)) eqn:C; try alike_leaf.
    exact (preamble_loop_alike toks (with_upcoming p toks) _ f).
  - (* abbrev *)
    unfold Parser_abbrev. cbn [currDecl with_failing].
    destruct (currDecl p) as [[d|d|d|]|]; try alike_leaf.
    destruct (pull_alike p f) as [(i & toks & E & N1 & N2) | (E & N1 & N2)];
      rewrite N1, N2; cbn [upcoming].
    2: { destruct (failing (scanner p)); destruct f; simpl;
           (split; [unfold with_failing, with_upcoming; simpl; rewrite ?E; reflexivity|]);
           first [apply same_refl | apply sinks_alike; reflexivity]. }
    destruct (Parse.checkErr (T i)) eqn:C; try alike_leaf.
    exact (abbrev_loop_alike toks (with_upcoming p toks) _ _ _ f).
Qed.

Lemma alike_same p q :
  alike p q -> Parse.cur_state p = Parse.cur_state q ->
  q = with_failing p (failing (scanner q)).
Proof.
  intros (A1 & A2 & A3 & A4 & A5 & _) A6.
  destruct p as [[u1 f1] n1 c1 m1 d1 s1], q as [[u2 f2] n2 c2 m2 d2 s2].
  simpl in *. subst. reflexivity.
Qed.

Lemma alike_with_failing p f st1 st2 :
  same_or_sinks st1 st2 ->
  alike (Parse.with_state p st1) (Parse.with_state (with_failing p f) st2).
Proof. intros H. repeat split; try reflexivity. exact H. Qed.

Lemma alike_close p q st1 st2 :
  alike p q -> sink st1 = true -> sink st2 = true ->
  alike (Parse.with_state (close p) st1) (Parse.with_state (close q) st2).
Proof.
  intros (A1 & A2 & A3 & A4 & A5 & _) S1 S2.
  repeat split; simpl; auto. right. auto.
Qed.

Lemma step_alike p q : alike p q -> alike (Parse.step U p) (Parse.step U q).
Proof.
  intros A. pose proof A as (A1 & A2 & A3 & A4 & A5 & [A6 | [S1 S2]]).
  - destruct (sink (Parse.cur_state p)) eqn:Sk.
    + unfold Parse.step. rewrite <- A6.
      destruct (Parse.cur_state p); try discriminate Sk; cbn [Parse.states];
        unfold Parser_err, Parser_eof; apply alike_close; auto.
    + rewrite (alike_same p q A A6). unfold Parse.step.
      change (Parse.cur_state (with_failing p (failing (scanner q))))
        with (Parse.cur_state p).
      destruct (states_alike (Parse.cur_state p) p (failing (scanner q)) Sk) as [R1 R2].
      destruct (Parse.states U (Parse.cur_state p) p) as [st1 p1].
      destruct (Parse.states U (Parse.cur_state p) (with_failing p (failing (scanner q))))
        as [st2 q2].
      simpl in R1, R2. subst q2. apply alike_with_failing. exact R2.
  - unfold Parse.step.
    destruct (Parse.cur_state p); try discriminate S1;
      destruct (Parse.cur_state q); try discriminate S2; cbn [Parse.states];
      unfold Parser_err, Parser_eof; apply alike_close; auto.
Qed.

Lemma alike_with_nodes p q l :
  alike p q -> alike (with_nodes p l) (with_nodes q l).
Proof. intros (A1 & A2 & A3 & A4 & A5 & A6). repeat split; simpl; auto. Qed.

Lemma Next_alike n : forall p q nd ok p',
  alike p q -> Parse.Next_fuel U n p = Some (nd, ok, p') ->
  exists q', Parse.Next_fuel U n q = Some (nd, ok, q') /\ alike p' q'.
Proof.
  induction n as [|n IH]; intros p q nd ok p' A H;
    pose proof A as (A1 & A2 & A3 & A4 & A5 & A6); simpl in H |- *;
    rewrite <- A2, <- A3.
  - destruct (nodes p) as [|x l] eqn:En.
    + destruct (closed p); [|discriminate]. injection H as <- <- <-.
      exists q. split; [reflexivity | exact A].
    + injection H as <- <- <-. exists (with_nodes q l). split; [reflexivity|].
      apply alike_with_nodes. exact A.
  - destruct (nodes p) as [|x l] eqn:En.
    + destruct (closed p).
      * injection H as <- <- <-. exists q. split; [reflexivity | exact A].
      * exact (IH _ _ _ _ _ (step_alike p q A) H).
    + injection H as <- <- <-. exists (with_nodes q l). split; [reflexivity|].
      apply alike_with_nodes. exact A.
Qed.

Lemma drain_alike n : forall p q l p',
  alike p q -> drain_fuel U n p = Some (l, p') ->
  exists q', drain_fuel U n q = Some (l, q') /\ alike p' q'.
Proof.
  induction n as [|n IH]; intros p q l p' A H; [discriminate|].
  simpl in H |- *.
  destruct (Parse.Next_fuel U n p) as [[[nd ok] p1]|] eqn:N; [|discriminate].
  destruct (Next_alike n p q nd ok p1 A N) as (q1 & N' & A1). rewrite N'.
  destruct ok.
  - destruct (drain_fuel U n p1) as [[l1 p2]|] eqn:R; [|discriminate].
    injection H as <- <-.
    destruct (IH p1 q1 l1 p2 A1 R) as (q2 & R' & A2). rewrite R'.
    exists q2. split; [reflexivity | exact A2].
  - injection H as <- <-. exists q1. split; [reflexivity | exact A1].
Qed.

Lemma drain_end n : forall p l p',
  parser_reachable U p -> drain_fuel U n p = Some (l, p') ->
  parser_reachable U p' /\ closed p' = true.
Proof.
  induction n as [|n IH]; intros p l p' R H; [discriminate|].
  simpl in H.
  destruct (Parse.Next_fuel U n p) as [[[nd ok] p1]|] eqn:N; [|discriminate].
  pose proof (PNext_reachable U _ _ _ _ _ R N) as R1.
  destruct (PNext_shape U _ _ _ _ _ N) as [(-> & x & ->) | (-> & -> & Hc & Hn)].
  - destruct (drain_fuel U n p1) as [[l1 p2]|] eqn:D; [|discriminate].
    injection H as <- <-. exact (IH _ _ _ R1 D).
  - injection H as <- <-. auto.
Qed.

Lemma drain_sink n p l p' :
  parser_reachable U p -> drain_fuel U n p = Some (l, p') ->
  closed p' = true /\ sink (Parse.cur_state p') = true.
Proof.
  intros R H. destruct (drain_end n p l p' R H) as [R' C]. split; [exact C|].
  destruct (parser_reachable_inv U p' R') as (_ & K & _).
  destruct (K C) as [_ [E | E]]; rewrite E; reflexivity.
Qed.

(** The parser does not tell a scan error from the end of the input. Run
    on the same items, once from a scanner that ends them with an error item
    and once from one that ends them with the end-of-input item, the loop of
    calls to Next receives the same declarations in the same number of turns,
    and the two parsers end alike: same unread items, same buffered nodes, same
    pending comments and declaration, both closed, each in state err or
    eof. *)
Theorem scan_error_ends_the_nodes_like_end_of_input
  (n : nat) (toks : list Item) (l : list Node) (p' : Parser) :
  drain_fuel U n (NewParser {| upcoming := toks; failing := true |}) = Some (l, p') ->
  exists q',
    drain_fuel U n (NewParser {| upcoming := toks; failing := false |}) = Some (l, q') /\
    alike p' q' /\ closed p' = true /\ closed q' = true /\
    sink (Parse.cur_state p') = true /\ sink (Parse.cur_state q') = true.
Proof.
  intros H.
  assert (A : alike (NewParser {| upcoming := toks; failing := true |})
                    (NewParser {| upcoming := toks; failing := false |})).
  { repeat split. left. reflexivity. }
  destruct (drain_alike n _ _ l p' A H) as (q' & R & A').
  exists q'. split; [exact R|]. split; [exact A'|].
  destruct (drain_sink n _ l p' (preach_new U _) H) as [C1 S1].
  destruct (drain_sink n _ l q' (preach_new U _) R) as [C2 S2].
  auto.
Qed.

End Ends.

(** ** Read errors and the end of the input *)

Section ReadEnds.
Variable U : Unicode.
Import Scan.

Lemma exhausted_sink r : scan_sink (checkErr (exhausted r)) = true.
Proof. unfold exhausted. destruct (broken r); reflexivity. Qed.

Ltac read_leaf :=
  split; [reflexivity
         | first [ left; reflexivity
                 | right; split; apply exhausted_sink ]].

Ltac read_loop IH :=
  repeat match goal with
         | |- context [if ?b then _ else _] => destruct b eqn:?
         | |- context [match ?l with [] => _ | _ :: _ => _ end] => destruct l eqn:?
         | |- context [match cur_entryT ?s with _ => _ end] => destruct (cur_entryT s) eqn:?
         end;
  first [ read_leaf | apply IH ].

Lemma topLvlComment_alike rs : forall s buf b,
  scan_results_alike (topLvlComment_loop U s rs buf)
                     (topLvlComment_loop U (with_broken s b) rs buf) b.
Proof. induction rs as [|c rs IH]; intros s buf b; simpl; read_loop IH. Qed.

Lemma entryDelim_alike rs : forall s b,
  scan_results_alike (entryDelim_loop s rs) (entryDelim_loop (with_broken s b) rs) b.
Proof. induction rs as [|c rs IH]; intros s b; simpl; read_loop IH. Qed.

Lemma entryType_alike rs : forall s buf b,
  scan_results_alike (entryType_loop U s rs buf) (entryType_loop U (with_broken s b) rs buf) b.
Proof. induction rs as [|c rs IH]; intros s buf b; simpl; read_loop IH. Qed.

Lemma leftBodyDelim_alike rs : forall s b,
  scan_results_alike (leftBodyDelim_loop s rs) (leftBodyDelim_loop (with_broken s b) rs) b.
Proof. induction rs as [|c rs IH]; intros s b; simpl; read_loop IH. Qed.

Lemma rightBodyDelim_alike rs : forall s b,
  scan_results_alike (rightBodyDelim_loop s rs) (rightBodyDelim_loop (with_broken s b) rs) b.
Proof. induction rs as [|c rs IH]; intros s b; simpl; read_loop IH. Qed.

Lemma citeKey_alike rs : forall s buf b,
  scan_results_alike (citeKey_loop U s rs buf) (citeKey_loop U (with_broken s b) rs buf) b.
Proof. induction rs as [|c rs IH]; intros s buf b; simpl; read_loop IH. Qed.

Lemma entryComma_alike rs : forall s b,
  scan_results_alike (entryComma_loop s rs) (entryComma_loop (with_broken s b) rs) b.
Proof. induction rs as [|c rs IH]; intros s b; simpl; read_loop IH. Qed.

Lemma entryComment_cont_alike rs : forall s b,
  scan_results_alike (entryComment_cont U s rs) (entryComment_cont U (with_broken s b) rs) b.
Proof. induction rs as [|c rs IH]; intros s b; simpl; read_loop IH. Qed.

Lemma entryComment_alike rs : forall s buf b,
  scan_results_alike (entryComment_loop U s rs buf)
                     (entryComment_loop U (with_broken s b) rs buf) b.
Proof.
  induction rs as [|c rs IH]; intros s buf b; simpl; [read_leaf|].
  destruct (c =? r_newline); [|apply IH].
  destruct (TrimSpace U buf) as [|x l].
  - apply entryComment_cont_alike.
  - exact (entryComment_cont_alike rs (send s _) b).
Qed.

Lemma entryTypeOrBrace_alike rs : forall s b,
  scan_results_alike (entryTypeOrBrace_loop U s rs)
                     (entryTypeOrBrace_loop U (with_broken s b) rs) b.
Proof. induction rs as [|c rs IH]; intros s b; simpl; read_loop IH. Qed.

Lemma entryFieldType_alike rs : forall s buf b,
  scan_results_alike (entryFieldType_loop U s rs buf)
                     (entryFieldType_loop U (with_broken s b) rs buf) b.
Proof. induction rs as [|c rs IH]; intros s buf b; simpl; read_loop IH. Qed.

Lemma entryEqSgn_alike rs : forall s b,
  scan_results_alike (entryEqSgn_loop s rs) (entryEqSgn_loop (with_broken s b) rs) b.
Proof. induction rs as [|c rs IH]; intros s b; simpl; read_loop IH. Qed.

Lemma fieldText_finish_alike s buf next consumed after b :
  scan_results_alike (fieldText_finish U s buf next consumed after)
                     (fieldText_finish U (with_broken s b) buf next consumed after) b.
Proof.
  unfold fieldText_finish.
  destruct (negb (isValidInt U (TrimSpace U buf)) && negb (isProperQuoted (TrimSpace U buf)));
    read_leaf.
Qed.

Lemma entryFieldText_alike rs : forall s buf q prev b,
  scan_results_alike (entryFieldText_loop U s rs buf q prev)
                     (entryFieldText_loop U (with_broken s b) rs buf q prev) b.
Proof.
  induction rs as [|c rs IH]; intros s buf q prev b; simpl; [read_leaf|].
  destruct (c =? r_lbrace); [exact (IH (with_bracers s (bracers s + 1)) _ _ _ b)|].
  destruct (c =? r_quote); [apply IH|].
  destruct (((c =? r_rbrace) || (c =? r_rparen)) && (bracers s =? 1));
    [apply fieldText_finish_alike|].
  destruct ((c =? r_percent) && (bracers s =? 1)); [apply fieldText_finish_alike|].
  destruct ((c =? r_rbrace) && (bracers s >? 0));
    [exact (IH (with_bracers s (bracers s - 1)) _ _ _ b)|].
  destruct ((c =? r_comma) && (Z.rem q 2 =? 0) && (bracers s =? 1));
    [apply fieldText_finish_alike | apply IH].
Qed.

Lemma scan_states_alike st s b :
  scan_sink st = false ->
  scan_results_alike (states U st s) (states U st (with_broken s b)) b.
Proof.
  intros Hs. destruct st; try discriminate Hs; cbn [states];
    first [ read_leaf
          | apply topLvlComment_alike | apply entryComment_alike
          | apply entryDelim_alike | apply entryType_alike
          | apply leftBodyDelim_alike | apply rightBodyDelim_alike
          | apply citeKey_alike | apply entryComma_alike
          | apply entryFieldType_alike | apply entryEqSgn_alike
          | apply entryFieldText_alike | apply entryTypeOrBrace_alike ].
Qed.

Lemma scan_alike_same s1 s2 :
  scan_alike s1 s2 -> cur_state s1 = cur_state s2 -> items s1 = [] ->
  s2 = with_broken s1 (broken (reader s2)).
Proof.
  intros (A1 & A2 & A3 & A4 & A5 & _) A6 A7.
  destruct s1 as [[u1 f1] i1 c1 b1 e1 d1], s2 as [[u2 f2] i2 c2 b2 e2 d2].
  simpl in *. subst. inversion A5. reflexivity.
Qed.

Lemma scan_alike_sinks s1 s2 t1 t2 st1 st2 :
  scan_alike s1 s2 -> items s1 = [] ->
  is_terminal t1 = true -> is_terminal t2 = true ->
  scan_sink st1 = true -> scan_sink st2 = true ->
  scan_alike (with_state (send s1 t1) st1) (with_state (send s2 t2) st2).
Proof.
  intros (A1 & A2 & A3 & A4 & A5 & _) E T1 T2 S1 S2.
  rewrite E in A5. destruct (items s2) as [|x l] eqn:E2; [|inversion A5].
  unfold scan_alike, send. simpl. rewrite E, E2. simpl.
  repeat split; auto.
  - constructor; [right; auto | constructor].
  - right. auto.
Qed.

Lemma scan_step_alike s1 s2 :
  scan_alike s1 s2 -> items s1 = [] -> scan_alike (step U s1) (step U s2).
Proof.
  intros A E. pose proof A as (A1 & A2 & A3 & A4 & A5 & [A6 | [S1 S2]]).
  - destruct (scan_sink (cur_state s1)) eqn:Sk.
    + unfold step. rewrite <- A6.
      destruct (cur_state s1); try discriminate Sk; cbn [states];
        unfold Scanner_err, Scanner_eof; apply scan_alike_sinks; auto.
    + rewrite (scan_alike_same s1 s2 A A6 E). unfold step.
      change (cur_state (with_broken s1 (broken (reader s2)))) with (cur_state s1).
      destruct (scan_states_alike (cur_state s1) s1 (broken (reader s2)) Sk) as [R1 R2].
      destruct (states U (cur_state s1) s1) as [st1 p1].
      destruct (states U (cur_state s1) (with_broken s1 (broken (reader s2)))) as [st2 q2].
      simpl in R1, R2. subst q2.
      repeat split; simpl; auto.
      clear. induction (items p1); constructor; [left; reflexivity | assumption].
  - unfold step.
    destruct (cur_state s1); try discriminate S1;
      destruct (cur_state s2); try discriminate S2; cbn [states];
      unfold Scanner_err, Scanner_eof; apply scan_alike_sinks; auto.
Qed.

Lemma scan_Next_alike n : forall s1 s2 i1 s1',
  scan_alike s1 s2 -> Next_fuel U n s1 = Some (i1, s1') ->
  exists i2 s2', Next_fuel U n s2 = Some (i2, s2') /\ item_alike i1 i2 /\ scan_alike s1' s2'.
Proof.
  assert (R : forall s1 s2 i q, scan_alike s1 s2 -> items s1 = i :: q ->
            exists i2 q2, items s2 = i2 :: q2 /\ item_alike i i2 /\
                          scan_alike (with_items s1 q) (with_items s2 q2)).
  { intros s1 s2 i q (A1 & A2 & A3 & A4 & A5 & A6) E. rewrite E in A5.
    inversion A5 as [|? i2 ? q2 Hi Hq E1 E2]; subst.
    exists i2, q2. repeat split; simpl; auto. }
  induction n as [|n IH]; intros s1 s2 i1 s1' A H; simpl in H |- *.
  - destruct (items s1) as [|i q] eqn:E; [discriminate|]. injection H as <- <-.
    destruct (R s1 s2 i q A E) as (i2 & q2 & E2 & Hi & A'). rewrite E2. eauto.
  - destruct (items s1) as [|i q] eqn:E.
    + pose proof A as (_ & _ & _ & _ & A5 & _). rewrite E in A5.
      destruct (items s2) as [|x l] eqn:E2; [|inversion A5].
      exact (IH _ _ _ _ (scan_step_alike s1 s2 A E) H).
    + injection H as <- <-.
      destruct (R s1 s2 i q A E) as (i2 & q2 & E2 & Hi & A'). rewrite E2. eauto.
Qed.

Lemma scan_run_alike n : forall s1 s2 sc1,
  scan_alike s1 s2 -> run_fuel U n s1 = Some sc1 ->
  exists sc2, run_fuel U n s2 = Some sc2 /\ upcoming sc2 = upcoming sc1.
Proof.
  induction n as [|n IH]; intros s1 s2 sc1 A H; [discriminate|].
  simpl in H |- *.
  destruct (Next_fuel U n s1) as [[i1 s1']|] eqn:N; [|discriminate].
  destruct (scan_Next_alike n s1 s2 i1 s1' A N) as (i2 & s2' & N2 & Hi & A').
  rewrite N2.
  assert (C : (is_terminal i1 = true /\ is_terminal i2 = true) \/
              (is_terminal i1 = false /\ i2 = i1)).
  { destruct Hi as [<- | Hi]; [|left; exact Hi].
    destruct (is_terminal i1); auto. }
  destruct C as [[T1 T2] | [T1 ->]].
  - unfold is_terminal in T1, T2.
    destruct (T i1); try discriminate T1; injection H as <-;
      destruct (T i2); try discriminate T2; eexists; split; reflexivity.
  - unfold is_terminal in T1.
    destruct (T i1) eqn:Ti; try discriminate T1;
      (destruct (run_fuel U n s1') as [sc|] eqn:R; [|discriminate]; injection H as <-;
       destruct (IH _ _ _ A' R) as (sc2 & R2 & E2); rewrite R2;
       eexists; split; [reflexivity | simpl; rewrite E2; reflexivity]).
Qed.

(** A read error of the underlying reader is not told from the end of
    the input. On the same runes, ended once by a read error and once by the
    end of the input, the scanner sends the same items before its terminal
    item, which is all that the two runs differ in, and the pipeline returns
    the same declarations. *)
Theorem read_error_ends_the_input_like_its_end (n : nat) (rs : list rune) :
  (forall sc, run_fuel U n (NewScanner {| rest := rs; broken := true |}) = Some sc ->
     exists sc', run_fuel U n (NewScanner {| rest := rs; broken := false |}) = Some sc' /\
                 upcoming sc' = upcoming sc) /\
  (forall l st, pipeline_fuel U n {| rest := rs; broken := true |} = Some (l, st) ->
     exists st', pipeline_fuel U n {| rest := rs; broken := false |} = Some (l, st')).
Proof.
  assert (A : scan_alike (NewScanner {| rest := rs; broken := true |})
                         (NewScanner {| rest := rs; broken := false |})).
  { repeat split; simpl; auto. left. reflexivity. }
  split.
  - intros sc H. exact (scan_run_alike n _ _ sc A H).
  - intros l st H. unfold pipeline_fuel in *.
    destruct (run_fuel U n (NewScanner {| rest := rs; broken := true |})) as [sc|] eqn:R;
      [|discriminate].
    destruct (scan_run_alike n _ _ sc A R) as (sc' & R' & E). rewrite R'.
    destruct (Parse.drain_fuel U n (Parse.NewParser sc)) as [[l' p']|] eqn:D; [|discriminate].
    injection H as <- <-.
    assert (B : alike (Parse.NewParser sc) (Parse.NewParser sc')).
    { repeat split; simpl; auto. left. reflexivity. }
    destruct (drain_alike U n _ _ l' p' B D) as (q' & D' & _). rewrite D'.
    eexists. reflexivity.
Qed.

End ReadEnds.

(** ** The further theorems at concrete inputs *)

Section MoreWitnesses.
Import Scan Parse.

Lemma step_follows_state_diagram_witness :
  exists k,
    edge (Scan.cur_state (Scan.with_state (NewScanner (source (runes "@a{k}"))) entryDelim))
         (cur_entryT (Scan.with_state (NewScanner (source (runes "@a{k}"))) entryDelim))
         k
         (Scan.cur_state
            (Scan.step ascii_tables
                       (Scan.with_state (NewScanner (source (runes "@a{k}"))) entryDelim)))
         (cur_entryT
            (Scan.step ascii_tables
                       (Scan.with_state (NewScanner (source (runes "@a{k}"))) entryDelim)))
    = true /\
    match k with
    | None =>
        items (Scan.step ascii_tables
                         (Scan.with_state (NewScanner (source (runes "@a{k}"))) entryDelim)) = []
    | Some t =>
        exists v,
          items (Scan.step ascii_tables
                           (Scan.with_state (NewScanner (source (runes "@a{k}"))) entryDelim))
          = [{| T := t; Val := v |}]
    end.
Proof.
  apply (step_follows_state_diagram ascii_tables
           (Scan.with_state (NewScanner (source (runes "@a{k}"))) entryDelim)).
  reflexivity.
Defined.

Lemma channel_holds_at_most_one_item_witness :
  exists l s',
    Next_iter ascii_tables 64%nat 3%nat (NewScanner (source (runes "@a{k}"))) = Some (l, s') /\
    reachable ascii_tables s' /\ items s' = [].
Proof.
  eexists. eexists. split; [vm_compute; reflexivity|].
  eapply (proj2 (channel_holds_at_most_one_item ascii_tables)
                (source (runes "@a{k}")) 64%nat 3%nat).
  vm_compute. reflexivity.
Defined.

Lemma scanner_items_follow_grammar_witness :
  exists sc,
    run_fuel ascii_tables 128%nat (NewScanner (source (runes "@a{k, b = 1}"))) = Some sc /\
    upcoming sc <> [] /\
    accepted PTop (upcoming sc) = true /\
    Forall (fun i => match T i with
                     | ItemErr | ItemEOF | ItemLeftBrace | ItemRightBrace
                     | ItemLeftParen | ItemRightParen | ItemTexCode => False
                     | _ => True
                     end) (upcoming sc).
Proof.
  eexists. split; [vm_compute; reflexivity|]. split; [discriminate|].
  apply (scanner_items_follow_grammar ascii_tables (source (runes "@a{k, b = 1}")) 128%nat).
  vm_compute. reflexivity.
Defined.

Lemma letters_and_digits_are_names_witness :
  IsValidName ascii_tables (runes "2024") = true.
Proof.
  apply (proj2 (letters_and_digits_are_names ascii_tables (runes "2024"))).
  reflexivity.
Defined.

Lemma old_cite_keys_are_names_witness :
  IsValidName ascii_tables (runes "knuth:art-1_a") = true.
Proof.
  apply (old_cite_keys_are_names ascii_tables (runes "knuth:art-1_a")).
  reflexivity.
Defined.

Lemma names_are_continuous_witness :
  isContinuous ascii_tables (runes "knuth:1984") = true.
Proof.
  apply (names_are_continuous ascii_tables (runes "knuth:1984")).
  - intros c H. simpl in H. unfold IsSpecial. simpl.
    apply orb_true_iff in H as [H | H].
    + apply andb_true_iff in H as [H1 H2].
      apply Z.leb_le in H1. apply Z.leb_le in H2.
      repeat split.
      * apply orb_false_iff. split; apply andb_false_iff; left; apply Z.leb_gt; lia.
      * apply andb_false_iff. left. apply Z.leb_gt. lia.
      * assert (E : c = 9 \/ c = 10 \/ c = 11 \/ c = 12 \/ c = 13) by lia.
        destruct E as [-> | [-> | [-> | [-> | ->]]]]; reflexivity.
    + apply Z.eqb_eq in H. subst c. repeat split; reflexivity.
  - reflexivity.
Defined.

Lemma old_isProperQuoted_is_stricter_witness :
  Lexer.isProperQuoted (runes "{a} and {b}")
  = (Lexer.HasPrefix (runes "{a} and {b}") 34 || Lexer.HasPrefix (runes "{a} and {b}") 123) &&
    (Lexer.HasSuffix (runes "{a} and {b}") 34 || Lexer.HasSuffix (runes "{a} and {b}") 125) &&
    isProperQuoted (runes "{a} and {b}").
Proof.
  apply (old_isProperQuoted_is_stricter (runes "{a} and {b}")).
  vm_compute. repeat constructor; discriminate.
Defined.

Lemma pipeline_declarations_well_formed_witness :
  Forall (well_formed ascii_tables)
         [NEntry {| Name := runes "a"; CiteKey := runes "k";
                    Comments := Some {| Values := [] |};
                    Fields := [ {| Key := runes "b"; Value := runes "1" |} ] |}].
Proof.
  apply (pipeline_declarations_well_formed ascii_tables
           (source (runes "@a{k, b = 1}")) 128%nat _ Parse.eof).
  vm_compute. reflexivity.
Defined.

Lemma pipeline_builds_declarations_from_chunks_witness :
  exists sc chunks leftover,
    run_fuel ascii_tables 128%nat (NewScanner (source (runes "@a{k, b = 1}"))) = Some sc /\
    upcoming sc = List.concat chunks ++ leftover /\
    Forall2 (parsed_from ascii_tables) chunks
            [NEntry {| Name := runes "a"; CiteKey := runes "k";
                       Comments := Some {| Values := [] |};
                       Fields := [ {| Key := runes "b"; Value := runes "1" |} ] |}].
Proof.
  apply (pipeline_builds_declarations_from_chunks ascii_tables
           (source (runes "@a{k, b = 1}")) 128%nat _ Parse.eof).
  vm_compute. reflexivity.
Defined.

Lemma entry_pairs_field_types_with_texts_witness :
  exists p',
    Parser_entry
      (with_upcoming
         (with_currDecl (NewParser {| upcoming := []; failing := false |})
                        (Some (NEntry {| Name := runes "book"; CiteKey := [];
                                         Comments := None; Fields := [] |})))
         [item ItemLeftDelim "{"; item ItemCiteKey "k"; item ItemFieldType "a";
          item ItemEqSgn "="; item ItemFieldText "1"; item ItemRightDelim "}"])
    = (Parse.null, p') /\
    upcoming (scanner p') = [] /\
    nodes p'
    = [NEntry {| Name := runes "book"; CiteKey := runes "k";
                 Comments := Some {| Values := [] |};
                 Fields := [ {| Key := runes "a"; Value := runes "1" |} ] |}].
Proof.
  apply (proj2 (entry_pairs_field_types_with_texts
                  (with_upcoming
                     (with_currDecl (NewParser {| upcoming := []; failing := false |})
                                    (Some (NEntry {| Name := runes "book"; CiteKey := [];
                                                     Comments := None; Fields := [] |})))
                     [item ItemLeftDelim "{"; item ItemCiteKey "k"; item ItemFieldType "a";
                      item ItemEqSgn "="; item ItemFieldText "1"; item ItemRightDelim "}"])
                  {| Name := runes "book"; CiteKey := []; Comments := None; Fields := [] |}
                  eq_refl)
               (item ItemLeftDelim "{") (item ItemCiteKey "k")
               [item ItemFieldType "a"; item ItemEqSgn "="; item ItemFieldText "1"]
               (item ItemRightDelim "}") []);
    try reflexivity.
  repeat constructor.
Defined.

Lemma abbrev_field_is_last_type_and_text_witness :
  exists p',
    Parser_abbrev
      (with_upcoming
         (with_currDecl (NewParser {| upcoming := []; failing := false |})
                        (Some (NAbbrev {| AbbrevComments := None; Field := None |})))
         [item ItemLeftDelim "{"; item ItemFieldType "a"; item ItemEqSgn "=";
          item ItemFieldText "1"; item ItemFieldType "b"; item ItemRightDelim "}"])
    = (Parse.null, p') /\
    nodes p'
    = [NAbbrev {| AbbrevComments := Some {| Values := [] |};
                  Field := Some {| Key := runes "b"; Value := runes "1" |} |}].
Proof.
  apply (proj2 (abbrev_field_is_last_type_and_text
                  (with_upcoming
                     (with_currDecl (NewParser {| upcoming := []; failing := false |})
                                    (Some (NAbbrev {| AbbrevComments := None;
                                                      Field := None |})))
                     [item ItemLeftDelim "{"; item ItemFieldType "a"; item ItemEqSgn "=";
                      item ItemFieldText "1"; item ItemFieldType "b";
                      item ItemRightDelim "}"])
                  {| AbbrevComments := None; Field := None |}
                  eq_refl)
               (item ItemLeftDelim "{") (runes "a") (runes "1") (runes "b")
               (item ItemRightDelim "}") []);
    try reflexivity; discriminate.
Defined.

Lemma preamble_value_is_last_text_witness :
  exists p',
    Parser_preamble
      (with_upcoming
         (with_currDecl (NewParser {| upcoming := []; failing := false |})
                        (Some (NPreamble {| PreambleComments := None;
                                            PreambleValue := [] |})))
         [item ItemLeftDelim "{"; item ItemFieldText "{x}"; item ItemFieldText "{y}";
          item ItemRightDelim "}"])
    = (Parse.null, p') /\
    nodes p'
    = [NPreamble {| PreambleComments := Some {| Values := [] |};
                    PreambleValue := runes "{y}" |}].
Proof.
  eexists. split; [vm_compute; reflexivity|].
  destruct (preamble_value_is_last_text
              (with_upcoming
                 (with_currDecl (NewParser {| upcoming := []; failing := false |})
                                (Some (NPreamble {| PreambleComments := None;
                                                    PreambleValue := [] |})))
                 [item ItemLeftDelim "{"; item ItemFieldText "{x}"; item ItemFieldText "{y}";
                  item ItemRightDelim "}"])
              {| PreambleComments := None; PreambleValue := [] |} _ eq_refl eq_refl)
    as (dl & toks & E & _ & N & _).
  injection E as <- <-. exact N.
Defined.

Lemma scanned_items_are_shaped_witness :
  exists sc,
    run_fuel ascii_tables 128%nat (NewScanner (source (runes "@a{k, b = 1}"))) = Some sc /\
    upcoming sc <> [] /\
    Forall (fun i => text_shape ascii_tables i /\ token_ok ascii_tables i /\ Val i <> [])
           (upcoming sc) /\
    (List.length (upcoming sc) <= List.length (rest (source (runes "@a{k, b = 1}"))))%nat.
Proof.
  eexists. split; [vm_compute; reflexivity|]. split; [discriminate|].
  apply (scanned_items_are_shaped ascii_tables (source (runes "@a{k, b = 1}")) 128%nat).
  vm_compute. reflexivity.
Defined.

Lemma names_are_read_up_to_their_separator_witness :
  Scanner_citeKey ascii_tables (NewScanner (source (runes " knuth84 , a = 1}")))
  = (entryComma,
     with_rest (Scan.send (NewScanner (source (runes " knuth84 , a = 1}")))
                          {| T := ItemCiteKey; Val := runes "knuth84" |})
               (runes ", a = 1}")).
Proof.
  apply (proj1 (names_are_read_up_to_their_separator ascii_tables
                  (NewScanner (source (runes " knuth84 , a = 1}")))
                  (runes " knuth84 ") (runes " a = 1}"))).
  - reflexivity.
  - repeat constructor; discriminate.
Defined.

Lemma comments_are_read_to_their_end_witness :
  Scanner_topLvlComment ascii_tables (NewScanner (source (runes " a note @a{k}")))
  = (entryDelim,
     with_rest (Scan.send (NewScanner (source (runes " a note @a{k}")))
                          {| T := ItemComment; Val := runes "a note" |})
               (runes "@a{k}")).
Proof.
  apply (proj1 (comments_are_read_to_their_end ascii_tables
                  (NewScanner (source (runes " a note @a{k}")))
                  (runes " a note ") (runes "a{k}"))).
  - reflexivity.
  - repeat constructor; discriminate.
Defined.

Lemma field_value_is_the_trimmed_input_witness :
  exists s' q' prev',
    fieldText_reads (with_bracers (NewScanner (source [])) 1)
                    (123 :: runes "a{b}c" ++ [125]) 0 0 = Some (s', q', prev') /\
    bracers s' = 1.
Proof.
  apply (proj2 (field_value_is_the_trimmed_input ascii_tables)
               (with_bracers (NewScanner (source [])) 1) (runes "a{b}c") 0 0);
    reflexivity.
Defined.

Lemma scan_error_ends_the_nodes_like_end_of_input_witness :
  exists l p',
    drain_fuel ascii_tables 16%nat
      (NewParser {| upcoming := [item ItemEntryDelim "@"; item ItemEntry "a";
                                 item ItemLeftDelim "{"; item ItemCiteKey "k";
                                 item ItemRightDelim "}"; item ItemEntryDelim "@"];
                    failing := true |}) = Some (l, p') /\
    l <> [] /\
    exists q',
      drain_fuel ascii_tables 16%nat
        (NewParser {| upcoming := [item ItemEntryDelim "@"; item ItemEntry "a";
                                   item ItemLeftDelim "{"; item ItemCiteKey "k";
                                   item ItemRightDelim "}"; item ItemEntryDelim "@"];
                      failing := false |}) = Some (l, q') /\
      alike p' q' /\ closed p' = true /\ closed q' = true /\
      sink (Parse.cur_state p') = true /\ sink (Parse.cur_state q') = true.
Proof.
  eexists. eexists. split; [vm_compute; reflexivity|]. split; [discriminate|].
  apply (scan_error_ends_the_nodes_like_end_of_input ascii_tables 16%nat
           [item ItemEntryDelim "@"; item ItemEntry "a"; item ItemLeftDelim "{";
            item ItemCiteKey "k"; item ItemRightDelim "}"; item ItemEntryDelim "@"]).
  vm_compute. reflexivity.
Defined.
Lemma read_error_ends_the_input_like_its_end_witness :
  exists st',
    pipeline_fuel ascii_tables 128%nat
                  {| rest := runes "@a{k, b = 1} @c{"; broken := false |}
    = Some ([NEntry {| Name := runes "a"; CiteKey := runes "k";
                       Comments := Some {| Values := [] |};
                       Fields := [ {| Key := runes "b"; Value := runes "1" |} ] |}], st').
Proof.
  apply (proj2 (read_error_ends_the_input_like_its_end ascii_tables 128%nat
                  (runes "@a{k, b = 1} @c{"))
               _ Parse.err).
  vm_compute. reflexivity.
Defined.
End MoreWitnesses.

(** ** The scanner at the end of the input *)

Section Inputs.
Variable U : Unicode.
Import Scan.

Ltac stop_or_go IH :=
  simpl;
  match goal with
  | |- context [negb ?b && _] =>
      destruct b eqn:?; simpl;
      [ repeat match goal with
               | |- context [if ?x then _ else _] => destruct x
               | |- context [match cur_entryT ?t with _ => _ end] => destruct (cur_entryT t)
               end; simpl; discriminate
      | try apply IH ]
  end.

Lemma topLvlComment_on rs : forall s buf,
  if forallb (fun c => negb (stops_at U topLvlComment c)) rs
  then topLvlComment_loop U s rs buf = (checkErr (exhausted (reader s)), with_rest s [])
  else fst (topLvlComment_loop U s rs buf) <> eof.
Proof. induction rs as [|c rs IH]; intros s buf; [reflexivity|]. stop_or_go IH. Qed.

Lemma entryDelim_on rs : forall s,
  if forallb (fun c => negb (stops_at U entryDelim c)) rs
  then entryDelim_loop s rs = (checkErr (exhausted (reader s)), with_rest s [])
  else fst (entryDelim_loop s rs) <> eof.
Proof. induction rs as [|c rs IH]; intros s; [reflexivity|]. stop_or_go IH. Qed.

Lemma entryType_on rs : forall s buf,
  if forallb (fun c => negb (stops_at U entryType c)) rs
  then entryType_loop U s rs buf = (checkErr (exhausted (reader s)), with_rest s [])
  else fst (entryType_loop U s rs buf) <> eof.
Proof.
  induction rs as [|c rs IH]; intros s buf; [reflexivity|].
  unfold stops_at, is_opener. stop_or_go IH.
Qed.

Lemma leftBodyDelim_on rs : forall s,
  if forallb (fun c => negb (stops_at U entryLeftBodyDelim c)) rs
  then leftBodyDelim_loop s rs = (checkErr (exhausted (reader s)), with_rest s [])
  else fst (leftBodyDelim_loop s rs) <> eof.
Proof.
  induction rs as [|c rs IH]; intros s; [reflexivity|].
  unfold stops_at, is_opener. stop_or_go IH.
Qed.

Lemma rightBodyDelim_on rs : forall s,
  if forallb (fun c => negb (stops_at U entryRightBodyDelim c)) rs
  then rightBodyDelim_loop s rs = (checkErr (exhausted (reader s)), with_rest s [])
  else fst (rightBodyDelim_loop s rs) <> eof.
Proof.
  induction rs as [|c rs IH]; intros s; [reflexivity|].
  unfold stops_at, is_closer. stop_or_go IH.
Qed.

Lemma citeKey_on rs : forall s buf,
  if forallb (fun c => negb (stops_at U entryCiteKey c)) rs
  then citeKey_loop U s rs buf = (checkErr (exhausted (reader s)), with_rest s [])
  else fst (citeKey_loop U s rs buf) <> eof.
Proof. induction rs as [|c rs IH]; intros s buf; [reflexivity|]. stop_or_go IH. Qed.

Lemma entryComma_on rs : forall s,
  if forallb (fun c => negb (stops_at U entryComma c)) rs
  then entryComma_loop s rs = (checkErr (exhausted (reader s)), with_rest s [])
  else fst (entryComma_loop s rs) <> eof.
Proof. induction rs as [|c rs IH]; intros s; [reflexivity|]. stop_or_go IH. Qed.

Lemma entryFieldType_on rs : forall s buf,
  if forallb (fun c => negb (stops_at U entryFieldType c)) rs
  then entryFieldType_loop U s rs buf = (checkErr (exhausted (reader s)), with_rest s [])
  else fst (entryFieldType_loop U s rs buf) <> eof.
Proof. induction rs as [|c rs IH]; intros s buf; [reflexivity|]. stop_or_go IH. Qed.

Lemma entryEqSgn_on rs : forall s,
  if forallb (fun c => negb (stops_at U entryEqSgn c)) rs
  then entryEqSgn_loop s rs = (checkErr (exhausted (reader s)), with_rest s [])
  else fst (entryEqSgn_loop s rs) <> eof.
Proof. induction rs as [|c rs IH]; intros s; [reflexivity|]. stop_or_go IH. Qed.

Lemma entryTypeOrBrace_on rs : forall s,
  if forallb (fun c => negb (stops_at U entryTypeOrBrace c)) rs
  then entryTypeOrBrace_loop U s rs = (checkErr (exhausted (reader s)), with_rest s [])
  else fst (entryTypeOrBrace_loop U s rs) <> eof.
Proof.
  induction rs as [|c rs IH]; intros s; [reflexivity|].
  unfold stops_at, is_closer. simpl.
  destruct ((c =? r_rbrace) || (c =? r_rparen)); simpl; [discriminate|].
  destruct (c =? r_percent); simpl; [discriminate|].
  destruct (IsValidNameRune U c); simpl; [discriminate | apply IH].
Qed.

Lemma entryComment_cont_on rs : forall s,
  if cont_reads_on U rs
  then entryComment_cont U s rs = (checkErr (exhausted (reader s)), with_rest s [])
  else fst (entryComment_cont U s rs) <> eof.
Proof.
  induction rs as [|c rs IH]; intros s; [reflexivity|]. simpl.
  destruct (c =? r_percent); simpl; [discriminate|].
  destruct (isDelim c); simpl; [discriminate|].
  destruct (IsValidNameRune U c); simpl; [discriminate | apply IH].
Qed.

Lemma entryComment_on rs : forall s buf,
  if comment_reads_on U rs
  then exists s', entryComment_loop U s rs buf
                  = (checkErr (exhausted (reader s)), with_rest s' []) /\
                  reader s' = reader s /\
                  (s' = s \/ exists v, s' = send s {| T := ItemComment; Val := v |})
  else fst (entryComment_loop U s rs buf) <> eof.
Proof.
  induction rs as [|c rs IH]; intros s buf; simpl.
  - exists s. auto.
  - destruct (c =? r_newline); [|apply IH].
    destruct (TrimSpace U buf) as [|x b].
    + pose proof (entryComment_cont_on rs s) as K.
      destruct (cont_reads_on U rs); [|exact K]. exists s. auto.
    + pose proof (entryComment_cont_on rs (send s {| T := ItemComment; Val := x :: b |})) as K.
      destruct (cont_reads_on U rs); [|exact K].
      exists (send s {| T := ItemComment; Val := x :: b |}). split; [exact K|].
      split; [reflexivity|]. right. eauto.
Qed.

Lemma fieldText_reads_same pre : forall s q prev s' q' prev',
  fieldText_reads s pre q prev = Some (s', q', prev') ->
  reader s' = reader s /\ items s' = items s.
Proof.
  induction pre as [|c pre IH]; intros s q prev s' q' prev' H; simpl in H.
  - injection H as <- _ _. auto.
  - repeat match type of H with
           | (if ?b then _ else _) = _ => destruct b
           end; try discriminate H; apply IH in H; simpl in H; exact H.
Qed.

Lemma fieldText_finish_not_eof s buf next consumed after :
  next <> eof -> fst (fieldText_finish U s buf next consumed after) <> eof.
Proof.
  intros H. unfold fieldText_finish.
  destruct (negb (isValidInt U (TrimSpace U buf)) && negb (isProperQuoted (TrimSpace U buf)));
    simpl; [discriminate | exact H].
Qed.

Lemma entryFieldText_on rs : forall s buf q prev,
  match fieldText_reads s rs q prev with
  | Some (s', _, _) =>
      entryFieldText_loop U s rs buf q prev
      = (checkErr (exhausted (reader s)), with_rest s' [])
  | None => fst (entryFieldText_loop U s rs buf q prev) <> eof
  end.
Proof.
  induction rs as [|c rs IH]; intros s buf q prev; simpl; [reflexivity|].
  unfold is_closer.
  destruct (c =? r_lbrace).
  { exact (IH (with_bracers s (bracers s + 1)) _ _ _). }
  destruct (c =? r_quote); [apply IH|].
  destruct (((c =? r_rbrace) || (c =? r_rparen)) && (bracers s =? 1));
    [apply fieldText_finish_not_eof; discriminate|].
  destruct ((c =? r_percent) && (bracers s =? 1));
    [apply fieldText_finish_not_eof; discriminate|].
  destruct ((c =? r_rbrace) && (bracers s >? 0)).
  { exact (IH (with_bracers s (bracers s - 1)) _ _ _). }
  destruct ((c =? r_comma) && (Z.rem q 2 =? 0) && (bracers s =? 1));
    [apply fieldText_finish_not_eof; discriminate | apply IH].
Qed.

(* [reads_on] is exact: the state function returns from its read at the end
   of the input when it holds, and returns another state than eof, from a
   rune, when it does not. *)
Lemma reads_on_spec (s : Scanner) :
  cur_state s <> eof ->
  if reads_on U s then read_to_end s (states U (cur_state s) s)
  else fst (states U (cur_state s) s) <> eof.
Proof.
  intros He. unfold reads_on, read_to_end.
  destruct (cur_state s) eqn:St; try congruence; cbn [states];
    unfold Scanner_null, Scanner_entryDelim, Scanner_topLvlComment, Scanner_entryComment,
      Scanner_entryType, Scanner_leftBodyDelim, Scanner_citeKey, Scanner_entryComma,
      Scanner_entryFieldType, Scanner_rightBodyDelim, Scanner_entryEqSgn,
      Scanner_entryFieldText, Scanner_entryTypeOrBrace, Scanner_err;
    try (simpl; discriminate); unfold gostring, rune in *;
    try (match goal with
         | |- context [topLvlComment_loop] =>
             pose proof (topLvlComment_on (rest (reader s)) s []) as K
         | |- context [entryDelim_loop] => pose proof (entryDelim_on (rest (reader s)) s) as K
         | |- context [entryType_loop] => pose proof (entryType_on (rest (reader s)) s []) as K
         | |- context [leftBodyDelim_loop] =>
             pose proof (leftBodyDelim_on (rest (reader s)) s) as K
         | |- context [rightBodyDelim_loop] =>
             pose proof (rightBodyDelim_on (rest (reader s)) s) as K
         | |- context [citeKey_loop] => pose proof (citeKey_on (rest (reader s)) s []) as K
         | |- context [entryComma_loop] => pose proof (entryComma_on (rest (reader s)) s) as K
         | |- context [entryFieldType_loop] =>
             pose proof (entryFieldType_on (rest (reader s)) s []) as K
         | |- context [entryEqSgn_loop] => pose proof (entryEqSgn_on (rest (reader s)) s) as K
         | |- context [entryTypeOrBrace_loop] =>
             pose proof (entryTypeOrBrace_on (rest (reader s)) s) as K
         end;
         unfold gostring, rune in *;
         destruct (forallb _ _); [rewrite K; simpl; auto | exact K]).
  - pose proof (entryComment_on (rest (reader s)) s []) as K.
    unfold gostring, rune in *.
    destruct (comment_reads_on U _); [|exact K].
    destruct K as (s' & -> & Hr & [-> | (v & ->)]); simpl; rewrite ?Hr; auto.
    repeat split; auto. right. split; [reflexivity|]. eauto.
  - pose proof (entryFieldText_on (rest (reader s)) s [] 0 0) as K.
    unfold gostring, rune in *.
    destruct (fieldText_reads s (rest (reader s)) 0 0) as [[[s' q'] prev']|] eqn:F;
      [|exact K].
    destruct (fieldText_reads_same _ _ _ _ _ _ _ F) as [Hr Hi].
    rewrite K. simpl. rewrite Hr, Hi. auto.
Qed.

Lemma run_fuel_unique n m s sc1 sc2 :
  run_fuel U n s = Some sc1 -> run_fuel U m s = Some sc2 -> sc1 = sc2.
Proof.
  intros H1 H2.
  pose proof (run_fuel_mono U _ _ _ (Nat.max n m) H1 (Nat.le_max_l _ _)) as E1.
  pose proof (run_fuel_mono U _ _ _ (Nat.max n m) H2 (Nat.le_max_r _ _)) as E2.
  congruence.
Qed.

(* The run of a scanner whose state function reads on to the end. *)
Lemma run_reads_on (s : Scanner) n :
  items s = [] -> broken (reader s) = false -> reads_on U s = true -> (3 < n)%nat ->
  cur_state (step U s) = eof /\
  (items (step U s) = [] \/
   (cur_state s = entryComment /\
    exists v, items (step U s) = [{| T := ItemComment; Val := v |}])) /\
  run_fuel U n s = Some {| upcoming := items (step U s); failing := false |}.
Proof.
  intros Hi Hb Hr Hn.
  assert (He : cur_state s <> eof).
  { intros E. unfold reads_on in Hr. rewrite E in Hr. discriminate. }
  pose proof (reads_on_spec s He) as K. rewrite Hr in K.
  destruct K as (K1 & K2 & K3 & K4).
  unfold exhausted in K1. rewrite Hb in K1. simpl in K1.
  assert (Es : cur_state (step U s) = eof).
  { unfold step. destruct (states U (cur_state s) s) as [st' s']. simpl in *. exact K1. }
  assert (Ei : items (step U s) = items (snd (states U (cur_state s) s))).
  { unfold step. destruct (states U (cur_state s) s) as [st' s']. reflexivity. }
  split; [exact Es|]. rewrite Hi in K4. simpl in K4.
  destruct K4 as [K4 | (St & v & K4)].
  - rewrite <- Ei in K4. split; [left; exact K4|]. rewrite K4.
    apply (run_fuel_to_sink U n s false Hi); [lia | exact K4 | left; auto].
  - rewrite <- Ei in K4. split; [right; split; [exact St | eauto]|]. rewrite K4.
    destruct n as [|n]; [lia|]. simpl.
    destruct n as [|n]; [lia|]. rewrite Next_fuel_step by exact Hi.
    rewrite (Next_fuel_ready U n (step U s) _ [] K4). cbn [T].
    rewrite (run_fuel_sink U (S n) (with_items (step U s) []) false);
      [reflexivity | reflexivity | lia | left; auto].
Qed.

(** *** The scanners reached on an input *)

Lemma reached_items r l s : reached U r l s -> items s = [].
Proof. induction 1; auto. Qed.

Lemma reached_reachable r l s : reached U r l s -> reachable U s.
Proof.
  induction 1 as [| l s R IH Hq | l s i R IH Hq].
  - apply reach_new.
  - apply reach_run; [exact IH | eapply reached_items; eassumption].
  - eapply reach_receive; [|exact Hq].
    apply reach_run; [exact IH | eapply reached_items; eassumption].
Qed.

Lemma step_broken s : items s = [] -> broken (reader (step U s)) = broken (reader s).
Proof.
  intros Hi. destruct (cur_state s) eqn:St;
    try (apply step_progress; [exact Hi | congruence | congruence]);
    unfold step; rewrite St; reflexivity.
Qed.

Lemma reached_broken r l s : reached U r l s -> broken (reader s) = broken r.
Proof.
  induction 1 as [| l s R IH Hq | l s i R IH Hq]; [reflexivity | |];
    simpl; rewrite step_broken by (eapply reached_items; eassumption); exact IH.
Qed.

(* A sink is never left, and only a sink sends a terminal item. *)
Lemma edge_sink st e k st' e' :
  edge st e k st' e' = true ->
  (scan_sink st = true -> scan_sink st' = true) /\
  (scan_sink st = false ->
   match k with
   | Some t => t <> ItemEOF /\ t <> ItemErr
   | None => True
   end).
Proof.
  intros E. split.
  - intros S. destruct st; try discriminate S; destruct k as [[]|]; destruct st';
      simpl in E; try discriminate E; reflexivity.
  - intros S. destruct k as [t|]; [|exact I].
    destruct st; try discriminate S; destruct t; destruct st'; simpl in E;
      try discriminate E; split; discriminate.
Qed.

Lemma reached_proper r l s :
  reached U r l s -> scan_sink (cur_state s) = false ->
  Forall (fun i => is_terminal i = false) l.
Proof.
  induction 1 as [| l s R IH Hq | l s i R IH Hq]; intros S.
  - constructor.
  - pose proof (reached_items _ _ _ R) as Hi.
    destruct (step_edge U s Hi) as (k & E & _).
    destruct (edge_sink _ _ _ _ _ E) as [E1 _].
    apply IH. destruct (scan_sink (cur_state s)); [|reflexivity].
    rewrite E1 in S by reflexivity. discriminate S.
  - pose proof (reached_items _ _ _ R) as Hi.
    destruct (step_edge U s Hi) as (k & E & Hk).
    destruct (edge_sink _ _ _ _ _ E) as [E1 E2]. simpl in S.
    assert (S0 : scan_sink (cur_state s) = false).
    { destruct (scan_sink (cur_state s)); [|reflexivity].
      rewrite E1 in S by reflexivity. discriminate S. }
    apply Forall_app. split; [exact (IH S0)|]. constructor; [|constructor].
    specialize (E2 S0). destruct k as [t|].
    + destruct Hk as (v & Hk). rewrite Hk in Hq. injection Hq as <-.
      unfold is_terminal. simpl. destruct E2. destruct t; congruence.
    + rewrite Hk in Hq. discriminate Hq.
Qed.

Lemma after_snoc l : forall ph ph' i,
  after ph l = Some ph' -> after ph (l ++ [i]) = delta ph' (T i).
Proof.
  induction l as [|x l IH]; intros ph ph' i H; simpl in *.
  - injection H as <-. destruct (delta ph (T i)); reflexivity.
  - destruct (delta ph (T x)) as [ph1|]; [|discriminate]. exact (IH _ _ _ H).
Qed.

(* The items received follow the grammar, and the scanner is in a state of
   the phase they lead to. *)
Lemma reached_phase r l s :
  reached U r l s -> scan_sink (cur_state s) = false ->
  exists ph, after PTop l = Some ph /\ sim ph (cur_state s) (cur_entryT s) = true.
Proof.
  induction 1 as [| l s R IH Hq | l s i R IH Hq]; intros S.
  - exists PTop. split; reflexivity.
  - pose proof (reached_items _ _ _ R) as Hi.
    destruct (step_edge U s Hi) as (k & E & Hk).
    destruct (edge_sink _ _ _ _ _ E) as [E1 _].
    assert (S0 : scan_sink (cur_state s) = false).
    { destruct (scan_sink (cur_state s)); [|reflexivity].
      rewrite E1 in S by reflexivity. discriminate S. }
    destruct (IH S0) as (ph & A & M). exists ph. split; [exact A|].
    destruct k as [t|].
    + destruct Hk as (v & Hk). rewrite Hk in Hq. discriminate Hq.
    + exact (sim_edge _ _ _ _ _ _ M E).
  - pose proof (reached_items _ _ _ R) as Hi.
    destruct (step_edge U s Hi) as (k & E & Hk).
    destruct (edge_sink _ _ _ _ _ E) as [E1 E2]. simpl in S.
    assert (S0 : scan_sink (cur_state s) = false).
    { destruct (scan_sink (cur_state s)); [|reflexivity].
      rewrite E1 in S by reflexivity. discriminate S. }
    destruct (IH S0) as (ph & A & M). specialize (E2 S0).
    pose proof (sim_edge _ _ _ _ _ _ M E) as ME.
    destruct k as [t|].
    + destruct Hk as (v & Hk). rewrite Hk in Hq. injection Hq as <-.
      destruct ME as [[-> | ->] | (ph' & D & M')]; [destruct E2; congruence ..|].
      exists ph'. split; [|exact M']. rewrite (after_snoc _ _ _ _ A). exact D.
    + rewrite Hk in Hq. discriminate Hq.
Qed.

Lemma opener_after_app a : forall d b,
  opener_after d (a ++ b) = opener_after (opener_after d a) b.
Proof.
  induction a as [|i a IH]; intros d b; simpl; [reflexivity|].
  destruct (T i); apply IH.
Qed.

Lemma step_delim s :
  items s = [] ->
  (items (step U s) = [] /\ delim (step U s) = delim s) \/
  exists i, items (step U s) = [i] /\
    match T i with
    | ItemLeftDelim => Val i = [delim (step U s)]
    | _ => delim (step U s) = delim s
    end.
Proof.
  intros Hi. pose proof (states_keep_delim U s) as K. unfold step.
  destruct (states U (cur_state s) s) as [st t]. unfold delim_kept in K. simpl in *.
  rewrite Hi in K. destruct K as [[Kq Kd] | (j & Kq & Kd)]; [left; auto|].
  right. exists j. split; [exact Kq|].
  destruct (T j); try exact Kd. destruct Kd as (c & _ & _ & Kd). exact Kd.
Qed.

(* The recorded opening delimiter is the rune of the latest
   opening-delimiter item received. *)
Lemma reached_delim r l s : reached U r l s -> delim s = opener_after 0 l.
Proof.
  induction 1 as [| l s R IH Hq | l s i R IH Hq]; [reflexivity | |];
    pose proof (reached_items _ _ _ R) as Hi;
    destruct (step_delim s Hi) as [[Kq Kd] | (j & Kq & Kd)].
  - congruence.
  - rewrite Kq in Hq. discriminate Hq.
  - rewrite Kq in Hq. discriminate Hq.
  - rewrite Kq in Hq. injection Hq as <-. rewrite opener_after_app, <- IH. simpl.
    destruct (T j); try exact Kd. rewrite Kd. reflexivity.
Qed.

(* The run of the scanner from the start, from the run of a scanner
   reached. *)
Lemma reached_run r l s :
  reached U r l s -> Forall (fun i => is_terminal i = false) l ->
  forall m sc', run_fuel U m s = Some sc' ->
  exists N, run_fuel U N (NewScanner r)
            = Some {| upcoming := l ++ upcoming sc'; failing := failing sc' |}.
Proof.
  induction 1 as [| l s R IH Hq | l s i R IH Hq]; intros Hl m sc' H.
  - exists m. rewrite H. destruct sc'; reflexivity.
  - pose proof (reached_items _ _ _ R) as Hi.
    apply (IH Hl (S m) sc').
    destruct m as [|m]; [discriminate|].
    change (run_fuel U (S (S m)) s) with
      (match Next_fuel U (S m) s with
       | None => None
       | Some (i, s') =>
           match T i with
           | ItemEOF => Some {| upcoming := []; failing := false |}
           | ItemErr => Some {| upcoming := []; failing := true |}
           | _ => match run_fuel U (S m) s' with
                  | Some sc => Some {| upcoming := i :: upcoming sc; failing := failing sc |}
                  | None => None
                  end
           end
       end).
    rewrite Next_fuel_step by exact Hi.
    simpl in H. destruct (Next_fuel U m (step U s)) as [[i s']|]; [|discriminate].
    destruct (T i); try exact H;
      (destruct (run_fuel U m s') as [sc|] eqn:Rn; [|discriminate];
       rewrite (run_fuel_mono U _ _ _ (S m) Rn) by lia; exact H).
  - pose proof (reached_items _ _ _ R) as Hi.
    apply Forall_app in Hl as [Hl Hi1]. inversion Hi1 as [|? ? Ti _]; subst.
    destruct (IH Hl (S (S m)) {| upcoming := i :: upcoming sc'; failing := failing sc' |})
      as (N & E).
    + change (run_fuel U (S (S m)) s) with
        (match Next_fuel U (S m) s with
         | None => None
         | Some (i, s') =>
             match T i with
             | ItemEOF => Some {| upcoming := []; failing := false |}
             | ItemErr => Some {| upcoming := []; failing := true |}
             | _ => match run_fuel U (S m) s' with
                    | Some sc => Some {| upcoming := i :: upcoming sc; failing := failing sc |}
                    | None => None
                    end
             end
         end).
      rewrite Next_fuel_step by exact Hi.
      rewrite (Next_fuel_ready U m (step U s) i [] Hq).
      rewrite (run_fuel_mono U _ _ _ (S m) H) by lia.
      unfold is_terminal in Ti. destruct (T i); try discriminate Ti; reflexivity.
    + exists N. rewrite E. simpl. rewrite <- app_assoc. reflexivity.
Qed.

(* What calls of Next return is received from a scanner reached. *)
Lemma Next_fuel_reached r n : forall l s i s',
  reached U r l s -> Next_fuel U n s = Some (i, s') -> reached U r (l ++ [i]) s'.
Proof.
  induction n as [|n IH]; intros l s i s' R H;
    pose proof (reached_items _ _ _ R) as Hi.
  - simpl in H. rewrite Hi in H. discriminate.
  - rewrite Next_fuel_step in H by exact Hi.
    destruct (step_edge U s Hi) as ([t|] & _ & Hk).
    + destruct Hk as (v & Hk).
      rewrite (Next_fuel_ready U n (step U s) _ [] Hk) in H. injection H as <- <-.
      apply reached_item; assumption.
    + apply (IH l (step U s)); [apply reached_quiet; assumption | exact H].
Qed.

Lemma Next_iter_reached r n k : forall l0 s0 l s,
  reached U r l0 s0 -> Next_iter U n k s0 = Some (l, s) -> reached U r (l0 ++ l) s.
Proof.
  induction k as [|k IH]; intros l0 s0 l s R H; simpl in H.
  - injection H as <- <-. rewrite app_nil_r. exact R.
  - destruct (Next_fuel U n s0) as [[i s1]|] eqn:N; [|discriminate].
    destruct (Next_iter U n k s1) as [[l' s']|] eqn:I; [|discriminate].
    injection H as <- <-.
    pose proof (IH _ _ _ _ (Next_fuel_reached r n _ _ _ _ R N) I) as K.
    rewrite <- app_assoc in K. exact K.
Qed.

(* A scanner reached in eof came there from a state function that read on
   to the end of the input. *)
Lemma reached_eof r l s :
  reached U r l s -> cur_state s = eof -> Forall (fun i => is_terminal i = false) l ->
  exists l' s', reached U r l' s' /\ reads_on U s' = true /\ l = l' ++ items (step U s').
Proof.
  intros R. destruct R as [| l s R Hq | l s i R Hq]; intros He Hl.
  - discriminate He.
  - pose proof (reached_items _ _ _ R) as Hi.
    assert (Hn : cur_state s <> eof).
    { intros E. unfold step in Hq. rewrite E in Hq. simpl in Hq. rewrite Hi in Hq.
      discriminate Hq. }
    pose proof (reads_on_spec s Hn) as K.
    destruct (reads_on U s) eqn:Hr.
    + exists l, s. rewrite Hq, app_nil_r. auto.
    + exfalso. apply K. unfold step in He.
      destruct (states U (cur_state s) s) as [st' s']. exact He.
  - pose proof (reached_items _ _ _ R) as Hi. simpl in He.
    apply Forall_app in Hl as [_ Hl]. inversion Hl as [|? ? Ti _]; subst.
    assert (Hn : cur_state s <> eof).
    { intros E. unfold step in Hq. rewrite E in Hq. simpl in Hq. rewrite Hi in Hq.
      injection Hq as <-. discriminate Ti. }
    pose proof (reads_on_spec s Hn) as K.
    destruct (reads_on U s) eqn:Hr.
    + exists l, s. rewrite Hq. auto.
    + exfalso. apply K. unfold step in He.
      destruct (states U (cur_state s) s) as [st' s']. exact He.
Qed.

(* Next yields the end-of-input item from a scanner in eof. *)
Lemma Next_fuel_eof r n : forall l s i s',
  reached U r l s -> Next_fuel U n s = Some (i, s') -> T i = ItemEOF ->
  exists se, reached U r l se /\ cur_state se = eof.
Proof.
  induction n as [|n IH]; intros l s i s' R H Ti;
    pose proof (reached_items _ _ _ R) as Hi.
  - simpl in H. rewrite Hi in H. discriminate.
  - rewrite Next_fuel_step in H by exact Hi.
    destruct (step_edge U s Hi) as ([t|] & E & Hk).
    + destruct Hk as (v & Hk).
      rewrite (Next_fuel_ready U n (step U s) _ [] Hk) in H. injection H as <- <-.
      simpl in Ti. subst t. exists s. split; [exact R|].
      destruct (cur_state s); auto; destruct (cur_state (step U s)); simpl in E;
        discriminate E.
    + apply (IH l (step U s) i s'); [apply reached_quiet; assumption | exact H | exact Ti].
Qed.

(* The items of a run that ends with the end-of-input item: those received
   by a scanner whose state function read on to the end, and what that
   function sent. *)
Lemma run_eof_reads_on r n : forall l0 s sc,
  reached U r l0 s -> Forall (fun i => is_terminal i = false) l0 ->
  run_fuel U n s = Some sc -> failing sc = false ->
  exists l s', reached U r l s' /\ reads_on U s' = true /\
               l0 ++ upcoming sc = l ++ items (step U s').
Proof.
  induction n as [|n IH]; intros l0 s sc R Hl H Hf; [discriminate|].
  simpl in H. destruct (Next_fuel U n s) as [[i s1]|] eqn:N; [|discriminate].
  pose proof (Next_fuel_reached r n _ _ _ _ R N) as R1.
  destruct (T i) eqn:Ti;
    try (destruct (run_fuel U n s1) as [sc1|] eqn:Rn; [|discriminate];
         injection H as <-; simpl in Hf |- *;
         destruct (IH (l0 ++ [i]) s1 sc1 R1) as (l & s' & Rs & Hr & E);
         [apply Forall_app; split; [exact Hl|]; constructor; [|constructor];
          unfold is_terminal; rewrite Ti; reflexivity
         | exact Rn | exact Hf |];
         exists l, s'; rewrite <- app_assoc in E; auto).
  - injection H as <-. discriminate Hf.
  - injection H as <-. simpl. rewrite app_nil_r.
    destruct (Next_fuel_eof r n _ _ _ _ R N Ti) as (se & Re & Ee).
    exact (reached_eof r l0 se Re Ee Hl).
Qed.

End Inputs.

(** ** What the parser returns on the items of the scanner *)

Section Live.
Variable U : Unicode.
Import Scan Parse.

Lemma end_state_terminal f : Parse.checkErr (T (terminal f)) = end_state f.
Proof. destruct f; reflexivity. Qed.

Lemma entry_items_closer_free body :
  forallb is_entry_item body = true -> no_closer body.
Proof.
  intros H. apply Forall_forall. intros i Hi.
  rewrite forallb_forall in H. specialize (H i Hi). unfold is_entry_item in H.
  destruct (T i); congruence.
Qed.

(* The items of an entry body, as the grammar of the scanner has them, are
   those the loop of entry goes over, with a field type before every field
   text. *)
Lemma entry_body_grammar toks : forall ph key,
  accepted ph toks = true -> Forall (token_ok U) toks ->
  ph = PKeyComma \/ ph = PInner \/ ph = PEqSgn \/ ph = PText \/ ph = PAfterText ->
  (ph = PEqSgn \/ ph = PText -> key <> []) ->
  (forallb is_entry_item toks = true /\
   Forall (fun f => FieldStmt_ok f = true) (pair_fields key toks)) \/
  exists body closer rest,
    toks = body ++ closer :: rest /\ T closer = ItemRightDelim /\
    forallb is_entry_item body = true /\
    Forall (fun f => FieldStmt_ok f = true) (pair_fields key body) /\
    accepted PTop rest = true.
Proof.
  induction toks as [|i l IH]; intros ph key Ha Ht Hph Hk.
  - left. split; [reflexivity | constructor].
  - simpl in Ha. destruct (delta ph (T i)) as [ph'|] eqn:D; [|discriminate].
    inversion Ht as [|? ? Hi Hl]; subst.
    assert (Step : forall key',
               ph' = PKeyComma \/ ph' = PInner \/ ph' = PEqSgn \/ ph' = PText
               \/ ph' = PAfterText ->
               (ph' = PEqSgn \/ ph' = PText -> key' <> []) ->
               is_entry_item i = true ->
               (forall fs, Forall (fun f => FieldStmt_ok f = true) fs ->
                           forall b, pair_fields key' b = fs ->
                           Forall (fun f => FieldStmt_ok f = true) (pair_fields key (i :: b))) ->
               (forallb is_entry_item (i :: l) = true /\
                Forall (fun f => FieldStmt_ok f = true) (pair_fields key (i :: l))) \/
               exists body closer rest,
                 i :: l = body ++ closer :: rest /\ T closer = ItemRightDelim /\
                 forallb is_entry_item body = true /\
                 Forall (fun f => FieldStmt_ok f = true) (pair_fields key body) /\
                 accepted PTop rest = true).
    { intros key' Hph' Hk' Hit Hpf.
      destruct (IH ph' key' Ha Hl Hph' Hk') as [[F P] | (body & closer & rest & E & Tc & F & P & A)].
      - left. split; [simpl; rewrite Hit; exact F | eapply Hpf; [exact P | reflexivity]].
      - right. exists (i :: body), closer, rest. rewrite E.
        split; [reflexivity|]. split; [exact Tc|].
        split; [simpl; rewrite Hit; exact F|].
        split; [eapply Hpf; [exact P | reflexivity] | exact A]. }
    unfold token_ok in Hi.
    destruct Hph as [-> | [-> | [-> | [-> | ->]]]];
      destruct (T i) eqn:Ti; simpl in D; try discriminate D; injection D as <-.
    + (* PKeyComma, a comma *)
      apply (Step key);
        [auto 6 | (intros E; destruct E as [E | E]; discriminate E) | (unfold is_entry_item; rewrite Ti; reflexivity) | intros fs Hfs b <-; simpl; rewrite Ti; exact Hfs].
    + (* PInner, the closing delimiter *)
      right. exists [], i, l. simpl. repeat split; auto.
    + (* PInner, a comment *)
      apply (Step key);
        [auto 6 | (intros E; destruct E as [E | E]; discriminate E) | (unfold is_entry_item; rewrite Ti; reflexivity) | intros fs Hfs b <-; simpl; rewrite Ti; exact Hfs].
    + (* PInner, a field type *)
      apply (Step (Val i));
        [auto 6 | intros _; apply (IsValidName_nonempty U); exact Hi | (unfold is_entry_item; rewrite Ti; reflexivity) | intros fs Hfs b <-; simpl; rewrite Ti; exact Hfs].
    + (* PEqSgn, the equals sign *)
      apply (Step key);
        [auto 6 | intros _; apply Hk; auto | (unfold is_entry_item; rewrite Ti; reflexivity) | intros fs Hfs b <-; simpl; rewrite Ti; exact Hfs].
    + (* PText, a field text *)
      apply (Step []);
        [auto 6 | (intros E; destruct E as [E | E]; discriminate E) | (unfold is_entry_item; rewrite Ti; reflexivity) |].
      intros fs Hfs b <-. simpl. rewrite Ti. constructor; [|exact Hfs].
      unfold FieldStmt_ok. simpl.
      assert (K : key <> []) by (apply Hk; auto).
      assert (V : Val i <> []).
      { destruct Hi as [Hi | Hi];
          [apply (isValidInt_nonempty U) | apply isProperQuoted_nonempty]; exact Hi. }
      destruct key; [congruence|]. destruct (Val i); [congruence | reflexivity].
    + (* PAfterText, the closing delimiter *)
      right. exists [], i, l. simpl. repeat split; auto.
    + (* PAfterText, a comma *)
      apply (Step key);
        [auto 6 | (intros E; destruct E as [E | E]; discriminate E) | (unfold is_entry_item; rewrite Ti; reflexivity) | intros fs Hfs b <-; simpl; rewrite Ti; exact Hfs].
    + (* PAfterText, a comment *)
      apply (Step key);
        [auto 6 | (intros E; destruct E as [E | E]; discriminate E) | (unfold is_entry_item; rewrite Ti; reflexivity) | intros fs Hfs b <-; simpl; rewrite Ti; exact Hfs].
    + (* PAfterText, a field type *)
      apply (Step (Val i));
        [auto 6 | intros _; apply (IsValidName_nonempty U); exact Hi | (unfold is_entry_item; rewrite Ti; reflexivity) | intros fs Hfs b <-; simpl; rewrite Ti; exact Hfs].
Qed.

(* The loop of entry on a body that ends before its closing delimiter. *)
Lemma entry_loop_runs_out toks : forall p d stmt,
  forallb is_entry_item toks = true ->
  Forall (fun f => FieldStmt_ok f = true) (pair_fields (Key stmt) toks) ->
  exists p', entry_loop p d stmt toks = (end_state (failing (scanner p)), p') /\
             nodes p' = nodes p /\ closed p' = closed p.
Proof.
  induction toks as [|i l IH]; intros p d stmt Hb Hf; simpl.
  - exists (with_currDecl (with_upcoming p []) (Some (NEntry d))). split; [|auto].
    unfold end_state. destruct (failing (scanner p)); reflexivity.
  - simpl in Hb. apply andb_true_iff in Hb as [Hi Hb]. unfold is_entry_item in Hi.
    simpl in Hf.
    destruct (T i) eqn:Ti; try discriminate Hi; simpl;
      try (first [ exact (IH _ _ _ Hb Hf)
                 | exact (IH _ _ {| Key := Val i; Value := Value stmt |} Hb Hf) ]).
    inversion Hf as [|? ? Hok Hf']; subst. rewrite Hok. simpl.
    exact (IH _ _ {| Key := []; Value := [] |} Hb Hf').
Qed.

(* The loop of entry on a body with its closing delimiter. *)
Lemma entry_loop_sends body : forall p d stmt closer rest,
  forallb is_entry_item body = true -> T closer = ItemRightDelim ->
  Forall (fun f => FieldStmt_ok f = true) (pair_fields (Key stmt) body) ->
  exists p' nd, entry_loop p d stmt (body ++ closer :: rest) = (Parse.null, p') /\
                nodes p' = nodes p ++ [nd].
Proof.
  induction body as [|i l IH]; intros p d stmt closer rest Hb Hc Hf; simpl.
  - rewrite Hc. simpl. eexists. eexists. split; reflexivity.
  - simpl in Hb. apply andb_true_iff in Hb as [Hi Hb]. unfold is_entry_item in Hi.
    simpl in Hf.
    destruct (T i) eqn:Ti; try discriminate Hi; simpl;
      try (first [ exact (IH _ _ _ _ _ Hb Hc Hf)
                 | exact (IH _ _ {| Key := Val i; Value := Value stmt |} _ _ Hb Hc Hf) ]).
    inversion Hf as [|? ? Hok Hf']; subst. rewrite Hok. simpl.
    exact (IH _ _ {| Key := []; Value := [] |} _ _ Hb Hc Hf').
Qed.

(* The loop of comms on items that follow the grammar. *)
Lemma comms_loop_grammar toks : forall ph p,
  accepted ph toks = true -> ph = PTop \/ ph = PDelim ->
  (Forall (fun i => T i = ItemComment) toks /\
   exists p', comms_loop p toks = (end_state (failing (scanner p)), p') /\
              nodes p' = nodes p /\ closed p' = closed p) \/
  (exists top ed r p',
     toks = top ++ ed :: r /\ Forall (fun i => T i = ItemComment) top /\
     T ed = ItemEntryDelim /\ accepted PType r = true /\
     comms_loop p toks = (Parse.decl, p') /\ upcoming (scanner p') = r /\
     nodes p' = nodes p /\ closed p' = closed p /\
     failing (scanner p') = failing (scanner p)).
Proof.
  induction toks as [|i l IH]; intros ph p Ha Hph.
  - left. split; [constructor|]. simpl.
    exists (with_upcoming p []). split; [|auto].
    unfold end_state. destruct (failing (scanner p)); reflexivity.
  - simpl in Ha. destruct (delta ph (T i)) as [ph'|] eqn:D; [|discriminate].
    destruct Hph as [-> | ->]; destruct (T i) eqn:Ti; simpl in D; try discriminate D;
      injection D as <-; simpl; rewrite Ti; simpl.
    + (* the entry delimiter *)
      right. exists [], i, l, (with_upcoming p l). simpl. repeat split; auto.
    + (* a comment *)
      destruct (IH PDelim (addComment p (Val i)) Ha (or_intror eq_refl))
        as [(Hc & p' & E & H1 & H2) | (top & ed & r & p' & E & Ht & Te & Hr & C & H1 & H2 & H3 & H4)].
      * left. split; [constructor; assumption|]. exists p'. auto.
      * right. exists (i :: top), ed, r, p'. subst l. simpl.
        repeat split; auto.
    + (* the entry delimiter after a comment *)
      right. exists [], i, l, (with_upcoming p l). simpl. repeat split; auto.
Qed.

(* Next on a parser that has just moved to err or eof. *)
Lemma PNext_end n q f :
  nodes q = [] -> closed q = false ->
  exists p', Parse.Next_fuel U (S n) (Parse.with_state q (end_state f)) = Some (None, false, p') /\
             Parse.cur_state p' = end_state f.
Proof.
  intros Hn Hc. rewrite PNext_step by (simpl; assumption).
  unfold Parse.step. cbn [Parse.cur_state Parse.with_state].
  destruct f; cbn [end_state Parse.states]; unfold Parser_err, Parser_eof;
    eexists; (split; [apply PNext_closed; simpl; auto | reflexivity]).
Qed.

(** On items that follow the grammar of the scanner and hold no keyword of
    an abbreviation or a preamble, a call of Next rejects nothing: it returns
    a declaration, or, when the items hold no closing delimiter, it reports
    the end with the parser in eof or err as the terminal item says. *)
Lemma Next_entries p n :
  Parse.cur_state p = Parse.null -> nodes p = [] -> closed p = false ->
  accepted PTop (upcoming (scanner p)) = true ->
  Forall (token_ok U) (upcoming (scanner p)) ->
  only_entries (upcoming (scanner p)) -> (5 <= n)%nat ->
  (no_closer (upcoming (scanner p)) /\
   exists p', Parse.Next_fuel U n p = Some (None, false, p') /\
              Parse.cur_state p' = end_state (failing (scanner p))) \/
  (exists nd p', Parse.Next_fuel U n p = Some (Some nd, true, p')).
Proof.
  intros Hs Hn Hc Ha Ht Ho Hle.
  destruct n as [|[|[|[|[|n]]]]]; try lia.
  (* null *)
  rewrite PNext_step by assumption.
  assert (E1 : Parse.step U p = Parse.with_state p Parse.comms)
    by (unfold Parse.step; rewrite Hs; reflexivity).
  rewrite E1.
  (* comms *)
  rewrite PNext_step by (simpl; assumption).
  unfold Parse.step. cbn [Parse.cur_state Parse.with_state Parse.states].
  unfold Parser_comms. cbn [scanner Parse.with_state].
  destruct (comms_loop_grammar (upcoming (scanner p)) PTop (Parse.with_state p comms) Ha
                               (or_introl eq_refl))
    as [(Hcm & p2 & C2 & N2 & K2) | (top & ed & r & p2 & E & Htop & Te & Hr & C2 & U2 & N2 & K2 & F2)];
    rewrite C2; simpl in N2, K2.
  { left. split.
    - eapply Forall_impl; [|exact Hcm]. intros i Hi. congruence.
    - apply PNext_end; congruence. }
  simpl in F2.
  assert (Ht' : Forall (token_ok U) r /\ only_entries r).
  { rewrite E in Ht, Ho. apply Forall_app in Ht as [_ Ht]. apply Forall_app in Ho as [_ Ho].
    inversion Ht; inversion Ho; subst. auto. }
  destruct Ht' as [Htr Hor].
  assert (Ntop : no_closer (top ++ [ed])).
  { apply Forall_app. split.
    - eapply Forall_impl; [|exact Htop]. intros i Hi. congruence.
    - constructor; [congruence | constructor]. }
  (* decl *)
  rewrite PNext_step by (simpl; congruence).
  unfold Parse.step. cbn [Parse.cur_state Parse.with_state Parse.states].
  unfold Parser_decl, Scannable_Next. cbn [scanner Parse.with_state]. rewrite U2.
  destruct r as [|kw r2].
  { left. split; [rewrite E; exact Ntop|].
    cbn [upcoming failing]. rewrite F2.
    destruct (failing (scanner p)); cbn [end_state terminal T Parse.checkErr];
      [apply (PNext_end _ _ true) | apply (PNext_end _ _ false)]; simpl;
        first [rewrite N2; exact Hn | rewrite K2; exact Hc]. }
  cbn [accepted] in Hr. destruct (delta PType (T kw)) as [ph'|] eqn:D; [|discriminate Hr].
  inversion Hor as [|? ? [Hka Hkp] Hor2]; subst.
  inversion Htr as [|? ? Hkok Htr2]; subst.
  assert (Tk : T kw = ItemEntry /\ ph' = POpen Scan.entry).
  { destruct (T kw); simpl in D; try discriminate D; try congruence.
    injection D as <-. auto. }
  destruct Tk as [Tk ->]. rewrite Tk. cbn [Parse.checkErr upcoming].
  (* entry *)
  rewrite PNext_step by (simpl; congruence).
  unfold Parse.step. cbn [Parse.cur_state Parse.with_state Parse.states].
  unfold Parser_entry, Scannable_Next.
  cbn [scanner currDecl Parse.with_state with_currDecl with_upcoming upcoming failing].
  rewrite F2.
  destruct r2 as [|dl r3].
  { left. split.
    - rewrite E. apply Forall_app. split.
      + eapply Forall_impl; [|exact Htop]. intros i Hi. congruence.
      + repeat constructor; congruence.
    - destruct (failing (scanner p)); cbn [end_state terminal T Parse.checkErr];
        [apply (PNext_end _ _ true) | apply (PNext_end _ _ false)]; simpl;
        first [rewrite N2; exact Hn | rewrite K2; exact Hc]. }
  cbn [accepted] in Hr. destruct (delta (POpen Scan.entry) (T dl)) as [ph'|] eqn:D2; [|discriminate Hr].
  assert (Td : T dl = ItemLeftDelim /\ ph' = PKey).
  { destruct (T dl); simpl in D2; try discriminate D2. injection D2 as <-. auto. }
  destruct Td as [Td ->]. rewrite Td. cbn [Parse.checkErr upcoming failing].
  inversion Htr2 as [|? ? _ Htr3]; subst.
  destruct r3 as [|ck r4].
  { left. split.
    - rewrite E. apply Forall_app. split.
      + eapply Forall_impl; [|exact Htop]. intros i Hi. congruence.
      + repeat constructor; congruence.
    - destruct (failing (scanner p)); cbn [end_state terminal T Parse.checkErr];
        [apply (PNext_end _ _ true) | apply (PNext_end _ _ false)]; simpl;
        first [rewrite N2; exact Hn | rewrite K2; exact Hc]. }
  cbn [accepted] in Hr. destruct (delta PKey (T ck)) as [ph'|] eqn:D3; [|discriminate Hr].
  assert (Tc : T ck = ItemCiteKey /\ ph' = PKeyComma).
  { destruct (T ck); simpl in D3; try discriminate D3. injection D3 as <-. auto. }
  destruct Tc as [Tc ->]. rewrite Tc. cbn [Parse.checkErr upcoming failing].
  inversion Htr3 as [|? ? _ Htr4]; subst.
  match goal with
  | |- context [entry_loop ?q ?d ?st r4] =>
      set (q0 := q); set (d0 := d)
  end.
  destruct (entry_body_grammar r4 PKeyComma [] Hr Htr4 (or_introl eq_refl))
    as [[Fb Pb] | (body & closer & rest & Er & Tcl & Fb & Pb & Ar)];
    [intros [X | X]; discriminate X | |].
  - (* the body ends before its closing delimiter *)
    destruct (entry_loop_runs_out r4 q0 d0 {| Key := []; Value := [] |} Fb Pb)
      as (p4 & L & N4 & K4).
    rewrite L. left. split.
    + rewrite E. apply Forall_app. split.
      * eapply Forall_impl; [|exact Htop]. intros i Hi. congruence.
      * constructor; [congruence|]. constructor; [congruence|].
        constructor; [congruence|]. constructor; [congruence|].
        apply entry_items_closer_free. exact Fb.
    + assert (Ef : failing (scanner q0) = failing (scanner p))
        by (subst q0; simpl; rewrite ?F2; reflexivity).
      rewrite Ef. subst q0. simpl in N4, K4.
      apply PNext_end; [rewrite N4, N2; exact Hn | rewrite K4, K2; exact Hc].
  - (* the body has its closing delimiter *)
    destruct (entry_loop_sends body q0 d0 {| Key := []; Value := [] |} closer rest Fb Tcl Pb)
      as (p4 & nd & L & Hnd).
    rewrite <- Er in L. rewrite L. right.
    exists nd. eexists. apply PNext_node. subst q0. simpl in Hnd |- *.
    rewrite Hnd, N2, Hn. reflexivity.
Qed.

(* Where the declarations end that a parser returns. *)
Lemma drained_final p l p' :
  drained U p l p' ->
  (Parse.cur_state p' = Parse.err \/ Parse.cur_state p' = Parse.eof) /\
  (failing (scanner p) = true ->
   Forall (fun i => T i <> ItemEOF) (upcoming (scanner p)) ->
   Parse.cur_state p' = Parse.err).
Proof.
  induction 1 as [p p' (Hc & Hn & Hs & He) | p p1 nd l p' D Dr IH].
  - split; [exact Hs|]. intros Hf Hno.
    destruct Hs as [Hs | Hs]; [exact Hs|].
    destruct (He Hs) as [F | Ex]; [congruence|].
    apply Exists_exists in Ex as (i & Hi & Ti).
    rewrite Forall_forall in Hno. elim (Hno i Hi Ti).
  - destruct IH as [IH1 IH2]. split; [exact IH1|]. intros Hf Hno.
    destruct D as (top & ed & kw & dl & body & closer & E & D).
    assert (F1 : failing (scanner p1) = failing (scanner p)) by tauto.
    apply IH2; [congruence|].
    rewrite E in Hno. apply Forall_app in Hno as [_ Hno].
    inversion Hno as [|? ? _ Hno1]; subst. inversion Hno1 as [|? ? _ Hno2]; subst.
    inversion Hno2 as [|? ? _ Hno3]; subst. apply Forall_app in Hno3 as [_ Hno3].
    inversion Hno3; assumption.
Qed.

(* The chunks of the declarations returned end before an open body. *)
Lemma chunks_before_open_body chunks : forall nodes leftover l1 open,
  Forall2 (attached U) chunks nodes ->
  l1 ++ open = List.concat chunks ++ leftover -> no_closer open ->
  exists mid, l1 = List.concat chunks ++ mid.
Proof.
  induction chunks as [|c chunks IH]; intros nodes leftover l1 open F E Hno.
  - exists l1. reflexivity.
  - inversion F as [|? nd ? nodes' A F']; subst.
    destruct (attached_ends U _ _ A) as (a & closer & -> & Tc).
    simpl in E. rewrite <- !app_assoc in E. simpl in E.
    assert (P : exists l1', l1 = a ++ closer :: l1').
    { clear - E Tc Hno. revert l1 E.
      induction a as [|x a IHa]; intros l1 E; simpl in E.
      - destruct l1 as [|y l1].
        + simpl in E. subst open. inversion Hno as [|? ? Hx _]; subst. congruence.
        + simpl in E. injection E as -> E. exists l1. reflexivity.
      - destruct l1 as [|y l1].
        + simpl in E. subst open. exfalso.
          inversion Hno as [|? ? _ Hno']; subst.
          apply Forall_app in Hno' as [_ Hno']. inversion Hno'; subst. congruence.
        + simpl in E. injection E as -> E. destruct (IHa _ E) as (l1' & ->).
          exists l1'. reflexivity. }
    destruct P as (l1' & ->).
    rewrite <- app_assoc in E. simpl in E. apply app_inv_head in E.
    injection E as E.
    destruct (IH _ _ _ _ F' E Hno) as (mid & ->).
    exists mid. simpl. rewrite <- !app_assoc. reflexivity.
Qed.

(* Inside a body, the items hold an opening delimiter with no body delimiter
   after it. *)
Lemma open_body_phase l : forall ph0 ph,
  after ph0 l = Some ph -> in_body ph = true ->
  (in_body ph0 = true /\ Forall no_delim l) \/
  exists l1 ld l2, l = l1 ++ ld :: l2 /\ T ld = ItemLeftDelim /\ Forall no_delim l2.
Proof.
  induction l as [|i l IH]; intros ph0 ph H Hb; simpl in H.
  - injection H as <-. left. split; [exact Hb | constructor].
  - destruct (delta ph0 (T i)) as [ph1|] eqn:D; [|discriminate].
    destruct (IH _ _ H Hb) as [[B1 F] | (l1 & ld & l2 & E & Tl & F)].
    + destruct (T i) eqn:Ti;
        try (left; split;
             [destruct ph0 as [| | |[]| | | | | | |]; simpl in D; try discriminate D;
              try (injection D as <-; discriminate B1); reflexivity
             |constructor; [split; congruence | exact F]]).
      * right. exists [], i, l. auto.
      * exfalso. destruct ph0 as [| | |[]| | | | | | |]; simpl in D; try discriminate D;
          injection D as <-; discriminate B1.
    + right. exists (i :: l1), ld, l2. rewrite E. auto.
Qed.

Lemma opener_after_kept l : forall d,
  Forall (fun i => T i <> ItemLeftDelim) l -> opener_after d l = d.
Proof.
  induction l as [|i l IH]; intros d H; simpl; [reflexivity|].
  inversion H as [|? ? Hi Hl]; subst. destruct (T i); try congruence; apply IH; exact Hl.
Qed.

(* Every opening-delimiter item received holds one rune. *)
Lemma reached_openers r l s :
  reached U r l s -> Forall (fun i => T i = ItemLeftDelim -> exists o, Val i = [o]) l.
Proof.
  induction 1 as [| l s R IH Hq | l s i R IH Hq]; [constructor | exact IH |].
  apply Forall_app. split; [exact IH|]. constructor; [|constructor].
  intros Ti. pose proof (reached_items _ _ _ _ R) as Hi.
  destruct (step_delim U s Hi) as [[Kq Kd] | (j & Kq & Kd)].
  - rewrite Kq in Hq. discriminate Hq.
  - rewrite Kq in Hq. injection Hq as <-. rewrite Ti in Kd. eauto.
Qed.

(* The items received when the scanner is inside a body: the opening
   delimiter of that body, whose rune the scanner holds, and no body
   delimiter after it. *)
Lemma open_body_items r l s :
  reached U r l s -> bracers s = 1 -> scan_sink (Scan.cur_state s) = false ->
  exists l1 ld l2,
    l = l1 ++ ld :: l2 /\ T ld = ItemLeftDelim /\ Val ld = [delim s] /\
    Forall no_delim l2.
Proof.
  intros R Hb Hs.
  destruct (reached_phase U _ _ _ R Hs) as (ph & A & S).
  pose proof (reachable_depth U s (reached_reachable U _ _ _ R)) as Dp.
  assert (B : in_body ph = true).
  { destruct (Scan.cur_state s); simpl in Dp, Hs; try discriminate Hs; try lia;
      destruct ph as [| | |[]| | | | | | |]; simpl in S; try discriminate S; reflexivity. }
  destruct (open_body_phase l PTop ph A B) as [[X _] | (l1 & ld & l2 & E & Tl & F)];
    [discriminate X|].
  exists l1, ld, l2. split; [exact E|]. split; [exact Tl|]. split; [|exact F].
  pose proof (reached_openers _ _ _ R) as O. rewrite E in O.
  apply Forall_app in O as [_ O]. inversion O as [|? ? Ho _]; subst.
  destruct (Ho Tl) as (o & Ev). rewrite Ev. f_equal.
  rewrite (reached_delim U _ _ _ R), opener_after_app. simpl. rewrite Tl, Ev. simpl.
  symmetry. apply opener_after_kept.
  eapply Forall_impl; [|exact F]. intros i [Hi _]. exact Hi.
Qed.

(** *** A parser that ends in eof has returned every closed declaration *)

Ltac loop_eof IH H :=
  match type of H with
  | (if ?b then _ else _) = _ => destruct b; [discriminate H|]
  | _ => idtac
  end;
  first [ discriminate H | eapply IH; eassumption ].

Lemma entry_loop_eof toks : forall p d stmt p',
  entry_loop p d stmt toks = (Parse.eof, p') -> Forall (token_ok U) toks -> no_closer toks.
Proof.
  induction toks as [|i l IH]; intros p d stmt p' H Ht; [constructor|].
  inversion Ht as [|? ? Hi Hl]; subst. unfold token_ok in Hi. simpl in H.
  destruct (T i) eqn:Ti; simpl in H; try contradiction; try discriminate H;
    (constructor; [congruence|]); loop_eof IH H.
Qed.

Lemma preamble_loop_eof toks : forall p d p',
  preamble_loop p d toks = (Parse.eof, p') -> Forall (token_ok U) toks -> no_closer toks.
Proof.
  induction toks as [|i l IH]; intros p d p' H Ht; [constructor|].
  inversion Ht as [|? ? Hi Hl]; subst. unfold token_ok in Hi. simpl in H.
  destruct (T i) eqn:Ti; simpl in H; try contradiction; try discriminate H;
    (constructor; [congruence|]); loop_eof IH H.
Qed.

Lemma abbrev_loop_eof toks : forall p d stmt a p',
  abbrev_loop p d stmt a toks = (Parse.eof, p') -> Forall (token_ok U) toks ->
  no_closer toks.
Proof.
  induction toks as [|i l IH]; intros p d stmt a p' H Ht; [constructor|].
  inversion Ht as [|? ? Hi Hl]; subst. unfold token_ok in Hi. simpl in H.
  destruct (T i) eqn:Ti; simpl in H; try contradiction; try discriminate H;
    (constructor; [congruence|]); loop_eof IH H.
Qed.

Lemma comms_loop_eof toks : forall p p',
  comms_loop p toks = (Parse.eof, p') -> Forall (token_ok U) toks -> no_closer toks.
Proof.
  induction toks as [|i l IH]; intros p p' H Ht; [constructor|].
  inversion Ht as [|? ? Hi Hl]; subst. unfold token_ok in Hi. simpl in H.
  destruct (T i) eqn:Ti; simpl in H; try contradiction; try discriminate H;
    (constructor; [congruence|]); loop_eof IH H.
Qed.

(* The state functions of the bodies: ending in eof, they pulled the item
   at the place of the opening delimiter and then no closing delimiter. *)
Lemma Parser_entry_eof p p' :
  Parser_entry p = (Parse.eof, p') -> Forall (token_ok U) (upcoming (scanner p)) ->
  no_closer (tl (upcoming (scanner p))).
Proof.
  unfold Parser_entry, Scannable_Next. intros H Ht.
  destruct (currDecl p) as [[d| | |]|]; try discriminate H.
  destruct (upcoming (scanner p)) as [|dl [|ck r]]; simpl tl; try (constructor; fail).
  inversion Ht as [|? ? Hd Ht1]; subst. inversion Ht1 as [|? ? Hk Ht2]; subst.
  unfold token_ok in Hd, Hk. cbn [upcoming failing scanner with_upcoming] in H.
  destruct (T dl) eqn:Td; try contradiction; cbn [Parse.checkErr] in H;
    cbn [upcoming failing scanner with_upcoming] in H;
    (destruct (T ck) eqn:Tk; try contradiction; cbn [Parse.checkErr] in H;
     try discriminate H;
     constructor; [congruence | eapply entry_loop_eof; eassumption]).
Qed.

Lemma Parser_preamble_eof p p' :
  Parser_preamble p = (Parse.eof, p') -> Forall (token_ok U) (upcoming (scanner p)) ->
  no_closer (tl (upcoming (scanner p))).
Proof.
  unfold Parser_preamble, Scannable_Next. intros H Ht.
  destruct (currDecl p) as [[| |d|]|]; try discriminate H.
  destruct (upcoming (scanner p)) as [|dl r]; [constructor|].
  inversion Ht as [|? ? Hd Ht1]; subst. unfold token_ok in Hd.
  cbn [upcoming failing scanner with_upcoming] in H. simpl tl.
  destruct (T dl) eqn:Td; try contradiction; cbn [Parse.checkErr] in H;
    eapply preamble_loop_eof; eassumption.
Qed.

Lemma Parser_abbrev_eof p p' :
  Parser_abbrev p = (Parse.eof, p') -> Forall (token_ok U) (upcoming (scanner p)) ->
  no_closer (tl (upcoming (scanner p))).
Proof.
  unfold Parser_abbrev, Scannable_Next. intros H Ht.
  destruct (currDecl p) as [[|d| |]|]; try discriminate H.
  destruct (upcoming (scanner p)) as [|dl r]; [constructor|].
  inversion Ht as [|? ? Hd Ht1]; subst. unfold token_ok in Hd.
  cbn [upcoming failing scanner with_upcoming] in H. simpl tl.
  destruct (T dl) eqn:Td; try contradiction; cbn [Parse.checkErr] in H;
    eapply abbrev_loop_eof; eassumption.
Qed.

Lemma Parser_decl_eof p p' :
  Parser_decl U p = (Parse.eof, p') -> Forall (token_ok U) (upcoming (scanner p)) ->
  upcoming (scanner p) = [].
Proof.
  unfold Parser_decl, Scannable_Next. intros H Ht.
  destruct (upcoming (scanner p)) as [|kw r]; [reflexivity|].
  inversion Ht as [|? ? Hk _]; subst. unfold token_ok in Hk.
  cbn [upcoming failing scanner with_upcoming] in H.
  destruct (T kw) eqn:Tk; try contradiction; cbn [Parse.checkErr] in H; discriminate H.
Qed.

(* Next after a state function that stopped: the parser is left in the state
   that function returned. *)
Lemma PNext_stopped q toks st q' n p' :
  stopped q toks st q' -> nodes q = [] -> closed q = false ->
  Parse.Next_fuel U (S n) (Parse.with_state q' st) = Some (None, false, p') ->
  Parse.cur_state p' = st.
Proof.
  intros (Hs & Hn & Hc & _) Nq Cq H.
  rewrite PNext_step in H by (simpl; congruence).
  rewrite PNext_closed in H by (destruct Hs as [-> | ->]; simpl; congruence).
  injection H as <-. destruct Hs as [-> | ->]; reflexivity.
Qed.

(** A call of Next that reports the end with the parser in eof has pulled
    all the items, and none of them is a closing delimiter. *)
Lemma Next_eof_no_closer p n p' :
  Parse.cur_state p = Parse.null -> nodes p = [] -> closed p = false ->
  accepted PTop (upcoming (scanner p)) = true ->
  Forall (token_ok U) (upcoming (scanner p)) ->
  Parse.Next_fuel U n p = Some (None, false, p') -> Parse.cur_state p' = Parse.eof ->
  no_closer (upcoming (scanner p)).
Proof.
  intros Hs Hn Hc Ha Ht H0 He.
  pose proof (PNext_mono U _ _ _ (n + 5) H0 (Nat.le_add_r _ _)) as H. clear H0.
  rewrite Nat.add_comm in H. cbn [Nat.add] in H.
  (* null *)
  rewrite PNext_step in H by assumption.
  assert (E1 : Parse.step U p = Parse.with_state p Parse.comms)
    by (unfold Parse.step; rewrite Hs; reflexivity).
  rewrite E1 in H.
  (* comms *)
  rewrite PNext_step in H by (simpl; assumption).
  unfold Parse.step in H. cbn [Parse.cur_state Parse.with_state Parse.states] in H.
  unfold Parser_comms in H.
  destruct (comms_loop (Parse.with_state p comms)
                       (upcoming (scanner (Parse.with_state p comms)))) as [st2 p2] eqn:C2.
  destruct (comms_loop_spec _ _ _ _ C2)
    as [(-> & top & ed & Et & Htop & Hed & Hcm & Hn2 & Hc2 & Hd2 & Hf2) | R].
  2: { pose proof (PNext_stopped _ _ _ _ _ _ R Hn Hc H) as K. rewrite He in K. subst st2.
       exact (comms_loop_eof _ _ _ C2 Ht). }
  simpl in Et, Hcm, Hn2, Hc2, Hf2.
  assert (Ntop : no_closer (top ++ [ed])).
  { apply Forall_app. split.
    - eapply Forall_impl; [|exact Htop]. intros i Hi. congruence.
    - constructor; [congruence | constructor]. }
  assert (Ht2 : Forall (token_ok U) (upcoming (scanner p2))).
  { rewrite Et in Ht. apply Forall_app in Ht as [_ Ht]. inversion Ht; assumption. }
  (* decl *)
  rewrite PNext_step in H by (simpl; congruence).
  unfold Parse.step in H. cbn [Parse.cur_state Parse.with_state Parse.states] in H.
  destruct (Parser_decl U (Parse.with_state p2 decl)) as [st3 p3] eqn:C3.
  destruct (Parser_decl_spec U _ _ _ C3) as [(kw & toks & Ek & Ep3 & Hk) | R].
  2: { assert (K : Parse.cur_state p' = st3).
       { eapply PNext_stopped; [exact R | simpl; congruence | simpl; congruence | exact H]. }
       rewrite He in K. subst st3.
       pose proof (Parser_decl_eof _ _ C3 Ht2) as K. simpl in K.
       rewrite Et, K. exact Ntop. }
  simpl in Ek.
  assert (N3 : nodes p3 = []) by (rewrite Ep3; simpl; congruence).
  assert (K3 : closed p3 = false) by (rewrite Ep3; simpl; congruence).
  assert (U3 : upcoming (scanner p3) = toks) by (rewrite Ep3; reflexivity).
  assert (Ht3 : Forall (token_ok U) toks).
  { rewrite Ek in Ht2. inversion Ht2; assumption. }
  assert (Eall : upcoming (scanner p) = top ++ ed :: kw :: toks)
    by (rewrite Et, Ek; reflexivity).
  assert (Hdl : no_closer (tl toks) -> no_closer (upcoming (scanner p))).
  { intros Hno. rewrite Eall. apply Forall_app. split.
    - eapply Forall_impl; [|exact Htop]. intros i Hi. congruence.
    - constructor; [congruence|]. constructor.
      + destruct Hk as [(_ & Tk & _) | [(_ & Tk & _) | (_ & Tk & _)]]; congruence.
      + destruct toks as [|dl rest]; [constructor|]. constructor; [|exact Hno].
        rewrite Eall in Ha.
        destruct (chunk_phase top ed kw dl rest Htop Hed Ha) as (e & _ & Tdl & _).
        congruence. }
  apply Hdl.
  (* the body *)
  rewrite PNext_step in H by (simpl; assumption).
  unfold Parse.step in H. cbn [Parse.cur_state Parse.with_state Parse.states] in H.
  destruct Hk as [(-> & Tk & D3) | [(-> & Tk & D3) | (-> & Tk & D3)]];
    cbn [Parse.states] in H.
  - destruct (Parser_entry (Parse.with_state p3 entry)) as [st4 p4] eqn:C4.
    destruct (Parser_entry_spec (Parse.with_state p3 entry) _ _ _ D3 C4)
      as [(-> & body & d' & fs & (dl & closer & _ & _ & _ & _ & _ & Hnd & _) & _) | R].
    + simpl in Hnd. rewrite N3 in Hnd. simpl in Hnd.
      rewrite (PNext_node U _ (Parse.with_state p4 Parse.null) _ [] Hnd) in H. discriminate H.
    + assert (K : Parse.cur_state p' = st4).
      { eapply PNext_stopped; [exact R | simpl; congruence | simpl; congruence | exact H]. }
      rewrite He in K. subst st4. rewrite <- U3.
      apply (Parser_entry_eof _ _ C4). simpl. rewrite U3. exact Ht3.
  - destruct (Parser_abbrev (Parse.with_state p3 abbrev)) as [st4 p4] eqn:C4.
    destruct (Parser_abbrev_spec (Parse.with_state p3 abbrev) _ _ _ D3 C4)
      as [(-> & body & d' & (dl & closer & _ & _ & _ & _ & _ & Hnd & _) & _) | R].
    + simpl in Hnd. rewrite N3 in Hnd. simpl in Hnd.
      rewrite (PNext_node U _ (Parse.with_state p4 Parse.null) _ [] Hnd) in H. discriminate H.
    + assert (K : Parse.cur_state p' = st4).
      { eapply PNext_stopped; [exact R | simpl; congruence | simpl; congruence | exact H]. }
      rewrite He in K. subst st4. rewrite <- U3.
      apply (Parser_abbrev_eof _ _ C4). simpl. rewrite U3. exact Ht3.
  - destruct (Parser_preamble (Parse.with_state p3 preamble)) as [st4 p4] eqn:C4.
    destruct (Parser_preamble_spec (Parse.with_state p3 preamble) _ _ _ D3 C4)
      as [(-> & body & d' & (dl & closer & _ & _ & _ & _ & _ & Hnd & _) & _) | R].
    + simpl in Hnd. rewrite N3 in Hnd. simpl in Hnd.
      rewrite (PNext_node U _ (Parse.with_state p4 Parse.null) _ [] Hnd) in H. discriminate H.
    + assert (K : Parse.cur_state p' = st4).
      { eapply PNext_stopped; [exact R | simpl; congruence | simpl; congruence | exact H]. }
      rewrite He in K. subst st4. rewrite <- U3.
      apply (Parser_preamble_eof _ _ C4). simpl. rewrite U3. exact Ht3.
Qed.

(* The declarations of a run of the parser on items of the scanner, with the
   items they were parsed from and those left over. *)
Lemma drain_live n : forall p l p',
  Parse.cur_state p = Parse.null -> nodes p = [] -> closed p = false ->
  comments p = {| Values := [] |} ->
  accepted PTop (upcoming (scanner p)) = true ->
  Forall (token_ok U) (upcoming (scanner p)) ->
  drain_fuel U n p = Some (l, p') ->
  exists chunks leftover,
    upcoming (scanner p) = List.concat chunks ++ leftover /\
    Forall2 (parsed_from U) chunks l /\
    (Parse.cur_state p' = Parse.eof -> no_closer leftover) /\
    (only_entries (upcoming (scanner p)) ->
     no_closer leftover /\ Parse.cur_state p' = end_state (failing (scanner p))).
Proof.
  induction n as [|n IH]; intros p l p' Hs Hn Hc Hm Ha Ht H; [discriminate|].
  simpl in H. destruct (Parse.Next_fuel U n p) as [[[nd ok] p1]|] eqn:N; [|discriminate].
  destruct (Next_declared U _ _ _ _ _ Hs Hn Hc N) as [(-> & x & -> & D) | (-> & ->)].
  - destruct (drain_fuel U n p1) as [[l1 p2]|] eqn:R; [|discriminate].
    injection H as <- <-.
    destruct (Next_built U p n x p1 Hs Hn Hc N) as [B Ok].
    destruct D as (top & ed & kw & dl & body & closer & E & Htop & He & Hd & Hcl & Hnc & Hcm
                   & Hv & Hk & Hn1 & Hc1 & Hm1 & Hs1 & Hf1).
    assert (E' : upcoming (scanner p)
                 = ((top ++ ed :: kw :: dl :: body) ++ [closer]) ++ upcoming (scanner p1)).
    { rewrite E, <- !app_assoc. simpl. rewrite <- ?app_assoc. reflexivity. }
    assert (Ha1 : accepted PTop (upcoming (scanner p1)) = true).
    { rewrite E' in Ha. destruct (accepted_app _ _ _ Ha) as (ph' & A1 & A2).
      rewrite (after_closer _ _ _ _ Hcl A1) in A2. exact A2. }
    assert (Ht1 : Forall (token_ok U) (upcoming (scanner p1))).
    { rewrite E' in Ht. apply Forall_app in Ht as [_ Ht1]. exact Ht1. }
    destruct (IH p1 l1 p2 Hs1 Hn1 Hc1 Hm1 Ha1 Ht1 R) as (chunks & leftover & E1 & F & Le & Lo).
    exists ((top ++ ed :: kw :: dl :: body ++ [closer]) :: chunks), leftover.
    split; [|split; [|split]].
    + rewrite E, E1. simpl. rewrite <- !app_assoc. simpl. rewrite <- !app_assoc. reflexivity.
    + constructor; [|exact F]. split; [|split; [|exact Ok]].
      * exists top, ed, kw, dl, body, closer. rewrite Hm in Hcm. simpl in Hcm.
        repeat split; auto.
      * rewrite E in B. eapply built_from_chunk; eassumption.
    + exact Le.
    + intros Ho. rewrite E' in Ho. apply Forall_app in Ho as [_ Ho1].
      destruct (Lo Ho1) as [L1 L2]. split; [exact L1|]. rewrite L2, Hf1. reflexivity.
  - injection H as <- <-.
    exists [], (upcoming (scanner p)). split; [reflexivity|]. split; [constructor|]. split.
    + intros Ee. exact (Next_eof_no_closer p n p1 Hs Hn Hc Ha Ht N Ee).
    + intros Ho.
      pose proof (PNext_mono U _ _ _ (Nat.max n 5) N (Nat.le_max_l _ _)) as N'.
      destruct (Next_entries p (Nat.max n 5) Hs Hn Hc Ha Ht Ho (Nat.le_max_r _ _))
        as [(Hno & q & Nq & Sq) | (nd & q & Nq)]; rewrite Nq in N'; [|discriminate N'].
      injection N' as <-. auto.
Qed.

(* The pipeline: the declarations, the items they were parsed from and the
   items left over. *)
Lemma pipeline_live (r : Reader) n l st :
  pipeline_fuel U n r = Some (l, st) ->
  exists sc chunks leftover,
    run_fuel U n (NewScanner r) = Some sc /\
    upcoming sc = List.concat chunks ++ leftover /\
    Forall2 (parsed_from U) chunks l /\
    (st = Parse.eof -> no_closer leftover) /\
    (only_entries (upcoming sc) -> no_closer leftover /\ st = end_state (failing sc)).
Proof.
  intros H. unfold pipeline_fuel in H.
  destruct (run_fuel U n (NewScanner r)) as [sc|] eqn:R; [|discriminate].
  destruct (drain_fuel U n (NewParser sc)) as [[l' p']|] eqn:D; [|discriminate].
  injection H as <- <-.
  destruct (run_fuel_ok U n (NewScanner r) sc eq_refl R) as [Tok _].
  pose proof (run_accepted U n (NewScanner r) PTop sc eq_refl eq_refl R) as Acc.
  destruct (drain_live n (NewParser sc) _ _ eq_refl eq_refl eq_refl eq_refl Acc Tok D)
    as (chunks & leftover & E & F & Le & Lo).
  exists sc, chunks, leftover. auto.
Qed.

(* The run and the pipeline on an input, from the items received and the
   run of the scanner reached. *)
Lemma pipeline_reached (r : Reader) l s m sc' :
  reached U r l s -> Forall (fun i => is_terminal i = false) l ->
  run_fuel U m s = Some sc' ->
  run_fuel U (enough r) (NewScanner r)
  = Some {| upcoming := l ++ upcoming sc'; failing := failing sc' |} /\
  exists nodes st chunks leftover,
    pipeline U r = Some (nodes, st) /\
    l ++ upcoming sc' = List.concat chunks ++ leftover /\
    Forall2 (attached U) chunks nodes /\
    (st = Parse.err \/ st = Parse.eof) /\
    (failing sc' = true -> st = Parse.err) /\
    (only_entries (l ++ upcoming sc') -> st = end_state (failing sc')).
Proof.
  intros R Hl Rn.
  destruct (reached_run U _ _ _ R Hl m sc' Rn) as (N & E).
  destruct (pipeline_total U r) as (sc & nodes & p & R0 & D & Dr & P).
  pose proof (run_fuel_unique U _ _ _ _ _ R0 E) as ->.
  split; [exact R0|].
  destruct (drained_chunks U _ _ _ Dr eq_refl) as (chunks & leftover & Ec & F).
  destruct (drained_final _ _ _ Dr) as [S1 S2]. simpl in Ec, S2.
  exists nodes, (Parse.cur_state p), chunks, leftover.
  split; [exact P|]. split; [exact Ec|]. split; [exact F|]. split; [exact S1|].
  split.
  - intros Hf. apply S2; [exact Hf|].
    destruct (run_fuel_ok U _ (NewScanner r) _ eq_refl R0) as [Tok _]. simpl in Tok.
    eapply Forall_impl; [|exact Tok]. intros i Hi Ti. unfold token_ok in Hi.
    rewrite Ti in Hi. exact Hi.
  - intros Ho.
    destruct (pipeline_live r (enough r) nodes (Parse.cur_state p) P)
      as (sc0 & chunks0 & leftover0 & R1 & _ & _ & _ & Lo).
    pose proof (run_fuel_unique U _ _ _ _ _ R1 R0) as E0. subst sc0.
    exact (proj2 (Lo Ho)).
Qed.

End Live.

(** ** The state functions on the text of a declaration *)

Section Steps.
Variable U : Unicode.
Import Scan.

(* The scanner of a fact [reached]. *)
Ltac from R k := match type of R with reached _ _ _ ?s => k s end.

Lemma reached_step_quiet r l s s' :
  reached U r l s -> step U s = s' -> items s' = [] -> reached U r l s'.
Proof. intros R <- Hq. apply reached_quiet; assumption. Qed.

Lemma reached_step_item r l s s' i :
  reached U r l s -> step U s = s' -> items s' = [i] ->
  reached U r (l ++ [i]) (with_items s' []).
Proof. intros R <- Hq. apply reached_item; assumption. Qed.

Lemma step_null s : cur_state s = null -> step U s = with_state s topLvlComment.
Proof. intros Hs. unfold step. rewrite Hs. reflexivity. Qed.

(* topLvlComment reads up to the first at sign and sends what it read,
   trimmed, unless that is empty. *)
Lemma step_topLvlComment s text rs :
  cur_state s = topLvlComment -> rest (reader s) = text ++ 64 :: rs ->
  Forall (fun x => x <> 64) text ->
  step U s
  = with_state (with_rest match TrimSpace U text with
                          | [] => s
                          | _ => send s {| T := ItemComment; Val := TrimSpace U text |}
                          end (64 :: rs)) entryDelim.
Proof.
  intros Hs Hr Ht. unfold step. rewrite Hs. cbn [states]. unfold Scanner_topLvlComment.
  rewrite Hr, (topLvlComment_reads U text s [] rs Ht). simpl. reflexivity.
Qed.

Lemma step_entryDelim s rs :
  cur_state s = entryDelim -> rest (reader s) = 64 :: rs ->
  step U s = with_state (with_rest (send s {| T := ItemEntryDelim; Val := [64] |}) rs)
                        entryType.
Proof.
  intros Hs Hr. unfold step. rewrite Hs. cbn [states]. unfold Scanner_entryDelim.
  rewrite Hr. reflexivity.
Qed.

(* entryType on the name of an entry that is a NAME. *)
Lemma step_entryType s name o rs :
  cur_state s = entryType -> rest (reader s) = name ++ o :: rs ->
  Forall (fun x => is_opener x = false) name -> is_opener o = true ->
  IsValidName U (TrimSpace U name) = true ->
  gostring_eqb (ToLower U (TrimSpace U name)) (runes "preamble") = false ->
  gostring_eqb (ToLower U (TrimSpace U name)) (runes "string") = false ->
  step U s
  = with_state (with_rest (send (with_entryT s entry)
                                {| T := ItemEntry; Val := TrimSpace U name |}) (o :: rs))
               entryLeftBodyDelim.
Proof.
  intros Hs Hr Hn Ho Hv Hp Ha. unfold step. rewrite Hs. cbn [states].
  unfold Scanner_entryType. rewrite Hr, (entryType_reads U name s [] o rs Hn). simpl app.
  unfold is_opener in Ho. simpl. rewrite Ho, Hp, Ha, Hv. reflexivity.
Qed.

(* entryType on a name that is not a NAME. *)
Lemma step_entryType_invalid s name o rs :
  cur_state s = entryType -> rest (reader s) = name ++ o :: rs ->
  Forall (fun x => is_opener x = false) name -> is_opener o = true ->
  IsValidName U (TrimSpace U name) = false ->
  cur_state (step U s) = err /\ items (step U s) = items s.
Proof.
  intros Hs Hr Hn Ho Hv. unfold step. rewrite Hs. cbn [states].
  unfold Scanner_entryType. rewrite Hr, (entryType_reads U name s [] o rs Hn). simpl app.
  unfold is_opener in Ho. simpl. rewrite Ho, Hv. simpl.
  destruct (gostring_eqb _ _); [|destruct (gostring_eqb _ _)]; simpl; auto.
Qed.

Lemma step_leftBodyDelim s o rs :
  cur_state s = entryLeftBodyDelim -> rest (reader s) = o :: rs -> is_opener o = true ->
  cur_entryT s = entry ->
  step U s
  = with_state (with_rest (with_bracers (with_delim (send s {| T := ItemLeftDelim;
                                                               Val := [o] |}) o)
                                        (bracers s + 1)) rs)
               entryCiteKey.
Proof.
  intros Hs Hr Ho He. unfold step. rewrite Hs. cbn [states]. unfold Scanner_leftBodyDelim.
  rewrite Hr. unfold is_opener in Ho. simpl. rewrite Ho. simpl. rewrite He. reflexivity.
Qed.

Lemma step_citeKey s key rs :
  cur_state s = entryCiteKey -> rest (reader s) = key ++ 44 :: rs ->
  Forall (fun x => x <> 44) key -> IsValidName U (TrimSpace U key) = true ->
  step U s
  = with_state (with_rest (send s {| T := ItemCiteKey; Val := TrimSpace U key |}) (44 :: rs))
               entryComma.
Proof.
  intros Hs Hr Hk Hv. unfold step. rewrite Hs. cbn [states]. unfold Scanner_citeKey.
  rewrite Hr, (citeKey_reads U key s [] rs Hk). simpl. rewrite Hv. reflexivity.
Qed.

Lemma step_entryComma s rs :
  cur_state s = entryComma -> rest (reader s) = 44 :: rs ->
  step U s = with_state (with_rest (send s {| T := ItemComma; Val := [44] |}) rs)
                        entryTypeOrBrace.
Proof.
  intros Hs Hr. unfold step. rewrite Hs. cbn [states]. unfold Scanner_entryComma.
  rewrite Hr. reflexivity.
Qed.

(* entryTypeOrBrace skips to a closing delimiter and leaves it to
   rightBodyDelim. *)
Lemma typeOrBrace_skips ws : forall s c rs,
  Forall (fun x => stops_at U entryTypeOrBrace x = false) ws -> is_closer c = true ->
  entryTypeOrBrace_loop U s (ws ++ c :: rs) = (entryRightBodyDelim, with_rest s (c :: rs)).
Proof.
  induction ws as [|x ws IH]; intros s c rs Hw Hc; simpl.
  - unfold is_closer in Hc. rewrite Hc. reflexivity.
  - inversion Hw as [|? ? Hx Hw']; subst. unfold stops_at, is_closer in Hx.
    apply orb_false_iff in Hx as [Hx H3]. apply orb_false_iff in Hx as [H1 H2].
    rewrite H1, H2, H3. apply IH; assumption.
Qed.

Lemma step_typeOrBrace_closer s ws c rs :
  cur_state s = entryTypeOrBrace -> rest (reader s) = ws ++ c :: rs ->
  Forall (fun x => stops_at U entryTypeOrBrace x = false) ws -> is_closer c = true ->
  step U s = with_state (with_rest s (c :: rs)) entryRightBodyDelim.
Proof.
  intros Hs Hr Hw Hc. unfold step. rewrite Hs. cbn [states].
  unfold Scanner_entryTypeOrBrace. rewrite Hr, (typeOrBrace_skips ws s c rs Hw Hc).
  reflexivity.
Qed.

(* The states from which the scanner comes to look for the closing
   delimiter. *)
Lemma into_rightBodyDelim s :
  items s = [] -> cur_state (step U s) = entryRightBodyDelim ->
  cur_state s = entryTypeOrBrace \/ cur_state s = entryComment \/
  cur_state s = entryFieldText.
Proof.
  intros Hi H. destruct (step_edge U s Hi) as (k & E & _). rewrite H in E.
  destruct (cur_state s); auto; destruct k as [[]|]; simpl in E; discriminate E.
Qed.

(** An entry with a closing delimiter of the other flavor right after the
    comma that follows its cite key: the scanner comes to look for the
    closing delimiter, having sent the five items up to the comma. *)
Lemma mismatched_after_key (b : bool) (ty key ws rs : list rune) (o c : rune) :
  Forall (fun x => is_opener x = false) ty -> IsValidName U (TrimSpace U ty) = true ->
  gostring_eqb (ToLower U (TrimSpace U ty)) (runes "preamble") = false ->
  gostring_eqb (ToLower U (TrimSpace U ty)) (runes "string") = false ->
  is_opener o = true ->
  Forall (fun x => x <> 44) key -> IsValidName U (TrimSpace U key) = true ->
  Forall (fun x => stops_at U entryTypeOrBrace x = false) ws ->
  is_closer c = true ->
  exists s,
    reached U {| rest := 64 :: ty ++ o :: key ++ 44 :: ws ++ c :: rs; broken := b |}
            [ {| T := ItemEntryDelim; Val := [64] |};
              {| T := ItemEntry; Val := TrimSpace U ty |};
              {| T := ItemLeftDelim; Val := [o] |};
              {| T := ItemCiteKey; Val := TrimSpace U key |};
              {| T := ItemComma; Val := [44] |} ] s /\
    cur_state s = entryRightBodyDelim /\ rest (reader s) = c :: rs /\ delim s = o.
Proof.
  intros Hty Vty Np Ns Ho Hk Vk Hw Hc.
  set (r := {| rest := 64 :: ty ++ o :: key ++ 44 :: ws ++ c :: rs; broken := b |}).
  pose proof (reached_new U r) as R0.
  (* null, topLvlComment *)
  from R0 ltac:(fun s =>
    pose proof (reached_step_quiet r _ s _ R0 (step_null s eq_refl) eq_refl) as R1).
  from R1 ltac:(fun s =>
    pose proof (reached_step_quiet r _ s _ R1
                  (step_topLvlComment s [] _ eq_refl eq_refl (Forall_nil _)) eq_refl) as R2).
  (* entryDelim *)
  from R2 ltac:(fun s =>
    pose proof (reached_step_item r _ s _ _ R2 (step_entryDelim s _ eq_refl eq_refl)
                                  eq_refl) as R3).
  (* entryType *)
  from R3 ltac:(fun s =>
    pose proof (reached_step_item r _ s _ _ R3
                  (step_entryType s ty o _ eq_refl eq_refl Hty Ho Vty Np Ns) eq_refl) as R4).
  (* leftBodyDelim *)
  from R4 ltac:(fun s =>
    pose proof (reached_step_item r _ s _ _ R4
                  (step_leftBodyDelim s o _ eq_refl eq_refl Ho eq_refl) eq_refl) as R5).
  (* citeKey, entryComma *)
  from R5 ltac:(fun s =>
    pose proof (reached_step_item r _ s _ _ R5
                  (step_citeKey s key _ eq_refl eq_refl Hk Vk) eq_refl) as R6).
  from R6 ltac:(fun s =>
    pose proof (reached_step_item r _ s _ _ R6 (step_entryComma s _ eq_refl eq_refl)
                                  eq_refl) as R7).
  (* entryTypeOrBrace *)
  from R7 ltac:(fun s =>
    pose proof (reached_step_quiet r _ s _ R7
                  (step_typeOrBrace_closer s ws c rs eq_refl eq_refl Hw Hc) eq_refl) as R8).
  eexists. split; [exact R8|]. split; [reflexivity|]. split; reflexivity.
Qed.

(** A declaration, after text without an at sign, whose type name is not
    a NAME: the scanner is in its entry-type state before that name, having
    sent the text as a comment, if it is not blank, and the entry
    delimiter. *)
Lemma before_type_name (b : bool) (top rs : list rune) :
  Forall (fun x => x <> 64) top ->
  exists s,
    reached U {| rest := top ++ 64 :: rs; broken := b |}
            (match TrimSpace U top with
             | [] => []
             | _ => [ {| T := ItemComment; Val := TrimSpace U top |} ]
             end ++ [ {| T := ItemEntryDelim; Val := [64] |} ]) s /\
    cur_state s = entryType /\ rest (reader s) = rs.
Proof.
  intros Ht.
  set (r := {| rest := top ++ 64 :: rs; broken := b |}).
  pose proof (reached_new U r) as R0.
  from R0 ltac:(fun s =>
    pose proof (reached_step_quiet r _ s _ R0 (step_null s eq_refl) eq_refl) as R1).
  pose proof (step_topLvlComment (with_state (NewScanner r) topLvlComment) top rs
                                 eq_refl eq_refl Ht) as E2.
  destruct (TrimSpace U top) as [|x t] eqn:Tr.
  - pose proof (reached_step_quiet r _ _ _ R1 E2 eq_refl) as R2.
    from R2 ltac:(fun s =>
      pose proof (reached_step_item r _ s _ _ R2 (step_entryDelim s _ eq_refl eq_refl)
                                    eq_refl) as R3).
    eexists. split; [exact R3|]. split; reflexivity.
  - pose proof (reached_step_item r _ _ _ _ R1 E2 eq_refl) as R2.
    from R2 ltac:(fun s =>
      pose proof (reached_step_item r _ s _ _ R2 (step_entryDelim s _ eq_refl eq_refl)
                                    eq_refl) as R3).
    eexists. split; [exact R3|]. split; reflexivity.
Qed.

End Steps.

(** ** Whole inputs: mismatched delimiters, the end of the input, type names, comments *)

Section WholeInputs.
Variable U : Unicode.
Import Scan Parse.


(* No declaration is parsed from items without a closing delimiter. *)
Lemma attached_none chunks nodes mid l1 :
  Forall2 (attached U) chunks nodes -> l1 = List.concat chunks ++ mid -> no_closer l1 ->
  nodes = [].
Proof.
  intros F E Hno. destruct F as [|c nd chunks nodes A _]; [reflexivity|]. exfalso.
  destruct (attached_ends U _ _ A) as (a & closer & -> & Tc).
  rewrite E in Hno. simpl in Hno. rewrite <- !app_assoc in Hno.
  apply Forall_app in Hno as [_ Hno]. simpl in Hno.
  inversion Hno as [|? ? Hx _]; subst. congruence.
Qed.

(* The end of an input on which the scanner finds a closing delimiter of the
   other flavor. *)
Lemma mismatch_ends r l s pre c rs :
  reached U r l s -> Scan.cur_state s = entryRightBodyDelim ->
  rest (reader s) = pre ++ c :: rs ->
  Forall (fun x => is_closer x = false) pre ->
  other_flavor (delim s) c ->
  Scan.step U s = Scan.with_state (with_rest s rs) Scan.err /\
  run_fuel U (enough r) (NewScanner r) = Some {| upcoming := l; failing := true |} /\
  exists l1 ld l2 nodes chunks mid,
    l = l1 ++ ld :: l2 /\ T ld = ItemLeftDelim /\ Val ld = [delim s] /\
    Forall no_delim l2 /\
    pipeline U r = Some (nodes, Parse.err) /\
    l1 = List.concat chunks ++ mid /\ Forall2 (attached U) chunks nodes.
Proof.
  intros R Hs Hr Hp Ho.
  pose proof (reached_items U _ _ _ R) as Hi.
  destruct (mismatched_closer_is_error U s pre c rs 3 Hs Hi Hr Hp Ho (Nat.lt_succ_diag_r _))
    as (E & _ & Rn).
  split; [exact E|].
  assert (Sk : scan_sink (Scan.cur_state s) = false) by (rewrite Hs; reflexivity).
  pose proof (reached_proper U _ _ _ R Sk) as Hl.
  destruct (pipeline_reached U r l s _ _ R Hl Rn)
    as (R0 & nodes & st & chunks & leftover & P & Ec & F & _ & Hf & _).
  simpl in R0, Ec, Hf. rewrite app_nil_r in R0, Ec.
  split; [exact R0|].
  pose proof (reachable_depth U s (reached_reachable U _ _ _ R)) as Dp.
  rewrite Hs in Dp. simpl in Dp.
  destruct (open_body_items U r l s R Dp Sk) as (l1 & ld & l2 & El & Tl & Vl & Fl).
  assert (Hno : no_closer (ld :: l2)).
  { constructor; [congruence|]. eapply Forall_impl; [|exact Fl]. intros i [_ Hi2]. exact Hi2. }
  rewrite El in Ec.
  destruct (chunks_before_open_body U chunks nodes leftover l1 (ld :: l2) F Ec Hno)
    as (mid & Em).
  exists l1, ld, l2, nodes, chunks, mid. rewrite (Hf eq_refl) in P. auto 10.
Qed.

(* The end of an input on which the scanner finds a type name that is not a
   NAME. *)
Lemma invalid_type_ends r l s name o rs :
  reached U r l s -> Scan.cur_state s = entryType ->
  rest (reader s) = name ++ o :: rs ->
  Forall (fun x => is_opener x = false) name -> is_opener o = true ->
  IsValidName U (TrimSpace U name) = false ->
  Scan.cur_state (Scan.step U s) = Scan.err /\ items (Scan.step U s) = [] /\
  run_fuel U (enough r) (NewScanner r) = Some {| upcoming := l; failing := true |} /\
  exists nodes chunks leftover,
    pipeline U r = Some (nodes, Parse.err) /\
    l = List.concat chunks ++ leftover /\ Forall2 (attached U) chunks nodes.
Proof.
  intros R Hs Hr Hn Ho Hv.
  pose proof (reached_items U _ _ _ R) as Hi.
  destruct (step_entryType_invalid U s name o rs Hs Hr Hn Ho Hv) as [Es Eq].
  rewrite Hi in Eq. split; [exact Es|]. split; [exact Eq|].
  destruct (run_fuel_to_sink U 3 s true Hi (Nat.lt_succ_diag_r _) Eq
                             (or_intror (conj eq_refl Es))) as [Rn _].
  assert (Sk : scan_sink (Scan.cur_state s) = false) by (rewrite Hs; reflexivity).
  pose proof (reached_proper U _ _ _ R Sk) as Hl.
  destruct (pipeline_reached U r l s _ _ R Hl Rn)
    as (R0 & nodes & st & chunks & leftover & P & Ec & F & _ & Hf & _).
  simpl in R0, Ec, Hf. rewrite app_nil_r in R0, Ec.
  split; [exact R0|].
  exists nodes, chunks, leftover. rewrite (Hf eq_refl) in P. auto.
Qed.

(** C3, as the code has it. On every input on which the scanner comes to
    its right-body-delimiter state, which is where it looks for the closing
    delimiter of a body, and the first closing delimiter left in the input
    is of the other flavor than the opening delimiter of that body, the
    state function sends nothing and returns err: the items of the input are
    those received so far and they end with the error item. The last body
    delimiter among them is the opening delimiter of that body, with the rune
    the scanner holds; the parser ends in err, and the declarations it
    returns are parsed from items before that opening delimiter, so none is
    built from the body. The scanner comes to that state from
    entryTypeOrBrace, entryComment or entryFieldText only, that is after the
    comma that follows a cite key or a field value, after a comment or after
    a field value. So, every input that starts with an entry whose cite key
    and comma are followed, after runes that entryTypeOrBrace skips, by the
    closing delimiter of the other flavor has the five items up to the comma,
    ends with the error item, and gives no declaration, the parser in err. In
    the items of any input, every closing-delimiter item matches the latest
    opening-delimiter item. *)
Theorem mismatched_delimiters_yield_error :
  (forall r l s pre c rs,
      reached U r l s -> Scan.cur_state s = entryRightBodyDelim ->
      rest (reader s) = pre ++ c :: rs ->
      Forall (fun x => is_closer x = false) pre ->
      other_flavor (delim s) c ->
      Scan.step U s = Scan.with_state (with_rest s rs) Scan.err /\
      run_fuel U (enough r) (NewScanner r) = Some {| upcoming := l; failing := true |} /\
      exists l1 ld l2 nodes chunks mid,
        l = l1 ++ ld :: l2 /\ T ld = ItemLeftDelim /\ Val ld = [delim s] /\
        Forall no_delim l2 /\
        pipeline U r = Some (nodes, Parse.err) /\
        l1 = List.concat chunks ++ mid /\ Forall2 (attached U) chunks nodes) /\
  (forall s,
      items s = [] -> Scan.cur_state (Scan.step U s) = entryRightBodyDelim ->
      Scan.cur_state s = entryTypeOrBrace \/ Scan.cur_state s = entryComment \/
      Scan.cur_state s = entryFieldText) /\
  (forall (b : bool) (ty key ws rs : list rune) (o c : rune),
      Forall (fun x => is_opener x = false) ty -> IsValidName U (TrimSpace U ty) = true ->
      gostring_eqb (ToLower U (TrimSpace U ty)) (runes "preamble") = false ->
      gostring_eqb (ToLower U (TrimSpace U ty)) (runes "string") = false ->
      Forall (fun x => x <> 44) key -> IsValidName U (TrimSpace U key) = true ->
      Forall (fun x => stops_at U entryTypeOrBrace x = false) ws ->
      other_flavor o c ->
      let r := {| rest := 64 :: ty ++ o :: key ++ 44 :: ws ++ c :: rs; broken := b |} in
      run_fuel U (enough r) (NewScanner r)
      = Some {| upcoming := [ {| T := ItemEntryDelim; Val := [64] |};
                              {| T := ItemEntry; Val := TrimSpace U ty |};
                              {| T := ItemLeftDelim; Val := [o] |};
                              {| T := ItemCiteKey; Val := TrimSpace U key |};
                              {| T := ItemComma; Val := [44] |} ];
                failing := true |} /\
      pipeline U r = Some ([], Parse.err)) /\
  (forall r n sc,
      run_fuel U n (NewScanner r) = Some sc -> matched 0 (upcoming sc)).
Proof.
  split; [|split; [|split]].
  - exact mismatch_ends.
  - exact (into_rightBodyDelim U).
  - intros b ty key ws rs o c Hty Vty Np Ns Hk Vk Hw Hoc r.
    assert (Ho : is_opener o = true) by (destruct Hoc as [[-> _] | [-> _]]; reflexivity).
    destruct (other_flavor_mismatch _ _ Hoc) as [Hc _].
    destruct (mismatched_after_key U b ty key ws rs o c Hty Vty Np Ns Ho Hk Vk Hw Hc)
      as (s & R & Hs & Hr & Hd).
    fold r in R. rewrite <- Hd in Hoc.
    destruct (mismatch_ends r _ s [] c rs R Hs Hr (Forall_nil _) Hoc)
      as (_ & Rn & l1 & ld & l2 & nodes & chunks & mid & El & Tl & _ & Fl & P & Em & F).
    split; [exact Rn|].
    assert (Hno : no_closer l1).
    { assert (Hall : no_closer (l1 ++ ld :: l2)).
      { rewrite <- El. repeat constructor; simpl; discriminate. }
      apply Forall_app in Hall as [Hall _]. exact Hall. }
    rewrite (attached_none chunks nodes mid l1 F Em Hno) in P. exact P.
  - intros r n sc Rn. exact (run_matched U n (NewScanner r) sc eq_refl Rn).
Qed.

(** C4, as the code has it. Take an input that ends with io.EOF and a
    scanner reached on it whose state function reads the runes left up to
    the end of the input, as [reads_on] says. The scanner then sends nothing
    more, but for the comment that entryComment was reading, and moves to
    eof, not to err: the items of the input are those received, and that
    comment if any, and they end with the end-of-input item. When the
    scanner is inside a body, at nesting depth 1, the last body delimiter
    among the items is the opening delimiter of that body; the parser ends in
    eof or err, in eof when no keyword item is that of an abbreviation or a
    preamble; and the declarations it returns are parsed from items before
    that opening delimiter, so none is built from the open body. [reads_on]
    is exact: when it does not hold, the state function does not return
    eof. And these are all the inputs whose items end with the end-of-input
    item: the items of such an input are those received by a scanner reached
    on it whose state function reads on to the end, and what that function
    sent. *)
Theorem end_of_input_in_body_is_eof :
  (forall r l s,
      broken r = false -> reached U r l s -> reads_on U s = true ->
      Scan.cur_state (Scan.step U s) = Scan.eof /\
      (items (Scan.step U s) = [] \/
       (Scan.cur_state s = entryComment /\
        exists v, items (Scan.step U s) = [{| T := ItemComment; Val := v |}])) /\
      run_fuel U (enough r) (NewScanner r)
      = Some {| upcoming := l ++ items (Scan.step U s); failing := false |} /\
      (bracers s = 1 ->
       exists l1 ld l2 nodes st chunks mid,
         l = l1 ++ ld :: l2 /\ T ld = ItemLeftDelim /\ Forall no_delim l2 /\
         pipeline U r = Some (nodes, st) /\
         (st = Parse.eof \/ st = Parse.err) /\
         (only_entries l -> st = Parse.eof) /\
         l1 = List.concat chunks ++ mid /\ Forall2 (attached U) chunks nodes)) /\
  (forall s,
      Scan.cur_state s <> Scan.eof -> reads_on U s = false ->
      fst (Scan.states U (Scan.cur_state s) s) <> Scan.eof) /\
  (forall r n sc,
      run_fuel U n (NewScanner r) = Some sc -> failing sc = false ->
      exists l s,
        reached U r l s /\ reads_on U s = true /\
        upcoming sc = l ++ items (Scan.step U s)).
Proof.
  split; [|split].
  - intros r l s Hb R Hr.
    pose proof (reached_items U _ _ _ R) as Hi.
    assert (Hbs : broken (reader s) = false) by (rewrite (reached_broken U _ _ _ R); exact Hb).
    destruct (run_reads_on U s 4 Hi Hbs Hr (Nat.lt_succ_diag_r _)) as (Es & Ei & Rn).
    split; [exact Es|]. split; [exact Ei|].
    assert (Sk : scan_sink (Scan.cur_state s) = false).
    { unfold reads_on in Hr. destruct (Scan.cur_state s); try discriminate Hr; reflexivity. }
    pose proof (reached_proper U _ _ _ R Sk) as Hl.
    destruct (pipeline_reached U r l s _ _ R Hl Rn)
      as (R0 & nodes & st & chunks & leftover & P & Ec & F & Hst & _ & Ho).
    simpl in R0, Ec, Ho. split; [exact R0|].
    intros Hd.
    destruct (open_body_items U r l s R Hd Sk) as (l1 & ld & l2 & El & Tl & Vl & Fl).
    assert (Hlast : Forall (fun i => T i = ItemComment) (items (Scan.step U s))).
    { destruct Ei as [-> | (_ & v & ->)]; repeat constructor. }
    assert (Hno : no_closer (ld :: l2 ++ items (Scan.step U s))).
    { constructor; [congruence|]. apply Forall_app. split.
      - eapply Forall_impl; [|exact Fl]. intros i [_ Hi2]. exact Hi2.
      - eapply Forall_impl; [|exact Hlast]. intros i Ti. congruence. }
    rewrite El in Ec. rewrite <- app_assoc in Ec. simpl in Ec.
    destruct (chunks_before_open_body U chunks nodes leftover l1 _ F Ec Hno) as (mid & Em).
    exists l1, ld, l2, nodes, st, chunks, mid.
    split; [exact El|]. split; [exact Tl|]. split; [exact Fl|]. split; [exact P|].
    split; [tauto|]. split; [|auto].
    intros Hoe. apply Ho. apply Forall_app. split; [exact Hoe|].
    eapply Forall_impl; [|exact Hlast]. intros i Ti. split; congruence.
  - intros s He Hr. pose proof (reads_on_spec U s He) as K. rewrite Hr in K. exact K.
  - intros r n sc Rn Hf.
    exact (run_eof_reads_on U r n [] _ sc (reached_new U r) (Forall_nil _) Rn Hf).
Qed.

(** C5, as the code has it. Every EntryDecl the pipeline returns has a
    cite key that is a NAME, hence not empty, and a type name that is the
    lower-cased copy of a NAME: letters, digits and the punctuation of
    IsSpecial, not letters only. And the scanner rejects every other type
    name: on every input on which the scanner, in its entry-type state, finds
    before the first opening delimiter a text that, trimmed, is not a NAME,
    the state function sends nothing and returns err; the items of the input
    are those received so far and end with the error item, the parser ends
    in err, and the declarations it returns are parsed from those items. So,
    every input in which the first at sign is followed by such a text and an
    opening delimiter has for items the text before the at sign, as a
    comment, if it is not blank, and the entry delimiter; it ends with the
    error item and gives no declaration, the parser in err. *)
Theorem entry_has_key_and_NAME_type :
  (forall r n l st d,
      pipeline_fuel U n r = Some (l, st) -> In (NEntry d) l ->
      CiteKey d <> [] /\ IsValidName U (CiteKey d) = true /\
      exists nm, IsValidName U nm = true /\ Name d = ToLower U nm) /\
  (forall r l s name o rs,
      reached U r l s -> Scan.cur_state s = entryType ->
      rest (reader s) = name ++ o :: rs ->
      Forall (fun x => is_opener x = false) name -> is_opener o = true ->
      IsValidName U (TrimSpace U name) = false ->
      Scan.cur_state (Scan.step U s) = Scan.err /\ items (Scan.step U s) = [] /\
      run_fuel U (enough r) (NewScanner r) = Some {| upcoming := l; failing := true |} /\
      exists nodes chunks leftover,
        pipeline U r = Some (nodes, Parse.err) /\
        l = List.concat chunks ++ leftover /\ Forall2 (attached U) chunks nodes) /\
  (forall (b : bool) (top name rs : list rune) (o : rune),
      Forall (fun x => x <> 64) top ->
      Forall (fun x => is_opener x = false) name -> is_opener o = true ->
      IsValidName U (TrimSpace U name) = false ->
      let r := {| rest := top ++ 64 :: name ++ o :: rs; broken := b |} in
      run_fuel U (enough r) (NewScanner r)
      = Some {| upcoming := match TrimSpace U top with
                            | [] => []
                            | _ => [ {| T := ItemComment; Val := TrimSpace U top |} ]
                            end ++ [ {| T := ItemEntryDelim; Val := [64] |} ];
                failing := true |} /\
      pipeline U r = Some ([], Parse.err)).
Proof.
  split; [|split].
  - intros r n l st d H Hin.
    destruct (pipeline_chunks U _ _ _ _ H) as (sc & chunks & leftover & R & Hok & E & F).
    destruct (Forall2_In_r _ _ _ _ F Hin) as (chunk & Hc & A).
    destruct A as (top & ed & kw & dl & body & closer & Ec & _ & _ & _ & _ & _ & _ & _
                   & Tk & Hname & ck & body' & Eb & Tck & Hck).
    assert (Hsub : forall i, In i chunk -> token_ok U i).
    { intros i Hi. rewrite Forall_forall in Hok. apply Hok. rewrite E.
      apply in_or_app. left. apply in_concat. exists chunk. auto. }
    assert (Kw : token_ok U kw).
    { apply Hsub. rewrite Ec. apply in_or_app. right. right. now left. }
    assert (Ck : token_ok U ck).
    { apply Hsub. rewrite Ec, Eb. apply in_or_app. right. do 3 right. now left. }
    unfold token_ok in Kw, Ck. rewrite Tk in Kw. rewrite Tck in Ck.
    rewrite Hck. split; [|split; [exact Ck|]].
    + apply (IsValidName_nonempty U). exact Ck.
    + exists (Val kw). auto.
  - exact invalid_type_ends.
  - intros b top name rs o Htop Hn Ho Hv r.
    destruct (before_type_name U b top (name ++ o :: rs) Htop) as (s & R & Hs & Hr).
    fold r in R.
    destruct (invalid_type_ends r _ s name o rs R Hs Hr Hn Ho Hv)
      as (_ & _ & Rn & nodes & chunks & leftover & P & El & F).
    split; [exact Rn|].
    assert (Hno : no_closer (match TrimSpace U top with
                             | [] => []
                             | _ => [ {| T := ItemComment; Val := TrimSpace U top |} ]
                             end ++ [ {| T := ItemEntryDelim; Val := [64] |} ])).
    { destruct (TrimSpace U top); repeat constructor; simpl; discriminate. }
    rewrite (attached_none chunks nodes leftover _ F El Hno) in P. exact P.
Qed.

(** C6. Every declaration that Next returns was parsed, as [declared]
    says, from the comments before its entry delimiter and from its body:
    its comment group is the comments pending at the call followed by all
    those comments in the order they were pulled, its field values are texts
    of field-text items, and the parser is left with no pending comment. So,
    over the pipeline on any input, the items split into consecutive chunks,
    one per declaration returned, each declaration holding exactly the
    comments of its own chunk, followed by items left over; each chunk
    follows the grammar of the items of the scanner, in which comments stand
    before the entry delimiter and in the body only. And the declarations
    are returned: the pipeline returns on every input, and when the parser
    ends in eof, or when no keyword item is that of an abbreviation or a
    preamble, the items left over hold no closing delimiter, so that the
    chunks of the declarations returned reach up to the last closing
    delimiter among the items. *)
Theorem comments_attach_to_next_declaration :
  (forall p n nd p',
      Parse.cur_state p = Parse.null -> nodes p = [] -> closed p = false ->
      Parse.Next_fuel U n p = Some (Some nd, true, p') ->
      declared U p p' nd /\ comments p' = {| Values := [] |}) /\
  (forall r n l st,
      pipeline_fuel U n r = Some (l, st) ->
      exists sc chunks leftover,
        run_fuel U n (NewScanner r) = Some sc /\
        upcoming sc = List.concat chunks ++ leftover /\
        Forall2 (attached U) chunks l /\
        Forall (fun c => accepted PTop c = true) chunks /\
        (st = Parse.eof -> no_closer leftover) /\
        (only_entries (upcoming sc) -> no_closer leftover)) /\
  (forall r, exists l st, pipeline U r = Some (l, st)).
Proof.
  split; [|split].
  - intros p n nd p' Hs Hn Hc H.
    pose proof (PNext_mono U _ _ _ (Nat.max n 5) H (Nat.le_max_l _ _)) as H1.
    destruct (Parser_Next_spec U p (Nat.max n 5) Hs Hn Hc (Nat.le_max_r _ _))
      as [(nd0 & p0 & N & D) | (p0 & N & _)]; [|congruence].
    assert (E : nd0 = nd /\ p0 = p') by (split; congruence). destruct E as [-> ->].
    split; [exact D|].
    destruct D as (top & ed & kw & dl & body & closer & D). tauto.
  - intros r n l st H.
    destruct (pipeline_live U r n l st H) as (sc & chunks & leftover & R & E & F & Le & Lo).
    exists sc, chunks, leftover. split; [exact R|]. split; [exact E|]. split.
    + eapply Forall2_impl; [|exact F]. intros c nd (A & _). exact A.
    + split.
      * pose proof (run_accepted U n (NewScanner r) PTop sc eq_refl eq_refl R) as Acc.
        rewrite E in Acc. exact (chunks_accepted U chunks l leftover F Acc).
      * split; [exact Le|]. intros Ho. exact (proj1 (Lo Ho)).
  - intros r. destruct (pipeline_total U r) as (sc & l & p & _ & _ & _ & P). eauto.
Qed.

(** The loop of calls to Next ends on every scannable: with six turns more
    than the scannable has items, Next reports the end after the
    declarations, and more turns change nothing. The parser is then in err
    or eof with its channel closed and empty, in err when the scannable ends
    with the error item; every later call of Next reports the end again and
    leaves the parser as it is. *)
Theorem parser_end_is_final (sc : Scannable) :
  exists l p',
    drain_fuel U (List.length (upcoming sc) + 6) (NewParser sc) = Some (l, p') /\
    (forall n r, drain_fuel U n (NewParser sc) = Some r -> r = (l, p')) /\
    closed p' = true /\ nodes p' = [] /\
    (Parse.cur_state p' = Parse.err \/ Parse.cur_state p' = Parse.eof) /\
    (failing sc = true -> Forall (fun i => T i <> ItemEOF) (upcoming sc) ->
     Parse.cur_state p' = Parse.err) /\
    (forall m, Parse.Next_fuel U m p' = Some (None, false, p')).
Proof.
  destruct (drain_fuel_total U (List.length (upcoming sc) + 6) (NewParser sc))
    as (l & p' & D & Dr); try reflexivity; [simpl; lia|].
  exists l, p'. split; [exact D|]. split.
  - intros n r H.
    pose proof (drain_fuel_mono U _ _ _ (Nat.max n (List.length (upcoming sc) + 6)) H
                                (Nat.le_max_l _ _)) as H1.
    pose proof (drain_fuel_mono U _ _ _ (Nat.max n (List.length (upcoming sc) + 6)) D
                                (Nat.le_max_r _ _)) as H2.
    congruence.
  - destruct (drain_end U _ _ _ _ (preach_new U sc) D) as [Rp Cl].
    destruct (parser_reachable_inv U p' Rp) as (_ & K & _).
    destruct (K Cl) as [Hn Hst].
    destruct (drained_final U _ _ _ Dr) as [_ S2].
    split; [exact Cl|]. split; [exact Hn|]. split; [exact Hst|]. split; [exact S2|].
    intros m. apply PNext_closed; assumption.
Qed.

End WholeInputs.

(** ** Whole inputs, at concrete inputs *)

Section WholeInputExamples.
Import Scan Parse.

(** C3 as stated fails: in [@book{k)] the body is opened with a brace and
    closed with a parenthesis, and the scanner sends no error item. citeKey
    reads the parenthesis as part of the key, up to the end of the input:
    the items end with the end-of-input item and the parser ends in eof. *)
Lemma mismatched_closer_read_as_key :
  scan_ascii (runes "@book{k)")
  = Some {| upcoming := [item ItemEntryDelim "@"; item ItemEntry "book";
                         item ItemLeftDelim "{"];
            failing := false |} /\
  (exists l s',
      Next_iter ascii_tables 200 4 (NewScanner (source (runes "@book{k)")))
      = Some (l ++ [{| T := ItemEOF; Val := [] |}], s') /\
      Forall (fun i => T i <> ItemErr) l /\ Scan.cur_state s' = Scan.eof) /\
  pipeline ascii_tables (source (runes "@book{k)")) = Some ([], Parse.eof).
Proof.
  split; [vm_compute; reflexivity|].
  split.
  - exists [item ItemEntryDelim "@"; item ItemEntry "book"; item ItemLeftDelim "{"].
    eexists. split; [vm_compute; reflexivity|].
    split; [repeat constructor; discriminate | reflexivity].
  - vm_compute. reflexivity.
Qed.

(* An open body with text that the scanner rejects before the end of the
   input: the items end with the error item. *)
Lemma truncated_body_with_bad_key :
  scan_ascii (runes "@book{k k, a = 1")
  = Some {| upcoming := [item ItemEntryDelim "@"; item ItemEntry "book";
                         item ItemLeftDelim "{"];
            failing := true |} /\
  pipeline ascii_tables (source (runes "@book{k k, a = 1")) = Some ([], Parse.err).
Proof. split; vm_compute; reflexivity. Qed.

(* A type name that is not a NAME, end to end. *)
Lemma type_name_with_space_rejected :
  scan_ascii (runes "@bo ok{k, a = 1}")
  = Some {| upcoming := [item ItemEntryDelim "@"]; failing := true |} /\
  pipeline ascii_tables (source (runes "@bo ok{k, a = 1}")) = Some ([], Parse.err).
Proof. split; vm_compute; reflexivity. Qed.
End WholeInputExamples.

Section WholeInputWitnesses.
Import Scan Parse.

(* The scanner that [k] calls of Next lead to on an input. *)
Ltac reach_by r k :=
  let v := eval vm_compute in (Next_iter ascii_tables 200 k (NewScanner r)) in
  match v with
  | Some (?l, ?s) =>
      assert (R : reached ascii_tables r l s)
        by (apply (Next_iter_reached ascii_tables r 200 k [] (NewScanner r) l s
                                     (reached_new ascii_tables r));
            vm_compute; reflexivity)
  end.

Lemma mismatched_delimiters_yield_error_witness :
  (exists l s,
     reached ascii_tables (source (runes "@book{k, a = 1)")) l s /\
     Scan.cur_state s = entryRightBodyDelim /\ rest (reader s) = runes ")" /\
     delim s = 123 /\
     run_fuel ascii_tables (enough (source (runes "@book{k, a = 1)")))
              (NewScanner (source (runes "@book{k, a = 1)")))
     = Some {| upcoming := l; failing := true |} /\
     l = [item ItemEntryDelim "@"; item ItemEntry "book"; item ItemLeftDelim "{";
          item ItemCiteKey "k"; item ItemComma ","; item ItemFieldType "a";
          item ItemEqSgn "="; item ItemFieldText "1"] /\
     exists l1 ld l2 nodes chunks mid,
       l = l1 ++ ld :: l2 /\ ld = item ItemLeftDelim "{" /\
       pipeline ascii_tables (source (runes "@book{k, a = 1)")) = Some (nodes, Parse.err) /\
       l1 = List.concat chunks ++ mid /\ Forall2 (attached ascii_tables) chunks nodes) /\
  (run_fuel ascii_tables (enough (source (runes "@article(key , }")))
            (NewScanner (source (runes "@article(key , }")))
   = Some {| upcoming := [item ItemEntryDelim "@"; item ItemEntry "article";
                          item ItemLeftDelim "("; item ItemCiteKey "key";
                          item ItemComma ","];
             failing := true |} /\
   pipeline ascii_tables (source (runes "@article(key , }")) = Some ([], Parse.err)).
Proof.
  split.
  - reach_by (source (runes "@book{k, a = 1)")) 8%nat.
    match type of R with
    | reached _ ?r ?l ?s =>
        destruct (proj1 (mismatched_delimiters_yield_error ascii_tables) r l s [] 41 [] R
                        eq_refl eq_refl (Forall_nil _)
                        (or_introl (conj eq_refl eq_refl)))
          as (_ & Rn & l1 & ld & l2 & nodes & chunks & mid & El & Tl & Vl & _ & P & Em & F);
        exists l, s
    end.
    split; [exact R|]. split; [reflexivity|]. split; [reflexivity|]. split; [reflexivity|].
    split; [exact Rn|]. split; [reflexivity|].
    exists l1, ld, l2, nodes, chunks, mid.
    split; [exact El|]. split; [|auto].
    destruct ld as [t v]. simpl in Tl, Vl. subst t v. reflexivity.
  - apply (proj1 (proj2 (proj2 (mismatched_delimiters_yield_error ascii_tables)))
                 false (runes "article") (runes "key ") (runes " ") [] 40 125).
    + repeat constructor.
    + reflexivity.
    + reflexivity.
    + reflexivity.
    + repeat constructor; discriminate.
    + reflexivity.
    + repeat constructor.
    + right. split; reflexivity.
Defined.

Lemma end_of_input_in_body_is_eof_witness :
  exists l s,
    reached ascii_tables (source (runes "@book(b1, title = {T}")) l s /\
    Scan.cur_state s = entryFieldText /\ rest (reader s) = runes " {T}" /\
    bracers s = 1 /\ reads_on ascii_tables s = true /\
    l = [item ItemEntryDelim "@"; item ItemEntry "book"; item ItemLeftDelim "(";
         item ItemCiteKey "b1"; item ItemComma ","; item ItemFieldType "title";
         item ItemEqSgn "="] /\
    Scan.cur_state (Scan.step ascii_tables s) = Scan.eof /\
    run_fuel ascii_tables (enough (source (runes "@book(b1, title = {T}")))
             (NewScanner (source (runes "@book(b1, title = {T}")))
    = Some {| upcoming := l; failing := false |} /\
    exists l1 ld l2 nodes chunks mid,
      l = l1 ++ ld :: l2 /\ T ld = ItemLeftDelim /\
      pipeline ascii_tables (source (runes "@book(b1, title = {T}"))
      = Some (nodes, Parse.eof) /\
      l1 = List.concat chunks ++ mid /\ Forall2 (attached ascii_tables) chunks nodes.
Proof.
  reach_by (source (runes "@book(b1, title = {T}")) 7%nat.
  match type of R with
  | reached _ ?r ?l ?s =>
      destruct (proj1 (end_of_input_in_body_is_eof ascii_tables) r l s eq_refl R eq_refl)
        as (Es & _ & Rn & B);
      destruct (B eq_refl)
        as (l1 & ld & l2 & nodes & st & chunks & mid & El & Tl & _ & P & _ & Ho & Em & F);
      exists l, s
  end.
  split; [exact R|]. split; [reflexivity|]. split; [reflexivity|]. split; [reflexivity|].
  split; [reflexivity|]. split; [reflexivity|]. split; [exact Es|].
  split; [rewrite app_nil_r in Rn; exact Rn|].
  exists l1, ld, l2, nodes, chunks, mid.
  split; [exact El|]. split; [exact Tl|]. split; [|auto].
  rewrite Ho in P; [exact P|]. repeat constructor; discriminate.
Defined.

Lemma entry_has_key_and_NAME_type_witness :
  (exists d,
     pipeline_fuel ascii_tables 200 (source (runes "@book2{k, a = 1}"))
     = Some ([NEntry d], Parse.eof) /\
     CiteKey d <> [] /\ IsValidName ascii_tables (CiteKey d) = true /\
     exists nm, IsValidName ascii_tables nm = true /\ Name d = ToLower ascii_tables nm) /\
  (exists l s,
     reached ascii_tables (source (runes "@a{k, b = 1} @bo ok{k, a = 1}")) l s /\
     Scan.cur_state s = entryType /\ rest (reader s) = runes "bo ok{k, a = 1}" /\
     IsValidName ascii_tables (TrimSpace ascii_tables (runes "bo ok")) = false /\
     run_fuel ascii_tables (enough (source (runes "@a{k, b = 1} @bo ok{k, a = 1}")))
              (NewScanner (source (runes "@a{k, b = 1} @bo ok{k, a = 1}")))
     = Some {| upcoming := l; failing := true |} /\
     exists nodes chunks leftover,
       pipeline ascii_tables (source (runes "@a{k, b = 1} @bo ok{k, a = 1}"))
       = Some (nodes, Parse.err) /\
       l = List.concat chunks ++ leftover /\ Forall2 (attached ascii_tables) chunks nodes) /\
  (run_fuel ascii_tables (enough (source (runes "note @bo ok{k, a = 1}")))
            (NewScanner (source (runes "note @bo ok{k, a = 1}")))
   = Some {| upcoming := [item ItemComment "note"; item ItemEntryDelim "@"];
             failing := true |} /\
   pipeline ascii_tables (source (runes "note @bo ok{k, a = 1}")) = Some ([], Parse.err)).
Proof.
  split; [|split].
  - eexists. split; [vm_compute; reflexivity|].
    eapply (proj1 (entry_has_key_and_NAME_type ascii_tables)
                  (source (runes "@book2{k, a = 1}")) 200%nat).
    + vm_compute. reflexivity.
    + left. reflexivity.
  - reach_by (source (runes "@a{k, b = 1} @bo ok{k, a = 1}")) 10%nat.
    match type of R with
    | reached _ ?r ?l ?s =>
        destruct (proj1 (proj2 (entry_has_key_and_NAME_type ascii_tables)) r l s
                        (runes "bo ok") 123 (runes "k, a = 1}") R eq_refl eq_refl)
          as (_ & _ & Rn & X);
        [repeat constructor | reflexivity | reflexivity |];
        exists l, s
    end.
    split; [exact R|]. split; [reflexivity|]. split; [reflexivity|]. split; [reflexivity|].
    split; [exact Rn | exact X].
  - apply (proj2 (proj2 (entry_has_key_and_NAME_type ascii_tables))
                 false (runes "note ") (runes "bo ok") (runes "k, a = 1}") 123).
    + repeat constructor; discriminate.
    + repeat constructor.
    + reflexivity.
    + reflexivity.
Defined.

Lemma comments_attach_to_next_declaration_witness :
  exists d sc chunks leftover,
    pipeline_fuel ascii_tables 400
      (source (runes "% one" ++ [10] ++ runes "@book{k," ++ [10] ++ runes "% two"
               ++ [10] ++ runes "a = 1 % three" ++ [10] ++ runes "}"))
    = Some ([NEntry d], Parse.eof) /\
    Comments d = Some {| Values := [ {| CommentValue := runes "% one" |};
                                    {| CommentValue := runes "two" |};
                                    {| CommentValue := runes "three" |} ] |} /\
    run_fuel ascii_tables 400
      (NewScanner
         (source (runes "% one" ++ [10] ++ runes "@book{k," ++ [10] ++ runes "% two"
                  ++ [10] ++ runes "a = 1 % three" ++ [10] ++ runes "}")))
    = Some sc /\
    upcoming sc = List.concat chunks ++ leftover /\
    Forall2 (attached ascii_tables) chunks [NEntry d] /\ no_closer leftover.
Proof.
  eexists.
  destruct (proj1 (proj2 (comments_attach_to_next_declaration ascii_tables))
                  (source (runes "% one" ++ [10] ++ runes "@book{k," ++ [10] ++ runes "% two"
                           ++ [10] ++ runes "a = 1 % three" ++ [10] ++ runes "}"))
                  400%nat _ Parse.eof ltac:(vm_compute; reflexivity))
    as (sc & chunks & leftover & Rn & E & F & _ & Le & _).
  exists sc, chunks, leftover.
  split; [vm_compute; reflexivity|]. split; [reflexivity|].
  split; [exact Rn|]. split; [exact E|]. split; [exact F | exact (Le eq_refl)].
Defined.

Lemma parser_end_is_final_witness :
  exists nd p',
    drain_fuel ascii_tables 15
      (NewParser {| upcoming := [item ItemEntryDelim "@"; item ItemEntry "a";
                                 item ItemLeftDelim "{"; item ItemCiteKey "k";
                                 item ItemComma ","; item ItemFieldType "b";
                                 item ItemEqSgn "="; item ItemFieldText "1";
                                 item ItemRightDelim "}"];
                     failing := true |})
    = Some ([nd], p') /\
    closed p' = true /\ nodes p' = [] /\ Parse.cur_state p' = Parse.err /\
    forall m, Parse.Next_fuel ascii_tables m p' = Some (None, false, p').
Proof.
  destruct (parser_end_is_final ascii_tables
              {| upcoming := [item ItemEntryDelim "@"; item ItemEntry "a";
                              item ItemLeftDelim "{"; item ItemCiteKey "k";
                              item ItemComma ","; item ItemFieldType "b";
                              item ItemEqSgn "="; item ItemFieldText "1";
                              item ItemRightDelim "}"];
                 failing := true |})
    as (l & p' & D & _ & Cl & Hn & _ & He & Hm).
  assert (El : exists nd, l = [nd]).
  { vm_compute in D. injection D as <- _. eexists. reflexivity. }
  destruct El as (nd & ->).
  exists nd, p'. split; [exact D|]. split; [exact Cl|]. split; [exact Hn|].
  split; [|exact Hm].
  apply He; [reflexivity | repeat constructor; discriminate].
Defined.

Lemma nesting_depth_invariant_witness :
  exists l s s' q prev,
    reached ascii_tables (source (runes "@a{k, b = {x}}")) l s /\
    Scan.cur_state s = entryFieldText /\ bracers s = 1 /\
    depth_ok (Scan.cur_state s) (bracers s) /\ 0 <= bracers s /\
    fieldText_reads s (runes " {x") 0 0 = Some (s', q, prev) /\
    bracers s' = 2 /\ 1 <= bracers s'.
Proof.
  reach_by (source (runes "@a{k, b = {x}}")) 7%nat.
  match type of R with
  | reached _ ?r ?l ?s =>
      let v := eval vm_compute in (fieldText_reads s (runes " {x") 0 0) in
      match v with
      | Some (?s', ?q, ?prev) => exists l, s, s', q, prev
      end
  end.
  split; [exact R|]. split; [reflexivity|]. split; [reflexivity|].
  match type of R with
  | reached _ ?r ?l ?s =>
      pose proof (proj1 (nesting_depth_invariant ascii_tables) s
                        (reached_reachable ascii_tables r l s R)) as [D1 D2]
  end.
  split; [exact D1|]. split; [exact D2|].
  split; [vm_compute; reflexivity|]. split; [reflexivity|].
  match type of R with
  | reached _ _ _ ?s =>
      apply (proj2 (nesting_depth_invariant ascii_tables) (runes " {x") s 0 0 _ 0 120);
        [simpl; lia | vm_compute; reflexivity]
  end.
Defined.

Lemma parser_channel_invariant_witness :
  exists p4 nd p1 p2,
    p4 = Nat.iter 4 (Parse.step ascii_tables)
                  (NewParser {| upcoming := [item ItemEntryDelim "@"; item ItemEntry "a";
                                             item ItemLeftDelim "{"; item ItemCiteKey "k";
                                             item ItemComma ","; item ItemFieldType "b";
                                             item ItemEqSgn "="; item ItemFieldText "1";
                                             item ItemRightDelim "}"];
                                 failing := false |}) /\
    parser_reachable ascii_tables p4 /\ nodes p4 = [nd] /\
    (List.length (nodes p4) <= 1)%nat /\
    Parse.Next_fuel ascii_tables 8
      (NewParser {| upcoming := [item ItemEntryDelim "@"; item ItemEntry "a";
                                 item ItemLeftDelim "{"; item ItemCiteKey "k";
                                 item ItemComma ","; item ItemFieldType "b";
                                 item ItemEqSgn "="; item ItemFieldText "1";
                                 item ItemRightDelim "}"];
                     failing := false |})
    = Some (Some nd, true, p1) /\
    parser_reachable ascii_tables p1 /\ nodes p1 = [] /\
    Parse.Next_fuel ascii_tables 8 p1 = Some (None, false, p2) /\
    closed p2 = true /\ nodes p2 = [] /\
    (Parse.cur_state p2 = Parse.err \/ Parse.cur_state p2 = Parse.eof).
Proof.
  set (sc := {| upcoming := [item ItemEntryDelim "@"; item ItemEntry "a";
                             item ItemLeftDelim "{"; item ItemCiteKey "k";
                             item ItemComma ","; item ItemFieldType "b";
                             item ItemEqSgn "="; item ItemFieldText "1";
                             item ItemRightDelim "}"];
                failing := false |}).
  assert (R4 : parser_reachable ascii_tables
                 (Nat.iter 4 (Parse.step ascii_tables) (NewParser sc))).
  { simpl. repeat (apply preach_run; [| reflexivity | reflexivity]). apply preach_new. }
  destruct (proj1 (parser_channel_invariant ascii_tables) _ R4) as [L4 _].
  let v := eval vm_compute in (Parse.Next_fuel ascii_tables 8 (NewParser sc)) in
  match v with
  | Some (Some ?nd, true, ?p1) =>
      let w := eval vm_compute in (Parse.Next_fuel ascii_tables 8 p1) in
      match w with
      | Some (None, false, ?p2) =>
          assert (N1 : Parse.Next_fuel ascii_tables 8 (NewParser sc)
                       = Some (Some nd, true, p1)) by (vm_compute; reflexivity);
          assert (N2 : Parse.Next_fuel ascii_tables 8 p1 = Some (None, false, p2))
            by (vm_compute; reflexivity);
          exists (Nat.iter 4 (Parse.step ascii_tables) (NewParser sc)), nd, p1, p2
      end
  end.
  destruct (proj2 (parser_channel_invariant ascii_tables) _ _ _ _ _
                  (preach_new ascii_tables sc) N1) as [R1 E1].
  destruct (proj2 (parser_channel_invariant ascii_tables) _ _ _ _ _ R1 N2) as [R2 E2].
  destruct (proj1 (parser_channel_invariant ascii_tables) _ R2) as [_ C2].
  split; [reflexivity|]. split; [exact R4|]. split; [vm_compute; reflexivity|].
  split; [exact L4|]. split; [exact N1|]. split; [exact R1|]. split; [exact E1|].
  split; [exact N2|]. split; [reflexivity|]. exact (C2 eq_refl).
Defined.

End WholeInputWitnesses.
